(** * RiftSubsidence: theoretical subsidence curves of a stretched lithosphere

    A shallow embedding of [RiftSubsidence.py] and the verification of its
    specification.

    Numbers.  The program computes with Python floats.  They are modelled
    here by the real numbers [R]: every arithmetic operation is exact, and
    [math.exp], [math.log], [math.sqrt], [math.sin], [math.cos] are the
    real functions.  What Python adds to the arithmetic is kept: a division
    by zero raises [ZeroDivisionError], [math.log] of a non-positive number
    and [math.sqrt] of a negative one raise [ValueError], arithmetic on
    [None] raises [TypeError], an index past the end of a list raises
    [IndexError], reading a local variable that was never assigned raises
    [UnboundLocalError], a failed [assert] raises [AssertionError].
    Comparisons are decided on the exact values too: where the program
    compares an accumulated sum, as [BETA1 <= BETMAX] in the beta sweep, a
    rounding error of the sum can decide the other way, so what is proved
    about the number of passes is stated on the accumulated value itself.

    State.  The program keeps its state in module-level globals.  They are
    grouped here into records that are passed explicitly: [params] (the
    configuration, never written by [run]), [dless] (the dimensionless
    schedule), [consts], [forcing] and [store] (the output table [DATA], its
    row counter [K], the temperature buffers [TEM] and the carry-over scalars
    [TRINIT], [SINIT]).

    Loops.  The two [while(1)] loops whose exit depends on the data
    ([TIMSTR], the fixed point of [set_dless_constants]) and the beta sweep of
    [run] take a fuel argument; running out of fuel is the outcome
    [OutOfFuel], distinct from every Python exception. *)

From Stdlib Require Import Reals Lra Lia ZArith Psatz.
From stdpp Require Import base decidable option list.

Open Scope R_scope.

(** ** Outcomes of a computation *)

Inductive exn : Set :=
| AssertionError
| ValueError
| ZeroDivisionError
| TypeError
| IndexError
| UnboundLocalError.

Inductive result (A : Type) : Type :=
| Ok (a : A)
| Raise (e : exn)
| OutOfFuel.
Arguments Ok {A} a.
Arguments Raise {A} e.
Arguments OutOfFuel {A}.

#[global] Instance result_ret : MRet result := @Ok.
#[global] Instance result_bind : MBind result :=
  fun A B f m =>
    match m with
    | Ok a => f a
    | Raise e => Raise e
    | OutOfFuel => OutOfFuel
    end.

(** ** Decidable comparisons on the reals *)

#[global] Instance Req_Decision : EqDecision R := Req_dec_T.
#[global] Instance Rle_Decision (x y : R) : Decision (x <= y) := Rle_dec x y.
#[global] Instance Rlt_Decision (x y : R) : Decision (x < y) := Rlt_dec x y.
#[global] Instance Rge_Decision (x y : R) : Decision (x >= y) := Rge_dec x y.
#[global] Instance Rgt_Decision (x y : R) : Decision (x > y) := Rgt_dec x y.

(** ** Partial arithmetic *)

(** [x / y] with a divisor that is not a non-zero literal. *)
Definition py_div (x y : R) : result R :=
  if decide (y = 0) then Raise ZeroDivisionError else Ok (x / y).

(** [math.log] *)
Definition py_log (x : R) : result R :=
  if decide (x <= 0) then Raise ValueError else Ok (ln x).

(** [math.sqrt] *)
Definition py_sqrt (x : R) : result R :=
  if decide (x < 0) then Raise ValueError else Ok (sqrt x).

(** A float read from a cell that may hold [None]. *)
Definition py_float (c : option R) : result R :=
  match c with
  | Some x => Ok x
  | None => Raise TypeError
  end.

(** ** Arrays: lists of lists with cells that hold a float or [None] *)

Abbreviation array := (list (list (option R))).

(** [A[r][i]] *)
Definition aget (A : array) (r i : nat) : result (option R) :=
  match A !! r with
  | Some row =>
      match row !! i with
      | Some c => Ok c
      | None => Raise IndexError
      end
  | None => Raise IndexError
  end.

(** [A[r][i] = c] *)
Definition aset (A : array) (r i : nat) (c : option R) : result array :=
  match A !! r with
  | Some row =>
      if decide (i < length row)%nat
      then Ok (<[r := <[i := c]> row]> A)
      else Raise IndexError
  | None => Raise IndexError
  end.

(** A float read from [A[r][i]]. *)
Definition fget (A : array) (r i : nat) : result R :=
  c ← aget A r i; py_float c.

(** ** PARAMETER *)

Definition NDIM1 : nat := 4.
Definition NDIM2 : nat := 100 * 100.
Definition PI : R := 3.1415927.
Definition RHOM : R := 3.35.
Definition RHOC : R := 2.78.
Definition RHOW : R := 1.03.
Definition TASTH : R := 1333.0.
Definition DIFFUS : R := 0.804e-6.
Definition TEXPAN : R := 3.28e-5.
Definition TAUS : R := 43.28.
Definition IHFLW : Z := 1.
Definition CONDTY : R := 38.544.
Definition TCO : R := 7e3.
Definition DW : R := 2.5e3.

(** ** INITVR: the configuration *)

Record params : Type := {
  BETMIN : R; BETMAX : R; BETINC : R; BETA2 : R; BETA3 : R;
  ILOAD : Z; ICOMP : Z;
  TBEG1 : R; TEND1 : R; TBEG2 : R; TEND2 : R; TBEG3 : R; TEND3 : R;
  TSTOP : R;
  ITYPE1 : Z; ITYPE2 : Z; ITYPE3 : Z;
  IRIFT : Z;
  RHOS : R; PHI0 : R; CONST : R; CYCLES : R; FRAC : R;
  TC : R
}.

(** The values the module starts with. *)
Definition INITVR : params := {|
  BETMIN := 1.5; BETMAX := 2.0; BETINC := 0.5; BETA2 := 1.1; BETA3 := 1.1;
  ILOAD := 1; ICOMP := 0;
  TBEG1 := 160; TEND1 := 100; TBEG2 := 60; TEND2 := 50;
  TBEG3 := 20; TEND3 := 10;
  TSTOP := 0;
  ITYPE1 := 1; ITYPE2 := 1; ITYPE3 := 1;
  IRIFT := 1;
  RHOS := 2.6; PHI0 := 0.6; CONST := 2.0; CYCLES := 1.5; FRAC := 0.8;
  TC := 30000
|}.

(** ** The globals written by [run] *)

(** Nondimensionalised parameters. *)
Record dless : Type := {
  TIMSC : R;
  DTBEG1 : R; DTEND1 : R; DTBEG2 : R; DTEND2 : R; DTBEG3 : R; DTEND3 : R;
  DTSTOP : R; DTST : R; DTAUS : R
}.

(** Constants for subsidence calculations. *)
Record consts : Type := {
  RHOA : R; CONBET : R; CONTRM : R; CONB1 : R; CONB2 : R;
  GP2 : R; GP3 : R
}.

(** Forcing of the first rift period. *)
Record forcing : Type := { GP1 : R; AMPL : R; WAVEN : R }.

(** The output table, the temperature buffers and the carry-over scalars. *)
Record store : Type := {
  K : nat;
  DATA : array;
  TEM : array;
  TRINIT : R;
  SINIT : R
}.

Definition set_K (k : nat) (s : store) : store :=
  {| K := k; DATA := DATA s; TEM := TEM s; TRINIT := TRINIT s; SINIT := SINIT s |}.
Definition set_DATA (d : array) (s : store) : store :=
  {| K := K s; DATA := d; TEM := TEM s; TRINIT := TRINIT s; SINIT := SINIT s |}.
Definition set_TEM (t : array) (s : store) : store :=
  {| K := K s; DATA := DATA s; TEM := t; TRINIT := TRINIT s; SINIT := SINIT s |}.
Definition set_TRINIT (x : R) (s : store) : store :=
  {| K := K s; DATA := DATA s; TEM := TEM s; TRINIT := x; SINIT := SINIT s |}.
Definition set_SINIT (x : R) (s : store) : store :=
  {| K := K s; DATA := DATA s; TEM := TEM s; TRINIT := TRINIT s; SINIT := x |}.

(** The values the module starts with. *)
Definition dless0 : dless := {|
  TIMSC := 0; DTBEG1 := 0; DTEND1 := 0; DTBEG2 := 0; DTEND2 := 0;
  DTBEG3 := 0; DTEND3 := 0; DTSTOP := 0; DTST := 0; DTAUS := 0
|}.
Definition consts0 : consts := {|
  RHOA := 0; CONBET := 0; CONTRM := 0; CONB1 := 0; CONB2 := 0;
  GP2 := 0; GP3 := 0
|}.

(** [[ [ None for y in range(NDIM2) ] for x in range(NDIM1) ]] *)
Definition fresh_array : array := replicate NDIM1 (replicate NDIM2 None).

(** ** check_cfg *)

Definition check_cfg (p : params) : result unit :=
  _ ← (if decide (IRIFT p >= 1)%Z
       then if decide (TBEG1 p > TEND1 p) then Ok tt else Raise AssertionError
       else Ok tt);
  _ ← (if decide (IRIFT p >= 2)%Z
       then if decide (TBEG2 p > TEND2 p) then Ok tt else Raise AssertionError
       else Ok tt);
  if decide (IRIFT p >= 3)%Z
  then if decide (TBEG3 p > TEND3 p) then Ok tt else Raise AssertionError
  else Ok tt.

(** ** calculate_TL *)

Definition AINT : R := (RHOM * TEXPAN * TASTH) / 2.
Definition BINT (TC : R) : R :=
  (RHOW * DW + RHOC * TCO) - (DW + TCO) * RHOM * (1 - TEXPAN * TASTH)
  - TC * (RHOC - RHOM).
Definition CINT (TC : R) : R := ((TC ^ 2 * TASTH * TEXPAN) * (RHOM - RHOC)) / 2.

(** The lithospheric thickness before the test against [TC]: the larger root,
    or the smaller one when the larger is out of the band, negated. *)
Definition solve_TL (TC : R) : result R :=
  s ← py_sqrt (BINT TC ^ 2 - 4 * AINT * CINT TC);
  let TL := (- BINT TC + s) / (2 * AINT) in
  TL ← (if decide (TL <= 20e3 \/ TL >= 200e3)
        then s' ← py_sqrt (BINT TC ^ 2 - 4 * AINT * CINT TC);
             Ok ((- BINT TC - s') / (2 * AINT))
        else Ok TL);
  Ok (- TL).

(** Whether the line [ERROR: The TL is not supposed to be less than TC!] is
    printed. *)
Definition TL_error_reported (TC : R) : bool :=
  match solve_TL TC with
  | Ok TL => bool_decide (TL <= TC)
  | _ => false
  end.

(** The new value of the global [TL].  [TLM] is assigned only when
    [TL >= TC], and is read by the [print] that ends the function. *)
Definition calculate_TL (p : params) : result R :=
  TL ← solve_TL (TC p);
  TLM ← (if decide (TL >= TC p) then Ok (TL / 1000) else Raise UnboundLocalError);
  Ok TL.

(** ** nondimensionalise_parameters *)

(** The map applied to every dimensional time. *)
Definition dimensionless (TIMSC TBEG1 t : R) : R := (- t + TBEG1) / TIMSC.

Definition nondimensionalise_parameters (p : params) (TL : R) (d : dless)
  : result dless :=
  let TIMSC := TL ^ 2 / (DIFFUS * 3.15e13) in
  if decide (TIMSC = 0) then Raise ZeroDivisionError else
  let '(b1, e1) :=
    if decide (IRIFT p >= 1)%Z
    then (dimensionless TIMSC (TBEG1 p) (TBEG1 p),
          dimensionless TIMSC (TBEG1 p) (TEND1 p))
    else (DTBEG1 d, DTEND1 d) in
  let '(b2, e2) :=
    if decide (IRIFT p >= 2)%Z
    then (dimensionless TIMSC (TBEG1 p) (TBEG2 p),
          dimensionless TIMSC (TBEG1 p) (TEND2 p))
    else (DTBEG2 d, DTEND2 d) in
  let '(b3, e3) :=
    if decide (IRIFT p >= 3)%Z
    then (dimensionless TIMSC (TBEG1 p) (TBEG3 p),
          dimensionless TIMSC (TBEG1 p) (TEND3 p))
    else (DTBEG3 d, DTEND3 d) in
  Ok {| TIMSC := TIMSC;
        DTBEG1 := b1; DTEND1 := e1; DTBEG2 := b2; DTEND2 := e2;
        DTBEG3 := b3; DTEND3 := e3;
        DTSTOP := dimensionless TIMSC (TBEG1 p) (TSTOP p);
        DTST := 1 / TIMSC;
        DTAUS := TAUS / TIMSC |}.

(** ** setup_constants *)

(** [GP] of a later rift period, by strain-rate regime; the global keeps its
    value for a regime outside 1..3. *)
Definition later_GP (ITYPE : Z) (BETA DTBEG DTEND DTAUS old : R) : result R :=
  if decide (ITYPE = 1)%Z then
    l ← py_log BETA; py_div l (DTEND - DTBEG)
  else if decide (ITYPE = 2)%Z then
    l ← py_log BETA;
    q ← py_div (- (DTEND - DTBEG)) DTAUS;
    py_div l (1 - exp q)
  else if decide (ITYPE = 3)%Z then
    l ← py_log BETA;
    q ← py_div (DTEND - DTBEG) DTAUS;
    py_div l (exp q - 1)
  else Ok old.

Definition setup_constants (p : params) (TL : R) (d : dless) (c : consts)
  : result consts :=
  let RHOA := RHOM * (1.0 - (TEXPAN * TASTH)) in
  '(CONBET, CONTRM) ←
    (if decide (ICOMP p = 0)%Z then
       if decide (ILOAD p = 2)%Z then
         b ← py_div ((RHOM - RHOC) * TC p) (RHOA - RHOS p);
         t ← py_div (TEXPAN * RHOM * TL * TASTH) (RHOA - RHOS p);
         Ok (b, t)
       else if decide (ILOAD p = 1)%Z then
         Ok (((RHOM - RHOC) * TC p) / (RHOA - RHOW),
             (TEXPAN * RHOM * TL * TASTH) / (RHOA - RHOW))
       else if decide (ILOAD p = 0)%Z then
         Ok (((RHOM - RHOC) * TC p) / RHOA,
             (TEXPAN * RHOM * TL * TASTH) / RHOA)
       else Ok (CONBET c, CONTRM c)
     else
       Ok (((RHOM - RHOC) * TC p) / RHOA,
           (TEXPAN * RHOM * TL * TASTH) / RHOA));
  CONB1 ← py_div (RHOA - RHOW) (RHOA - RHOS p);
  CONB2 ← py_div (RHOS p - RHOW) (RHOA - RHOS p);
  '(GP2, GP3) ←
    (if decide (IRIFT p >= 2)%Z then
       g ← later_GP (ITYPE2 p) (BETA2 p) (DTBEG2 d) (DTEND2 d) (DTAUS d) (GP2 c);
       Ok (g, GP3 c)
     else if decide (IRIFT p >= 3)%Z then
       g ← later_GP (ITYPE3 p) (BETA3 p) (DTBEG3 d) (DTEND3 d) (DTAUS d) (GP3 c);
       Ok (GP2 c, g)
     else Ok (GP2 c, GP3 c));
  Ok {| RHOA := RHOA; CONBET := CONBET; CONTRM := CONTRM;
        CONB1 := CONB1; CONB2 := CONB2; GP2 := GP2; GP3 := GP3 |}.

(** ** set_dless_constants *)

(** The fixed point that closes the sinusoidal regime: one pass of the
    [while(1)] loop per unit of fuel. *)
Fixpoint sinusoid_loop (fuel : nat) (DTEND1 CYCLES CG AMPL GP1 WAVEN : R)
  : result (R * R) :=
  match fuel with
  | O => OutOfFuel
  | S fuel =>
      r ← py_div GP1 (PI * AMPL);
      WAVEL ← py_div DTEND1 (CYCLES + r);
      WAVEN ← py_div (2 * PI) WAVEL;
      ALOB ← py_div (2 * PI * DTEND1) WAVEL;
      BLOB ← py_div (AMPL * WAVEL) (2 * PI * DTEND1);
      CLOB ← py_div WAVEL (2 * PI * AMPL * DTEND1);
      q ← py_div (2 * GP1) AMPL;
      let GP2 := CG + BLOB * (cos (ALOB - q) - 1) + (GP1 ^ 2) * CLOB in
      let ERROR := Rabs (GP2 - GP1) in
      if decide (ERROR > 1e-6)
      then sinusoid_loop fuel DTEND1 CYCLES CG AMPL GP2 WAVEN
      else Ok (GP2, WAVEN)
  end.

Definition set_dless_constants (fuel : nat) (p : params) (d : dless)
  (BETA1 : R) (f : forcing) : result forcing :=
  if decide (ITYPE1 p = 1)%Z then
    l ← py_log BETA1; g ← py_div l (DTEND1 d);
    Ok {| GP1 := g; AMPL := AMPL f; WAVEN := WAVEN f |}
  else if decide (ITYPE1 p = 2)%Z then
    l ← py_log BETA1;
    q ← py_div (- DTEND1 d) (DTAUS d);
    g ← py_div l (1 - exp q);
    Ok {| GP1 := g; AMPL := AMPL f; WAVEN := WAVEN f |}
  else if decide (ITYPE1 p = 3)%Z then
    l ← py_log BETA1;
    q ← py_div (DTEND1 d) (DTAUS d);
    g ← py_div l (exp q - 1);
    Ok {| GP1 := g; AMPL := AMPL f; WAVEN := WAVEN f |}
  else if decide (ITYPE1 p = 4)%Z then
    l ← py_log BETA1; g ← py_div l (DTEND1 d);
    let CG := g in
    let AMPL := FRAC p * l / DTEND1 d in
    '(g, w) ← sinusoid_loop fuel (DTEND1 d) (CYCLES p) CG AMPL g (WAVEN f);
    Ok {| GP1 := g; AMPL := AMPL; WAVEN := w |}
  else Ok f.

(** ** SUBCAL *)

(** The local [WWW]: the time since the rift period began.  [KRR] is 0, 1
    or 2. *)
Definition WWW_of (KRR : nat) (T DTBEGX : R) : R :=
  if decide (KRR = 0)%nat then T else T - DTBEGX.

(** The local [BETAT]: the stretching factor reached after the time [WWW];
    unassigned ([None]) when [ITYPE] is outside 1..4.  The locals [P] and [R]
    (here [R']) start at 0 on every call. *)
Definition BETAT_of (AMPL WAVEN : R) (ITYPE : Z) (G DTEND DTAUS : R)
  (JSUBS : Z) (WWW : R) : result (option R) :=
  if decide (ITYPE = 1)%Z then
    Ok (Some (exp (G * WWW)))
  else if decide (ITYPE = 2)%Z then
    q ← py_div (- WWW) DTAUS; Ok (Some (exp (G * (1 - exp q))))
  else if decide (ITYPE = 3)%Z then
    q ← py_div WWW DTAUS; Ok (Some (exp (G * (exp q - 1))))
  else if decide (ITYPE = 4)%Z then
    c ← py_div G (AMPL * WAVEN);
    if decide (WWW <= c) then
      Ok (Some (exp (0.5 * WAVEN * AMPL * WWW ^ 2)))
    else if decide (WWW > c /\ WWW <= DTEND - c) then
      let P := if decide (JSUBS = 0)%Z then c else 0 in
      let Q := WWW - P in
      a ← py_div AMPL WAVEN;
      Ok (Some (exp ((0.5 * WAVEN * AMPL * P ^ 2) + (G * Q)
                     - (a * (cos (WAVEN * Q) - 1)))))
    else if decide (WWW > DTEND - c) then
      let P := 0 in
      let R' := if decide (JSUBS = 1)%Z then DTEND - c else 0 in
      let S := WWW - R' in
      a ← py_div AMPL WAVEN;
      g ← py_div (G * S) (WAVEN * AMPL);
      Ok (Some (exp ((0.5 * WAVEN * AMPL * P ^ 2) + (G * (R' - P))
                     - (a * (cos (WAVEN * (R' - P)) - 1))
                     + (WAVEN * AMPL * (g - (0.5 * S ^ 2))))))
    else Ok None
  else Ok None.

(** The trapezoidal rule: the body of [for I in range(2,JNP1+1)], for the
    indices [Is] in turn. *)
Fixpoint trapezoid (TEM : array) (row : nat) (DZ : R) (Is : list nat) (TRAP : R)
  : result R :=
  match Is with
  | [] => Ok TRAP
  | i :: Is =>
      a ← fget TEM row (i - 2);
      b ← fget TEM row (i - 1);
      let S := 0.5 * DZ in
      trapezoid TEM row DZ Is (S * (a + b) + TRAP)
  end.

(** [TRAP], the integral of the buffer [JGI] over the [JNP1] nodes. *)
Definition TRAP_of (TEM : array) (JGI : nat) (DZ : R) (JNP1 : nat) : result R :=
  trapezoid TEM (JGI - 1) DZ (seq 2 (JNP1 - 1)) 0.0.

Definition SUBCAL (AMPL WAVEN : R)
  (T : R) (IADV : Z) (CONBET CONTRM CONB1 CONB2 : R) (JNP1 : nat)
  (DTEND G : R) (K : nat) (JGI : nat) (DZ DTAUS : R) (ITYPE : Z) (KRR : nat)
  (IRIFT : Z) (DTBEGX BETA1 : R) (JSUBS : Z) (st : store) : result store :=
  if decide (IADV = 1)%Z then
    BETAT ← BETAT_of AMPL WAVEN ITYPE G DTEND DTAUS JSUBS (WWW_of KRR T DTBEGX);
    TRAP ← TRAP_of (TEM st) JGI DZ JNP1;
    let st := if decide (T = DTEND) then set_TRINIT TRAP st else st in
    SUBS ←
      match BETAT with
      | None => Raise UnboundLocalError
      | Some BETAT =>
          if decide (KRR = 0)%nat then
            i ← py_div 1 BETAT;
            Ok (CONBET * (1 - i) + CONTRM * (0.5 - TRAP))
          else
            i ← py_div 1 BETAT;
            j ← py_div 1 BETA1;
            Ok (CONBET * (2 - i - j) + CONTRM * (0.5 - TRAP))
      end;
    D ← aset (DATA st) 1 (K - 1) (Some (SUBS * 1e-3));
    let st := set_DATA D st in
    if decide (T = DTEND)
    then s ← fget (DATA st) 1 (K - 1); Ok (set_SINIT s st)
    else Ok st
  else
    TRAP ← TRAP_of (TEM st) JGI DZ JNP1;
    let SUBS := CONTRM * (TRINIT st - TRAP) in
    D ← aset (DATA st) 1 (K - 1) (Some (SUBS * 1e-3 + SINIT st));
    Ok (set_DATA D st).

(** ** TIMSTR *)

(** The locals of [TIMSTR] that change from one time step to the next. *)
Record locals : Type := {
  T : R;
  DT : R;
  JGI : nat;
  JGF : nat;
  JFLAG : Z;
  IADV : Z
}.

Definition set_DT (x : R) (l : locals) : locals :=
  {| T := T l; DT := x; JGI := JGI l; JGF := JGF l; JFLAG := JFLAG l; IADV := IADV l |}.
Definition set_JFLAG (x : Z) (l : locals) : locals :=
  {| T := T l; DT := DT l; JGI := JGI l; JGF := JGF l; JFLAG := x; IADV := IADV l |}.
Definition set_IADV (x : Z) (l : locals) : locals :=
  {| T := T l; DT := DT l; JGI := JGI l; JGF := JGF l; JFLAG := JFLAG l; IADV := x |}.

(** How one pass of the [while(1)] loop ends. *)
Inductive control : Type :=
| Continue (l : locals) (st : store)
| Break (st : store).

Definition JSUBS : Z := 0.
Definition DZ : R := 0.05.
Definition JN : nat := 20.
Definition JNP1 : nat := JN + 1.

(** CONDUCTIVE STABILITY LIMIT ON DT *)
Definition DTC : R := DZ ^ 2 / 2.

Section TIMSTR.

(** The globals [AMPL] and [WAVEN], then the arguments of [TIMSTR]. *)
Variables (AMPL WAVEN : R).
Variables (G DTEND DTSTOP DTAUS CONBET CONTRM DTBEGX DTBEGY DTST : R).
Variables (ITYPE IHFLW : Z) (KRR : nat) (IRIFT : Z).
Variables (BETA1 CONB1 CONB2 : R).

(** ADVECTIVE STABILITY LIMIT ON DT *)
Definition GMAX : R := AMPL + G.

(** [DTI], the step every pass of the loop restores. *)
Definition DTI_of : result R :=
  DTCFL ← py_div DZ GMAX;
  let DT := Rmin DTC DTCFL in
  Ok (Rmin DT DTST).

(** The strain rate written in the first row: [None] leaves the cell as it
    is. *)
Definition strain_rate_first (T : R) : result (option R) :=
  if decide (ITYPE = 1)%Z then Ok (Some G)
  else if decide (ITYPE = 2)%Z then
    q ← py_div (- T) DTAUS; r ← py_div (G * exp q) DTAUS; Ok (Some r)
  else if decide (ITYPE = 3)%Z then
    q ← py_div T DTAUS; r ← py_div (G * exp q) DTAUS; Ok (Some r)
  else if decide (ITYPE = 4)%Z then
    c ← py_div G (AMPL * WAVEN);
    if decide (T < c) then Ok (Some (T * AMPL * WAVEN))
    else if decide (T >= c /\ T < DTEND - c) then
      Ok (Some (AMPL * sin (WAVEN * (T - c)) + G))
    else if decide (T >= DTEND - c) then
      Ok (Some ((DTEND - T) * WAVEN * AMPL))
    else Ok None
  else Ok None.

(** The strain rate written in a recorded row while advection is on. *)
Definition strain_rate (T : R) : result (option R) :=
  if decide (ITYPE = 1)%Z then Ok (Some G)
  else if decide (ITYPE = 2)%Z then
    q ← py_div (- T) DTAUS; r ← py_div (G * exp q) DTAUS; Ok (Some r)
  else if decide (ITYPE = 3)%Z then
    q ← py_div T DTAUS; r ← py_div (G * exp q) DTAUS; Ok (Some r)
  else if decide (ITYPE = 4)%Z then
    c ← py_div G (AMPL * WAVEN);
    if decide (T <= c) then Ok (Some (T * AMPL * WAVEN))
    else if decide (T > c /\ T <= DTEND - c) then
      Ok (Some (AMPL * sin (WAVEN * (T - c)) + G))
    else if decide (T > DTEND - c) then
      Ok (Some ((DTEND - T) * WAVEN * AMPL))
    else Ok None
  else Ok None.

(** The local [GVECT] of the sinusoidal regime; unassigned when no branch
    is taken. *)
Definition GVECT_of (T : R) : result (option R) :=
  c ← py_div G (AMPL * WAVEN);
  if decide (KRR = 0)%nat then
    if decide (T <= c) then Ok (Some (T * AMPL * WAVEN))
    else if decide (T > c /\ T <= DTEND - c) then
      Ok (Some (AMPL * sin (WAVEN * (T - c)) + G))
    else if decide (T > DTEND - c) then
      Ok (Some ((DTEND - T) * WAVEN * AMPL))
    else Ok None
  else
    if decide (T <= c) then Ok (Some ((T - DTBEGX) * AMPL * WAVEN))
    else if decide (T > c /\ T <= DTEND - c) then
      Ok (Some (AMPL * sin (WAVEN * (T - DTBEGX - c)) + G))
    else if decide (T > DTEND - c) then
      Ok (Some ((DTEND - (T - DTBEGX)) * WAVEN * AMPL))
    else Ok None.

(** [ADV] at the node [J]. *)
Definition advection (l : locals) (TEM : array) (J : nat) : result R :=
  let depth := 1 - INR (J - 1) * DZ in
  if decide (IADV l = 1 /\ ITYPE = 1)%Z then
    a ← fget TEM (JGI l - 1) J;
    c ← fget TEM (JGI l - 1) (J - 2);
    Ok ((G * depth * (a - c)) / (2 * DZ))
  else if decide (IADV l = 1 /\ ITYPE = 2)%Z then
    if decide (KRR = 0)%nat then
      q ← py_div (- T l) DTAUS;
      r ← py_div (G * exp q) DTAUS;
      a ← fget TEM (JGI l - 1) J;
      c ← fget TEM (JGI l - 1) (J - 2);
      Ok ((r * depth * (a - c)) / (2 * DZ))
    else
      q ← py_div (- (T l - DTBEGX)) DTAUS;
      r ← py_div (G * exp q) DTAUS;
      a ← fget TEM (JGI l) J;
      c ← fget TEM (JGI l) (J - 2);
      Ok ((r * depth * (a - c)) / (2 * DZ))
  else if decide (IADV l = 1 /\ ITYPE = 3)%Z then
    q ← py_div (if decide (KRR = 0)%nat then T l else T l - DTBEGX) DTAUS;
    r ← py_div (G * exp q) DTAUS;
    a ← fget TEM (JGI l - 1) J;
    c ← fget TEM (JGI l - 1) (J - 2);
    Ok ((r * depth * (a - c)) / (2 * DZ))
  else if decide (IADV l = 1 /\ ITYPE = 4)%Z then
    g ← GVECT_of (T l);
    match g with
    | Some GVECT =>
        a ← fget TEM (JGI l - 1) J;
        c ← fget TEM (JGI l - 1) (J - 2);
        Ok ((GVECT * depth * (a - c)) / (2 * DZ))
    | None => Raise UnboundLocalError
    end
  else Ok 0.

(** The body of [for J in range(2, JN+1)]: the node [J-1] of the buffer
    [JGF] is written from the buffer [JGI]. *)
Definition node_update (l : locals) (TEM : array) (J : nat) : result array :=
  a ← fget TEM (JGI l - 1) J;
  b ← fget TEM (JGI l - 1) (J - 1);
  c ← fget TEM (JGI l - 1) (J - 2);
  let DELSQ := (a - 2 * b + c) / DZ ^ 2 in
  ADV ← advection l TEM J;
  aset TEM (JGF l - 1) (J - 1) (Some (b + DT l * (DELSQ - ADV))).

Fixpoint for_nodes (l : locals) (TEM : array) (Js : list nat) : result array :=
  match Js with
  | [] => Ok TEM
  | J :: Js => TEM ← node_update l TEM J; for_nodes l TEM Js
  end.

Definition DTHALT : R :=
  let h := DTSTOP in
  let h := if decide (KRR = 0%nat /\ IRIFT = 2%Z) then DTBEGX else h in
  let h := if decide (KRR = 0%nat /\ IRIFT = 3%Z) then DTBEGX else h in
  if decide (KRR = 1%nat /\ IRIFT = 3%Z) then DTBEGY else h.

(** A new row: time, subsidence, heat flux and strain rate. *)
Definition record_row (l : locals) (st : store) : result store :=
  let st := set_K (K st + 1) st in
  D ← aset (DATA st) 0 (K st - 1) (Some (T l));
  let st := set_DATA D st in
  st ← SUBCAL AMPL WAVEN (T l) (IADV l) CONBET CONTRM CONB1 CONB2 JNP1 DTEND G
         (K st) (JGI l) DZ DTAUS ITYPE KRR IRIFT DTBEGX BETA1 JSUBS st;
  if decide (IHFLW = 1)%Z then
    x ← fget (TEM st) (JGI l - 1) (JN - 1);
    D ← aset (DATA st) 2 (K st - 1) (Some (x / DZ));
    let st := set_DATA D st in
    if decide (IADV l = 0)%Z then
      D ← aset (DATA st) 3 (K st - 1) (Some 0);
      Ok (set_DATA D st)
    else if decide (IADV l = 1)%Z then
      r ← strain_rate (T l);
      match r with
      | Some r => D ← aset (DATA st) 3 (K st - 1) (Some r); Ok (set_DATA D st)
      | None => Ok st
      end
    else Ok st
  else Ok st.

(** The time step: the new temperatures, the new time, [DT] restored, the
    buffers swapped. *)
Definition advance (DTI : R) (l : locals) (st : store) : result (locals * store) :=
  TEM' ← for_nodes l (TEM st) (seq 2 (JN - 1));
  let '(JGI', JGF') :=
    if decide (JGI l = 1)%nat then (2%nat, 1%nat)
    else if decide (JGI l = 2)%nat then (1%nat, 2%nat)
    else (JGI l, JGF l) in
  Ok ({| T := T l + DT l; DT := DTI; JGI := JGI'; JGF := JGF';
         JFLAG := JFLAG l; IADV := IADV l |},
      set_TEM TEM' st).

(** What the end of a pass decides about the next step. *)
Definition next_step (l : locals) (st : store) : result control :=
  if decide (T l + DT l <= DTEND) then Ok (Continue l st)
  else if decide (T l + DT l > DTEND /\ JFLAG l = 0%Z) then
    Ok (Continue (set_DT (DTEND - T l) (set_JFLAG 1 l)) st)
  else if decide (T l + DT l < DTHALT /\ JFLAG l = 1%Z) then
    Ok (Continue (set_IADV 0 l) st)
  else if decide (T l + DT l >= DTHALT /\ JFLAG l <> 2%Z) then
    let l := set_DT (DTHALT - T l) (set_JFLAG 2 l) in
    if decide (DT l <> 0) then Ok (Continue l st) else Ok (Break st)
  else if decide (JFLAG l = 2%Z) then
    STOT ← (if decide (IRIFT > 1)%Z then aget (DATA st) 1 (K st - 1)
            else Ok (Some 0));
    Ok (Break st)
  else Ok (Break st).

(** One pass of the [while(1)] loop. *)
Definition loop_body (DTI : R) (l : locals) (st : store) : result control :=
  '(l, st) ← advance DTI l st;
  t0 ← fget (DATA st) 0 (K st - 1);
  st ← (if decide (T l >= t0 + DTST \/ T l = DTHALT \/ T l = DTEND)
        then record_row l st else Ok st);
  next_step l st.

Fixpoint TIMSTR_loop (fuel : nat) (DTI : R) (l : locals) (st : store)
  : result store :=
  match fuel with
  | O => OutOfFuel
  | S fuel =>
      c ← loop_body DTI l st;
      match c with
      | Continue l st => TIMSTR_loop fuel DTI l st
      | Break st => Ok st
      end
  end.

(** INITIALISE TEMPERATURE TO CONDUCTIVE PROFILE *)
Fixpoint init_TEM (JGI JGF : nat) (TEM : array) (Js : list nat) : result array :=
  match Js with
  | [] => Ok TEM
  | J :: Js =>
      TEM ← aset TEM (JGI - 1) (J - 1) (Some (1 - DZ * INR (J - 1)));
      TEM ← aset TEM (JGF - 1) (J - 1) (Some (1 - DZ * INR (J - 1)));
      init_TEM JGI JGF TEM Js
  end.

(** The first row of a first rift period. *)
Definition first_row (T : R) (st : store) : result store :=
  st ← (if decide (KRR = 0)%nat then
          D ← aset (DATA st) 0 (K st - 1) (Some T);
          D ← aset D 1 (K st - 1) (Some 0.0);
          Ok (set_DATA D st)
        else Ok st);
  if decide (IHFLW = 1)%Z then
    if decide (KRR = 0)%nat then
      D ← aset (DATA st) 2 (K st - 1) (Some 1);
      let st := set_DATA D st in
      r ← strain_rate_first T;
      match r with
      | Some r => D ← aset (DATA st) 3 (K st - 1) (Some r); Ok (set_DATA D st)
      | None => Ok st
      end
    else Ok st
  else Ok st.

Definition TIMSTR (fuel : nat) (st : store) : result store :=
  DTI ← DTI_of;
  let T := if decide (KRR = 0)%nat then 0 else DTBEGX in
  let l := {| T := T; DT := DTI; JGI := 1; JGF := 2; JFLAG := 0; IADV := 1 |} in
  st ← first_row T st;
  st ← (if decide (KRR = 0)%nat then
          TEM' ← init_TEM (JGI l) (JGF l) (TEM st) (seq 1 JNP1);
          Ok (set_TEM TEM' st)
        else Ok st);
  TIMSTR_loop fuel DTI l st.

End TIMSTR.

(** ** COMPAC *)

(** [F[i]] and [F[i] = c] on the scratch list [F]. *)
Definition lget (F : list (option R)) (i : nat) : result (option R) :=
  match F !! i with
  | Some c => Ok c
  | None => Raise IndexError
  end.

Definition lset (F : list (option R)) (i : nat) (c : option R)
  : result (list (option R)) :=
  if decide (i < length F)%nat then Ok (<[i := c]> F) else Raise IndexError.

(** The Newton-Raphson [while(1)] loop for one row holding the subsidence [S]:
    the final [J] and [F]. *)
Fixpoint newton_loop (fuel : nat) (RHOA DLOB ELOB FLOB CONST S : R)
  (J : nat) (F : list (option R)) : result (nat * list (option R)) :=
  match fuel with
  | O => OutOfFuel
  | Datatypes.S fuel =>
      c ← lget F (J - 1);
      x ← py_float c;
      q ← py_div (- x) CONST;
      let X1 := x * DLOB - S * RHOA + ELOB * (1 - exp q) in
      let X2 := DLOB + FLOB * exp q in
      d ← py_div X1 X2;
      F ← lset F J (Some (x - d));
      let ERROR := Rabs ((x - d) - x) in
      if decide (ERROR > 1e-5) then
        let J := (J + 1)%nat in
        if decide (30 <= J)%nat then Ok (J, F)
        else newton_loop fuel RHOA DLOB ELOB FLOB CONST S J F
      else Ok (J, F)
  end.

(** The body of [for I in range(1, NPTS+1)]. *)
Definition compact_row (RHOA RHOS PHI0 CONST : R) (ALOB DLOB ELOB FLOB : R)
  (i : nat) (DF : array * list (option R))
  : result (array * list (option R)) :=
  let '(DATA, F) := DF in
  t ← aget DATA 0 (i - 1);
  match t with
  | None => Ok (DATA, F)
  | Some _ =>
      S ← fget DATA 1 (i - 1);
      F ← lset F 0 (Some (S * ALOB));
      '(J, F) ← newton_loop 30 RHOA DLOB ELOB FLOB CONST S 1 F;
      c ← lget F J;
      D ← aset DATA 1 (i - 1) c;
      Ok (D, F)
  end.

Fixpoint compact_rows (RHOA RHOS PHI0 CONST : R) (ALOB DLOB ELOB FLOB : R)
  (Is : list nat) (DF : array * list (option R))
  : result (array * list (option R)) :=
  match Is with
  | [] => Ok DF
  | i :: Is =>
      DF ← compact_row RHOA RHOS PHI0 CONST ALOB DLOB ELOB FLOB i DF;
      compact_rows RHOA RHOS PHI0 CONST ALOB DLOB ELOB FLOB Is DF
  end.

Definition COMPAC (RHOA RHOS PHI0 CONST : R) (NPTS : nat) (DATA : array)
  : result array :=
  let F := replicate 30 None in
  ALOB ← py_div RHOA (RHOA - RHOS);
  let DLOB := RHOA - RHOS in
  let ELOB := PHI0 * CONST * (RHOS - RHOW) in
  let FLOB := PHI0 * (RHOS - RHOW) in
  DF ← compact_rows RHOA RHOS PHI0 CONST ALOB DLOB ELOB FLOB (seq 1 NPTS) (DATA, F);
  Ok (fst DF).

(** ** run *)

(** The store as [run] resets it. *)
Definition initial_store : store :=
  {| K := 1; DATA := fresh_array; TEM := fresh_array; TRINIT := 0; SINIT := 0 |}.

(** All the globals [run] reads or writes, the configuration apart. *)
Record globals : Type := {
  TL : R;
  g_dless : dless;
  g_consts : consts;
  g_forcing : forcing;
  g_store : store
}.

(** The module as it is after import. *)
Definition globals0 : globals := {|
  TL := 125000;
  g_dless := dless0;
  g_consts := consts0;
  g_forcing := {| GP1 := 0; AMPL := 1; WAVEN := 1 |};
  g_store := initial_store
|}.

(** The body of the beta sweep: the rift periods of one [BETA1], in turn. *)
Definition sweep_body (fuel : nat) (p : params) (d : dless) (c : consts)
  (BETA1 : R) (f : forcing) (st : store) : result (forcing * store) :=
  let BETA12 := if decide (IRIFT p = 3)%Z then Some (BETA1 * BETA2 p) else None in
  f ← set_dless_constants fuel p d BETA1 f;
  st ← TIMSTR (AMPL f) (WAVEN f)
         (GP1 f) (DTEND1 d) (DTSTOP d) (DTAUS d) (CONBET c) (CONTRM c)
         (DTBEG2 d) (DTBEG3 d) (DTST d) (ITYPE1 p) IHFLW 0 (IRIFT p)
         BETA1 (CONB1 c) (CONB2 c) fuel st;
  st ← (if decide (IRIFT p >= 2)%Z then
          TIMSTR (AMPL f) (WAVEN f)
            (GP2 c) (DTEND2 d) (DTSTOP d) (DTAUS d) (CONBET c) (CONTRM c)
            (DTBEG2 d) (DTBEG3 d) (DTST d) (ITYPE2 p) IHFLW 1 (IRIFT p)
            BETA1 (CONB1 c) (CONB2 c) fuel st
        else Ok st);
  st ← (if decide (IRIFT p >= 3)%Z then
          match BETA12 with
          | Some BETA12 =>
              TIMSTR (AMPL f) (WAVEN f)
                (GP3 c) (DTEND3 d) (DTSTOP d) (DTAUS d) (CONBET c) (CONTRM c)
                (DTBEG3 d) (DTBEG3 d) (DTST d) (ITYPE3 p) IHFLW 2 (IRIFT p)
                BETA12 (CONB1 c) (CONB2 c) fuel st
          | None => Raise UnboundLocalError
          end
        else Ok st);
  Ok (f, st).

(** The sentinel between two beta groups: one row left at [None]. *)
Definition sentinel (st : store) : result store :=
  let st := set_K (K st + 1) st in
  D ← aset (DATA st) 0 (K st - 1) None;
  D ← aset D 1 (K st - 1) None;
  Ok (set_K (K st + 1) (set_DATA D st)).

(** The beta sweep: [n] bounds the number of passes, [fuel] the loops inside
    each pass.  [BETA1 = BETA1 + BETINC] is accumulated from pass to pass and
    the accumulated value is compared with [BETMAX]. *)
Fixpoint sweep (n fuel : nat) (p : params) (d : dless) (c : consts)
  (BETA1 : R) (f : forcing) (st : store) : result (forcing * store) :=
  match n with
  | O => OutOfFuel
  | S n =>
      '(f, st) ← sweep_body fuel p d c BETA1 f st;
      let BETA1 := BETA1 + BETINC p in
      if decide (BETA1 <= BETMAX p) then
        st ← sentinel st;
        sweep n fuel p d c BETA1 f st
      else Ok (f, st)
  end.

(** The conversion of a dimensionless time back to a calendar time. *)
Definition dimensional (TIMSC TBEG1 DT : R) : R := - DT * TIMSC + TBEG1.

(** Dimensionalise time and Heat Flux: the body of [for I in range(1, K+1)],
    for the indices [Is] in turn. *)
Fixpoint dimensionalise (TIMSC TBEG1 : R) (DATA : array) (Is : list nat)
  : result array :=
  match Is with
  | [] => Ok DATA
  | i :: Is =>
      t ← aget DATA 0 (i - 1);
      match t with
      | None => dimensionalise TIMSC TBEG1 DATA Is
      | Some t =>
          D ← aset DATA 0 (i - 1) (Some (dimensional TIMSC TBEG1 t));
          D ← (if decide (IHFLW = 1)%Z then
                 h ← fget D 2 (i - 1);
                 D ← aset D 2 (i - 1) (Some (h * CONDTY));
                 s ← fget D 3 (i - 1);
                 q ← py_div s TIMSC;
                 aset D 3 (i - 1) (Some q)
               else Ok D);
          dimensionalise TIMSC TBEG1 D Is
      end
  end.

(** [run] from the call of [calculate_TL] to the end of the beta sweep: the
    table holds dimensionless times. *)
Definition solve (fuel : nat) (p : params) (g : globals) : result globals :=
  let f := {| GP1 := GP1 (g_forcing g); AMPL := 1; WAVEN := 1 |} in
  let st := initial_store in
  TL ← calculate_TL p;
  d ← nondimensionalise_parameters p TL (g_dless g);
  c ← setup_constants p TL d (g_consts g);
  '(f, st) ← sweep fuel fuel p d c (BETMIN p) f st;
  Ok {| TL := TL; g_dless := d; g_consts := c; g_forcing := f; g_store := st |}.

(** [run] from the pass that dimensionalises time and heat flux to the call
    of [WRITE]. *)
Definition finalise (p : params) (g : globals) : result globals :=
  let st := g_store g in
  D ← dimensionalise (TIMSC (g_dless g)) (TBEG1 p) (DATA st) (seq 1 (K st));
  D ← (if decide (ICOMP p = 1)%Z
       then COMPAC (RHOA (g_consts g)) (RHOS p) (PHI0 p) (CONST p) (K st) D
       else Ok D);
  Ok {| TL := TL g; g_dless := g_dless g; g_consts := g_consts g;
        g_forcing := g_forcing g; g_store := set_DATA D st |}.

(** [run], up to the call of [WRITE]. *)
Definition run (fuel : nat) (p : params) (g : globals) : result globals :=
  _ ← check_cfg p;
  g ← solve fuel p g;
  finalise p g.

(** The rows [1..K] of the table, column by column. *)
Definition column (c : nat) (st : store) : list (option R) :=
  match DATA st !! c with
  | Some col => take (K st) col
  | None => []
  end.

(** ** Notions used by the specification *)

(** Some active rift period does not begin before it ends. *)
Definition violated (p : params) : Prop :=
  ((IRIFT p >= 1)%Z /\ TBEG1 p <= TEND1 p) \/
  ((IRIFT p >= 2)%Z /\ TBEG2 p <= TEND2 p) \/
  ((IRIFT p >= 3)%Z /\ TBEG3 p <= TEND3 p).

(** Every active rift period begins before it ends. *)
Definition ordered (p : params) : Prop :=
  ((IRIFT p >= 1)%Z -> TBEG1 p > TEND1 p) /\
  ((IRIFT p >= 2)%Z -> TBEG2 p > TEND2 p) /\
  ((IRIFT p >= 3)%Z -> TBEG3 p > TEND3 p).

(** A configuration whose first rift period ends before it begins. *)
Definition late_rift : params := {|
  BETMIN := 1.5; BETMAX := 2.0; BETINC := 0.5; BETA2 := 1.1; BETA3 := 1.1;
  ILOAD := 1; ICOMP := 0;
  TBEG1 := 100; TEND1 := 160; TBEG2 := 60; TEND2 := 50;
  TBEG3 := 20; TEND3 := 10;
  TSTOP := 0;
  ITYPE1 := 1; ITYPE2 := 1; ITYPE3 := 1;
  IRIFT := 1;
  RHOS := 2.6; PHI0 := 0.6; CONST := 2.0; CYCLES := 1.5; FRAC := 0.8;
  TC := 30000
|}.

(** The initial configuration with a crust as thin as the oceanic one. *)
Definition thin_crust : params := {|
  BETMIN := 1.5; BETMAX := 2.0; BETINC := 0.5; BETA2 := 1.1; BETA3 := 1.1;
  ILOAD := 1; ICOMP := 0;
  TBEG1 := 160; TEND1 := 100; TBEG2 := 60; TEND2 := 50;
  TBEG3 := 20; TEND3 := 10;
  TSTOP := 0;
  ITYPE1 := 1; ITYPE2 := 1; ITYPE3 := 1;
  IRIFT := 1;
  RHOS := 2.6; PHI0 := 0.6; CONST := 2.0; CYCLES := 1.5; FRAC := 0.8;
  TC := 7000
|}.

(** The initial configuration with three rift periods. *)
Definition three_rifts : params := {|
  BETMIN := 1.5; BETMAX := 2.0; BETINC := 0.5; BETA2 := 1.1; BETA3 := 1.1;
  ILOAD := 1; ICOMP := 0;
  TBEG1 := 160; TEND1 := 100; TBEG2 := 60; TEND2 := 50;
  TBEG3 := 20; TEND3 := 10;
  TSTOP := 0;
  ITYPE1 := 1; ITYPE2 := 1; ITYPE3 := 1;
  IRIFT := 3;
  RHOS := 2.6; PHI0 := 0.6; CONST := 2.0; CYCLES := 1.5; FRAC := 0.8;
  TC := 30000
|}.



(** The shape of [DATA]: every cell [A[r][i]] with [r < NDIM1] and [i < n]
    exists. *)
Definition cells (n : nat) (A : array) : Prop :=
  forall r i, (r < NDIM1)%nat -> (i < n)%nat -> exists c, aget A r i = Ok c.

(** The first [n] cells of [A[r]] hold floats. *)
Definition floats (A : array) (r n : nat) : Prop :=
  forall j, (j < n)%nat -> exists x, fget A r j = Ok x.

(** The first cells of [A[r]] hold the floats [ts]. *)
Definition holds (A : array) (r : nat) (ts : list R) : Prop :=
  forall j x, ts !! j = Some x -> fget A r j = Ok x.

(** The trapezoidal rule over equally spaced samples [ts]. *)
Fixpoint trapezoidal_rule (DZ : R) (ts : list R) : R :=
  match ts with
  | a :: (b :: _) as tl => 0.5 * DZ * (a + b) + trapezoidal_rule DZ tl
  | _ => 0
  end.

(** The subsidence in metres while the lithosphere is stretched, by the
    number [KRR] of the rift period. *)
Definition stretching_subsidence (CONBET CONTRM : R) (KRR : nat)
  (BETAT BETA1 TRAP : R) : R :=
  if decide (KRR = 0)%nat
  then CONBET * (1 - 1 / BETAT) + CONTRM * (0.5 - TRAP)
  else CONBET * (2 - 1 / BETAT - 1 / BETA1) + CONTRM * (0.5 - TRAP).

(** The store a pass of the loop of [TIMSTR] leaves. *)
Definition store_of (c : control) : store :=
  match c with
  | Continue _ st => st
  | Break st => st
  end.

Definition nondecreasing (ts : list R) : Prop :=
  forall i j x y, (i <= j)%nat -> ts !! i = Some x -> ts !! j = Some y -> x <= y.

(** ** Invariants of the loop of [TIMSTR] *)

(** The two buffers alternate. *)
Definition ping_pong (l : locals) : Prop :=
  (JGI l = 1%nat /\ JGF l = 2%nat) \/ (JGI l = 2%nat /\ JGF l = 1%nat).

(** The control state at the head of a pass: while [JFLAG] is 0 the coming
    step does not cross the end of the stretching, once it is 1 the coming
    step ends between the end of the stretching and the halt time, and once
    it is 2 the coming step ends at the halt time. *)
Definition ctl_inv (DTEND DTHALT : R) (l : locals) : Prop :=
  0 <= DT l /\ ping_pong l /\
  ((JFLAG l = 0%Z /\ IADV l = 1%Z /\ T l + DT l <= DTEND) \/
   (JFLAG l = 1%Z /\ (IADV l = 0%Z \/ IADV l = 1%Z) /\
    DTEND <= T l + DT l <= DTHALT) \/
   (JFLAG l = 2%Z /\ (IADV l = 0%Z \/ IADV l = 1%Z) /\
    T l + DT l = DTHALT)).

(** What bounds the number of passes still to come. *)
Definition potential (DTHALT DTI : R) (l : locals) : R :=
  (DTHALT - (T l + DT l)) + (2 - IZR (JFLAG l)) * DTI.

(** The rows [k0 <= i < k] of the table hold a float in every column. *)
Definition complete (D : array) (k0 k : nat) : Prop :=
  forall i r, (k0 <= i < k)%nat -> (r < NDIM1)%nat -> exists x, fget D r i = Ok x.

(** The times of the rows [k0 <= i < k] do not decrease. *)
Definition sorted_times (D : array) (k0 k : nat) : Prop :=
  forall i j ti tj, (k0 <= i <= j)%nat -> (j < k)%nat ->
    fget D 0 i = Ok ti -> fget D 0 j = Ok tj -> ti <= tj.

(** The times of the rows [k0 <= i < k] are at most [tmax]. *)
Definition times_below (D : array) (k0 k : nat) (tmax : R) : Prop :=
  forall i t, (k0 <= i < k)%nat -> fget D 0 i = Ok t -> t <= tmax.

(** The store at the head of a pass of a solver run whose first row is the
    row [k0], at the time [tmax]. *)
Definition store_inv (k0 : nat) (tmax : R) (st : store) : Prop :=
  cells NDIM2 (DATA st) /\ cells NDIM2 (TEM st) /\ (k0 < K st)%nat /\
  floats (TEM st) 0 JNP1 /\ floats (TEM st) 1 JNP1 /\
  complete (DATA st) k0 (K st) /\
  sorted_times (DATA st) k0 (K st) /\
  times_below (DATA st) k0 (K st) tmax.

(** ** Notions used for the compaction *)

(** [RHOA] as [setup_constants] computes it. *)
Definition RHOA_value : R := RHOM * (1.0 - (TEXPAN * TASTH)).

(** One Newton-Raphson step on
    [f(x) = x*(RHOA - RHOS) - S*RHOA + PHI0*CONST*(RHOS - RHOW)*(1 - exp(-x/CONST))]. *)
Definition newton_step (RHOA RHOS PHI0 CONST S x : R) : R :=
  x - (x * (RHOA - RHOS) - S * RHOA
       + PHI0 * CONST * (RHOS - RHOW) * (1 - exp (- x / CONST)))
      / ((RHOA - RHOS) + PHI0 * (RHOS - RHOW) * exp (- x / CONST)).

(** A table of one row: the time 0 and an uplift of 100 km. *)
Definition uplift_table : array := [[Some 0]; [Some (-100)]; [Some 1]; [Some 0]].

(** ** Notions used for the output table *)

(** The time of the row [i] of the table (0 when the cell holds no float). *)
Definition time_at (D : array) (i : nat) : R :=
  match fget D 0 i with
  | Ok t => t
  | _ => 0
  end.

(** The times of the [n] rows from the row [k0] on. *)
Definition times_from (D : array) (k0 n : nat) : list R :=
  time_at D <$> seq k0 n.

(** ** Notions used for the lithospheric thickness *)

(** The configuration [p] with another crustal thickness. *)
Definition with_TC (tc : R) (p : params) : params := {|
  BETMIN := BETMIN p; BETMAX := BETMAX p; BETINC := BETINC p;
  BETA2 := BETA2 p; BETA3 := BETA3 p;
  ILOAD := ILOAD p; ICOMP := ICOMP p;
  TBEG1 := TBEG1 p; TEND1 := TEND1 p; TBEG2 := TBEG2 p; TEND2 := TEND2 p;
  TBEG3 := TBEG3 p; TEND3 := TEND3 p;
  TSTOP := TSTOP p;
  ITYPE1 := ITYPE1 p; ITYPE2 := ITYPE2 p; ITYPE3 := ITYPE3 p;
  IRIFT := IRIFT p;
  RHOS := RHOS p; PHI0 := PHI0 p; CONST := CONST p;
  CYCLES := CYCLES p; FRAC := FRAC p;
  TC := tc
|}.

(** The quadratic of the isostatic balance against a mid-ocean ridge, in the
    thickness [-TL] that [calculate_TL] solves it for. *)
Definition balance (TC x : R) : R := AINT * x ^ 2 + BINT TC * x + CINT TC.

(** ** Notions used for the compaction *)

(** The Newton-Raphson iterates for a row that holds the subsidence [S], from
    the start value [x0]. *)
Fixpoint newton_iterate (RHOA RHOS PHI0 CONST S : R) (n : nat) (x0 : R) : R :=
  match n with
  | O => x0
  | Datatypes.S n =>
      newton_step RHOA RHOS PHI0 CONST S
        (newton_iterate RHOA RHOS PHI0 CONST S n x0)
  end.

(** The first index among [J, J+1, ..., J+n-1] at which the sequence [it]
    moved by at most 1e-5. *)
Fixpoint first_converged (it : nat -> R) (J n : nat) : option nat :=
  match n with
  | O => None
  | Datatypes.S n =>
      if decide (Rabs (it J - it (J - 1)%nat) > 1e-5)
      then first_converged it (Datatypes.S J) n
      else Some J
  end.

(** The sediment-loaded subsidence of a row that holds the subsidence [S]:
    the first of the iterates 1..29 that is within 1e-5 of the one before
    it. *)
Definition compacted (RHOA RHOS PHI0 CONST S : R) : option R :=
  let it := fun n => newton_iterate RHOA RHOS PHI0 CONST S n
                       (S * (RHOA / (RHOA - RHOS))) in
  it <$> first_converged it 1 29.

(** A table of two rows: a row at the time 0 with the subsidence 1.5, and a
    sentinel. *)
Definition short_table : array :=
  [[Some 0; None]; [Some 1.5; None]; [Some 1; None]; [Some 0; None]].

(** ** Notions used for the beta sweep *)




(** The configuration [p] with another increment of the sweep. *)
Definition with_BETINC (inc : R) (p : params) : params := {|
  BETMIN := BETMIN p; BETMAX := BETMAX p; BETINC := inc;
  BETA2 := BETA2 p; BETA3 := BETA3 p;
  ILOAD := ILOAD p; ICOMP := ICOMP p;
  TBEG1 := TBEG1 p; TEND1 := TEND1 p; TBEG2 := TBEG2 p; TEND2 := TEND2 p;
  TBEG3 := TBEG3 p; TEND3 := TEND3 p;
  TSTOP := TSTOP p;
  ITYPE1 := ITYPE1 p; ITYPE2 := ITYPE2 p; ITYPE3 := ITYPE3 p;
  IRIFT := IRIFT p;
  RHOS := RHOS p; PHI0 := PHI0 p; CONST := CONST p;
  CYCLES := CYCLES p; FRAC := FRAC p;
  TC := TC p
|}.

(** ** Notions used for repeated runs *)

(** The globals without what a run of a single rift period never reads: the
    schedule of the later rift periods and their strain rates. *)
Definition forget_dless (d : dless) : dless := {|
  TIMSC := TIMSC d; DTBEG1 := DTBEG1 d; DTEND1 := DTEND1 d;
  DTBEG2 := 0; DTEND2 := 0; DTBEG3 := 0; DTEND3 := 0;
  DTSTOP := DTSTOP d; DTST := DTST d; DTAUS := DTAUS d
|}.

Definition forget_consts (c : consts) : consts := {|
  RHOA := RHOA c; CONBET := CONBET c; CONTRM := CONTRM c;
  CONB1 := CONB1 c; CONB2 := CONB2 c; GP2 := 0; GP3 := 0
|}.

Definition forget_later (g : globals) : globals := {|
  TL := TL g;
  g_dless := forget_dless (g_dless g);
  g_consts := forget_consts (g_consts g);
  g_forcing := g_forcing g;
  g_store := g_store g
|}.

(** The outcome [r] seen through [h]. *)
Definition rmap {A B : Type} (h : A -> B) (r : result A) : result B :=
  a ← r; Ok (h a).

(** Globals as some earlier run may have left them. *)
Definition used_globals : globals := {|
  TL := 90000;
  g_dless := {| TIMSC := 300; DTBEG1 := 0; DTEND1 := 0.2; DTBEG2 := 0.3;
                DTEND2 := 0.4; DTBEG3 := 0.5; DTEND3 := 0.6; DTSTOP := 0.7;
                DTST := 0.003; DTAUS := 0.1 |};
  g_consts := {| RHOA := 3.2; CONBET := 7000; CONTRM := 6000; CONB1 := 3;
                 CONB2 := 2; GP2 := 0.9; GP3 := 0.8 |};
  g_forcing := {| GP1 := 5; AMPL := 4; WAVEN := 3 |};
  g_store := {| K := 7; DATA := []; TEM := []; TRINIT := 0.1; SINIT := 0.2 |}
|}.

(** ** Notions used for the schedule *)

(** The configuration [p] with another number of rift periods. *)
Definition with_IRIFT (i : Z) (p : params) : params := {|
  BETMIN := BETMIN p; BETMAX := BETMAX p; BETINC := BETINC p;
  BETA2 := BETA2 p; BETA3 := BETA3 p;
  ILOAD := ILOAD p; ICOMP := ICOMP p;
  TBEG1 := TBEG1 p; TEND1 := TEND1 p; TBEG2 := TBEG2 p; TEND2 := TEND2 p;
  TBEG3 := TBEG3 p; TEND3 := TEND3 p;
  TSTOP := TSTOP p;
  ITYPE1 := ITYPE1 p; ITYPE2 := ITYPE2 p; ITYPE3 := ITYPE3 p;
  IRIFT := i;
  RHOS := RHOS p; PHI0 := PHI0 p; CONST := CONST p;
  CYCLES := CYCLES p; FRAC := FRAC p;
  TC := TC p
|}.

(** ** Notions used for the temperature *)

(** Every node of the two buffers holds a temperature between [lo] and
    [hi]. *)
Definition bounded_TEM (lo hi : R) (A : array) : Prop :=
  forall r j, (r < 2)%nat -> (j < JNP1)%nat ->
    exists x, fget A r j = Ok x /\ lo <= x <= hi.

(** ** WRITE *)

Section WRITE.

(** [round(x, 4)] on a float. *)
Variable round4 : R -> R.

(** [if DATA[r][I-1] is None: DATA[r][I-1] = -999999.] *)
Definition fill_cell (D : array) (r i : nat) : result array :=
  c ← aget D r i;
  match c with
  | None => aset D r i (Some (-999999))
  | Some _ => Ok D
  end.

(** The body of [for I in range(1, NPTS+1)]: the table, and the rows of the
    file written so far, each row the four rounded numbers of a line. *)
Definition write_row (i : nat) (DF : array * list (list R))
  : result (array * list (list R)) :=
  let '(D, file) := DF in
  D ← fill_cell D 0 (i - 1);
  D ← fill_cell D 1 (i - 1);
  D ← fill_cell D 2 (i - 1);
  D ← fill_cell D 3 (i - 1);
  a ← fget D 0 (i - 1);
  b ← fget D 1 (i - 1);
  c ← fget D 2 (i - 1);
  d ← fget D 3 (i - 1);
  Ok (D, file ++ [[round4 a; round4 b; round4 c; round4 d]]).

Fixpoint write_rows (Is : list nat) (DF : array * list (list R))
  : result (array * list (list R)) :=
  match Is with
  | [] => Ok DF
  | i :: Is => DF ← write_row i DF; write_rows Is DF
  end.

Definition WRITE (NPTS : nat) (DATA : array) : result (array * list (list R)) :=
  write_rows (seq 1 NPTS) (DATA, []).

(** What [WRITE] writes for a cell. *)
Definition written (c : option R) : R := round4 (default (-999999) c).

End WRITE.

(** ** read_rift_subsidence_output *)

(** A line of the file as the reader sees it: the fields of
    [line.strip().split()], each as [float] reads it, [None] for a field on
    which [float] raises [ValueError].  A blank line has no field. *)
Definition line : Type := list (option R).

(** The line of a row of four numbers. *)
Definition written_line (row : list R) : line := Some <$> row.

(** A beta group: the ages and the subsidences. *)
Definition beta_group : Type := list R * list R.

(** [[float(item) for item in line.split()]] *)
Fixpoint floats_of (l : line) : result (list R) :=
  match l with
  | [] => Ok []
  | Some x :: l => xs ← floats_of l; Ok (x :: xs)
  | None :: _ => Raise ValueError
  end.

(** [beta_groups[-1][0].append(age); beta_groups[-1][1].append(subsidence)] *)
Fixpoint append_last (gs : list beta_group) (age subsidence : R)
  : result (list beta_group) :=
  match gs with
  | [] => Raise IndexError
  | [g] => Ok [(g.1 ++ [age], g.2 ++ [subsidence])]
  | g :: gs => gs ← append_last gs age subsidence; Ok (g :: gs)
  end.

(** [for line in lines] *)
Fixpoint read_lines (lines : list line) (beta_groups : list beta_group)
  : result (list beta_group) :=
  match lines with
  | [] => Ok beta_groups
  | [] :: _ => Ok beta_groups
  | l :: lines =>
      fs ← floats_of l;
      match fs with
      | [age; subsidence; _; _] =>
          if decide (age < 0.0) then
            read_lines lines (beta_groups ++ [([], [])])
          else
            let subsidence := subsidence * 1000 in
            beta_groups ← append_last beta_groups age subsidence;
            read_lines lines beta_groups
      | _ => Raise ValueError
      end
  end.

Definition read_rift_subsidence_output (lines : list line)
  : result (list beta_group) :=
  read_lines lines [([], [])].

(** The rows of a table made of the groups [gs], one sentinel between two
    groups. *)
Fixpoint joined {A : Type} (gs : list (list A)) : list (option A) :=
  match gs with
  | [] => []
  | g :: gs' =>
      match gs' with
      | [] => Some <$> g
      | _ :: _ => (Some <$> g) ++ None :: joined gs'
      end
  end.

Section File_rows.

Variable round4 : R -> R.

(** A group of (age, subsidence) rows of the table as the reader returns it:
    rounded, the subsidence in metres. *)
Definition in_metres (g : list (R * R)) : beta_group :=
  ((fun p => round4 p.1) <$> g, (fun p => round4 p.2 * 1000) <$> g).

(** A data line of the file, for the age and the subsidence [p]. *)
Definition data_line (p : R * R) (l : line) : Prop :=
  exists c d, l = [Some (round4 p.1); Some (round4 p.2); Some c; Some d].

(** The line of a sentinel. *)
Definition sentinel_line (l : line) : Prop :=
  exists b c d, l = [Some (round4 (-999999)); Some b; Some c; Some d].

Definition item_line (x : option (R * R)) (l : line) : Prop :=
  match x with
  | Some p => data_line p l
  | None => sentinel_line l
  end.

End File_rows.

(** A group as the reader builds it: as many subsidences as ages, and no
    negative age. *)
Definition well_formed (g : beta_group) : Prop :=
  length g.1 = length g.2 /\ Forall (fun a => 0 <= a) g.1.

(** A table of three rows, the second one a sentinel. *)
Definition sentinel_table : array :=
  [[Some 3; None; Some 2]; [Some 0.5; None; Some 0.25];
   [Some 1; None; Some 1]; [Some 7; None; Some 7]].

Definition sentinel_store : store :=
  {| K := 3; DATA := sentinel_table; TEM := []; TRINIT := 0; SINIT := 0 |}.

(** ** The dialogue on standard input *)

From stdpp Require Import strings.
Open Scope R_scope.

(** The outcome of a part of the dialogue: a value and the lines not read
    yet, or [input] called at the end of the input ([EOFError]), or no fuel
    left. *)
Inductive reply (A : Type) : Type :=
| Reply (a : A) (rest : list string)
| EndOfInput
| NoFuel.
Arguments Reply {A} a rest.
Arguments EndOfInput {A}.
Arguments NoFuel {A}.

(** A part of the dialogue, from the lines still to be read. *)
Definition ask (A : Type) : Type := list string -> reply A.

#[global] Instance ask_ret : MRet ask := fun A a inp => Reply a inp.
#[global] Instance ask_bind : MBind ask :=
  fun A B f m inp =>
    match m inp with
    | Reply a rest => f a rest
    | EndOfInput => EndOfInput
    | NoFuel => NoFuel
    end.

(** [input(msg)] *)
Definition input : ask string :=
  fun inp =>
    match inp with
    | [] => EndOfInput
    | l :: rest => Reply l rest
    end.

(** [s.lower()], for what the comparison with y, yes, n and no can see: the
    letters A to Z. *)
Definition lower_ascii (c : Ascii.ascii) : Ascii.ascii :=
  let n := Ascii.nat_of_ascii c in
  if decide (65 <= n <= 90)%nat then Ascii.ascii_of_nat (n + 32) else c.

Fixpoint lower (s : string) : string :=
  match s with
  | EmptyString => EmptyString
  | String c s => String (lower_ascii c) (lower s)
  end.

(** [if tmp: X = tmp], for a float, an integer and a string. *)
Definition if_float (tmp : option R) (X : R) : R :=
  match tmp with
  | Some x => if decide (x = 0) then X else x
  | None => X
  end.

Definition if_int (tmp : option Z) (X : Z) : Z :=
  match tmp with
  | Some x => if decide (x = 0)%Z then X else x
  | None => X
  end.

Definition if_str (tmp : string) (X : string) : string :=
  if decide (tmp = EmptyString) then X else tmp.

(** What the dialogue sets: the label and the configuration. *)
Record dialogue : Type := { PLABEL : string; d_params : params }.

Section Dialogue.

(** [float(s)] and [int(s)]: [None] when they raise. *)
Variable py_float_of : string -> option R.
Variable py_int_of : string -> option Z.

Fixpoint get_float_from_stdin (inp : list string) : reply (option R) :=
  match inp with
  | [] => EndOfInput
  | tmp :: inp =>
      if decide (String.length tmp = 0)%nat then Reply None inp
      else
        match py_float_of tmp with
        | None => get_float_from_stdin inp
        | Some x => Reply (Some x) inp
        end
  end.

Fixpoint get_int_from_stdin (values : list Z) (inp : list string)
  : reply (option Z) :=
  match inp with
  | [] => EndOfInput
  | tmp :: inp =>
      if decide (String.length tmp = 0)%nat then Reply None inp
      else
        match py_int_of tmp with
        | None => get_int_from_stdin values inp
        | Some x =>
            if decide (values <> []) then
              if decide (x ∈ values) then Reply (Some x) inp
              else get_int_from_stdin values inp
            else Reply (Some x) inp
        end
  end.

Fixpoint get_yes_or_no_from_stdin (no_default : bool) (inp : list string)
  : reply (option string) :=
  match inp with
  | [] => EndOfInput
  | tmp :: inp =>
      if decide (String.length tmp = 0%nat /\ no_default = false)
      then Reply None inp
      else if decide (lower tmp ∈ ["y"; "yes"]%string) then Reply (Some "y"%string) inp
      else if decide (lower tmp ∈ ["n"; "no"]%string) then Reply (Some "n"%string) inp
      else get_yes_or_no_from_stdin no_default inp
  end.

(** The [while(1)] loop that asks for the initial porosity. *)
Fixpoint porosity_loop (fuel : nat) (PHI0 : R) : ask R :=
  match fuel with
  | O => fun _ => NoFuel
  | S fuel =>
      tmp ← get_float_from_stdin;
      let PHI0 := match tmp with
                  | Some x => if decide (x = 0) then PHI0 else x / 100
                  | None => PHI0
                  end in
      if decide (PHI0 < 0 \/ PHI0 > 0.9) then porosity_loop fuel PHI0
      else mret PHI0
  end.

Definition collect_parameters_from_stdin (fuel : nat) (s : dialogue)
  : ask dialogue :=
  let p := d_params s in
  tmp ← input;
  let PLABEL' := if_str tmp (PLABEL s) in
  tmp ← get_int_from_stdin [1; 2; 3]%Z;
  let IRIFT' := if_int tmp (IRIFT p) in
  tmp ← get_float_from_stdin;
  let TC' := if_float tmp (TC p) in
  tmp ← get_float_from_stdin;
  let TBEG1' := if_float tmp (TBEG1 p) in
  tmp ← get_float_from_stdin;
  let TEND1' := if_float tmp (TEND1 p) in
  tmp ← get_float_from_stdin;
  let BETMIN' := if_float tmp (BETMIN p) in
  tmp ← get_float_from_stdin;
  let BETMAX' := if_float tmp (BETMAX p) in
  tmp ← get_float_from_stdin;
  let BETINC' := if_float tmp (BETINC p) in
  tmp ← get_int_from_stdin [];
  let ITYPE1' := if_int tmp (ITYPE1 p) in
  '(CYCLES', FRAC') ←
    (if decide (ITYPE1' = 4)%Z then
       tmp ← get_float_from_stdin;
       let CYCLES' := if_float tmp (CYCLES p) in
       tmp ← get_float_from_stdin;
       let FRAC' := if_float tmp (FRAC p) in
       mret (CYCLES', FRAC')
     else mret (CYCLES p, FRAC p));
  '(TBEG2', TEND2', BETA2') ←
    (if decide (IRIFT' >= 2)%Z then
       tmp ← get_float_from_stdin;
       let TBEG2' := if_float tmp (TBEG2 p) in
       tmp ← get_float_from_stdin;
       let TEND2' := if_float tmp (TEND2 p) in
       tmp ← get_float_from_stdin;
       let BETA2' := if_float tmp (BETA2 p) in
       mret (TBEG2', TEND2', BETA2')
     else mret (TBEG2 p, TEND2 p, BETA2 p));
  '(TBEG3', TEND3', BETA3') ←
    (if decide (IRIFT' >= 3)%Z then
       tmp ← get_float_from_stdin;
       let TBEG3' := if_float tmp (TBEG3 p) in
       tmp ← get_float_from_stdin;
       let TEND3' := if_float tmp (TEND3 p) in
       tmp ← get_float_from_stdin;
       let BETA3' := if_float tmp (BETA3 p) in
       mret (TBEG3', TEND3', BETA3')
     else mret (TBEG3 p, TEND3 p, BETA3 p));
  tmp ← get_float_from_stdin;
  let TSTOP' := if_float tmp (TSTOP p) in
  tmp ← get_int_from_stdin [0; 1; 2]%Z;
  let ILOAD' := if_int tmp (ILOAD p) in
  '(ICOMP', RHOS', PHI0', CONST') ←
    (if decide (ILOAD' = 2)%Z then
       tmp ← get_yes_or_no_from_stdin false;
       let ICOMP' := match tmp with
                     | Some a => if decide (a = "n"%string) then 0%Z else 1%Z
                     | None => ICOMP p
                     end in
       if decide (ICOMP' = 0)%Z then
         tmp ← get_float_from_stdin;
         let RHOS' := if_float tmp (RHOS p) in
         mret (ICOMP', RHOS', PHI0 p, CONST p)
       else
         tmp ← get_float_from_stdin;
         let RHOS' := if_float tmp (RHOS p) in
         PHI0' ← porosity_loop fuel (PHI0 p);
         tmp ← get_float_from_stdin;
         let CONST' := if_float tmp (CONST p) in
         mret (ICOMP', RHOS', PHI0', CONST')
     else mret (ICOMP p, RHOS p, PHI0 p, CONST p));
  mret {| PLABEL := PLABEL';
          d_params := {|
            BETMIN := BETMIN'; BETMAX := BETMAX'; BETINC := BETINC';
            BETA2 := BETA2'; BETA3 := BETA3';
            ILOAD := ILOAD'; ICOMP := ICOMP';
            TBEG1 := TBEG1'; TEND1 := TEND1'; TBEG2 := TBEG2';
            TEND2 := TEND2'; TBEG3 := TBEG3'; TEND3 := TEND3';
            TSTOP := TSTOP';
            ITYPE1 := ITYPE1'; ITYPE2 := ITYPE2 p; ITYPE3 := ITYPE3 p;
            IRIFT := IRIFT';
            RHOS := RHOS'; PHI0 := PHI0'; CONST := CONST';
            CYCLES := CYCLES'; FRAC := FRAC';
            TC := TC' |} |}.

(** The loop of [main] without a configuration file: the dialogue, until the
    answer to "Alter parameters?" is no. *)
Fixpoint main_dialogue (fuel : nat) (s : dialogue) : ask dialogue :=
  match fuel with
  | O => fun _ => NoFuel
  | S fuel' =>
      s ← collect_parameters_from_stdin (S fuel') s;
      tmp ← get_yes_or_no_from_stdin true;
      match tmp with
      | Some a => if decide (a = "n"%string) then mret s
                  else main_dialogue fuel' s
      | None => main_dialogue fuel' s
      end
  end.

End Dialogue.

(** The number of lines the dialogue reads when every answer is accepted at
    once, by the configuration it ends with. *)
Definition prompts (p : params) : nat :=
  9 + (if decide (ITYPE1 p = 4)%Z then 2 else 0)
    + (if decide (IRIFT p >= 2)%Z then 3 else 0)
    + (if decide (IRIFT p >= 3)%Z then 3 else 0)
    + 2
    + (if decide (ILOAD p = 2)%Z
       then 1 + (if decide (ICOMP p = 0)%Z then 1 else 3)
       else 0).


(** The module as it is after import: the label and the configuration. *)
Definition dialogue0 : dialogue :=
  {| PLABEL := "my_label"; d_params := INITVR |}.

(** ** Notions used for the loading *)

(** The subsidence cell of the row [i] is a sentinel or holds zero. *)
Definition flat_cell (D : array) (i : nat) : Prop :=
  aget D 1 i = Ok None \/ aget D 1 i = Ok (Some 0).

(** The configuration [p] with another loading. *)
Definition with_ILOAD (i : Z) (p : params) : params := {|
  BETMIN := BETMIN p; BETMAX := BETMAX p; BETINC := BETINC p;
  BETA2 := BETA2 p; BETA3 := BETA3 p;
  ILOAD := i; ICOMP := ICOMP p;
  TBEG1 := TBEG1 p; TEND1 := TEND1 p; TBEG2 := TBEG2 p; TEND2 := TEND2 p;
  TBEG3 := TBEG3 p; TEND3 := TEND3 p;
  TSTOP := TSTOP p;
  ITYPE1 := ITYPE1 p; ITYPE2 := ITYPE2 p; ITYPE3 := ITYPE3 p;
  IRIFT := IRIFT p;
  RHOS := RHOS p; PHI0 := PHI0 p; CONST := CONST p;
  CYCLES := CYCLES p; FRAC := FRAC p;
  TC := TC p
|}.

(** ** Notions used for the start of the sweep *)

(** The initial configuration in the sinusoidal regime, with a sweep that
    starts at no stretching. *)
Definition sinusoid_from_one : params := {|
  BETMIN := 1; BETMAX := 2.0; BETINC := 0.5; BETA2 := 1.1; BETA3 := 1.1;
  ILOAD := 1; ICOMP := 0;
  TBEG1 := 160; TEND1 := 100; TBEG2 := 60; TEND2 := 50;
  TBEG3 := 20; TEND3 := 10;
  TSTOP := 0;
  ITYPE1 := 4; ITYPE2 := 1; ITYPE3 := 1;
  IRIFT := 1;
  RHOS := 2.6; PHI0 := 0.6; CONST := 2.0; CYCLES := 1.5; FRAC := 0.8;
  TC := 30000
|}.

(** The configuration [p] with another regime of the first rift period. *)
Definition with_ITYPE1 (i : Z) (p : params) : params := {|
  BETMIN := BETMIN p; BETMAX := BETMAX p; BETINC := BETINC p;
  BETA2 := BETA2 p; BETA3 := BETA3 p;
  ILOAD := ILOAD p; ICOMP := ICOMP p;
  TBEG1 := TBEG1 p; TEND1 := TEND1 p; TBEG2 := TBEG2 p; TEND2 := TEND2 p;
  TBEG3 := TBEG3 p; TEND3 := TEND3 p;
  TSTOP := TSTOP p;
  ITYPE1 := i; ITYPE2 := ITYPE2 p; ITYPE3 := ITYPE3 p;
  IRIFT := IRIFT p;
  RHOS := RHOS p; PHI0 := PHI0 p; CONST := CONST p;
  CYCLES := CYCLES p; FRAC := FRAC p;
  TC := TC p
|}.

(** The control state of the passes of the loop of [TIMSTR] up to the end of
    the stretching: advection is on, and the step has not been clipped yet or
    has just been clipped to end at [DTEND]. *)
Definition stretching (DTEND : R) (l : locals) : Prop :=
  IADV l = 1%Z /\
  (JFLAG l = 0%Z \/ (JFLAG l = 1%Z /\ T l + DT l = DTEND)).

(** ** Notions used for the later rift periods *)

(** The initial configuration with a second rift period in regime 2. *)
Definition second_rift_regime2 : params := {|
  BETMIN := 1.5; BETMAX := 2.0; BETINC := 0.5; BETA2 := 1.1; BETA3 := 1.1;
  ILOAD := 1; ICOMP := 0;
  TBEG1 := 160; TEND1 := 100; TBEG2 := 60; TEND2 := 50;
  TBEG3 := 20; TEND3 := 10;
  TSTOP := 0;
  ITYPE1 := 1; ITYPE2 := 2; ITYPE3 := 1;
  IRIFT := 2;
  RHOS := 2.6; PHI0 := 0.6; CONST := 2.0; CYCLES := 1.5; FRAC := 0.8;
  TC := 30000
|}.

(** ** Notions used for the rows after the stretching *)

(** The last two rows of a solver run that went from the end of the
    stretching to the halt time in one step: the row of the end of the
    stretching, whose subsidence [SINIT] keeps together with the integral
    [TRINIT] of that time, and the row of the halt time [DTHALT], whose
    subsidence is the formula of the stretching interval, evaluated after
    it: [B_end] and [B] are the stretching factors [BETAT] that [SUBCAL]
    computes for the two times, [TRAP] the integral of a buffer at the halt
    time. *)
Definition late_halt_rows (AMPL WAVEN G DTEND DTAUS CONBET CONTRM DTBEGX : R)
  (ITYPE : Z) (KRR : nat) (BETA1 DTHALT : R) (st : store) : Prop :=
  (2 <= K st)%nat /\
  fget (DATA st) 0 (K st - 2) = Ok DTEND /\
  fget (DATA st) 1 (K st - 2) = Ok (SINIT st) /\
  fget (DATA st) 0 (K st - 1) = Ok DTHALT /\
  exists B_end B TRAP b,
    BETAT_of AMPL WAVEN ITYPE G DTEND DTAUS JSUBS (WWW_of KRR DTEND DTBEGX)
      = Ok (Some B_end) /\
    BETAT_of AMPL WAVEN ITYPE G DTEND DTAUS JSUBS (WWW_of KRR DTHALT DTBEGX)
      = Ok (Some B) /\
    SINIT st
      = stretching_subsidence CONBET CONTRM KRR B_end BETA1 (TRINIT st) * 1e-3 /\
    (b = 1%nat \/ b = 2%nat) /\
    TRAP_of (TEM st) b DZ JNP1 = Ok TRAP /\
    fget (DATA st) 1 (K st - 1)
      = Ok (stretching_subsidence CONBET CONTRM KRR B BETA1 TRAP * 1e-3).

(** What the specification has in that row: the thermal relaxation since the
    end of the stretching, added to the subsidence recorded there. *)
Definition relaxation_subsidence (CONTRM TRAP_end TRAP SUBS_end : R) : R :=
  CONTRM * (TRAP_end - TRAP) * 1e-3 + SUBS_end.

(** ** Notions used for the first pass of the beta sweep *)


(** The initial configuration with a stretching that ends 0.5 Ma before the
    final time. *)
Definition short_relaxation : params := {|
  BETMIN := 1.5; BETMAX := 2.0; BETINC := 0.5; BETA2 := 1.1; BETA3 := 1.1;
  ILOAD := 1; ICOMP := 0;
  TBEG1 := 160; TEND1 := 0.5; TBEG2 := 60; TEND2 := 50;
  TBEG3 := 20; TEND3 := 10;
  TSTOP := 0;
  ITYPE1 := 1; ITYPE2 := 1; ITYPE3 := 1;
  IRIFT := 1;
  RHOS := 2.6; PHI0 := 0.6; CONST := 2.0; CYCLES := 1.5; FRAC := 0.8;
  TC := 30000
|}.

(** * Properties *)

(** ** The result monad *)

Lemma bind_Ok {A B} (m : result A) (f : A -> result B) (b : B) :
  m ≫= f = Ok b <-> exists a, m = Ok a /\ f a = Ok b.
Proof.
  destruct m as [a|e|]; simpl; split.
  - intros H. exists a. split; [reflexivity | exact H].
  - intros (a' & Ha & Hf). injection Ha as ->. exact Hf.
  - discriminate.
  - intros (a' & Ha & _). discriminate.
  - discriminate.
  - intros (a' & Ha & _). discriminate.
Qed.

Lemma bind_Raise_l {A B} (m : result A) (f : A -> result B) (e : exn) :
  m = Raise e -> m ≫= f = Raise e.
Proof. intros ->. reflexivity. Qed.

(** ** check_cfg *)

Lemma check_cfg_outcome (p : params) :
  check_cfg p = Ok tt \/ check_cfg p = Raise AssertionError.
Proof.
  unfold check_cfg.
  repeat (case_decide; simpl); auto.
Qed.

Lemma check_cfg_violated (p : params) :
  violated p -> check_cfg p = Raise AssertionError.
Proof.
  unfold violated, check_cfg.
  intros [[Hi Ht]|[[Hi Ht]|[Hi Ht]]];
    repeat (case_decide; simpl); try reflexivity; exfalso; try lia; lra.
Qed.

Lemma check_cfg_ordered (p : params) :
  ordered p -> check_cfg p = Ok tt.
Proof.
  unfold ordered, check_cfg. intros (H1 & H2 & H3).
  repeat (case_decide; simpl); try reflexivity; exfalso;
    match goal with
    | H : ~ (_ > _) |- _ => apply H
    end; auto.
Qed.

(** C3.  When some active rift period [i <= IRIFT] has [TBEGi <= TENDi],
    [run] raises [AssertionError] whatever the fuel and the globals are, so
    before any pass of a solver loop; when every active rift period has
    [TBEGi > TENDi], [check_cfg] passes and [run] goes on with [solve] and
    [finalise]. *)
Theorem run_checks_ordering (p : params) :
  (violated p ->
   forall fuel g, run fuel p g = Raise AssertionError) /\
  (ordered p ->
   check_cfg p = Ok tt /\
   forall fuel g, run fuel p g = solve fuel p g ≫= finalise p).
Proof.
  split.
  - intros H fuel g. unfold run.
    rewrite (check_cfg_violated p H). reflexivity.
  - intros H. split; [apply check_cfg_ordered, H|].
    intros fuel g. unfold run.
    rewrite (check_cfg_ordered p H). reflexivity.
Qed.

Lemma run_checks_ordering_witness :
  run 0 late_rift globals0 = Raise AssertionError /\
  check_cfg INITVR = Ok tt.
Proof.
  split.
  - apply (proj1 (run_checks_ordering late_rift)).
    left. simpl. split; [lia | lra].
  - apply (proj2 (run_checks_ordering INITVR)).
    unfold ordered. simpl. repeat split; intros; try lia; lra.
Defined.

(** ** Arrays *)

Lemma aset_Ok (A A' : array) (r i : nat) (c : option R) :
  aset A r i c = Ok A' ->
  exists row, A !! r = Some row /\ (i < length row)%nat /\
              A' = <[r := <[i := c]> row]> A.
Proof.
  unfold aset. destruct (A !! r) as [row|] eqn:Hr; [|discriminate].
  case_decide; [|discriminate].
  intros [= <-]. exists row. auto.
Qed.

Lemma aget_aset (A A' : array) (r i r' i' : nat) (c : option R) :
  aset A r i c = Ok A' ->
  aget A' r' i' = if decide (r' = r /\ i' = i) then Ok c else aget A r' i'.
Proof.
  intros H. apply aset_Ok in H as (row & Hr & Hi & ->).
  assert (Hlen : (r < length A)%nat) by (eapply lookup_lt_Some; eauto).
  unfold aget.
  destruct (decide (r' = r)) as [->|Hne].
  - rewrite list_lookup_insert_eq by exact Hlen.
    destruct (decide (i' = i)) as [->|Hni].
    + rewrite list_lookup_insert_eq by exact Hi.
      rewrite decide_True by auto. reflexivity.
    + rewrite list_lookup_insert_ne by auto.
      rewrite decide_False by (intros [_ ?]; auto).
      rewrite Hr. reflexivity.
  - rewrite list_lookup_insert_ne by auto.
    rewrite decide_False by (intros [? _]; auto). reflexivity.
Qed.

Lemma aget_aset_eq (A A' : array) (r i : nat) (c : option R) :
  aset A r i c = Ok A' -> aget A' r i = Ok c.
Proof.
  intros H. rewrite (aget_aset _ _ _ _ r i _ H).
  rewrite decide_True by auto. reflexivity.
Qed.

Lemma aget_aset_ne (A A' : array) (r i r' i' : nat) (c : option R) :
  aset A r i c = Ok A' -> (r' <> r \/ i' <> i) -> aget A' r' i' = aget A r' i'.
Proof.
  intros H Hne. rewrite (aget_aset _ _ _ _ r' i' _ H).
  rewrite decide_False by (intros [? ?]; destruct Hne; auto). reflexivity.
Qed.

Lemma fget_aset_ne (A A' : array) (r i r' i' : nat) (c : option R) :
  aset A r i c = Ok A' -> (r' <> r \/ i' <> i) -> fget A' r' i' = fget A r' i'.
Proof.
  intros H Hne. unfold fget. rewrite (aget_aset_ne _ _ _ _ _ _ _ H Hne).
  reflexivity.
Qed.

Lemma fget_Ok (A : array) (r i : nat) (x : R) :
  fget A r i = Ok x <-> aget A r i = Ok (Some x).
Proof.
  unfold fget. destruct (aget A r i) as [[y|]|e|]; simpl; split;
    intros H; try discriminate; congruence.
Qed.

Lemma aget_aset_exists (A : array) (r i : nat) (c c' : option R) :
  aget A r i = Ok c -> exists A', aset A r i c' = Ok A'.
Proof.
  unfold aget, aset. destruct (A !! r) as [row|]; [|discriminate].
  destruct (row !! i) as [c0|] eqn:Hi; [|discriminate]. intros _.
  apply lookup_lt_Some in Hi. rewrite decide_True by exact Hi. eauto.
Qed.

Lemma aset_cells_Ok (n : nat) (A : array) (r i : nat) (c : option R) :
  cells n A -> (r < NDIM1)%nat -> (i < n)%nat -> exists A', aset A r i c = Ok A'.
Proof.
  intros H Hr Hi. destruct (H r i Hr Hi) as [c0 Hc0].
  apply (aget_aset_exists _ _ _ _ _ Hc0).
Qed.

Lemma aset_cells (n : nat) (A A' : array) (r i : nat) (c : option R) :
  aset A r i c = Ok A' -> cells n A -> cells n A'.
Proof.
  intros H HA r' i' Hr Hi. rewrite (aget_aset _ _ _ _ r' i' _ H).
  case_decide; [eauto | apply HA; assumption].
Qed.

Lemma aset_floats (A A' : array) (r i r' n : nat) (x : R) :
  aset A r i (Some x) = Ok A' -> floats A r' n -> floats A' r' n.
Proof.
  intros H HA j Hj. unfold fget. rewrite (aget_aset _ _ _ _ r' j _ H).
  case_decide; [simpl; eauto | apply HA, Hj].
Qed.

Lemma fresh_array_cells : cells NDIM2 fresh_array.
Proof.
  intros r i Hr Hi. exists None. unfold aget, fresh_array.
  rewrite lookup_replicate_2 by exact Hr.
  rewrite lookup_replicate_2 by exact Hi. reflexivity.
Qed.

(** ** Time: nondimensionalisation and its inverse *)

Lemma dimensional_dimensionless (TIMSC TBEG1 t : R) :
  TIMSC <> 0 ->
  dimensional TIMSC TBEG1 (dimensionless TIMSC TBEG1 t) = t.
Proof. intros H. unfold dimensional, dimensionless. field. exact H. Qed.

Lemma nondimensionalise_TIMSC (p : params) (TL : R) (d0 d : dless) :
  nondimensionalise_parameters p TL d0 = Ok d ->
  TIMSC d = TL ^ 2 / (DIFFUS * 3.15e13) /\ TIMSC d > 0.
Proof.
  unfold nondimensionalise_parameters.
  case_decide as Hz; [discriminate|].
  repeat case_decide; intros [= <-]; simpl; (split; [reflexivity|]).
  all: assert (0 <= TL ^ 2 / (DIFFUS * 3.15e13));
    [ apply Rmult_le_pos; [nra | unfold DIFFUS; lra] | lra ].
Qed.

(** Inversion of a successful sequence of computations. *)
Tactic Notation "bind_inv" hyp(H) :=
  let a := fresh "v" in
  let Ha := fresh "Hv" in
  apply bind_Ok in H as (a & Ha & H); simpl in H.

Tactic Notation "bind_inv" hyp(H) "as" ident(a) ident(Ha) :=
  apply bind_Ok in H as (a & Ha & H); simpl in H.

(** The same, without unfolding what follows. *)
Tactic Notation "bind_split" hyp(H) "as" ident(a) ident(Ha) :=
  apply bind_Ok in H as (a & Ha & H); cbv beta in H.

Lemma dimensionalise_row (TIMSC TBEG1 : R) (D D' : array) (i : nat) (x : R) :
  dimensionalise TIMSC TBEG1 D [i] = Ok D' ->
  aget D 0 (i - 1) = Ok (Some x) ->
  aget D' 0 (i - 1) = Ok (Some (dimensional TIMSC TBEG1 x)).
Proof.
  intros H Hx. simpl in H. rewrite Hx in H. simpl in H.
  bind_inv H. bind_inv H. injection H as <-.
  bind_inv Hv0. bind_inv Hv0. bind_inv Hv0. bind_inv Hv0.
  rewrite (aget_aset_ne _ _ _ _ _ _ _ Hv0) by (left; lia).
  rewrite (aget_aset_ne _ _ _ _ _ _ _ Hv2) by (left; lia).
  apply (aget_aset_eq _ _ _ _ _ Hv).
Qed.

(** C5.  The conversion of the finalisation pass,
    [t_out = -DT*TIMSC + TBEG1], inverts the nondimensionalisation
    [t |-> (TBEG1 - t)/TIMSC] for every dimensional time [t] and every
    [TIMSC > 0]; in particular a row of the table that holds the dimensionless
    image of [t] holds [t] after the pass. *)
Theorem finalisation_inverts_nondimensionalisation (TIMSC TBEG1 t : R) :
  TIMSC > 0 ->
  dimensional TIMSC TBEG1 (dimensionless TIMSC TBEG1 t) = t /\
  forall (D D' : array) (i : nat),
    aget D 0 (i - 1) = Ok (Some (dimensionless TIMSC TBEG1 t)) ->
    dimensionalise TIMSC TBEG1 D [i] = Ok D' ->
    aget D' 0 (i - 1) = Ok (Some t).
Proof.
  intros H.
  assert (Hinv : dimensional TIMSC TBEG1 (dimensionless TIMSC TBEG1 t) = t)
    by (apply dimensional_dimensionless; lra).
  split; [exact Hinv|].
  intros D D' i Hx HD.
  rewrite (dimensionalise_row _ _ _ _ _ _ HD Hx), Hinv. reflexivity.
Qed.

Lemma finalisation_inverts_nondimensionalisation_witness :
  dimensional 500 160 (dimensionless 500 160 100) = 100.
Proof.
  apply (finalisation_inverts_nondimensionalisation 500 160 100). lra.
Defined.

(** ** calculate_TL *)

Lemma sqrt_between (x lo hi : R) :
  0 <= lo -> lo ^ 2 <= x -> x <= hi ^ 2 -> 0 <= hi -> lo <= sqrt x <= hi.
Proof.
  intros Hlo H1 H2 Hhi.
  assert (Hx : 0 <= x) by nra.
  pose proof (sqrt_pos x) as Hs.
  pose proof (sqrt_sqrt x Hx) as Hss.
  split; nra.
Qed.

Lemma Rdiv_between (n d lo hi : R) :
  0 < d -> lo * d <= n -> n <= hi * d -> lo <= n / d <= hi.
Proof.
  intros Hd H1 H2.
  split; apply Rmult_le_reg_r with d; try lra;
    replace (n / d * d) with n by (field; lra); lra.
Qed.

Lemma Rdiv_strictly_between (n d lo hi : R) :
  0 < d -> lo * d < n -> n < hi * d -> lo < n / d < hi.
Proof.
  intros Hd H1 H2.
  split; apply Rmult_lt_reg_r with d; try lra;
    replace (n / d * d) with n by (field; lra); lra.
Qed.

Lemma BINT_INITVR : 8701 < BINT 30000 < 8702.
Proof. unfold BINT, RHOW, DW, RHOC, TCO, RHOM, TEXPAN, TASTH. lra. Qed.

Lemma AINT_bounds : 0.0732 < AINT < 0.0733.
Proof. unfold AINT, RHOM, TEXPAN, TASTH. lra. Qed.

Lemma CINT_INITVR : 11214000 < CINT 30000 < 11215000.
Proof. unfold CINT, RHOM, RHOC, TEXPAN, TASTH. lra. Qed.

Lemma solve_TL_INITVR :
  exists TL, solve_TL 30000 = Ok TL /\ 117000 <= TL <= 118000.
Proof.
  pose proof BINT_INITVR as HB. pose proof AINT_bounds as HA.
  pose proof CINT_INITVR as HC.
  unfold solve_TL, py_sqrt.
  set (B := BINT 30000) in *. set (C := CINT 30000) in *.
  assert (Hd : 8500 ^ 2 <= B ^ 2 - 4 * AINT * C) by nra.
  assert (Hd' : B ^ 2 - 4 * AINT * C <= 8520 ^ 2) by nra.
  destruct (sqrt_between _ 8500 8520 ltac:(lra) Hd Hd' ltac:(lra)) as [Hs1 Hs2].
  set (s := sqrt (B ^ 2 - 4 * AINT * C)) in *.
  rewrite decide_False by nra. simpl.
  rewrite decide_True.
  2:{ left. apply (Rdiv_between _ _ (-2000) 20e3); nra. }
  simpl.
  eexists. split; [reflexivity|].
  assert (E : - ((- B - s) / (2 * AINT)) = (B + s) / (2 * AINT)) by (field; lra).
  rewrite E. apply Rdiv_between; nra.
Qed.

Lemma calculate_TL_below (p : params) (TL : R) :
  solve_TL (TC p) = Ok TL -> TL < TC p ->
  calculate_TL p = Raise UnboundLocalError.
Proof.
  intros H Hlt. unfold calculate_TL. rewrite H. simpl.
  rewrite decide_False by lra. reflexivity.
Qed.

Lemma calculate_TL_above (p : params) (TL : R) :
  solve_TL (TC p) = Ok TL -> TL >= TC p -> calculate_TL p = Ok TL.
Proof.
  intros H Hlt. unfold calculate_TL. rewrite H. simpl.
  rewrite decide_True by lra. reflexivity.
Qed.

Lemma solve_TL_thin_crust :
  exists TL, solve_TL 7000 = Ok TL /\ TL < 0.
Proof.
  assert (HB : -4409 < BINT 7000 < -4408)
    by (unfold BINT, RHOW, DW, RHOC, TCO, RHOM, TEXPAN, TASTH; lra).
  assert (HC : 610000 < CINT 7000 < 611000)
    by (unfold CINT, RHOM, RHOC, TEXPAN, TASTH; lra).
  pose proof AINT_bounds as HA.
  unfold solve_TL, py_sqrt.
  set (B := BINT 7000) in *. set (C := CINT 7000) in *.
  assert (Hd : 4300 ^ 2 <= B ^ 2 - 4 * AINT * C) by nra.
  assert (Hd' : B ^ 2 - 4 * AINT * C <= 4409 ^ 2) by nra.
  destruct (sqrt_between _ 4300 4409 ltac:(lra) Hd Hd' ltac:(lra)) as [Hs1 Hs2].
  set (s := sqrt (B ^ 2 - 4 * AINT * C)) in *.
  rewrite decide_False by nra. simpl.
  assert (Hroot : 20e3 < (- B + s) / (2 * AINT) < 200e3).
  { apply Rdiv_strictly_between; nra. }
  rewrite decide_False by (intros [?|?]; lra). simpl.
  eexists. split; [reflexivity|]. lra.
Qed.

(** C8 (the code at the failing input).  For a crust of 7000 m the balance
    gives a negative lithospheric thickness; the error line is printed, and
    the [print] that follows reads the unassigned [TLM]: [calculate_TL]
    raises [UnboundLocalError], and so does [run]. *)
Theorem calculate_TL_thin_crust_aborts :
  TL_error_reported (TC thin_crust) = true /\
  calculate_TL thin_crust = Raise UnboundLocalError /\
  forall fuel g, run fuel thin_crust g = Raise UnboundLocalError.
Proof.
  destruct solve_TL_thin_crust as (TL & H & Hneg).
  assert (Hc : calculate_TL thin_crust = Raise UnboundLocalError).
  { apply (calculate_TL_below thin_crust TL); simpl; [exact H | lra]. }
  split; [|split].
  - unfold TL_error_reported. simpl. rewrite H.
    apply bool_decide_eq_true. lra.
  - exact Hc.
  - intros fuel g. unfold run.
    rewrite check_cfg_ordered
      by (unfold ordered; simpl; repeat split; intros; try lia; lra).
    simpl. unfold solve. rewrite Hc. reflexivity.
Qed.

Lemma calculate_TL_30000 (p : params) :
  TC p = 30000 ->
  exists TL, calculate_TL p = Ok TL /\ 117000 <= TL <= 118000.
Proof.
  intros HTC. destruct solve_TL_INITVR as (TL & H & Hb).
  exists TL. split; [|exact Hb].
  apply calculate_TL_above; rewrite HTC; [exact H | lra].
Qed.

Lemma TIMSC_30000 (TL : R) :
  117000 <= TL <= 118000 -> 540 <= TL ^ 2 / (DIFFUS * 3.15e13) <= 550.
Proof.
  intros H. apply Rdiv_between; unfold DIFFUS; nra.
Qed.

(** ** setup_constants *)

(** [GP3] is assigned under [elif IRIFT >= 3], the alternative of
    [if IRIFT >= 2]: no value of [IRIFT] reaches it. *)
Lemma setup_constants_GP3 (p : params) (TL : R) (d : dless) (c c' : consts) :
  setup_constants p TL d c = Ok c' -> GP3 c' = GP3 c.
Proof.
  unfold setup_constants. intros H.
  bind_inv H as bt Hbt. destruct bt as [b t].
  bind_inv H as b1 Hb1. bind_inv H as b2 Hb2. bind_inv H as gp Hgp.
  destruct gp as [g2 g3]. injection H as <-. simpl.
  destruct (decide (IRIFT p >= 2)%Z) as [H2|H2].
  - bind_inv Hgp as g Hg. injection Hgp as _ <-. reflexivity.
  - rewrite decide_False in Hgp by lia. injection Hgp as _ <-. reflexivity.
Qed.

Lemma nondimensionalise_Ok (p : params) (TL : R) (d0 : dless) :
  TL <> 0 ->
  exists d,
    nondimensionalise_parameters p TL d0 = Ok d /\
    TIMSC d = TL ^ 2 / (DIFFUS * 3.15e13) /\
    ((IRIFT p >= 1)%Z ->
     DTBEG1 d = 0 /\ DTEND1 d = (TBEG1 p - TEND1 p) / TIMSC d) /\
    ((IRIFT p >= 2)%Z ->
     DTBEG2 d = (TBEG1 p - TBEG2 p) / TIMSC d /\
     DTEND2 d = (TBEG1 p - TEND2 p) / TIMSC d) /\
    ((IRIFT p >= 3)%Z ->
     DTBEG3 d = (TBEG1 p - TBEG3 p) / TIMSC d /\
     DTEND3 d = (TBEG1 p - TEND3 p) / TIMSC d) /\
    DTSTOP d = (TBEG1 p - TSTOP p) / TIMSC d /\
    DTST d = 1 / TIMSC d /\
    DTAUS d = TAUS / TIMSC d.
Proof.
  intros HTL. unfold nondimensionalise_parameters.
  set (TS := TL ^ 2 / (DIFFUS * 3.15e13)).
  assert (HTS : TS <> 0).
  { unfold TS, DIFFUS. intros E.
    assert (0 < TL ^ 2) by nra.
    assert (0 < TL ^ 2 / (0.804e-6 * 3.15e13))
      by (apply Rdiv_lt_0_compat; lra).
    lra. }
  rewrite decide_False by exact HTS.
  destruct (decide (IRIFT p >= 1)%Z), (decide (IRIFT p >= 2)%Z),
    (decide (IRIFT p >= 3)%Z);
    (eexists; split; [reflexivity|]); simpl; unfold dimensionless;
    repeat split; intros; try lia; try reflexivity; field; exact HTS.
Qed.

Lemma ln_11_pos : 0 < ln 1.1.
Proof. rewrite <- ln_1. apply ln_increasing; lra. Qed.

(** C2 (the code at the failing input).  With three rift periods, all of
    regime 1, [setup_constants] succeeds and leaves [GP3] at the 0.0 the module
    starts with, while [ln(BETA3) / (DTEND3 - DTBEG3)] is positive: the third
    solver run is given the strain rate 0. *)
Theorem setup_constants_three_rifts_GP3 :
  exists TL d c,
    calculate_TL three_rifts = Ok TL /\
    nondimensionalise_parameters three_rifts TL dless0 = Ok d /\
    setup_constants three_rifts TL d consts0 = Ok c /\
    GP3 c = 0 /\
    0 < ln (BETA3 three_rifts) / (DTEND3 d - DTBEG3 d).
Proof.
  destruct (calculate_TL_30000 three_rifts eq_refl) as (TL & HTL & Hb).
  pose proof (TIMSC_30000 TL Hb) as Ht.
  destruct (nondimensionalise_Ok three_rifts TL dless0 ltac:(lra))
    as (d & Hd & HTS & _ & H2 & H3 & _).
  destruct (H2 ltac:(simpl; lia)) as [Hb2 He2].
  destruct (H3 ltac:(simpl; lia)) as [Hb3 He3].
  rewrite <- HTS in Ht. simpl in Hb2, He2, Hb3, He3.
  assert (Hpos : 0 < 10 / TIMSC d) by (apply Rdiv_lt_0_compat; lra).
  assert (H23 : DTEND2 d - DTBEG2 d = 10 / TIMSC d)
    by (rewrite Hb2, He2; field; lra).
  assert (H33 : DTEND3 d - DTBEG3 d = 10 / TIMSC d)
    by (rewrite Hb3, He3; field; lra).
  assert (Hc : exists c, setup_constants three_rifts TL d consts0 = Ok c).
  { unfold setup_constants, later_GP, py_log, py_div. simpl.
    assert (Hrho : RHOM * (1.0 - TEXPAN * TASTH) - 2.6 <> 0)
      by (unfold RHOM, TEXPAN, TASTH; lra).
    repeat (rewrite decide_False by (first [exact Hrho | lra]); simpl).
    eauto. }
  destruct Hc as [c Hc].
  exists TL, d, c. repeat split; try assumption.
  - rewrite (setup_constants_GP3 _ _ _ _ _ Hc). reflexivity.
  - simpl. rewrite H33. apply Rdiv_lt_0_compat; [exact ln_11_pos | exact Hpos].
Qed.

(** ** The beta sweep *)

Lemma sweep_unfold (n fuel : nat) (p : params) (d : dless) (c : consts)
  (BETA1 : R) (f : forcing) (st : store) :
  sweep (S n) fuel p d c BETA1 f st =
  sweep_body fuel p d c BETA1 f st ≫= fun fs =>
    if decide (BETA1 + BETINC p <= BETMAX p)
    then sentinel (snd fs) ≫= sweep n fuel p d c (BETA1 + BETINC p) (fst fs)
    else Ok fs.
Proof.
  simpl. destruct (sweep_body fuel p d c BETA1 f st) as [[f' st']| |];
    reflexivity.
Qed.


(** ** The time step of TIMSTR *)

Section Time_step.

Variables (AMPL WAVEN : R).
Variables (G DTEND DTSTOP DTAUS CONBET CONTRM DTBEGX DTBEGY DTST : R).
Variables (ITYPE IHFLW : Z) (KRR : nat) (IRIFT : Z).
Variables (BETA1 CONB1 CONB2 : R).

Local Abbreviation advance' := (advance AMPL WAVEN G DTEND DTAUS DTBEGX ITYPE KRR).
Local Abbreviation DTHALT' := (DTHALT DTSTOP DTBEGX DTBEGY KRR IRIFT).
Local Abbreviation next_step' :=
  (next_step DTEND DTSTOP DTBEGX DTBEGY KRR IRIFT).
Local Abbreviation loop_body' :=
  (loop_body AMPL WAVEN G DTEND DTSTOP DTAUS CONBET CONTRM DTBEGX DTBEGY DTST
     ITYPE IHFLW KRR IRIFT BETA1 CONB1 CONB2).


Lemma advance_locals (DTI : R) (l l' : locals) (st st' : store) :
  advance' DTI l st = Ok (l', st') ->
  T l' = T l + DT l /\ DT l' = DTI /\
  JFLAG l' = JFLAG l /\ IADV l' = IADV l.
Proof.
  unfold advance. intros H. bind_inv H as A HA.
  destruct (decide (JGI l = 1%nat)); [|destruct (decide (JGI l = 2%nat))];
    injection H as <- <-; simpl; auto.
Qed.




End Time_step.




(** ** SUBCAL *)

Lemma py_div_Ok (x y q : R) : py_div x y = Ok q <-> y <> 0 /\ q = x / y.
Proof.
  unfold py_div. case_decide; split.
  - discriminate.
  - intros [? _]. contradiction.
  - intros [= <-]. auto.
  - intros [_ ->]. reflexivity.
Qed.

Lemma py_div_nonzero (x y : R) : y <> 0 -> py_div x y = Ok (x / y).
Proof. intros H. apply py_div_Ok. auto. Qed.

Lemma trapezoid_rule (A : array) (r : nat) (DZ : R) (ts : list R) :
  forall (k : nat) (acc : R),
    (forall j x, ts !! j = Some x -> fget A r (k + j) = Ok x) ->
    trapezoid A r DZ (seq (k + 2) (length ts - 1)) acc
    = Ok (trapezoidal_rule DZ ts + acc).
Proof.
  induction ts as [|a [|b ts] IH]; intros k acc H.
  - simpl. f_equal. lra.
  - simpl. f_equal. lra.
  - replace (length (a :: b :: ts) - 1)%nat with (S (length (b :: ts) - 1))
      by (simpl; lia).
    rewrite <- cons_seq. simpl trapezoid.
    replace (k + 2 - 2)%nat with (k + 0)%nat by lia.
    replace (k + 2 - 1)%nat with (k + 1)%nat by lia.
    rewrite (H 0%nat a eq_refl). simpl.
    rewrite (H 1%nat b eq_refl). simpl.
    replace (S (k + 2)) with (S k + 2)%nat by lia.
    rewrite IH.
    + f_equal. simpl. lra.
    + intros j x Hj. replace (S k + j)%nat with (k + S j)%nat by lia.
      apply H. exact Hj.
Qed.

(** [TRAP] is the trapezoidal rule over the [JNP1] nodes of the buffer. *)
Lemma TRAP_of_rule (A : array) (JGI : nat) (DZ : R) (ts : list R) :
  holds A (JGI - 1) ts ->
  TRAP_of A JGI DZ (length ts) = Ok (trapezoidal_rule DZ ts).
Proof.
  intros H. unfold TRAP_of.
  pose proof (trapezoid_rule A (JGI - 1) DZ ts 0 0.0 H) as E.
  simpl in E. rewrite E. f_equal. lra.
Qed.

Section SUBCAL_facts.

Variables (AMPL WAVEN : R).
Variables (T : R) (IADV : Z) (CONBET CONTRM CONB1 CONB2 : R) (JNP1 : nat).
Variables (DTEND G : R) (k JGI : nat) (DZ DTAUS : R) (ITYPE : Z) (KRR : nat).
Variables (IRIFT : Z) (DTBEGX BETA1 : R) (JSUBS : Z).

Local Abbreviation SUBCAL' :=
  (SUBCAL AMPL WAVEN T IADV CONBET CONTRM CONB1 CONB2 JNP1 DTEND G k JGI DZ
     DTAUS ITYPE KRR IRIFT DTBEGX BETA1 JSUBS).
Local Abbreviation BETAT' :=
  (BETAT_of AMPL WAVEN ITYPE G DTEND DTAUS JSUBS (WWW_of KRR T DTBEGX)).

(** What a call that returns has written. *)
Lemma SUBCAL_Ok (st st' : store) :
  SUBCAL' st = Ok st' ->
  K st' = K st /\ TEM st' = TEM st /\
  (forall r i, r <> 1%nat \/ i <> (k - 1)%nat ->
               aget (DATA st') r i = aget (DATA st) r i) /\
  exists TRAP,
    TRAP_of (TEM st) JGI DZ JNP1 = Ok TRAP /\
    ((IADV = 1)%Z ->
     exists BETAT,
       BETAT' = Ok (Some BETAT) /\
       let SUBS := stretching_subsidence CONBET CONTRM KRR BETAT BETA1 TRAP in
       fget (DATA st') 1 (k - 1) = Ok (SUBS * 1e-3) /\
       (T = DTEND -> TRINIT st' = TRAP /\ SINIT st' = SUBS * 1e-3) /\
       (T <> DTEND -> TRINIT st' = TRINIT st /\ SINIT st' = SINIT st)) /\
    ((IADV <> 1)%Z ->
     fget (DATA st') 1 (k - 1)
       = Ok (CONTRM * (TRINIT st - TRAP) * 1e-3 + SINIT st) /\
     TRINIT st' = TRINIT st /\ SINIT st' = SINIT st).
Proof.
  unfold SUBCAL. intros H.
  destruct (decide (IADV = 1)%Z) as [HI|HI].
  - bind_inv H as B HB. bind_inv H as TRAP HTRAP.
    bind_inv H as SUBS HSUBS. bind_inv H as D HD.
    assert (Hget : fget D 1 (k - 1) = Ok (SUBS * 1e-3)).
    { apply fget_Ok. apply (aget_aset_eq _ _ _ _ _ HD). }
    assert (HSUBS' : exists BETAT, B = Some BETAT /\
              SUBS = stretching_subsidence CONBET CONTRM KRR BETAT BETA1 TRAP).
    { destruct B as [BETAT|]; [|discriminate]. exists BETAT.
      split; [reflexivity|]. unfold stretching_subsidence.
      destruct (decide (KRR = 0%nat)).
      - bind_inv HSUBS as i Hi. apply py_div_Ok in Hi as [_ ->].
        injection HSUBS as <-. reflexivity.
      - bind_inv HSUBS as i Hi. bind_inv HSUBS as j Hj.
        apply py_div_Ok in Hi as [_ ->]. apply py_div_Ok in Hj as [_ ->].
        injection HSUBS as <-. reflexivity. }
    destruct HSUBS' as (BETAT & -> & ->).
    destruct (decide (T = DTEND)) as [HT|HT].
    + bind_inv H as s Hs. injection H as <-. simpl in *.
      rewrite Hget in Hs. injection Hs as <-.
      split; [reflexivity|]. split; [reflexivity|]. split.
      { intros r i Hne. apply (aget_aset_ne _ _ _ _ _ _ _ HD Hne). }
      exists TRAP. split; [exact HTRAP|]. split; [|contradiction].
      intros _. exists BETAT. split; [exact HB|]. simpl.
      split; [exact Hget|]. split; [auto|contradiction].
    + injection H as <-. simpl in *.
      split; [reflexivity|]. split; [reflexivity|]. split.
      { intros r i Hne. apply (aget_aset_ne _ _ _ _ _ _ _ HD Hne). }
      exists TRAP. split; [exact HTRAP|]. split; [|contradiction].
      intros _. exists BETAT. split; [exact HB|]. simpl.
      split; [exact Hget|]. split; [contradiction|auto].
  - bind_inv H as TRAP HTRAP. bind_inv H as D HD. injection H as <-. simpl.
    split; [reflexivity|]. split; [reflexivity|]. split.
    { intros r i Hne. apply (aget_aset_ne _ _ _ _ _ _ _ HD Hne). }
    exists TRAP. split; [exact HTRAP|]. split; [contradiction|].
    intros _. split; [|auto].
    apply fget_Ok. apply (aget_aset_eq _ _ _ _ _ HD).
Qed.

End SUBCAL_facts.

(** ** The temperature buffers *)

Section Buffers.

Variables (AMPL WAVEN : R).
Variables (G DTEND DTSTOP DTAUS CONBET CONTRM DTBEGX DTBEGY DTST : R).
Variables (ITYPE IHFLW : Z) (KRR : nat) (IRIFT : Z).
Variables (BETA1 CONB1 CONB2 : R).

Local Abbreviation node_update' :=
  (node_update AMPL WAVEN G DTEND DTAUS DTBEGX ITYPE KRR).
Local Abbreviation for_nodes' :=
  (for_nodes AMPL WAVEN G DTEND DTAUS DTBEGX ITYPE KRR).
Local Abbreviation advance' := (advance AMPL WAVEN G DTEND DTAUS DTBEGX ITYPE KRR).
Local Abbreviation record_row' :=
  (record_row AMPL WAVEN G DTEND DTAUS CONBET CONTRM DTBEGX ITYPE IHFLW KRR
     IRIFT BETA1 CONB1 CONB2).
Local Abbreviation next_step' :=
  (next_step DTEND DTSTOP DTBEGX DTBEGY KRR IRIFT).
Local Abbreviation loop_body' :=
  (loop_body AMPL WAVEN G DTEND DTSTOP DTAUS CONBET CONTRM DTBEGX DTBEGY DTST
     ITYPE IHFLW KRR IRIFT BETA1 CONB1 CONB2).
Local Abbreviation TIMSTR_loop' :=
  (TIMSTR_loop AMPL WAVEN G DTEND DTSTOP DTAUS CONBET CONTRM DTBEGX DTBEGY DTST
     ITYPE IHFLW KRR IRIFT BETA1 CONB1 CONB2).
Local Abbreviation TIMSTR' :=
  (TIMSTR AMPL WAVEN G DTEND DTSTOP DTAUS CONBET CONTRM DTBEGX DTBEGY DTST
     ITYPE IHFLW KRR IRIFT BETA1 CONB1 CONB2).

(** A node update writes the one cell [J-1] of the buffer [JGF]. *)
Lemma node_update_frame (l : locals) (A A' : array) (J : nat) :
  node_update' l A J = Ok A' ->
  forall r j, r <> (JGF l - 1)%nat \/ j <> (J - 1)%nat ->
              aget A' r j = aget A r j.
Proof.
  unfold node_update. intros H r j Hne.
  bind_inv H as a Ha. bind_inv H as b Hb. bind_inv H as c Hc.
  bind_inv H as ADV HADV.
  apply (aget_aset_ne _ _ _ _ _ _ _ H Hne).
Qed.

Lemma for_nodes_frame (l : locals) (Js : list nat) :
  forall (A A' : array),
    for_nodes' l A Js = Ok A' ->
    forall r j, r <> (JGF l - 1)%nat \/ Forall (fun J => j <> (J - 1)%nat) Js ->
                aget A' r j = aget A r j.
Proof.
  induction Js as [|J Js IH]; intros A A' H r j Hne; simpl in H.
  - injection H as <-. reflexivity.
  - bind_inv H as A1 H1.
    rewrite (IH _ _ H r j).
    + apply (node_update_frame _ _ _ _ H1).
      destruct Hne as [Hr|Hj]; [left; exact Hr|].
      right. apply (Forall_inv Hj).
    + destruct Hne as [Hr|Hj]; [left; exact Hr|].
      right. apply (Forall_inv_tail Hj).
Qed.

(** The interior nodes are the cells 1..19. *)
Lemma interior_nodes (j : nat) :
  (j = 0 \/ JN <= j)%nat -> Forall (fun J => j <> (J - 1)%nat) (seq 2 (JN - 1)).
Proof.
  intros Hj. apply Forall_forall. intros J HJ.
  apply elem_of_seq in HJ. unfold JN in *. lia.
Qed.

Lemma advance_frame (DTI : R) (l l' : locals) (st st' : store) :
  advance' DTI l st = Ok (l', st') ->
  K st' = K st /\ DATA st' = DATA st /\
  TRINIT st' = TRINIT st /\ SINIT st' = SINIT st /\
  forall r j, (j = 0 \/ JN <= j)%nat -> aget (TEM st') r j = aget (TEM st) r j.
Proof.
  unfold advance. intros H. bind_inv H as A HA.
  assert (E : st' = set_TEM A st).
  { destruct (decide (JGI l = 1%nat)); [|destruct (decide (JGI l = 2%nat))];
      injection H as _ <-; reflexivity. }
  subst st'. simpl. repeat (split; [reflexivity|]).
  intros r j Hj. apply (for_nodes_frame _ _ _ _ HA). right.
  apply interior_nodes, Hj.
Qed.

Lemma record_row_frame (l : locals) (st st' : store) :
  record_row' l st = Ok st' ->
  K st' = (K st + 1)%nat /\ TEM st' = TEM st /\
  forall r i, i <> K st -> aget (DATA st') r i = aget (DATA st) r i.
Proof.
  unfold record_row. intros H.
  bind_inv H as D0 HD0. bind_inv H as st1 Hsub.
  apply SUBCAL_Ok in Hsub as (HK1 & HT1 & HF1 & _).
  simpl in HK1, HT1, HF1, HD0.
  replace (K st + 1 - 1)%nat with (K st) in * by lia.
  assert (HF0 : forall r i, i <> K st -> aget (DATA st1) r i = aget (DATA st) r i).
  { intros r i Hi. rewrite HF1 by (right; exact Hi).
    apply (aget_aset_ne _ _ _ _ _ _ _ HD0). right. exact Hi. }
  destruct (decide (IHFLW = 1)%Z).
  2:{ injection H as <-. auto. }
  bind_inv H as x Hx. bind_inv H as D2 HD2. rewrite HK1 in *.
  replace (K st + 1 - 1)%nat with (K st) in * by lia.
  assert (HF2 : forall r i, i <> K st -> aget D2 r i = aget (DATA st) r i).
  { intros r i Hi. rewrite <- HF0 by exact Hi.
    apply (aget_aset_ne _ _ _ _ _ _ _ HD2). right. exact Hi. }
  destruct (decide (IADV l = 0)%Z).
  { bind_inv H as D3 HD3. injection H as <-. simpl.
    split; [exact HK1|]. split; [exact HT1|].
    intros r i Hi. rewrite <- HF2 by exact Hi.
    apply (aget_aset_ne _ _ _ _ _ _ _ HD3). right. exact Hi. }
  destruct (decide (IADV l = 1)%Z).
  2:{ injection H as <-. simpl. auto. }
  bind_inv H as sr Hsr. destruct sr as [sr|].
  2:{ injection H as <-. simpl. auto. }
  bind_inv H as D3 HD3. injection H as <-. simpl.
  split; [exact HK1|]. split; [exact HT1|].
  intros r i Hi. rewrite <- HF2 by exact Hi.
  apply (aget_aset_ne _ _ _ _ _ _ _ HD3). right. exact Hi.
Qed.

Lemma next_step_store (l : locals) (st : store) (c : control) :
  next_step' l st = Ok c -> store_of c = st.
Proof.
  unfold next_step. intros H.
  repeat case_decide; simpl in H; try (injection H as <-; reflexivity).
  bind_inv H. injection H as <-. reflexivity.
Qed.

Lemma loop_body_frame (DTI : R) (l : locals) (st : store) (c : control) :
  loop_body' DTI l st = Ok c ->
  (K st <= K (store_of c) <= K st + 1)%nat /\
  (forall r i, (i < K st)%nat ->
               aget (DATA (store_of c)) r i = aget (DATA st) r i) /\
  forall r j, (j = 0 \/ JN <= j)%nat ->
              aget (TEM (store_of c)) r j = aget (TEM st) r j.
Proof.
  unfold loop_body. intros H.
  bind_inv H as ls Hadv. destruct ls as [l1 st1].
  bind_inv H as t0 Ht0. bind_inv H as st2 Hrec.
  apply advance_frame in Hadv as (HK & HD & _ & _ & HT).
  apply next_step_store in H. rewrite H.
  case_decide.
  - apply record_row_frame in Hrec as (HK2 & HT2 & HF2).
    rewrite HK2, HT2, HK. split; [lia|]. split; [|exact HT].
    intros r i Hi. rewrite HF2 by lia. rewrite HD. reflexivity.
  - injection Hrec as <-. rewrite HK, HD. split; [lia|]. split; [auto|exact HT].
Qed.

Lemma TIMSTR_loop_frame (DTI : R) (fuel : nat) :
  forall (l : locals) (st st' : store),
    TIMSTR_loop' fuel DTI l st = Ok st' ->
    (K st <= K st')%nat /\
    (forall r i, (i < K st)%nat -> aget (DATA st') r i = aget (DATA st) r i) /\
    forall r j, (j = 0 \/ JN <= j)%nat ->
                aget (TEM st') r j = aget (TEM st) r j.
Proof.
  induction fuel as [|fuel IH]; intros l st st' H; simpl in H; [discriminate|].
  bind_inv H as c Hc. apply loop_body_frame in Hc as (HK & HD & HT).
  destruct c as [l1 st1|st1]; simpl in *.
  - apply IH in H as (HK' & HD' & HT').
    split; [lia|]. split.
    + intros r i Hi. rewrite HD' by lia. apply HD, Hi.
    + intros r j Hj. rewrite HT' by exact Hj. apply HT, Hj.
  - injection H as <-. split; [lia|]. auto.
Qed.

Lemma init_TEM_frame (JGI JGF : nat) (Js : list nat) :
  forall (A A' : array),
    init_TEM JGI JGF A Js = Ok A' ->
    forall r j, Forall (fun J => j <> (J - 1)%nat) Js ->
                aget A' r j = aget A r j.
Proof.
  induction Js as [|J Js IH]; intros A A' H r j Hj; simpl in H.
  - injection H as <-. reflexivity.
  - bind_inv H as A1 H1. bind_inv H as A2 H2.
    rewrite (IH _ _ H r j (Forall_inv_tail Hj)).
    rewrite (aget_aset_ne _ _ _ _ _ _ _ H2) by (right; apply (Forall_inv Hj)).
    apply (aget_aset_ne _ _ _ _ _ _ _ H1). right. apply (Forall_inv Hj).
Qed.

Lemma init_TEM_cells (JGI JGF : nat) (Js : list nat) :
  forall (A A' : array),
    init_TEM JGI JGF A Js = Ok A' ->
    NoDup Js -> Forall (fun J => 1 <= J)%nat Js ->
    forall J, J ∈ Js ->
      aget A' (JGI - 1) (J - 1) = Ok (Some (1 - DZ * INR (J - 1))) /\
      aget A' (JGF - 1) (J - 1) = Ok (Some (1 - DZ * INR (J - 1))).
Proof.
  induction Js as [|J0 Js IH]; intros A A' H Hnd Hpos J HJ; simpl in H.
  - apply elem_of_nil in HJ. contradiction.
  - bind_inv H as A1 H1. bind_inv H as A2 H2.
    apply NoDup_cons in Hnd as [Hnin Hnd].
    apply Forall_cons in Hpos as [Hp0 Hpos].
    apply elem_of_cons in HJ as [->|HJ].
    + assert (Hfr : Forall (fun J => (J0 - 1)%nat <> (J - 1)%nat) Js).
      { apply Forall_forall. intros J HJ.
        pose proof (proj1 (Forall_forall _ _) Hpos J HJ) as HJ1. simpl in HJ1.
        intros E. assert (J = J0) by lia. subst. contradiction. }
      rewrite !(init_TEM_frame _ _ _ _ _ H _ _ Hfr).
      split; [|apply (aget_aset_eq _ _ _ _ _ H2)].
      rewrite (aget_aset _ _ _ _ (JGI - 1)%nat (J0 - 1)%nat _ H2).
      case_decide; [reflexivity|]. apply (aget_aset_eq _ _ _ _ _ H1).
    + apply (IH _ _ H Hnd Hpos J HJ).
Qed.

Lemma first_row_frame (T0 : R) (st st' : store) :
  first_row AMPL WAVEN G DTEND DTAUS ITYPE IHFLW KRR T0 st = Ok st' ->
  K st' = K st /\ TEM st' = TEM st /\
  forall r i, i <> (K st - 1)%nat -> aget (DATA st') r i = aget (DATA st) r i.
Proof.
  unfold first_row. intros H. bind_inv H as st1 H1.
  assert (E1 : K st1 = K st /\ TEM st1 = TEM st /\
               forall r i, i <> (K st - 1)%nat ->
                           aget (DATA st1) r i = aget (DATA st) r i).
  { destruct (decide (KRR = 0%nat)).
    - bind_inv H1 as D0 HD0. bind_inv H1 as D1 HD1. injection H1 as <-. simpl.
      split; [reflexivity|]. split; [reflexivity|]. intros r i Hi.
      rewrite (aget_aset_ne _ _ _ _ _ _ _ HD1) by (right; exact Hi).
      apply (aget_aset_ne _ _ _ _ _ _ _ HD0). right. exact Hi.
    - injection H1 as <-. auto. }
  destruct E1 as (EK & ET & EF).
  destruct (decide (IHFLW = 1)%Z); [|injection H as <-; auto].
  destruct (decide (KRR = 0%nat)); [|injection H as <-; auto].
  bind_inv H as D2 HD2. bind_inv H as sr Hsr. rewrite EK in *.
  assert (EF2 : forall r i, i <> (K st - 1)%nat ->
                            aget D2 r i = aget (DATA st) r i).
  { intros r i Hi. rewrite <- EF by exact Hi.
    apply (aget_aset_ne _ _ _ _ _ _ _ HD2). right. exact Hi. }
  destruct sr as [sr|].
  - bind_inv H as D3 HD3. injection H as <-. simpl.
    split; [exact EK|]. split; [exact ET|]. intros r i Hi.
    rewrite <- EF2 by exact Hi.
    apply (aget_aset_ne _ _ _ _ _ _ _ HD3). right. exact Hi.
  - injection H as <-. simpl. auto.
Qed.

(** C9.  The explicit update writes the cells 1..19 of a buffer: every pass
    of the loop of [TIMSTR], whatever it does else, leaves the surface cell 0
    and the base cell [JN] of every buffer as they were, and so does a whole
    solver run.  In a first rift period both buffers are initialised first,
    and their boundary cells hold 1 and 0 after the run; in a later period
    they hold what the previous period left. *)
Theorem boundary_nodes_fixed :
  (forall DTI l st c,
     loop_body' DTI l st = Ok c ->
     forall r, aget (TEM (store_of c)) r 0 = aget (TEM st) r 0 /\
               aget (TEM (store_of c)) r JN = aget (TEM st) r JN) /\
  (forall fuel st st',
     TIMSTR' fuel st = Ok st' ->
     (KRR = 0%nat ->
      forall r, (r < 2)%nat ->
                aget (TEM st') r 0 = Ok (Some 1) /\
                aget (TEM st') r JN = Ok (Some 0)) /\
     (KRR <> 0%nat ->
      forall r, aget (TEM st') r 0 = aget (TEM st) r 0 /\
                aget (TEM st') r JN = aget (TEM st) r JN)).
Proof.
  split.
  - intros DTI l st c H r.
    apply loop_body_frame in H as (_ & _ & HT).
    split; apply HT; [left; reflexivity | right; lia].
  - intros fuel st st' H. unfold TIMSTR in H.
    bind_split H as DTI HDTI. cbv zeta in H.
    bind_split H as st1 H1. bind_split H as st2 H2.
    apply first_row_frame in H1 as (_ & HT1 & _).
    apply TIMSTR_loop_frame in H as (_ & _ & HT).
    split.
    + intros HK r Hr. rewrite decide_True in H2 by exact HK.
      bind_split H2 as A HA. injection H2 as <-. simpl in HT.
      rewrite !HT by (unfold JN; lia).
      assert (Hnd : NoDup (seq 1 JNP1)) by apply NoDup_seq.
      assert (Hpos : Forall (fun J => 1 <= J)%nat (seq 1 JNP1)).
      { apply Forall_forall. intros J HJ. apply elem_of_seq in HJ. lia. }
      assert (H1in : 1%nat ∈ seq 1 JNP1)
        by (apply elem_of_seq; unfold JNP1, JN; lia).
      assert (H21in : 21%nat ∈ seq 1 JNP1)
        by (apply elem_of_seq; unfold JNP1, JN; lia).
      destruct (init_TEM_cells _ _ _ _ _ HA Hnd Hpos 1%nat H1in) as [Ha Hb].
      destruct (init_TEM_cells _ _ _ _ _ HA Hnd Hpos 21%nat H21in) as [Hc Hd].
      simpl in Ha, Hb, Hc, Hd.
      assert (E0 : 1 - DZ * 0 = 1) by lra.
      assert (E20 : 1 - DZ * (1+1+1+1+1+1+1+1+1+1+1+1+1+1+1+1+1+1+1+1) = 0)
        by (unfold DZ; lra).
      rewrite E0 in Ha, Hb. rewrite E20 in Hc, Hd.
      assert (Hr' : r = 0%nat \/ r = 1%nat) by lia.
      destruct Hr' as [->| ->]; split; assumption.
    + intros HK r. rewrite decide_False in H2 by exact HK.
      injection H2 as <-. rewrite <- HT1.
      split; apply HT; [left; reflexivity | right; lia].
Qed.

End Buffers.

(** ** A solver run of regime 1 returns *)

Lemma cells_frame (n : nat) (A A' : array) (r0 i0 : nat) :
  cells n A ->
  (forall r i, r <> r0 \/ i <> i0 -> aget A' r i = aget A r i) ->
  (exists c, aget A' r0 i0 = Ok c) ->
  cells n A'.
Proof.
  intros HA Hfr Hc r i Hr Hi.
  destruct (decide (r = r0 /\ i = i0)) as [[-> ->]|Hne]; [exact Hc|].
  rewrite Hfr; [apply HA; assumption|].
  destruct (decide (r = r0)) as [Er|Er];
    [right; intros E; apply Hne; auto | left; exact Er].
Qed.

Lemma floats_cell (A : array) (r n j : nat) :
  floats A r n -> (j < n)%nat -> exists x, aget A r j = Ok (Some x).
Proof.
  intros H Hj. destruct (H j Hj) as [x Hx]. exists x. apply fget_Ok, Hx.
Qed.

Lemma trapezoid_Ok (A : array) (r n : nat) (DZ : R) (Is : list nat) :
  floats A r n -> Forall (fun i => (i - 1 < n)%nat) Is ->
  forall acc, exists x, trapezoid A r DZ Is acc = Ok x.
Proof.
  intros HA. induction Is as [|i Is IH]; intros HIs acc; simpl.
  - eauto.
  - apply Forall_cons in HIs as [Hi HIs].
    destruct (HA (i - 2)%nat ltac:(lia)) as [a ->].
    destruct (HA (i - 1)%nat ltac:(lia)) as [b ->]. simpl.
    apply IH, HIs.
Qed.

Lemma TRAP_of_Ok (A : array) (JGI : nat) (DZ : R) :
  floats A (JGI - 1) JNP1 -> exists x, TRAP_of A JGI DZ JNP1 = Ok x.
Proof.
  intros HA. unfold TRAP_of. apply (trapezoid_Ok A _ JNP1); [exact HA|].
  apply Forall_forall. intros i Hi. apply elem_of_seq in Hi.
  unfold JNP1, JN in *. lia.
Qed.

Lemma exp_nonzero (x : R) : exp x <> 0.
Proof. pose proof (exp_pos x). lra. Qed.

Section Regime1.

Variables (AMPL WAVEN : R).
Variables (G DTEND DTSTOP DTAUS CONBET CONTRM DTBEGX DTBEGY DTST : R).
Variables (ITYPE IHFLW : Z) (KRR : nat) (IRIFT : Z).
Variables (BETA1 CONB1 CONB2 : R).

Hypothesis HITYPE : ITYPE = 1%Z.
Hypothesis HIHFLW : IHFLW = 1%Z.
Hypothesis HBETA1 : KRR = 0%nat \/ BETA1 <> 0.

Local Abbreviation node_update' :=
  (node_update AMPL WAVEN G DTEND DTAUS DTBEGX ITYPE KRR).
Local Abbreviation for_nodes' :=
  (for_nodes AMPL WAVEN G DTEND DTAUS DTBEGX ITYPE KRR).
Local Abbreviation advance' := (advance AMPL WAVEN G DTEND DTAUS DTBEGX ITYPE KRR).
Local Abbreviation record_row' :=
  (record_row AMPL WAVEN G DTEND DTAUS CONBET CONTRM DTBEGX ITYPE IHFLW KRR
     IRIFT BETA1 CONB1 CONB2).
Local Abbreviation DTHALT' := (DTHALT DTSTOP DTBEGX DTBEGY KRR IRIFT).
Local Abbreviation next_step' :=
  (next_step DTEND DTSTOP DTBEGX DTBEGY KRR IRIFT).
Local Abbreviation loop_body' :=
  (loop_body AMPL WAVEN G DTEND DTSTOP DTAUS CONBET CONTRM DTBEGX DTBEGY DTST
     ITYPE IHFLW KRR IRIFT BETA1 CONB1 CONB2).
Local Abbreviation TIMSTR_loop' :=
  (TIMSTR_loop AMPL WAVEN G DTEND DTSTOP DTAUS CONBET CONTRM DTBEGX DTBEGY DTST
     ITYPE IHFLW KRR IRIFT BETA1 CONB1 CONB2).
Local Abbreviation TIMSTR' :=
  (TIMSTR AMPL WAVEN G DTEND DTSTOP DTAUS CONBET CONTRM DTBEGX DTBEGY DTST
     ITYPE IHFLW KRR IRIFT BETA1 CONB1 CONB2).

Lemma SUBCAL_regime1_Ok (T0 : R) (IADV0 : Z) (k JGI0 : nat) (st : store) :
  floats (TEM st) (JGI0 - 1) JNP1 ->
  (exists c, aget (DATA st) 1 (k - 1) = Ok c) ->
  exists st',
    SUBCAL AMPL WAVEN T0 IADV0 CONBET CONTRM CONB1 CONB2 JNP1 DTEND G k JGI0
      DZ DTAUS ITYPE KRR IRIFT DTBEGX BETA1 JSUBS st = Ok st'.
Proof.
  intros HT [c Hc]. unfold SUBCAL.
  destruct (TRAP_of_Ok _ _ DZ HT) as [TRAP HTRAP].
  destruct (decide (IADV0 = 1)%Z).
  - unfold BETAT_of. rewrite decide_True by exact HITYPE. simpl.
    rewrite HTRAP. simpl.
    set (B := exp (G * WWW_of KRR T0 DTBEGX)).
    assert (HB : B <> 0) by apply exp_nonzero.
    assert (HS : exists SUBS,
      (if decide (KRR = 0%nat)
       then py_div 1 B ≫= fun i => Ok (CONBET * (1 - i) + CONTRM * (0.5 - TRAP))
       else py_div 1 B ≫= fun i => py_div 1 BETA1 ≫= fun j =>
              Ok (CONBET * (2 - i - j) + CONTRM * (0.5 - TRAP))) = Ok SUBS).
    { rewrite (py_div_nonzero 1 B HB). simpl.
      destruct (decide (KRR = 0%nat)) as [HK|HK]; [eauto|].
      destruct HBETA1 as [?|HB1]; [contradiction|].
      rewrite (py_div_nonzero 1 BETA1 HB1). simpl. eauto. }
    destruct HS as [SUBS ->]. simpl.
    destruct (decide (T0 = DTEND)); simpl.
    + destruct (aget_aset_exists _ _ _ _ (Some (SUBS * 1e-3)) Hc) as [D HD].
      rewrite HD. simpl. unfold fget.
      rewrite (aget_aset_eq _ _ _ _ _ HD). simpl. eauto.
    + destruct (aget_aset_exists _ _ _ _ (Some (SUBS * 1e-3)) Hc) as [D HD].
      rewrite HD. simpl. eauto.
  - rewrite HTRAP. simpl.
    destruct (aget_aset_exists _ _ _ _
      (Some (CONTRM * (TRINIT st - TRAP) * 1e-3 + SINIT st)) Hc) as [D HD].
    rewrite HD. simpl. eauto.
Qed.

Lemma advection_Ok (l : locals) (A : array) (J : nat) :
  ping_pong l -> (IADV l = 0%Z \/ IADV l = 1%Z) ->
  floats A 0 JNP1 -> floats A 1 JNP1 -> (2 <= J <= JN)%nat ->
  exists x, advection AMPL WAVEN G DTEND DTAUS DTBEGX ITYPE KRR l A J = Ok x.
Proof.
  intros Hpp HI H0 H1 HJ. unfold advection.
  assert (HA : floats A (JGI l - 1) JNP1)
    by (destruct Hpp as [[-> _]|[-> _]]; assumption).
  destruct HI as [HI|HI].
  - rewrite !decide_False by (intros [? ?]; lia). eauto.
  - rewrite decide_True by (split; assumption).
    destruct (HA J ltac:(unfold JNP1, JN in *; lia)) as [a ->].
    destruct (HA (J - 2)%nat ltac:(unfold JNP1, JN in *; lia)) as [c ->].
    simpl. eauto.
Qed.

Lemma node_update_Ok (l : locals) (A : array) (J : nat) :
  ping_pong l -> (IADV l = 0%Z \/ IADV l = 1%Z) ->
  cells NDIM2 A -> floats A 0 JNP1 -> floats A 1 JNP1 -> (2 <= J <= JN)%nat ->
  exists A', node_update' l A J = Ok A' /\
             cells NDIM2 A' /\ floats A' 0 JNP1 /\ floats A' 1 JNP1.
Proof.
  intros Hpp HI Hc H0 H1 HJ. unfold node_update.
  assert (HA : floats A (JGI l - 1) JNP1)
    by (destruct Hpp as [[-> _]|[-> _]]; assumption).
  assert (HF : floats A (JGF l - 1) JNP1)
    by (destruct Hpp as [[_ ->]|[_ ->]]; assumption).
  destruct (HA J ltac:(unfold JNP1, JN in *; lia)) as [a ->].
  destruct (HA (J - 1)%nat ltac:(unfold JNP1, JN in *; lia)) as [b ->].
  destruct (HA (J - 2)%nat ltac:(unfold JNP1, JN in *; lia)) as [c ->].
  simpl.
  destruct (advection_Ok l A J Hpp HI H0 H1 HJ) as [ADV ->]. simpl.
  destruct (floats_cell _ _ _ (J - 1)%nat HF ltac:(unfold JNP1, JN in *; lia))
    as [x Hx].
  destruct (aget_aset_exists _ _ _ _
    (Some (b + DT l * ((a - 2 * b + c) / DZ ^ 2 - ADV))) Hx) as [A' HA'].
  exists A'. split; [exact HA'|]. split; [|split].
  - apply (aset_cells _ _ _ _ _ _ HA' Hc).
  - apply (aset_floats _ _ _ _ _ _ _ HA' H0).
  - apply (aset_floats _ _ _ _ _ _ _ HA' H1).
Qed.

Lemma for_nodes_Ok (l : locals) (Js : list nat) :
  ping_pong l -> (IADV l = 0%Z \/ IADV l = 1%Z) ->
  Forall (fun J => 2 <= J <= JN)%nat Js ->
  forall A, cells NDIM2 A -> floats A 0 JNP1 -> floats A 1 JNP1 ->
  exists A', for_nodes' l A Js = Ok A' /\
             cells NDIM2 A' /\ floats A' 0 JNP1 /\ floats A' 1 JNP1.
Proof.
  intros Hpp HI. induction Js as [|J Js IH]; intros HJs A Hc H0 H1; simpl.
  - eauto.
  - apply Forall_cons in HJs as [HJ HJs].
    destruct (node_update_Ok l A J Hpp HI Hc H0 H1 HJ)
      as (A1 & -> & Hc1 & H01 & H11).
    simpl. apply (IH HJs A1 Hc1 H01 H11).
Qed.

Lemma advance_Ok (DTI : R) (l : locals) (st : store) :
  ping_pong l -> (IADV l = 0%Z \/ IADV l = 1%Z) ->
  cells NDIM2 (TEM st) -> floats (TEM st) 0 JNP1 -> floats (TEM st) 1 JNP1 ->
  exists l' st',
    advance' DTI l st = Ok (l', st') /\
    T l' = T l + DT l /\ DT l' = DTI /\
    JFLAG l' = JFLAG l /\ IADV l' = IADV l /\ ping_pong l' /\
    K st' = K st /\ DATA st' = DATA st /\
    cells NDIM2 (TEM st') /\ floats (TEM st') 0 JNP1 /\ floats (TEM st') 1 JNP1.
Proof.
  intros Hpp HI Hc H0 H1. unfold advance.
  assert (HJs : Forall (fun J => 2 <= J <= JN)%nat (seq 2 (JN - 1))).
  { apply Forall_forall. intros J HJ. apply elem_of_seq in HJ.
    unfold JN in *. lia. }
  destruct (for_nodes_Ok l _ Hpp HI HJs (TEM st) Hc H0 H1)
    as (A' & -> & Hc' & H0' & H1').
  cbv beta iota. simpl mbind.
  destruct Hpp as [[E1 E2]|[E1 E2]]; rewrite E1.
  - rewrite decide_True by reflexivity.
    eexists _, _. split; [reflexivity|]. simpl.
    repeat (split; [first [reflexivity | assumption]|]).
    split; [right; auto|]. repeat (split; [first [reflexivity | assumption]|]).
    assumption.
  - rewrite decide_False by lia. rewrite decide_True by reflexivity.
    eexists _, _. split; [reflexivity|]. simpl.
    repeat (split; [first [reflexivity | assumption]|]).
    split; [left; auto|]. repeat (split; [first [reflexivity | assumption]|]).
    assumption.
Qed.

Lemma record_row_Ok (l : locals) (st : store) :
  ping_pong l -> (IADV l = 0%Z \/ IADV l = 1%Z) ->
  cells NDIM2 (DATA st) -> (K st < NDIM2)%nat ->
  floats (TEM st) 0 JNP1 -> floats (TEM st) 1 JNP1 ->
  exists st',
    record_row' l st = Ok st' /\
    cells NDIM2 (DATA st') /\
    fget (DATA st') 0 (K st) = Ok (T l) /\
    forall r, (r < NDIM1)%nat -> exists x, fget (DATA st') r (K st) = Ok x.
Proof.
  intros Hpp HI Hc HK H0 H1.
  assert (HA : floats (TEM st) (JGI l - 1) JNP1)
    by (destruct Hpp as [[-> _]|[-> _]]; assumption).
  destruct (aset_cells_Ok NDIM2 (DATA st) 0 (K st) (Some (T l)) Hc
              ltac:(unfold NDIM1; lia) HK) as [D0 HD0].
  pose proof (aset_cells _ _ _ _ _ _ HD0 Hc) as Hc0.
  set (sta := set_DATA D0 (set_K (K st + 1) st)).
  destruct (SUBCAL_regime1_Ok (T l) (IADV l) (K st + 1) (JGI l) sta) as [st1 Hsub].
  { exact HA. }
  { replace (K st + 1 - 1)%nat with (K st) by lia.
    apply Hc0; [unfold NDIM1; lia | exact HK]. }
  pose proof (SUBCAL_Ok _ _ _ _ _ _ _ _ _ _ _ _ _ _ _ _ _ _ _ _ _ _ _ Hsub)
    as (HK1 & HT1 & HF1 & TRAP & _ & Ha & Hb).
  replace (K st + 1 - 1)%nat with (K st) in * by lia.
  simpl in HK1, HT1, HF1.
  assert (Hs1 : exists s, fget (DATA st1) 1 (K st) = Ok s).
  { destruct (decide (IADV l = 1)%Z) as [E|E].
    - destruct (Ha E) as (B & _ & Hg & _). eauto.
    - destruct (Hb E) as (Hg & _). eauto. }
  destruct Hs1 as [s Hs1].
  assert (Hc1 : cells NDIM2 (DATA st1)).
  { apply (cells_frame _ D0 _ 1 (K st) Hc0 HF1).
    exists (Some s). apply fget_Ok, Hs1. }
  rewrite <- HT1 in HA.
  destruct (HA (JN - 1)%nat ltac:(unfold JNP1, JN; lia)) as [x Hx].
  destruct (aset_cells_Ok NDIM2 (DATA st1) 2 (K st) (Some (x / DZ)) Hc1
              ltac:(unfold NDIM1; lia) HK) as [D2 HD2].
  pose proof (aset_cells _ _ _ _ _ _ HD2 Hc1) as Hc2.
  set (v := if decide (IADV l = 0)%Z then 0 else G).
  destruct (aset_cells_Ok NDIM2 D2 3 (K st) (Some v) Hc2
              ltac:(unfold NDIM1; lia) HK) as [D3 HD3].
  pose proof (aset_cells _ _ _ _ _ _ HD3 Hc2) as Hc3.
  exists (set_DATA D3 (set_DATA D2 st1)). split; [|split; [|split]].
  - unfold record_row. cbv zeta.
    apply bind_Ok. exists D0. split.
    { simpl. replace (K st + 1 - 1)%nat with (K st) by lia. exact HD0. }
    cbv beta. apply bind_Ok. exists st1. split; [exact Hsub|].
    cbv beta. rewrite decide_True by exact HIHFLW.
    apply bind_Ok. exists x. split; [exact Hx|]. cbv beta.
    rewrite HK1. replace (K st + 1 - 1)%nat with (K st) by lia.
    apply bind_Ok. exists D2. split; [exact HD2|]. cbv beta.
    unfold v in HD3. cbn [DATA K set_DATA]. rewrite HK1.
    replace (K st + 1 - 1)%nat with (K st) by lia.
    destruct HI as [E|E].
    + rewrite decide_True by exact E. rewrite (decide_True _ _ E) in HD3.
      rewrite HD3. reflexivity.
    + rewrite decide_False by lia. rewrite decide_True by exact E.
      rewrite decide_False in HD3 by lia.
      unfold strain_rate. rewrite decide_True by exact HITYPE. simpl.
      rewrite HD3. reflexivity.
  - exact Hc3.
  - simpl. unfold fget.
    rewrite (aget_aset_ne _ _ _ _ _ _ _ HD3) by (left; lia).
    rewrite (aget_aset_ne _ _ _ _ _ _ _ HD2) by (left; lia).
    rewrite HF1 by (left; lia).
    rewrite (aget_aset_eq _ _ _ _ _ HD0). reflexivity.
  - intros r Hr. simpl. unfold NDIM1 in Hr.
    assert (Er : r = 0%nat \/ r = 1%nat \/ r = 2%nat \/ r = 3%nat) by lia.
    destruct Er as [->|[->|[->| ->]]]; unfold fget.
    + rewrite (aget_aset_ne _ _ _ _ _ _ _ HD3) by (left; lia).
      rewrite (aget_aset_ne _ _ _ _ _ _ _ HD2) by (left; lia).
      rewrite HF1 by (left; lia).
      rewrite (aget_aset_eq _ _ _ _ _ HD0). simpl. eauto.
    + rewrite (aget_aset_ne _ _ _ _ _ _ _ HD3) by (left; lia).
      rewrite (aget_aset_ne _ _ _ _ _ _ _ HD2) by (left; lia).
      apply fget_Ok in Hs1. rewrite Hs1. simpl. eauto.
    + rewrite (aget_aset_ne _ _ _ _ _ _ _ HD3) by (left; lia).
      rewrite (aget_aset_eq _ _ _ _ _ HD2). simpl. eauto.
    + rewrite (aget_aset_eq _ _ _ _ _ HD3). simpl. eauto.
Qed.

Variable DTI : R.
Hypothesis HDTI : 0 < DTI.
Hypothesis Hhalt : DTEND <= DTHALT'.

Lemma potential_nonneg (l : locals) :
  ctl_inv DTEND DTHALT' l -> 0 <= potential DTHALT' DTI l.
Proof.
  unfold ctl_inv, potential.
  intros (_ & _ & [(-> & _ & H)|[(-> & _ & H)|(-> & _ & H)]]); simpl; lra.
Qed.

Lemma next_step_progress (l1 : locals) (st : store) :
  DT l1 = DTI -> ping_pong l1 ->
  ((JFLAG l1 = 0%Z /\ IADV l1 = 1%Z /\ T l1 <= DTEND) \/
   (JFLAG l1 = 1%Z /\ (IADV l1 = 0%Z \/ IADV l1 = 1%Z) /\
    DTEND <= T l1 <= DTHALT') \/
   (JFLAG l1 = 2%Z /\ (IADV l1 = 0%Z \/ IADV l1 = 1%Z) /\ T l1 = DTHALT')) ->
  (exists c, aget (DATA st) 1 (K st - 1) = Ok c) ->
  exists c,
    next_step' l1 st = Ok c /\ store_of c = st /\
    match c with
    | Continue l' _ =>
        ctl_inv DTEND DTHALT' l' /\ T l' = T l1 /\
        potential DTHALT' DTI l'
          <= (DTHALT' - T l1) + (2 - IZR (JFLAG l1)) * DTI - DTI
    | Break _ => True
    end.
Proof.
  intros HDT Hpp Hctl [c0 Hc0]. unfold next_step. rewrite HDT.
  destruct (decide (T l1 + DTI <= DTEND)) as [Ha|Ha].
  { (* the next step stays within the stretching *)
    eexists. split; [reflexivity|]. split; [reflexivity|].
    destruct Hctl as [(HJ & HI & HT)|[(HJ & HI & HT)|(HJ & HI & HT)]];
      try (exfalso; lra).
    unfold ctl_inv, potential. rewrite HDT, HJ. simpl.
    repeat split; try lra; auto. }
  destruct Hctl as [(HJ & HI & HT)|[(HJ & HI & HT)|(HJ & HI & HT)]].
  - (* the step is clipped to the end of the stretching *)
    rewrite decide_True by (split; [lra | exact HJ]).
    eexists. split; [reflexivity|]. split; [reflexivity|].
    unfold ctl_inv, potential. rewrite HJ. simpl.
    split; [|split; [reflexivity | lra]].
    split; [lra|]. split; [exact Hpp|].
    right. left. split; [reflexivity|]. split; [right; exact HI | lra].
  - rewrite decide_False by (intros [_ E]; rewrite HJ in E; discriminate).
    destruct (decide (T l1 + DTI < DTHALT')) as [Hc|Hc].
    + (* the next step is purely conductive *)
      rewrite decide_True by (split; [exact Hc | exact HJ]).
      eexists. split; [reflexivity|]. split; [reflexivity|].
      unfold ctl_inv, potential. simpl. rewrite ?HJ, ?HDT. simpl.
      split; [|split; [reflexivity | lra]].
      split; [lra|]. split; [exact Hpp|].
      right. left. split; [reflexivity|]. split; [left; reflexivity | lra].
    + (* the next step is the last one *)
      rewrite decide_False by (intros [E _]; lra).
      rewrite decide_True by (split; [lra | rewrite HJ; discriminate]).
      cbv zeta. simpl DT.
      destruct (decide (DTHALT' - T l1 <> 0)).
      * eexists. split; [reflexivity|]. split; [reflexivity|].
        unfold ctl_inv, potential. simpl. rewrite ?HJ, ?HDT. simpl.
        split; [|split; [reflexivity | lra]].
        split; [lra|]. split; [exact Hpp|].
        right. right. split; [reflexivity|]. split; [exact HI | lra].
      * eexists. split; [reflexivity|]. split; [reflexivity|]. exact I.
  - (* the halt time is reached *)
    rewrite decide_False by (intros [_ E]; rewrite HJ in E; discriminate).
    rewrite decide_False by (intros [_ E]; rewrite HJ in E; discriminate).
    rewrite decide_False by (intros [_ E]; apply E; exact HJ).
    rewrite decide_True by exact HJ.
    destruct (decide (IRIFT > 1)%Z).
    + rewrite Hc0. simpl. eexists. split; [reflexivity|]. split; [reflexivity|].
      exact I.
    + simpl. eexists. split; [reflexivity|]. split; [reflexivity|]. exact I.
Qed.

Lemma loop_body_progress (k0 : nat) (l : locals) (st : store) :
  ctl_inv DTEND DTHALT' l -> store_inv k0 (T l) st -> (K st < NDIM2)%nat ->
  exists c,
    loop_body' DTI l st = Ok c /\
    match c with
    | Continue l' st' =>
        ctl_inv DTEND DTHALT' l' /\ store_inv k0 (T l') st' /\
        potential DTHALT' DTI l' <= potential DTHALT' DTI l - DTI
    | Break st' => exists tmax, store_inv k0 tmax st'
    end.
Proof.
  intros (HDT & Hpp & Hctl) (Hc & HcT & Hk & H0 & H1 & Hcomp & Hsort & Hbel) HK.
  assert (HI : IADV l = 0%Z \/ IADV l = 1%Z).
  { destruct Hctl as [(_ & E & _)|[(_ & E & _)|(_ & E & _)]]; auto. }
  destruct (advance_Ok DTI l st Hpp HI HcT H0 H1)
    as (l1 & st1 & Hadv & HT1 & HDT1 & HJ1 & HI1 & Hpp1 & HK1 & HD1 & HcT1
        & H01 & H11).
  destruct (Hcomp (K st - 1)%nat 0%nat ltac:(lia) ltac:(unfold NDIM1; lia))
    as [t0 Ht0].
  assert (HI1' : IADV l1 = 0%Z \/ IADV l1 = 1%Z) by (rewrite HI1; exact HI).
  assert (Hst2 : exists st2,
    (if decide (T l1 >= t0 + DTST \/ T l1 = DTHALT' \/ T l1 = DTEND)
     then record_row' l1 st1 else Ok st1) = Ok st2 /\
    store_inv k0 (T l1) st2).
  { case_decide.
    - destruct (record_row_Ok l1 st1 Hpp1 HI1') as (st2 & Hrec & Hc2 & Htime & Hrow);
        [rewrite HD1; exact Hc | rewrite HK1; exact HK | exact H01 | exact H11 |].
      pose proof (record_row_frame _ _ _ _ _ _ _ _ _ _ _ _ _ _ _ _ _ _ Hrec)
        as (HK2 & HT2 & HF2).
      rewrite HK1 in *. rewrite HD1 in HF2.
      exists st2. split; [exact Hrec|].
      unfold store_inv. rewrite HT2, HK2.
      split; [exact Hc2|]. split; [exact HcT1|]. split; [lia|].
      split; [exact H01|]. split; [exact H11|].
      assert (Hold : forall i, (i < K st)%nat ->
                fget (DATA st2) 0 i = fget (DATA st) 0 i).
      { intros i Hi. unfold fget. rewrite HF2 by lia. reflexivity. }
      split; [|split].
      + intros i r Hi Hr. destruct (decide (i = K st)) as [->|Hne].
        * apply Hrow, Hr.
        * unfold fget. rewrite HF2 by exact Hne. apply Hcomp; [lia | exact Hr].
      + intros i j ti tj Hij Hj Hti Htj.
        destruct (decide (j = K st)) as [->|Hnj].
        * rewrite Htime in Htj. injection Htj as <-.
          destruct (decide (i = K st)) as [->|Hni].
          -- rewrite Htime in Hti. injection Hti as <-. lra.
          -- rewrite Hold in Hti by lia.
             pose proof (Hbel i ti ltac:(lia) Hti). lra.
        * rewrite Hold in Hti by lia. rewrite Hold in Htj by lia.
          apply (Hsort i j ti tj); [lia | lia | exact Hti | exact Htj].
      + intros i t Hi Hti.
        destruct (decide (i = K st)) as [->|Hni].
        * rewrite Htime in Hti. injection Hti as <-. lra.
        * rewrite Hold in Hti by lia.
          pose proof (Hbel i t ltac:(lia) Hti). lra.
    - exists st1. split; [reflexivity|].
      unfold store_inv. rewrite HK1, HD1.
      repeat (split; [assumption|]).
      intros i t Hi Hti. pose proof (Hbel i t Hi Hti). lra. }
  destruct Hst2 as (st2 & Hrec & Hinv2).
  destruct (next_step_progress l1 st2 HDT1 Hpp1) as (c & Hns & Hsto & Hc').
  { rewrite HJ1, HI1, HT1. exact Hctl. }
  { destruct Hinv2 as (_ & _ & Hk2 & _ & _ & Hcomp2 & _).
    destruct (Hcomp2 (K st2 - 1)%nat 1%nat ltac:(lia) ltac:(unfold NDIM1; lia))
      as [x Hx].
    exists (Some x). apply fget_Ok, Hx. }
  exists c. split.
  - unfold loop_body. apply bind_Ok. exists (l1, st1).
    split; [exact Hadv|]. cbv beta iota.
    apply bind_Ok. exists t0. split; [rewrite HD1, HK1; exact Ht0|].
    cbv beta. apply bind_Ok. exists st2. split; [exact Hrec | exact Hns].
  - destruct c as [l' st'|st']; simpl in Hsto; subst.
    + destruct Hc' as (Hctl' & HT' & Hpot).
      split; [exact Hctl'|]. split; [rewrite HT'; exact Hinv2|].
      unfold potential at 2. rewrite <- HT1, <- HJ1. exact Hpot.
    + eauto.
Qed.

Lemma TIMSTR_loop_Ok (k0 : nat) (n : nat) :
  forall (l : locals) (st : store),
    ctl_inv DTEND DTHALT' l -> store_inv k0 (T l) st ->
    potential DTHALT' DTI l <= INR n * DTI ->
    (K st + n < NDIM2)%nat ->
    exists st',
      (forall fuel, (n < fuel)%nat -> TIMSTR_loop' fuel DTI l st = Ok st') /\
      (exists tmax, store_inv k0 tmax st') /\
      (K st' <= K st + n + 1)%nat.
Proof.
  induction n as [|n IH]; intros l st Hctl Hinv Hpot HK.
  - destruct (loop_body_progress k0 l st Hctl Hinv ltac:(lia)) as (c & Hb & Hc).
    pose proof (loop_body_frame _ _ _ _ _ _ _ _ _ _ _ _ _ _ _ _ _ _ _ _ _ _ Hb)
      as (HKc & _).
    destruct c as [l' st'|st'].
    + destruct Hc as (Hctl' & _ & Hpot').
      pose proof (potential_nonneg l' Hctl'). simpl in Hpot. lra.
    + exists st'. split; [|split; [exact Hc | simpl in HKc; lia]].
      intros [|fuel] Hf; [lia|]. simpl. rewrite Hb. reflexivity.
  - destruct (loop_body_progress k0 l st Hctl Hinv ltac:(lia)) as (c & Hb & Hc).
    pose proof (loop_body_frame _ _ _ _ _ _ _ _ _ _ _ _ _ _ _ _ _ _ _ _ _ _ Hb)
      as (HKc & _).
    destruct c as [l' st'|st']; simpl in HKc.
    + destruct Hc as (Hctl' & Hinv' & Hpot').
      destruct (IH l' st' Hctl' Hinv') as (st'' & Hrun & Hfin & HK'').
      { rewrite S_INR in Hpot. lra. }
      { lia. }
      exists st''. split; [|split; [exact Hfin | lia]].
      intros [|fuel] Hf; [lia|]. simpl. rewrite Hb. simpl.
      apply Hrun. lia.
    + exists st'. split; [|split; [exact Hc | lia]].
      intros [|fuel] Hf; [lia|]. simpl. rewrite Hb. reflexivity.
Qed.

Lemma init_TEM_Ok (Js : list nat) :
  Forall (fun J => 1 <= J <= NDIM2)%nat Js ->
  forall A, cells NDIM2 A ->
  exists A', init_TEM 1 2 A Js = Ok A' /\ cells NDIM2 A'.
Proof.
  induction Js as [|J Js IH]; intros HJs A Hc; simpl.
  - eauto.
  - apply Forall_cons in HJs as [HJ HJs].
    destruct (aset_cells_Ok NDIM2 A 0 (J - 1) (Some (1 - DZ * INR (J - 1))) Hc
                ltac:(unfold NDIM1; lia) ltac:(lia)) as [A1 H1].
    rewrite H1. simpl.
    pose proof (aset_cells _ _ _ _ _ _ H1 Hc) as Hc1.
    destruct (aset_cells_Ok NDIM2 A1 1 (J - 1) (Some (1 - DZ * INR (J - 1))) Hc1
                ltac:(unfold NDIM1; lia) ltac:(lia)) as [A2 H2].
    rewrite H2. simpl.
    apply (IH HJs), (aset_cells _ _ _ _ _ _ H2 Hc1).
Qed.

Hypothesis HKRR : KRR = 0%nat.

Lemma first_row_Ok (T0 : R) (st : store) :
  cells NDIM2 (DATA st) -> (1 <= K st <= NDIM2)%nat ->
  exists st',
    first_row AMPL WAVEN G DTEND DTAUS ITYPE IHFLW KRR T0 st = Ok st' /\
    cells NDIM2 (DATA st') /\
    fget (DATA st') 0 (K st - 1) = Ok T0 /\
    forall r, (r < NDIM1)%nat -> exists x, fget (DATA st') r (K st - 1) = Ok x.
Proof.
  intros Hc HK. set (k := (K st - 1)%nat).
  assert (Hk : (k < NDIM2)%nat) by (unfold k; lia).
  destruct (aset_cells_Ok NDIM2 (DATA st) 0 k (Some T0) Hc
              ltac:(unfold NDIM1; lia) Hk) as [D0 HD0].
  pose proof (aset_cells _ _ _ _ _ _ HD0 Hc) as Hc0.
  destruct (aset_cells_Ok NDIM2 D0 1 k (Some 0.0) Hc0
              ltac:(unfold NDIM1; lia) Hk) as [D1 HD1].
  pose proof (aset_cells _ _ _ _ _ _ HD1 Hc0) as Hc1.
  destruct (aset_cells_Ok NDIM2 D1 2 k (Some 1) Hc1
              ltac:(unfold NDIM1; lia) Hk) as [D2 HD2].
  pose proof (aset_cells _ _ _ _ _ _ HD2 Hc1) as Hc2.
  destruct (aset_cells_Ok NDIM2 D2 3 k (Some G) Hc2
              ltac:(unfold NDIM1; lia) Hk) as [D3 HD3].
  pose proof (aset_cells _ _ _ _ _ _ HD3 Hc2) as Hc3.
  exists (set_DATA D3 (set_DATA D2 (set_DATA D1 st))).
  split; [|split; [exact Hc3|split]].
  - unfold first_row. apply bind_Ok. exists (set_DATA D1 st). split.
    { rewrite decide_True by exact HKRR. fold k.
      rewrite HD0. simpl. rewrite HD1. reflexivity. }
    cbv beta. rewrite decide_True by exact HIHFLW.
    rewrite decide_True by exact HKRR. cbn [DATA K set_DATA]. fold k.
    rewrite HD2. simpl mbind. cbv zeta.
    unfold strain_rate_first. rewrite decide_True by exact HITYPE.
    simpl mbind. cbn [DATA K set_DATA]. fold k. rewrite HD3. reflexivity.
  - simpl. unfold fget.
    rewrite (aget_aset_ne _ _ _ _ _ _ _ HD3) by (left; lia).
    rewrite (aget_aset_ne _ _ _ _ _ _ _ HD2) by (left; lia).
    rewrite (aget_aset_ne _ _ _ _ _ _ _ HD1) by (left; lia).
    rewrite (aget_aset_eq _ _ _ _ _ HD0). reflexivity.
  - intros r Hr. simpl. unfold NDIM1 in Hr.
    assert (Er : r = 0%nat \/ r = 1%nat \/ r = 2%nat \/ r = 3%nat) by lia.
    destruct Er as [->|[->|[->| ->]]]; unfold fget.
    + rewrite (aget_aset_ne _ _ _ _ _ _ _ HD3) by (left; lia).
      rewrite (aget_aset_ne _ _ _ _ _ _ _ HD2) by (left; lia).
      rewrite (aget_aset_ne _ _ _ _ _ _ _ HD1) by (left; lia).
      rewrite (aget_aset_eq _ _ _ _ _ HD0). simpl. eauto.
    + rewrite (aget_aset_ne _ _ _ _ _ _ _ HD3) by (left; lia).
      rewrite (aget_aset_ne _ _ _ _ _ _ _ HD2) by (left; lia).
      rewrite (aget_aset_eq _ _ _ _ _ HD1). simpl. eauto.
    + rewrite (aget_aset_ne _ _ _ _ _ _ _ HD3) by (left; lia).
      rewrite (aget_aset_eq _ _ _ _ _ HD2). simpl. eauto.
    + rewrite (aget_aset_eq _ _ _ _ _ HD3). simpl. eauto.
Qed.

(** A first rift period of regime 1 whose first step does not cross the end
    of the stretching, which ends before the halt time: the solver run comes
    back after at most [n + 1] passes, [n] steps [DTI] covering the halt time,
    and its rows hold floats and times that do not decrease. *)
Lemma TIMSTR_first_period (n : nat) (st : store) :
  DTI_of AMPL G DTST = Ok DTI ->
  DTI <= DTEND ->
  DTHALT' + DTI <= INR n * DTI ->
  cells NDIM2 (DATA st) -> cells NDIM2 (TEM st) ->
  (1 <= K st)%nat -> (K st + n < NDIM2)%nat ->
  exists st',
    (forall fuel, (n < fuel)%nat -> TIMSTR' fuel st = Ok st') /\
    (K st <= K st' <= K st + n + 1)%nat /\
    (exists tmax, store_inv (K st - 1) tmax st') /\
    fget (DATA st') 0 (K st - 1) = Ok 0 /\
    (forall r i, (i < K st - 1)%nat ->
                 aget (DATA st') r i = aget (DATA st) r i).
Proof.
  intros HDTIof HDTIend Hn Hc HcT HK1 HKn.
  destruct (first_row_Ok 0 st Hc ltac:(lia)) as (st1 & Hfr & Hc1 & Ht1 & Hrow1).
  pose proof (first_row_frame _ _ _ _ _ _ _ _ _ _ _ Hfr) as (HKa & HTa & HFa).
  assert (HJs : Forall (fun J => 1 <= J <= NDIM2)%nat (seq 1 JNP1)).
  { apply Forall_forall. intros J HJ. apply elem_of_seq in HJ.
    unfold JNP1, JN, NDIM2 in *. lia. }
  destruct (init_TEM_Ok _ HJs (TEM st1) ltac:(rewrite HTa; exact HcT))
    as (A & HA & HcA).
  assert (Hfl : floats A 0 JNP1 /\ floats A 1 JNP1).
  { assert (Hnd : NoDup (seq 1 JNP1)) by apply NoDup_seq.
    assert (Hpos : Forall (fun J => 1 <= J)%nat (seq 1 JNP1)).
    { apply Forall_forall. intros J HJ. apply elem_of_seq in HJ. lia. }
    split; intros j Hj;
      destruct (init_TEM_cells 1 2 _ _ _ HA Hnd Hpos (S j)
                  ltac:(apply elem_of_seq; lia)) as [Ha Hb];
      simpl in Ha, Hb; rewrite Nat.sub_0_r in *;
      eexists; apply fget_Ok; [exact Ha | exact Hb]. }
  destruct Hfl as [Hf0 Hf1].
  set (l0 := {| T := 0; DT := DTI; JGI := 1; JGF := 2; JFLAG := 0; IADV := 1 |}).
  set (st2 := set_TEM A st1).
  assert (Hctl : ctl_inv DTEND DTHALT' l0).
  { unfold ctl_inv, l0. simpl. split; [lra|]. split; [left; auto|].
    left. repeat split; lra. }
  assert (Hinv : store_inv (K st - 1) (T l0) st2).
  { unfold store_inv, st2. simpl. rewrite HKa.
    split; [exact Hc1|]. split; [exact HcA|]. split; [lia|].
    split; [exact Hf0|]. split; [exact Hf1|]. split; [|split].
    - intros i r Hi Hr. replace i with (K st - 1)%nat by lia. apply Hrow1, Hr.
    - intros i j ti tj Hij Hj Hti Htj.
      replace i with (K st - 1)%nat in Hti by lia.
      replace j with (K st - 1)%nat in Htj by lia.
      rewrite Hti in Htj. injection Htj as <-. lra.
    - intros i t Hi Hti. replace i with (K st - 1)%nat in Hti by lia.
      rewrite Ht1 in Hti. injection Hti as <-. lra. }
  destruct (TIMSTR_loop_Ok (K st - 1) n l0 st2 Hctl Hinv) as (st' & Hrun & Hfin & HK').
  { unfold potential, l0. simpl. lra. }
  { unfold st2. simpl. lia. }
  exists st'.
  assert (Hall : forall fuel, (n < fuel)%nat -> TIMSTR' fuel st = Ok st').
  { intros fuel Hf. unfold TIMSTR. apply bind_Ok. exists DTI.
    split; [exact HDTIof|]. cbv beta zeta.
    rewrite !decide_True by exact HKRR.
    apply bind_Ok. exists st1. split; [exact Hfr|]. cbv beta.
    apply bind_Ok. exists st2. split.
    { cbn [JGI JGF]. rewrite HA. rewrite decide_True by exact HKRR.
      reflexivity. }
    cbv beta. apply Hrun, Hf. }
  split; [exact Hall|].
  pose proof (TIMSTR_loop_frame _ _ _ _ _ _ _ _ _ _ _ _ _ _ _ _ _ _ _ _ _ _ _
                (Hrun (S n) ltac:(lia))) as (HKle & HFl & _).
  unfold st2 in HK', HKle, HFl. simpl in HK', HKle, HFl. rewrite HKa in *.
  split; [lia|]. split; [exact Hfin|]. split.
  - unfold fget. rewrite HFl by lia. apply fget_Ok in Ht1. rewrite Ht1.
    reflexivity.
  - intros r i Hi. rewrite HFl by lia. apply HFa. lia.
Qed.

End Regime1.

Lemma initial_store_cells :
  cells NDIM2 (DATA initial_store) /\ cells NDIM2 (TEM initial_store).
Proof. split; exact fresh_array_cells. Qed.

Lemma DTHALT_single (DTSTOP DTBEGX DTBEGY : R) :
  DTHALT DTSTOP DTBEGX DTBEGY 0 1 = DTSTOP.
Proof. reflexivity. Qed.

(** A short solver run: the stretching ends at 0.002 and the run at 0.004. *)
Lemma short_run :
  exists st',
    forall fuel, (5 < fuel)%nat ->
      TIMSTR 1 1 1 0.002 0.004 1 1 1 0 0 1 1 1 0 1 1.5 1 1 fuel initial_store
      = Ok st'.
Proof.
  assert (HDTI : DTI_of 1 1 1 = Ok 0.00125).
  { unfold DTI_of, py_div, GMAX, DTC, DZ.
    rewrite decide_False by lra. simpl. f_equal.
    unfold Rmin. repeat destruct (Rle_dec _ _); lra. }
  destruct initial_store_cells as [Hd Ht].
  assert (Hhalt : 0.002 <= DTHALT 0.004 0 0 0 1)
    by (rewrite DTHALT_single; lra).
  assert (Hn : DTHALT 0.004 0 0 0 1 + 0.00125 <= INR 5 * 0.00125)
    by (rewrite DTHALT_single; simpl; lra).
  destruct (TIMSTR_first_period 1 1 1 0.002 0.004 1 1 1 0 0 1 1 1 0 1 1.5 1 1
              eq_refl eq_refl (or_introl eq_refl) 0.00125 ltac:(lra)
              Hhalt eq_refl 5 initial_store HDTI
              ltac:(lra) Hn Hd Ht
              ltac:(simpl; lia) ltac:(unfold NDIM2; simpl; lia))
    as (st' & Hrun & _).
  exists st'. exact Hrun.
Qed.

Lemma boundary_nodes_fixed_witness :
  exists st',
    TIMSTR 1 1 1 0.002 0.004 1 1 1 0 0 1 1 1 0 1 1.5 1 1 6 initial_store
    = Ok st' /\
    aget (TEM st') 0 0 = Ok (Some 1) /\ aget (TEM st') 0 JN = Ok (Some 0).
Proof.
  destruct short_run as [st' H]. exists st'.
  pose proof (H 6%nat ltac:(lia)) as Hrun. split; [exact Hrun|].
  destruct (proj2 (boundary_nodes_fixed _ _ _ _ _ _ _ _ _ _ _ _ _ _ _ _ _ _)
              6%nat initial_store st' Hrun) as [H0 _].
  apply (H0 eq_refl 0%nat). lia.
Defined.

(** ** COMPAC *)

Lemma lset_Ok (F F' : list (option R)) (i : nat) (c : option R) :
  lset F i c = Ok F' <-> (i < length F)%nat /\ F' = <[i := c]> F.
Proof.
  unfold lset. case_decide; split.
  - intros [= <-]. auto.
  - intros [_ ->]. reflexivity.
  - discriminate.
  - intros [? _]. contradiction.
Qed.

(** One pass of the Newton-Raphson loop is one Newton step. *)
Lemma newton_loop_pass (fuel : nat) (RHOA RHOS PHI0 CONST S : R) (J : nat)
  (F : list (option R)) (x : R) :
  F !! (J - 1)%nat = Some (Some x) -> (J < length F)%nat ->
  CONST <> 0 ->
  (RHOA - RHOS) + PHI0 * (RHOS - RHOW) * exp (- x / CONST) <> 0 ->
  let x' := newton_step RHOA RHOS PHI0 CONST S x in
  newton_loop (Datatypes.S fuel) RHOA (RHOA - RHOS)
    (PHI0 * CONST * (RHOS - RHOW)) (PHI0 * (RHOS - RHOW)) CONST S J F =
  if decide (Rabs (x' - x) > 1e-5) then
    if decide (30 <= J + 1)%nat then Ok ((J + 1)%nat, <[J := Some x']> F)
    else newton_loop fuel RHOA (RHOA - RHOS) (PHI0 * CONST * (RHOS - RHOW))
           (PHI0 * (RHOS - RHOW)) CONST S (J + 1) (<[J := Some x']> F)
  else Ok (J, <[J := Some x']> F).
Proof.
  intros HF HJ HC HX x'. simpl. unfold lget. rewrite HF. simpl.
  rewrite (py_div_nonzero _ _ HC). simpl.
  rewrite (py_div_nonzero _ _ HX). simpl.
  unfold lset. rewrite decide_True by exact HJ. simpl.
  reflexivity.
Qed.

Lemma RHOA_value_bounds : 3.2035 < RHOA_value < 3.2036.
Proof. unfold RHOA_value, RHOM, TEXPAN, TASTH. lra. Qed.

Lemma exp_above (y : R) : 1 + y <= exp y.
Proof.
  destruct (Req_dec y 0) as [->|H].
  - rewrite exp_0. lra.
  - apply Rlt_le, exp_ineq1, H.
Qed.

(** Far below the root the Newton step moves up by between 1 and 2. *)
Lemma newton_step_uplift (x : R) :
  let x0 := -100 * (RHOA_value / (RHOA_value - 2.6)) in
  x0 <= x <= x0 + 58 ->
  (RHOA_value - 2.6) + 0.6 * (2.6 - RHOW) * exp (- x / 2.0) <> 0 /\
  x + 1 <= newton_step RHOA_value 2.6 0.6 2.0 (-100) x <= x + 2.
Proof.
  intros x0 Hx. pose proof RHOA_value_bounds as Ha.
  set (a := RHOA_value) in *.
  assert (HD : 0.6035 < a - 2.6 < 0.6036) by lra.
  assert (Hx0 : -531 <= x0 <= -530).
  { unfold x0.
    assert (5.3 <= a / (a - 2.6) <= 5.31) by (apply Rdiv_between; lra).
    lra. }
  assert (Hx0D : x0 * (a - 2.6) = -100 * a) by (unfold x0; field; lra).
  pose proof (exp_above (- x / 2.0)) as He.
  set (e := exp (- x / 2.0)) in *.
  assert (He' : 200 <= e) by lra.
  unfold RHOW in *.
  assert (HX2 : 0 < (a - 2.6) + 0.6 * (2.6 - 1.03) * e) by nra.
  split; [lra|].
  unfold newton_step. fold a. unfold RHOW. fold e.
  set (X1 := x * (a - 2.6) - -100 * a + 0.6 * 2.0 * (2.6 - 1.03) * (1 - e)).
  set (X2 := (a - 2.6) + 0.6 * (2.6 - 1.03) * e) in *.
  assert (Hq : -2 <= X1 / X2 <= -1).
  { apply Rdiv_between; [exact HX2| |]; unfold X1, X2; nra. }
  lra.
Qed.

(** From a value far below the root the loop runs until [J] is 30. *)
Lemma newton_loop_runs_out (m : nat) :
  forall (fuel J : nat) (F : list (option R)) (x : R),
    (J + m = 30)%nat -> (1 <= m)%nat -> (1 <= J)%nat -> (m <= fuel)%nat ->
    length F = 30%nat -> F !! (J - 1)%nat = Some (Some x) ->
    (let x0 := -100 * (RHOA_value / (RHOA_value - 2.6)) in
     x0 <= x <= x0 + 2 * INR (J - 1)) ->
    exists F',
      newton_loop fuel RHOA_value (RHOA_value - 2.6) (0.6 * 2.0 * (2.6 - RHOW))
        (0.6 * (2.6 - RHOW)) 2.0 (-100) J F = Ok (30%nat, F') /\
      length F' = 30%nat.
Proof.
  induction m as [|m IH]; intros fuel J F x HJm Hm HJ Hfuel HF Hx Hb; [lia|].
  destruct fuel as [|fuel]; [lia|].
  assert (HJ28 : INR (J - 1) <= 28).
  { replace 28 with (INR 28) by (simpl; lra). apply le_INR. lia. }
  assert (Hpos : 0 <= INR (J - 1)) by apply pos_INR.
  destruct (newton_step_uplift x ltac:(simpl in *; lra)) as [HX Hstep].
  rewrite (newton_loop_pass fuel RHOA_value 2.6 0.6 2.0 (-100) J F x Hx
             ltac:(lia) ltac:(lra) HX).
  cbv zeta. set (x' := newton_step RHOA_value 2.6 0.6 2.0 (-100) x) in *.
  rewrite decide_True by (rewrite Rabs_right; lra).
  destruct (decide (30 <= J + 1)%nat) as [H30|H30].
  - exists (<[J := Some x']> F). replace (J + 1)%nat with 30%nat by lia.
    split; [reflexivity|]. rewrite length_insert. exact HF.
  - apply (IH fuel (J + 1)%nat (<[J := Some x']> F) x'); try lia.
    + rewrite length_insert. exact HF.
    + replace (J + 1 - 1)%nat with J by lia.
      apply list_lookup_insert_eq. lia.
    + replace (J + 1 - 1)%nat with (S (J - 1)) by lia.
      rewrite S_INR. simpl in *. lra.
Qed.

Lemma bind_eq {A B} (m : result A) (a : A) (f : A -> result B) :
  m = Ok a -> m ≫= f = f a.
Proof. intros ->. reflexivity. Qed.

Lemma compact_row_uplift (ALOB : R) :
  ALOB = RHOA_value / (RHOA_value - 2.6) ->
  compact_row RHOA_value 2.6 0.6 2.0 ALOB (RHOA_value - 2.6)
    (0.6 * 2.0 * (2.6 - RHOW)) (0.6 * (2.6 - RHOW)) 1
    (uplift_table, replicate 30 None) = Raise IndexError.
Proof.
  intros ->. unfold compact_row.
  rewrite (bind_eq (aget uplift_table 0 (1 - 1)) (Some 0)) by reflexivity.
  rewrite (bind_eq (fget uplift_table 1 (1 - 1)) (-100)) by reflexivity.
  set (F := <[0%nat := Some (-100 * (RHOA_value / (RHOA_value - 2.6)))]>
              (replicate 30 None)).
  rewrite (bind_eq (lset (replicate 30 None) 0 _) F) by reflexivity.
  destruct (newton_loop_runs_out 29 30 1 F
              (-100 * (RHOA_value / (RHOA_value - 2.6))))
    as (F' & HF' & Hlen); try lia; try reflexivity.
  { simpl. lra. }
  rewrite (bind_eq _ _ _ HF'). cbv beta iota.
  unfold lget. rewrite (lookup_ge_None_2 F' 30) by lia. reflexivity.
Qed.

(** C7 (the code at the failing input).  With the sediment constants of the
    initial configuration, a row that holds an uplift of 100 km starts the
    Newton-Raphson iteration so far below the root that 29 updates leave every
    pair of successive iterates more than 1e-5 apart: the loop is left with
    [J = 30], and [F[J]] is read past the end of the 30 cells of [F], so
    [COMPAC] raises [IndexError] instead of storing the last iterate. *)
Theorem COMPAC_iteration_cap_raises :
  COMPAC RHOA_value 2.6 0.6 2.0 1 uplift_table = Raise IndexError.
Proof.
  pose proof RHOA_value_bounds as Ha.
  unfold COMPAC. rewrite py_div_nonzero by lra.
  rewrite (bind_eq (Ok _) _ _ eq_refl). cbv zeta.
  cbn [seq compact_rows].
  rewrite compact_row_uplift by reflexivity. reflexivity.
Qed.

(** ** The beta sweep of a single rift period of regime 1 *)

Lemma set_dless_constants_regime1 (fuel : nat) (p : params) (d : dless)
  (BETA1 : R) (f : forcing) :
  ITYPE1 p = 1%Z -> 0 < BETA1 -> DTEND1 d <> 0 ->
  set_dless_constants fuel p d BETA1 f
  = Ok {| GP1 := ln BETA1 / DTEND1 d; AMPL := AMPL f; WAVEN := WAVEN f |}.
Proof.
  intros HI HB HD. unfold set_dless_constants, py_log.
  rewrite decide_True by exact HI.
  rewrite decide_False by lra. simpl.
  rewrite (py_div_nonzero _ _ HD). reflexivity.
Qed.

Lemma sweep_body_single (n : nat) (p : params) (d : dless) (c : consts)
  (BETA1 : R) (f : forcing) (st : store) (DTI : R) :
  ITYPE1 p = 1%Z -> IRIFT p = 1%Z -> 0 < BETA1 -> DTEND1 d <> 0 ->
  DTI_of (AMPL f) (ln BETA1 / DTEND1 d) (DTST d) = Ok DTI ->
  0 < DTI -> DTI <= DTEND1 d -> DTEND1 d <= DTSTOP d ->
  DTSTOP d + DTI <= INR n * DTI ->
  cells NDIM2 (DATA st) -> cells NDIM2 (TEM st) ->
  (1 <= K st)%nat -> (K st + n < NDIM2)%nat ->
  exists st',
    (forall fuel, (n < fuel)%nat ->
       sweep_body fuel p d c BETA1 f st
       = Ok ({| GP1 := ln BETA1 / DTEND1 d; AMPL := AMPL f; WAVEN := WAVEN f |},
             st')) /\
    (K st <= K st' <= K st + n + 1)%nat /\
    (exists tmax, store_inv (K st - 1) tmax st') /\
    fget (DATA st') 0 (K st - 1) = Ok 0 /\
    (forall r i, (i < K st - 1)%nat ->
                 aget (DATA st') r i = aget (DATA st) r i).
Proof.
  intros HI HR HB HD HDTI Hpos Hend Hstop Hn Hc HcT HK HKn.
  destruct (TIMSTR_first_period (AMPL f) (WAVEN f) (ln BETA1 / DTEND1 d)
              (DTEND1 d) (DTSTOP d) (DTAUS d) (CONBET c) (CONTRM c)
              (DTBEG2 d) (DTBEG3 d) (DTST d) (ITYPE1 p) IHFLW 0 (IRIFT p)
              BETA1 (CONB1 c) (CONB2 c) HI eq_refl (or_introl eq_refl)
              DTI Hpos ltac:(rewrite HR, DTHALT_single; exact Hstop)
              eq_refl n st HDTI Hend
              ltac:(rewrite HR, DTHALT_single; exact Hn) Hc HcT HK HKn)
    as (st' & Hrun & Hrest).
  exists st'. split; [|exact Hrest].
  intros fuel Hf. unfold sweep_body. cbv zeta.
  rewrite (set_dless_constants_regime1 fuel p d BETA1 f HI HB HD).
  rewrite (bind_eq (Ok _) _ _ eq_refl). cbv beta. cbn [GP1 AMPL WAVEN].
  rewrite (Hrun fuel Hf). rewrite (bind_eq (Ok _) _ _ eq_refl). cbv beta.
  rewrite (decide_False (P := (IRIFT p >= 2)%Z)) by (rewrite HR; lia).
  rewrite (bind_eq (Ok _) _ _ eq_refl). cbv beta.
  rewrite (decide_False (P := (IRIFT p >= 3)%Z)) by (rewrite HR; lia).
  reflexivity.
Qed.

Lemma sentinel_Ok (st : store) :
  cells NDIM2 (DATA st) -> (K st < NDIM2)%nat ->
  exists st',
    sentinel st = Ok st' /\
    K st' = (K st + 2)%nat /\ TEM st' = TEM st /\
    cells NDIM2 (DATA st') /\
    aget (DATA st') 0 (K st) = Ok None /\
    (forall r i, i <> K st -> aget (DATA st') r i = aget (DATA st) r i).
Proof.
  intros Hc HK.
  destruct (aset_cells_Ok NDIM2 (DATA st) 0 (K st) None Hc
              ltac:(unfold NDIM1; lia) HK) as [D0 HD0].
  pose proof (aset_cells _ _ _ _ _ _ HD0 Hc) as Hc0.
  destruct (aset_cells_Ok NDIM2 D0 1 (K st) None Hc0
              ltac:(unfold NDIM1; lia) HK) as [D1 HD1].
  pose proof (aset_cells _ _ _ _ _ _ HD1 Hc0) as Hc1.
  exists (set_K (K st + 1 + 1) (set_DATA D1 (set_K (K st + 1) st))).
  split; [|split; [|split; [|split; [|split]]]].
  - unfold sentinel. cbv zeta. cbn [K DATA set_K set_DATA].
    replace (K st + 1 - 1)%nat with (K st) by lia.
    rewrite HD0. rewrite (bind_eq (Ok _) _ _ eq_refl). cbv beta.
    rewrite HD1. reflexivity.
  - simpl. lia.
  - reflexivity.
  - exact Hc1.
  - simpl. rewrite (aget_aset_ne _ _ _ _ _ _ _ HD1) by (left; lia).
    apply (aget_aset_eq _ _ _ _ _ HD0).
  - intros r i Hi. simpl.
    rewrite (aget_aset_ne _ _ _ _ _ _ _ HD1) by (right; exact Hi).
    apply (aget_aset_ne _ _ _ _ _ _ _ HD0). right. exact Hi.
Qed.

(** ** The table as lists *)

Lemma aget_lookup (A : array) (r i : nat) (c : option R) :
  aget A r i = Ok c <-> exists row, A !! r = Some row /\ row !! i = Some c.
Proof.
  unfold aget. split.
  - destruct (A !! r) as [row|]; [|discriminate].
    destruct (row !! i) as [c0|] eqn:E; [|discriminate].
    intros [= <-]. eauto.
  - intros (row & -> & ->). reflexivity.
Qed.

Lemma column_eq (st : store) (l : list (option R)) :
  length l = K st ->
  (forall i c, l !! i = Some c -> aget (DATA st) 0 i = Ok c) ->
  column 0 st = l.
Proof.
  intros Hlen Hl. unfold column.
  destruct l as [|c0 l0] eqn:El.
  - simpl in Hlen. rewrite <- Hlen. destruct (DATA st !! 0%nat); reflexivity.
  - rewrite <- El in *.
    assert (H0 : l !! 0%nat = Some c0) by (rewrite El; reflexivity).
    apply Hl, aget_lookup in H0 as (col & Hcol & _). rewrite Hcol.
    apply list_eq. intros i.
    destruct (decide (i < K st)%nat) as [Hi|Hi].
    + rewrite lookup_take_lt by exact Hi.
      destruct (lookup_lt_is_Some_2 l i ltac:(lia)) as [c Hc].
      rewrite Hc. apply Hl, aget_lookup in Hc as (col' & Hcol' & Hc).
      rewrite Hcol in Hcol'. injection Hcol' as <-. exact Hc.
    + rewrite lookup_take_ge by lia.
      symmetry. apply lookup_ge_None_2. lia.
Qed.

Lemma time_at_fget (D : array) (i : nat) (t : R) :
  fget D 0 i = Ok t -> time_at D i = t.
Proof. unfold time_at. intros ->. reflexivity. Qed.

Lemma times_from_lookup (D : array) (k0 n j : nat) :
  (j < n)%nat -> times_from D k0 n !! j = Some (time_at D (k0 + j)).
Proof.
  intros Hj. unfold times_from. rewrite list_lookup_fmap.
  rewrite lookup_seq_lt by exact Hj. reflexivity.
Qed.

Lemma times_from_length (D : array) (k0 n : nat) :
  length (times_from D k0 n) = n.
Proof. unfold times_from. rewrite length_fmap. apply length_seq. Qed.

Lemma times_from_nondecreasing (D : array) (k0 n : nat) :
  complete D k0 (k0 + n) -> sorted_times D k0 (k0 + n) ->
  nondecreasing (times_from D k0 n).
Proof.
  intros Hc Hs i j x y Hij Hx Hy.
  assert (Hj : (j < n)%nat).
  { apply lookup_lt_Some in Hy. rewrite times_from_length in Hy. exact Hy. }
  rewrite times_from_lookup in Hx by lia.
  rewrite times_from_lookup in Hy by lia.
  injection Hx as <-. injection Hy as <-.
  destruct (Hc (k0 + i)%nat 0%nat ltac:(lia) ltac:(unfold NDIM1; lia)) as [ti Hti].
  destruct (Hc (k0 + j)%nat 0%nat ltac:(lia) ltac:(unfold NDIM1; lia)) as [tj Htj].
  rewrite (time_at_fget _ _ _ Hti), (time_at_fget _ _ _ Htj).
  apply (Hs (k0 + i)%nat (k0 + j)%nat); [lia | lia | exact Hti | exact Htj].
Qed.

(** ** The pass that dimensionalises the table *)

Lemma dimensionalise_Ok (TIMSC TBEG1 : R) (Is : list nat) :
  TIMSC <> 0 -> NoDup Is -> Forall (fun i => 1 <= i)%nat Is ->
  forall D,
    (forall i, i ∈ Is ->
       aget D 0 (i - 1) = Ok None \/
       forall r, (r < NDIM1)%nat -> exists x, fget D r (i - 1) = Ok x) ->
    exists D',
      dimensionalise TIMSC TBEG1 D Is = Ok D' /\
      (forall i c, i ∈ Is -> aget D 0 (i - 1) = Ok c ->
                   aget D' 0 (i - 1) = Ok (dimensional TIMSC TBEG1 <$> c)) /\
      (forall r j, Forall (fun i => j <> (i - 1)%nat) Is ->
                   aget D' r j = aget D r j).
Proof.
  intros HT. induction Is as [|i Is IH]; intros Hnd Hpos D HD.
  - exists D. split; [reflexivity|]. split; [|reflexivity].
    intros i c Hi. apply elem_of_nil in Hi. contradiction.
  - apply NoDup_cons in Hnd as [Hnin Hnd].
    apply Forall_cons in Hpos as [Hi1 Hpos].
    assert (Hother : Forall (fun i' => (i - 1)%nat <> (i' - 1)%nat) Is).
    { apply Forall_forall. intros i' Hi'.
      pose proof (proj1 (Forall_forall _ _) Hpos i' Hi') as H1. simpl in H1.
      intros E. assert (i' = i) by lia. subst. contradiction. }
    destruct (HD i ltac:(left)) as [Hnone|Hrow].
    + (* a sentinel row *)
      destruct (IH Hnd Hpos D) as (D' & HD' & Hval & Hfr).
      { intros i' Hi'. apply HD. right. exact Hi'. }
      exists D'. split; [simpl; rewrite Hnone; exact HD'|]. split.
      * intros i' c Hi' Hc. apply elem_of_cons in Hi' as [->|Hi'].
        -- rewrite Hfr by exact Hother. rewrite Hnone in *.
           injection Hc as <-. reflexivity.
        -- apply Hval; assumption.
      * intros r j Hj. apply Hfr. apply (Forall_inv_tail Hj).
    + (* a row of the table *)
      destruct (Hrow 0%nat ltac:(unfold NDIM1; lia)) as [t Ht].
      destruct (Hrow 2%nat ltac:(unfold NDIM1; lia)) as [h Hh].
      destruct (Hrow 3%nat ltac:(unfold NDIM1; lia)) as [s Hs].
      apply fget_Ok in Ht.
      destruct (aget_aset_exists _ _ _ _
                  (Some (dimensional TIMSC TBEG1 t)) Ht) as [D1 HD1].
      assert (Hh1 : fget D1 2 (i - 1) = Ok h)
        by (rewrite (fget_aset_ne _ _ _ _ _ _ _ HD1) by (left; lia); exact Hh).
      destruct (aget_aset_exists _ _ _ _ (Some (h * CONDTY))
                  (proj1 (fget_Ok _ _ _ _) Hh1)) as [D2 HD2].
      assert (Hs2 : fget D2 3 (i - 1) = Ok s).
      { rewrite (fget_aset_ne _ _ _ _ _ _ _ HD2) by (left; lia).
        rewrite (fget_aset_ne _ _ _ _ _ _ _ HD1) by (left; lia). exact Hs. }
      destruct (aget_aset_exists _ _ _ _ (Some (s / TIMSC))
                  (proj1 (fget_Ok _ _ _ _) Hs2)) as [D3 HD3].
      assert (Hfr3 : forall r j, j <> (i - 1)%nat -> aget D3 r j = aget D r j).
      { intros r j Hj.
        rewrite (aget_aset_ne _ _ _ _ _ _ _ HD3) by (right; exact Hj).
        rewrite (aget_aset_ne _ _ _ _ _ _ _ HD2) by (right; exact Hj).
        apply (aget_aset_ne _ _ _ _ _ _ _ HD1). right. exact Hj. }
      destruct (IH Hnd Hpos D3) as (D' & HD' & Hval & Hfr).
      { intros i' Hi'.
        pose proof (proj1 (Forall_forall _ _) Hother i' Hi') as Hne.
        simpl in Hne. unfold fget.
        destruct (HD i' ltac:(right; exact Hi')) as [Hn|Hr].
        - left. rewrite Hfr3 by auto. exact Hn.
        - right. intros r Hr'. rewrite Hfr3 by auto. apply Hr, Hr'. }
      exists D'. split.
      { simpl. rewrite Ht. simpl. rewrite HD1. simpl.
        rewrite Hh1. simpl. rewrite HD2. simpl. rewrite Hs2. simpl.
        rewrite (py_div_nonzero _ _ HT). simpl. rewrite HD3. simpl.
        exact HD'. }
      split.
      * intros i' c Hi' Hc. apply elem_of_cons in Hi' as [->|Hi'].
        -- rewrite Hfr by exact Hother. rewrite Ht in Hc. injection Hc as <-.
           rewrite (aget_aset_ne _ _ _ _ _ _ _ HD3) by (left; lia).
           rewrite (aget_aset_ne _ _ _ _ _ _ _ HD2) by (left; lia).
           apply (aget_aset_eq _ _ _ _ _ HD1).
        -- apply Hval; [exact Hi'|].
           pose proof (proj1 (Forall_forall _ _) Hother i' Hi') as Hne.
           simpl in Hne. rewrite Hfr3 by auto. exact Hc.
      * intros r j Hj. rewrite Hfr by apply (Forall_inv_tail Hj).
        apply Hfr3. apply (Forall_inv Hj).
Qed.

(** ** The sweep of the initial configuration *)

Lemma ln_one_half_pos : 0 < ln 1.5.
Proof. rewrite <- ln_1. apply ln_increasing; lra. Qed.

Lemma ln_below_one (x : R) : 0 < x <= 2 -> ln x < 1.
Proof.
  intros Hx. rewrite <- (ln_exp 1). apply ln_increasing; [lra|].
  pose proof (exp_ineq1 1 ltac:(lra)). lra.
Qed.

Lemma INITVR_setup :
  exists TL d c,
    calculate_TL INITVR = Ok TL /\
    nondimensionalise_parameters INITVR TL dless0 = Ok d /\
    setup_constants INITVR TL d consts0 = Ok c /\
    540 <= TIMSC d <= 550 /\
    DTEND1 d = 60 / TIMSC d /\ DTSTOP d = 160 / TIMSC d /\
    DTST d = 1 / TIMSC d.
Proof.
  destruct (calculate_TL_30000 INITVR eq_refl) as (TL & HTL & Hb).
  pose proof (TIMSC_30000 TL Hb) as Ht.
  destruct (nondimensionalise_Ok INITVR TL dless0 ltac:(lra))
    as (d & Hd & HTS & H1 & _ & _ & Hstop & Hst & _).
  destruct (H1 ltac:(simpl; lia)) as [_ He1].
  rewrite <- HTS in Ht. simpl in He1, Hstop.
  assert (Hc : exists c, setup_constants INITVR TL d consts0 = Ok c).
  { unfold setup_constants, py_div. simpl.
    assert (Hrho : RHOM * (1.0 - TEXPAN * TASTH) - 2.6 <> 0)
      by (unfold RHOM, TEXPAN, TASTH; lra).
    repeat (rewrite decide_False by exact Hrho; simpl). eauto. }
  destruct Hc as [c Hc].
  exists TL, d, c. repeat split; try assumption; lra.
Qed.

(** With the schedule of the initial configuration the step is the
    conductive limit. *)
Lemma DTI_INITVR (d : dless) (BETA1 : R) :
  540 <= TIMSC d <= 550 -> DTEND1 d = 60 / TIMSC d -> DTST d = 1 / TIMSC d ->
  0 < ln BETA1 < 1 ->
  DTI_of 1 (ln BETA1 / DTEND1 d) (DTST d) = Ok 0.00125.
Proof.
  intros Ht He Hs Hl.
  assert (HE : 0.109 <= DTEND1 d <= 0.112)
    by (rewrite He; apply Rdiv_between; lra).
  assert (HS : 0.0018 <= DTST d <= 0.0019)
    by (rewrite Hs; apply Rdiv_between; lra).
  assert (HG : 0 <= ln BETA1 / DTEND1 d <= 10)
    by (apply Rdiv_between; nra).
  set (G := ln BETA1 / DTEND1 d) in *.
  unfold DTI_of, py_div, GMAX. rewrite decide_False by lra. simpl.
  assert (HCFL : 0.004 <= DZ / (1 + G) <= 0.05)
    by (unfold DZ; apply Rdiv_between; lra).
  f_equal. unfold DTC, DZ in *. simpl.
  unfold Rmin. repeat destruct (Rle_dec _ _); lra.
Qed.

(** The two passes of the sweep: the rows [0 .. k1-1] of the first beta, the
    sentinel row [k1], the rows [k1+1 .. K-1] of the second beta. *)
Lemma INITVR_sweep (d : dless) (c : consts) :
  540 <= TIMSC d <= 550 -> DTEND1 d = 60 / TIMSC d ->
  DTSTOP d = 160 / TIMSC d -> DTST d = 1 / TIMSC d ->
  let f0 := {| GP1 := 0; AMPL := 1; WAVEN := 1 |} in
  let f1 := {| GP1 := ln 1.5 / DTEND1 d; AMPL := 1; WAVEN := 1 |} in
  let f2 := {| GP1 := ln (1.5 + 0.5) / DTEND1 d; AMPL := 1; WAVEN := 1 |} in
  exists st1 st1' st2,
    (forall fuel, (240 < fuel)%nat ->
       sweep_body fuel INITVR d c 1.5 f0 initial_store = Ok (f1, st1) /\
       sweep_body fuel INITVR d c (1.5 + 0.5) f1 st1' = Ok (f2, st2) /\
       sweep fuel fuel INITVR d c 1.5 f0 initial_store = Ok (f2, st2)) /\
    sentinel st1 = Ok st1' /\
    (1 <= K st1)%nat /\ (K st1 + 2 <= K st2)%nat /\ (K st2 < NDIM2)%nat /\
    complete (DATA st1) 0 (K st1) /\ sorted_times (DATA st1) 0 (K st1) /\
    complete (DATA st2) (K st1 + 1) (K st2) /\
    sorted_times (DATA st2) (K st1 + 1) (K st2) /\
    aget (DATA st2) 0 (K st1) = Ok None /\
    (forall r i, (i < K st1)%nat ->
                 aget (DATA st2) r i = aget (DATA st1) r i) /\
    fget (DATA st1) 0 0 = Ok 0 /\ fget (DATA st2) 0 (K st1 + 1) = Ok 0.
Proof.
  intros Ht He Hstop Hst f0 f1 f2.
  assert (HE : 0.109 <= DTEND1 d <= 0.112)
    by (rewrite He; apply Rdiv_between; lra).
  assert (HS : 0.29 <= DTSTOP d <= 0.297)
    by (rewrite Hstop; apply Rdiv_between; lra).
  assert (HN : DTSTOP d + 0.00125 <= INR 240 * 0.00125).
  { rewrite INR_IZR_INZ. change (Z.of_nat 240) with 240%Z. lra. }
  destruct initial_store_cells as [Hd0 Ht0].
  pose proof ln_one_half_pos as Hl1.
  pose proof (ln_below_one 1.5 ltac:(lra)) as Hl1'.
  assert (Hl2 : 0 < ln (1.5 + 0.5))
    by (rewrite <- ln_1; apply ln_increasing; lra).
  pose proof (ln_below_one (1.5 + 0.5) ltac:(lra)) as Hl2'.
  destruct (sweep_body_single 240 INITVR d c 1.5 f0 initial_store 0.00125
              eq_refl eq_refl ltac:(lra) ltac:(lra)
              (DTI_INITVR d 1.5 Ht He Hst (conj Hl1 Hl1'))
              ltac:(lra) ltac:(lra) ltac:(lra) HN Hd0 Ht0
              ltac:(simpl; lia) ltac:(unfold NDIM2; simpl; lia))
    as (st1 & Hb1 & HK1 & [tm1 Hinv1] & Hz1 & _).
  simpl in HK1, Hz1.
  destruct Hinv1 as (Hc1 & HcT1 & _ & _ & _ & Hcomp1 & Hsort1 & _).
  destruct (sentinel_Ok st1 Hc1 ltac:(unfold NDIM2; lia))
    as (st1' & Hsen & HKs & HTs & Hcs & Hnone & Hfrs).
  destruct (sweep_body_single 240 INITVR d c (1.5 + 0.5) f1 st1' 0.00125
              eq_refl eq_refl ltac:(lra) ltac:(lra)
              (DTI_INITVR d (1.5 + 0.5) Ht He Hst (conj Hl2 Hl2'))
              ltac:(lra) ltac:(lra) ltac:(lra) HN Hcs
              ltac:(rewrite HTs; exact HcT1)
              ltac:(lia) ltac:(unfold NDIM2; lia))
    as (st2 & Hb2 & HK2 & [tm2 Hinv2] & Hz2 & Hfr2).
  rewrite HKs in *. replace (K st1 + 2 - 1)%nat with (K st1 + 1)%nat in * by lia.
  subst f0 f1 f2. cbn [AMPL WAVEN] in Hb1, Hb2.
  destruct Hinv2 as (Hc2 & _ & _ & _ & _ & Hcomp2 & Hsort2 & _).
  exists st1, st1', st2. split; [|split; [exact Hsen|]].
  - intros fuel Hf. split; [apply Hb1, Hf|]. split; [apply Hb2, Hf|].
    destruct fuel as [|[|n]]; try lia.
    rewrite sweep_unfold. rewrite (Hb1 _ Hf).
    rewrite (bind_eq (Ok _) _ _ eq_refl). cbv beta. cbn [fst snd].
    rewrite decide_True by (simpl; lra).
    rewrite Hsen. rewrite (bind_eq (Ok _) _ _ eq_refl). cbv beta.
    change (BETINC INITVR) with 0.5.
    rewrite sweep_unfold. rewrite (Hb2 _ Hf).
    rewrite (bind_eq (Ok _) _ _ eq_refl). cbv beta.
    rewrite decide_False by (simpl; lra). reflexivity.
  - split; [lia|]. split; [lia|]. split; [unfold NDIM2; lia|].
    split; [exact Hcomp1|]. split; [exact Hsort1|].
    split; [exact Hcomp2|]. split; [exact Hsort2|].
    split; [|split; [|split; [exact Hz1 | exact Hz2]]].
    + rewrite Hfr2 by lia. exact Hnone.
    + intros r i Hi. rewrite Hfr2 by lia. apply Hfrs. lia.
Qed.

(** ** The table of the initial configuration *)

Lemma column_lookup (st : store) (i : nat) (c : option R) :
  column 0 st !! i = Some c -> aget (DATA st) 0 i = Ok c.
Proof.
  unfold column, aget. destruct (DATA st !! 0%nat) as [col|].
  - intros H. apply lookup_take_Some in H as [H _]. rewrite H. reflexivity.
  - intros H. rewrite lookup_nil in H. discriminate.
Qed.

Lemma column_dimensionalised (st : store) (D' : array) (TIMSC TBEG1 : R) :
  length (column 0 st) = K st ->
  (forall i (c : option R),
     i ∈ seq 1 (K st) -> aget (DATA st) 0 (i - 1) = Ok c ->
               aget D' 0 (i - 1) = Ok (dimensional TIMSC TBEG1 <$> c)) ->
  column 0 (set_DATA D' st)
  = fmap (M := option) (dimensional TIMSC TBEG1) <$> column 0 st.
Proof.
  intros Hlen Hval. apply column_eq.
  - rewrite length_fmap. exact Hlen.
  - intros i c' H. rewrite list_lookup_fmap in H.
    destruct (column 0 st !! i) as [c|] eqn:E; [|discriminate].
    injection H as <-.
    pose proof (lookup_lt_Some _ _ _ E) as Hi. rewrite Hlen in Hi.
    specialize (Hval (S i) c). replace (S i - 1)%nat with i in Hval by lia.
    simpl. apply Hval.
    + apply elem_of_seq. lia.
    + apply column_lookup, E.
Qed.

Lemma complete_column (st : store) (k : nat) :
  K st = k -> complete (DATA st) 0 k ->
  column 0 st = Some <$> times_from (DATA st) 0 k.
Proof.
  intros HK Hc. apply column_eq.
  - rewrite length_fmap, times_from_length. symmetry. exact HK.
  - intros i c H.
    pose proof (lookup_lt_Some _ _ _ H) as Hi.
    rewrite length_fmap, times_from_length in Hi.
    rewrite list_lookup_fmap, times_from_lookup in H by exact Hi.
    simpl in H.
    injection H as <-.
    destruct (Hc i 0%nat ltac:(lia) ltac:(unfold NDIM1; lia)) as [t Ht].
    rewrite (time_at_fget _ _ _ Ht). apply fget_Ok, Ht.
Qed.

(** The time column of a table of two groups of rows with one row between
    them that holds no time. *)
Lemma two_groups_column (st : store) (D1 : array) (k1 : nat) :
  (1 <= k1)%nat -> (k1 + 2 <= K st)%nat ->
  complete D1 0 k1 -> complete (DATA st) (k1 + 1) (K st) ->
  aget (DATA st) 0 k1 = Ok None ->
  (forall i, (i < k1)%nat -> aget (DATA st) 0 i = aget D1 0 i) ->
  column 0 st =
    (Some <$> times_from D1 0 k1) ++
    None :: (Some <$> times_from (DATA st) (k1 + 1) (K st - (k1 + 1))).
Proof.
  intros Hk1 Hk2 Hc1 Hc2 Hnone Hfr. apply column_eq.
  - rewrite length_app, length_fmap, times_from_length. simpl.
    rewrite length_fmap, times_from_length. lia.
  - intros i c H.
    destruct (decide (i < k1)%nat) as [Hi|Hi].
    + rewrite lookup_app_l in H
        by (rewrite length_fmap, times_from_length; exact Hi).
      rewrite list_lookup_fmap, times_from_lookup in H by exact Hi.
      simpl in H. injection H as <-.
      destruct (Hc1 i 0%nat ltac:(lia) ltac:(unfold NDIM1; lia)) as [t Ht].
      rewrite (time_at_fget _ _ _ Ht), Hfr by exact Hi. apply fget_Ok, Ht.
    + rewrite lookup_app_r in H
        by (rewrite length_fmap, times_from_length; lia).
      rewrite length_fmap, times_from_length in H.
      destruct (i - k1)%nat as [|j] eqn:Ej.
      * simpl in H. injection H as <-.
        replace i with k1 by lia. exact Hnone.
      * simpl in H.
        pose proof (lookup_lt_Some _ _ _ H) as Hj.
        rewrite length_fmap, times_from_length in Hj.
        rewrite list_lookup_fmap, times_from_lookup in H by exact Hj.
        simpl in H. injection H as <-.
        replace (k1 + 1 + j)%nat with i by lia.
        destruct (Hc2 i 0%nat ltac:(lia) ltac:(unfold NDIM1; lia)) as [t Ht].
        rewrite (time_at_fget _ _ _ Ht). apply fget_Ok, Ht.
Qed.

Lemma times_from_head (D : array) (k0 n : nat) (t : R) :
  (1 <= n)%nat -> fget D 0 k0 = Ok t -> head (times_from D k0 n) = Some t.
Proof.
  intros Hn Ht. rewrite head_lookup, times_from_lookup by lia.
  replace (k0 + 0)%nat with k0 by lia.
  rewrite (time_at_fget _ _ _ Ht). reflexivity.
Qed.

Lemma INITVR_ordered : ordered INITVR.
Proof. unfold ordered. simpl. repeat split; intros; try lia; lra. Qed.

(** C4.  The beta sweep of the configuration [BETMIN = 1.5], [BETMAX = 2.0],
    [BETINC = 0.5] (the module's initial one, with a single rift period of
    regime 1).  In general a pass of the sweep runs the body for [BETA1] and
    then goes on, through one sentinel row, with [BETA1 + BETINC] exactly
    when that incremented value is [<= BETMAX]; otherwise the sweep ends.
    For this configuration [solve] and [run] return (for every fuel above
    240), and the table is made of exactly two groups of rows and one row
    between them: the rows [ts1] that the body writes for [BETA1 = 1.5], one
    row whose time is the missing value [None], and the rows [ts2] that the
    body writes for [BETA1 = 2.0].  Each group starts at the dimensionless
    time 0, every row of a group holds a time, and the dimensionless times
    of a group do not decrease.  The table [run] hands to [WRITE] has the same
    rows, each dimensionless time [t] replaced by the calendar time
    [TBEG1 - t * TIMSC], the sentinel left as it is. *)
Theorem sweep_two_beta_groups :
  (forall (n fuel : nat) (p : params) (d : dless) (c : consts) (BETA1 : R)
          (f : forcing) (st : store),
     sweep (S n) fuel p d c BETA1 f st =
     sweep_body fuel p d c BETA1 f st ≫= fun fs =>
       if decide (BETA1 + BETINC p <= BETMAX p)
       then sentinel (snd fs) ≫= sweep n fuel p d c (BETA1 + BETINC p) (fst fs)
       else Ok fs) /\
  exists (g g' : globals) (f1 : forcing) (st1 st1' : store) (ts1 ts2 : list R),
    (forall fuel, (240 < fuel)%nat ->
       solve fuel INITVR globals0 = Ok g /\
       run fuel INITVR globals0 = Ok g' /\
       sweep_body fuel INITVR (g_dless g) (g_consts g) 1.5
         (g_forcing globals0) initial_store = Ok (f1, st1) /\
       sweep_body fuel INITVR (g_dless g) (g_consts g) 2.0 f1 st1'
       = Ok (g_forcing g, g_store g)) /\
    sentinel st1 = Ok st1' /\
    column 0 st1 = Some <$> ts1 /\
    column 0 (g_store g) = (Some <$> ts1) ++ None :: (Some <$> ts2) /\
    head ts1 = Some 0 /\ head ts2 = Some 0 /\
    nondecreasing ts1 /\ nondecreasing ts2 /\
    column 0 (g_store g')
    = fmap (M := option) (dimensional (TIMSC (g_dless g)) (TBEG1 INITVR))
        <$> column 0 (g_store g).
Proof.
  split; [exact sweep_unfold|].
  destruct INITVR_setup as (TL & d & c & HTL & Hd & Hc & Ht & He & Hstop & Hst).
  destruct (INITVR_sweep d c Ht He Hstop Hst)
    as (st1 & st1' & st2 & Hrun & Hsen & HK1 & HK2 & HKN & Hcomp1 & Hsort1
        & Hcomp2 & Hsort2 & Hnone & Hfr & Hz1 & Hz2).
  cbv zeta in Hrun.
  set (f1 := {| GP1 := ln 1.5 / DTEND1 d; AMPL := 1; WAVEN := 1 |}) in *.
  set (f2 := {| GP1 := ln (1.5 + 0.5) / DTEND1 d; AMPL := 1; WAVEN := 1 |})
    in *.
  set (g := {| TL := TL; g_dless := d; g_consts := c; g_forcing := f2;
               g_store := st2 |}).
  assert (Hcol : column 0 st2 =
            (Some <$> times_from (DATA st1) 0 (K st1)) ++
            None :: (Some <$> times_from (DATA st2) (K st1 + 1)
                                (K st2 - (K st1 + 1))))
    by (apply two_groups_column; auto).
  assert (Hlen : length (column 0 st2) = K st2).
  { rewrite Hcol, length_app, length_fmap, times_from_length. simpl.
    rewrite length_fmap, times_from_length. lia. }
  destruct (dimensionalise_Ok (TIMSC d) (TBEG1 INITVR) (seq 1 (K st2))
              ltac:(lra) (NoDup_seq 1 (K st2))
              ltac:(apply Forall_forall; intros i Hi;
                    apply elem_of_seq in Hi; lia)
              (DATA st2))
    as (D' & HD' & Hval & _).
  { intros i Hi. apply elem_of_seq in Hi.
    destruct (decide (i - 1 < K st1)%nat) as [H1|H1].
    - right. intros r Hr. unfold fget. rewrite Hfr by exact H1.
      apply (Hcomp1 (i - 1)%nat r); [lia | exact Hr].
    - destruct (decide (i - 1 = K st1)%nat) as [H2|H2].
      + left. rewrite H2. exact Hnone.
      + right. intros r Hr. apply (Hcomp2 (i - 1)%nat r); [lia | exact Hr]. }
  set (g' := {| TL := TL; g_dless := d; g_consts := c; g_forcing := f2;
                g_store := set_DATA D' st2 |}).
  exists g, g', f1, st1, st1',
    (times_from (DATA st1) 0 (K st1)),
    (times_from (DATA st2) (K st1 + 1) (K st2 - (K st1 + 1))).
  split; [|split; [exact Hsen|split; [|split; [exact Hcol|]]]].
  - intros fuel Hf. destruct (Hrun fuel Hf) as (Hb1 & Hb2 & Hsw).
    assert (Hsolve : solve fuel INITVR globals0 = Ok g).
    { unfold solve. cbv zeta.
      rewrite (bind_eq _ _ _ HTL). cbv beta.
      rewrite (bind_eq _ _ _ Hd). cbv beta.
      rewrite (bind_eq _ _ _ Hc). cbv beta.
      change (BETMIN INITVR) with 1.5.
      change (GP1 (g_forcing globals0)) with 0.
      rewrite (bind_eq _ _ _ Hsw). reflexivity. }
    split; [exact Hsolve|]. split; [|split].
    + unfold run. rewrite (check_cfg_ordered _ INITVR_ordered).
      rewrite (bind_eq (Ok tt) _ _ eq_refl). cbv beta.
      rewrite (bind_eq _ _ _ Hsolve). cbv beta.
      unfold finalise. cbv zeta. cbn [g_store g_dless g].
      rewrite (bind_eq _ _ _ HD'). cbv beta.
      rewrite decide_False by (simpl; lia). reflexivity.
    + exact Hb1.
    + replace 2.0 with (1.5 + 0.5) by lra. exact Hb2.
  - apply complete_column; [reflexivity | exact Hcomp1].
  - split; [apply times_from_head; [lia | exact Hz1]|].
    split; [apply times_from_head; [lia | exact Hz2]|].
    split; [apply times_from_nondecreasing; assumption|].
    split.
    + apply times_from_nondecreasing;
        replace (K st1 + 1 + (K st2 - (K st1 + 1)))%nat with (K st2) by lia;
        assumption.
    + apply (column_dimensionalised st2 D'); [exact Hlen|].
      intros i c0 Hi Hc0. apply Hval; assumption.
Qed.

Lemma sweep_two_beta_groups_witness :
  exists g', run 241 INITVR globals0 = Ok g'.
Proof.
  destruct (proj2 sweep_two_beta_groups)
    as (g & g' & f1 & st1 & st1' & ts1 & ts2 & Hrun & _).
  exists g'. apply (Hrun 241%nat). lia.
Defined.

(** * Further properties *)

(** ** calculate_TL over the crustal thicknesses *)

Lemma AINT_value : AINT = 0.07323502.
Proof. unfold AINT, RHOM, TEXPAN, TASTH. lra. Qed.

Lemma BINT_value (TC : R) : BINT TC = 0.57 * TC - 8398.53462.
Proof. unfold BINT, RHOW, DW, RHOC, TCO, RHOM, TEXPAN, TASTH. lra. Qed.

Lemma CINT_value (TC : R) : CINT TC = 0.012460884 * TC ^ 2.
Proof. unfold CINT, RHOM, RHOC, TEXPAN, TASTH. lra. Qed.

(** The discriminant is negative between about 13.3 km and 16.5 km. *)
Lemma discriminant_negative (TC : R) :
  13400 <= TC <= 16400 -> BINT TC ^ 2 - 4 * AINT * CINT TC < 0.
Proof.
  intros H. rewrite AINT_value, BINT_value, CINT_value. nra.
Qed.

Lemma discriminant_thin (TC : R) :
  0 <= TC <= 13300 -> 0 <= BINT TC ^ 2 - 4 * AINT * CINT TC.
Proof.
  intros H. rewrite AINT_value, BINT_value, CINT_value. nra.
Qed.

Lemma discriminant_thick (TC : R) :
  16500 <= TC -> 0 <= BINT TC ^ 2 - 4 * AINT * CINT TC.
Proof.
  intros H. rewrite AINT_value, BINT_value, CINT_value. nra.
Qed.

Lemma Rdiv_le_upper (n d hi : R) : 0 < d -> n <= hi * d -> n / d <= hi.
Proof.
  intros Hd H. apply Rmult_le_reg_r with d; [exact Hd|].
  replace (n / d * d) with n by (field; lra). exact H.
Qed.

Lemma Rdiv_lt_upper (n d hi : R) : 0 < d -> n < hi * d -> n / d < hi.
Proof.
  intros Hd H. apply Rmult_lt_reg_r with d; [exact Hd|].
  replace (n / d * d) with n by (field; lra). exact H.
Qed.

Lemma Rdiv_le_lower (n d lo : R) : 0 < d -> lo * d <= n -> lo <= n / d.
Proof.
  intros Hd H. apply Rmult_le_reg_r with d; [exact Hd|].
  replace (n / d * d) with n by (field; lra). exact H.
Qed.

Lemma Rdiv_lt_lower (n d lo : R) : 0 < d -> lo * d < n -> lo < n / d.
Proof.
  intros Hd H. apply Rmult_lt_reg_r with d; [exact Hd|].
  replace (n / d * d) with n by (field; lra). exact H.
Qed.

Lemma sqrt_facts (x : R) : 0 <= x -> 0 <= sqrt x /\ sqrt x ^ 2 = x.
Proof.
  intros Hx. split; [apply sqrt_pos|].
  simpl. rewrite Rmult_1_r. apply sqrt_sqrt, Hx.
Qed.

(** From 16.5 km on the root taken first is not positive, so the other one
    is used: the thickness is [(BINT + sqrt(disc)) / (2 AINT)]. *)
Lemma solve_TL_thick (TC : R) :
  16500 <= TC ->
  solve_TL TC
  = Ok ((BINT TC + sqrt (BINT TC ^ 2 - 4 * AINT * CINT TC)) / (2 * AINT)).
Proof.
  intros H. pose proof (discriminant_thick TC H) as Hd.
  destruct (sqrt_facts _ Hd) as [Hs0 Hs2].
  unfold solve_TL, py_sqrt.
  set (s := sqrt (BINT TC ^ 2 - 4 * AINT * CINT TC)) in *.
  rewrite decide_False by lra. simpl.
  assert (HA : 0 < AINT) by (rewrite AINT_value; lra).
  assert (HB : 0 < BINT TC) by (rewrite BINT_value; lra).
  assert (HC : 0 <= CINT TC) by (rewrite CINT_value; nra).
  assert (Hs : s <= BINT TC) by nra.
  rewrite decide_True.
  2:{ left. apply Rdiv_le_upper; lra. }
  simpl. f_equal. field. lra.
Qed.

Lemma thick_root_above (TC : R) :
  17400 <= TC ->
  TC < (BINT TC + sqrt (BINT TC ^ 2 - 4 * AINT * CINT TC)) / (2 * AINT).
Proof.
  intros H. pose proof (discriminant_thick TC ltac:(lra)) as Hd.
  destruct (sqrt_facts _ Hd) as [Hs0 Hs2].
  set (s := sqrt (BINT TC ^ 2 - 4 * AINT * CINT TC)) in *.
  rewrite AINT_value, BINT_value, CINT_value in *.
  apply Rdiv_lt_lower; [lra|].
  destruct (Rlt_le_dec (TC * (2 * 0.07323502)) (0.57 * TC - 8398.53462))
    as [Hlt|Hle]; [lra|].
  assert (Hsq : (TC * (2 * 0.07323502) - (0.57 * TC - 8398.53462)) ^ 2
                < s ^ 2) by (rewrite Hs2; nra).
  nra.
Qed.

Lemma thick_root_below (TC : R) :
  16500 <= TC <= 17300 ->
  (BINT TC + sqrt (BINT TC ^ 2 - 4 * AINT * CINT TC)) / (2 * AINT) < TC.
Proof.
  intros H. pose proof (discriminant_thick TC ltac:(lra)) as Hd.
  destruct (sqrt_facts _ Hd) as [Hs0 Hs2].
  set (s := sqrt (BINT TC ^ 2 - 4 * AINT * CINT TC)) in *.
  rewrite AINT_value, BINT_value, CINT_value in *.
  apply Rdiv_lt_upper; [lra|].
  assert (Hsq : s ^ 2
                < (TC * (2 * 0.07323502) - (0.57 * TC - 8398.53462)) ^ 2)
    by (rewrite Hs2; nra).
  nra.
Qed.

Lemma solve_TL_thin (TC : R) :
  0 <= TC <= 13300 -> exists TL, solve_TL TC = Ok TL /\ TL < TC.
Proof.
  intros H. pose proof (discriminant_thin TC H) as Hd.
  destruct (sqrt_facts _ Hd) as [Hs0 Hs2].
  unfold solve_TL, py_sqrt.
  set (s := sqrt (BINT TC ^ 2 - 4 * AINT * CINT TC)) in *.
  rewrite decide_False by lra. simpl.
  assert (HA : AINT = 0.07323502) by apply AINT_value.
  assert (HB : BINT TC = 0.57 * TC - 8398.53462) by apply BINT_value.
  assert (HC : CINT TC = 0.012460884 * TC ^ 2) by apply CINT_value.
  assert (Hs : s <= - BINT TC) by nra.
  destruct (decide ((- BINT TC + s) / (2 * AINT) <= 20e3 \/
                    (- BINT TC + s) / (2 * AINT) >= 200e3)) as [Hband|Hband];
    simpl; (eexists; split; [reflexivity|]).
  - (* the other root, which is not negative either *)
    assert (Hr : 0 <= (- BINT TC - s) / (2 * AINT))
      by (apply Rdiv_le_lower; lra).
    destruct (Rle_lt_or_eq_dec 0 TC (proj1 H)) as [Hpos|Hz]; [lra|].
    exfalso. subst TC.
    assert (Es : s = - BINT 0) by nra.
    assert (20e3 < (- BINT 0 + s) / (2 * AINT) < 200e3)
      by (apply Rdiv_strictly_between; lra).
    destruct Hband; lra.
  - assert (Hr : 0 < (- BINT TC + s) / (2 * AINT))
      by (apply Rdiv_lt_lower; lra).
    lra.
Qed.

Lemma run_calculate_TL_raises (p : params) (e : exn) :
  calculate_TL p = Raise e -> ordered p ->
  forall fuel g, run fuel p g = Raise e.
Proof.
  intros Hc Ho fuel g. unfold run. rewrite (check_cfg_ordered p Ho).
  simpl. unfold solve. rewrite Hc. reflexivity.
Qed.

(** X1.  For every crust of 17.4 km or more [calculate_TL] returns.  The
    thickness it returns is [(BINT + sqrt(BINT^2 - 4 AINT CINT)) / (2 AINT)]:
    minus the smaller root of the balance [AINT x^2 + BINT x + CINT = 0].  It
    exceeds the crustal thickness, so the error line is not printed. *)
Theorem calculate_TL_thick_crust (p : params) :
  17400 <= TC p ->
  exists TL,
    calculate_TL p = Ok TL /\
    TL = (BINT (TC p) + sqrt (BINT (TC p) ^ 2 - 4 * AINT * CINT (TC p)))
         / (2 * AINT) /\
    balance (TC p) (- TL) = 0 /\
    TC p < TL /\
    TL_error_reported (TC p) = false.
Proof.
  intros H. pose proof (solve_TL_thick (TC p) ltac:(lra)) as Hs.
  pose proof (thick_root_above (TC p) H) as Hab.
  pose proof (discriminant_thick (TC p) ltac:(lra)) as Hd.
  destruct (sqrt_facts _ Hd) as [Hs0 Hs2].
  set (TL := (BINT (TC p) + sqrt (BINT (TC p) ^ 2 - 4 * AINT * CINT (TC p)))
             / (2 * AINT)) in *.
  exists TL. split; [|split; [reflexivity|split; [|split; [exact Hab|]]]].
  - apply calculate_TL_above; [exact Hs | lra].
  - unfold balance, TL.
    set (s := sqrt (BINT (TC p) ^ 2 - 4 * AINT * CINT (TC p))) in *.
    assert (HA : 0 < AINT) by (rewrite AINT_value; lra).
    replace (AINT * (- ((BINT (TC p) + s) / (2 * AINT))) ^ 2
             + BINT (TC p) * - ((BINT (TC p) + s) / (2 * AINT)) + CINT (TC p))
      with ((s ^ 2 - (BINT (TC p) ^ 2 - 4 * AINT * CINT (TC p))) / (4 * AINT))
      by (field; lra).
    rewrite Hs2. unfold Rdiv. rewrite Rminus_diag. lra.
  - unfold TL_error_reported. rewrite Hs.
    apply bool_decide_eq_false. lra.
Qed.

Lemma calculate_TL_thick_crust_witness :
  exists TL, calculate_TL INITVR = Ok TL /\ TC INITVR < TL.
Proof.
  destruct (calculate_TL_thick_crust INITVR ltac:(simpl; lra))
    as (TL & H & _ & _ & Hlt & _).
  exists TL. split; [exact H | exact Hlt].
Defined.

(** X2.  For a crust between 13.4 km and 16.4 km the balance has no real
    root: the discriminant is negative, [math.sqrt] raises [ValueError], and
    so do [calculate_TL] and a [run] that passed [check_cfg]. *)
Theorem calculate_TL_no_root (p : params) :
  13400 <= TC p <= 16400 ->
  (forall x, balance (TC p) x <> 0) /\
  calculate_TL p = Raise ValueError /\
  (ordered p -> forall fuel g, run fuel p g = Raise ValueError).
Proof.
  intros H. pose proof (discriminant_negative (TC p) H) as Hd.
  assert (Hc : calculate_TL p = Raise ValueError).
  { unfold calculate_TL, solve_TL, py_sqrt.
    rewrite decide_True by exact Hd. reflexivity. }
  split; [|split; [exact Hc|]].
  - intros x Hx. unfold balance in Hx.
    pose proof (pow2_ge_0 (2 * AINT * x + BINT (TC p))) as Hsq.
    replace ((2 * AINT * x + BINT (TC p)) ^ 2)
      with (4 * AINT * (AINT * x ^ 2 + BINT (TC p) * x + CINT (TC p))
            + (BINT (TC p) ^ 2 - 4 * AINT * CINT (TC p))) in Hsq by ring.
    rewrite Hx in Hsq. lra.
  - intros Ho. apply run_calculate_TL_raises; assumption.
Qed.

Lemma calculate_TL_no_root_witness :
  calculate_TL (with_TC 15000 INITVR) = Raise ValueError.
Proof.
  apply (calculate_TL_no_root (with_TC 15000 INITVR)). simpl. lra.
Defined.

(** X3.  For a crust of at most 13.3 km, or between 16.5 km and 17.3 km, the
    thickness found is below the crustal thickness: the error line is
    printed, [TLM] is left unassigned and the [print] that ends
    [calculate_TL] raises [UnboundLocalError]; so does a [run] that passed
    [check_cfg]. *)
Theorem calculate_TL_below_crust (p : params) :
  0 <= TC p <= 13300 \/ 16500 <= TC p <= 17300 ->
  TL_error_reported (TC p) = true /\
  calculate_TL p = Raise UnboundLocalError /\
  (ordered p -> forall fuel g, run fuel p g = Raise UnboundLocalError).
Proof.
  intros H.
  assert (Hs : exists TL, solve_TL (TC p) = Ok TL /\ TL < TC p).
  { destruct H as [H|H].
    - apply solve_TL_thin, H.
    - eexists. split; [apply solve_TL_thick; lra|].
      apply thick_root_below, H. }
  destruct Hs as (TL & Hs & Hlt).
  pose proof (calculate_TL_below p TL Hs Hlt) as Hc.
  split; [|split; [exact Hc|]].
  - unfold TL_error_reported. rewrite Hs. apply bool_decide_eq_true. lra.
  - intros Ho. apply run_calculate_TL_raises; assumption.
Qed.

Lemma calculate_TL_below_crust_witness :
  calculate_TL (with_TC 17000 INITVR) = Raise UnboundLocalError.
Proof.
  apply (calculate_TL_below_crust (with_TC 17000 INITVR)).
  right. simpl. lra.
Defined.

(** ** COMPAC, row by row *)

Section Compaction.

Variables (RHOA RHOS PHI0 CONST : R).
Hypothesis HRHO : RHOS < RHOA.
Hypothesis HPHI : 0 <= PHI0 * (RHOS - RHOW).
Hypothesis HCONST : CONST <> 0.

Local Abbreviation DLOB := (RHOA - RHOS).
Local Abbreviation ELOB := (PHI0 * CONST * (RHOS - RHOW)).
Local Abbreviation FLOB := (PHI0 * (RHOS - RHOW)).

Lemma newton_denominator (x : R) :
  (RHOA - RHOS) + PHI0 * (RHOS - RHOW) * exp (- x / CONST) <> 0.
Proof.
  pose proof (exp_pos (- x / CONST)) as He.
  assert (0 <= PHI0 * (RHOS - RHOW) * exp (- x / CONST)) by nra.
  lra.
Qed.

Lemma first_converged_range (it : nat -> R) (n J j : nat) :
  first_converged it J n = Some j ->
  (J <= j < J + n)%nat /\
  Rabs (it j - it (j - 1)%nat) <= 1e-5 /\
  forall k, (J <= k < j)%nat -> Rabs (it k - it (k - 1)%nat) > 1e-5.
Proof.
  revert J. induction n as [|n IH]; intros J H; [discriminate|].
  simpl in H. case_decide as Hc.
  - apply IH in H as (Hj & Hconv & Hfar).
    split; [lia|]. split; [exact Hconv|].
    intros k Hk. destruct (decide (k = J)) as [->|Hne]; [exact Hc|].
    apply Hfar. lia.
  - injection H as <-. split; [lia|]. split; [lra|]. intros k Hk. lia.
Qed.

Lemma first_converged_None (it : nat -> R) (n J : nat) :
  first_converged it J n = None ->
  forall k, (J <= k < J + n)%nat -> Rabs (it k - it (k - 1)%nat) > 1e-5.
Proof.
  revert J. induction n as [|n IH]; intros J H k Hk; [lia|].
  simpl in H. case_decide as Hc; [|discriminate].
  destruct (decide (k = J)) as [->|Hne]; [exact Hc|].
  apply (IH (S J) H). lia.
Qed.

(** The loop entered at [J] with [F[J-1]] the iterate [J-1] stops at the
    first later iterate that moved by at most 1e-5, or with [J = 30]. *)
Lemma newton_loop_search (S x0 : R) (n : nat) :
  let it := fun k => newton_iterate RHOA RHOS PHI0 CONST S k x0 in
  forall (fuel J : nat) (F : list (option R)),
    (J + n = 30)%nat -> (1 <= n)%nat -> (1 <= J)%nat -> (n <= fuel)%nat ->
    length F = 30%nat -> F !! (J - 1)%nat = Some (Some (it (J - 1)%nat)) ->
    exists F',
      length F' = 30%nat /\
      match first_converged it J n with
      | Some j =>
          newton_loop fuel RHOA DLOB ELOB FLOB CONST S J F = Ok (j, F') /\
          F' !! j = Some (Some (it j))
      | None =>
          newton_loop fuel RHOA DLOB ELOB FLOB CONST S J F = Ok (30%nat, F')
      end.
Proof.
  intros it. induction n as [|n IH]; intros fuel J F HJn Hn HJ Hfuel HF Hx;
    [lia|].
  destruct fuel as [|fuel]; [lia|].
  rewrite (newton_loop_pass fuel RHOA RHOS PHI0 CONST S J F _ Hx
             ltac:(lia) HCONST (newton_denominator _)).
  cbv zeta.
  assert (Hit : newton_step RHOA RHOS PHI0 CONST S (it (J - 1)%nat) = it J).
  { unfold it. replace J with (Datatypes.S (J - 1)) at 2 by lia. reflexivity. }
  rewrite Hit. cbn [first_converged].
  destruct (decide (Rabs (it J - it (J - 1)%nat) > 1e-5)) as [Hfar|Hconv].
  - destruct (decide (30 <= J + 1)%nat) as [H30|H30].
    + exists (<[J := Some (it J)]> F). split; [rewrite length_insert; exact HF|].
      assert (n = 0)%nat as -> by lia. simpl.
      replace (J + 1)%nat with 30%nat by lia. reflexivity.
    + replace (Datatypes.S J) with (J + 1)%nat by lia.
      apply (IH fuel (J + 1)%nat (<[J := Some (it J)]> F)); try lia.
      * rewrite length_insert. exact HF.
      * replace (J + 1 - 1)%nat with J by lia.
        apply list_lookup_insert_eq. lia.
  - exists (<[J := Some (it J)]> F). split; [rewrite length_insert; exact HF|].
    split; [reflexivity|]. apply list_lookup_insert_eq. lia.
Qed.

Local Abbreviation ALOB := (RHOA / (RHOA - RHOS)).

(** A row that holds a time. *)
Lemma compact_row_outcome (S t : R) (i : nat) (D : array)
  (F : list (option R)) :
  length F = 30%nat ->
  aget D 0 (i - 1) = Ok (Some t) -> fget D 1 (i - 1) = Ok S ->
  match compacted RHOA RHOS PHI0 CONST S with
  | Some y =>
      exists D' F',
        compact_row RHOA RHOS PHI0 CONST ALOB DLOB ELOB FLOB i (D, F)
        = Ok (D', F') /\
        length F' = 30%nat /\ aset D 1 (i - 1) (Some y) = Ok D'
  | None =>
      compact_row RHOA RHOS PHI0 CONST ALOB DLOB ELOB FLOB i (D, F)
      = Raise IndexError
  end.
Proof.
  intros HF Ht HS. unfold compact_row, compacted.
  rewrite (bind_eq _ _ _ Ht). cbv beta iota.
  rewrite (bind_eq _ _ _ HS). cbv beta.
  set (x0 := S * ALOB).
  set (F0 := <[0%nat := Some x0]> F).
  rewrite (bind_eq (lset F 0 (Some x0)) F0)
    by (unfold lset; rewrite decide_True by lia; reflexivity).
  cbv beta.
  destruct (newton_loop_search S x0 29 30 1 F0) as (F' & HF' & Hloop);
    try lia.
  { unfold F0. rewrite length_insert. exact HF. }
  { unfold F0. simpl. apply list_lookup_insert_eq. lia. }
  cbv zeta in Hloop.
  set (it := fun k => newton_iterate RHOA RHOS PHI0 CONST S k x0) in *.
  destruct (first_converged it 1 29) as [j|] eqn:Ej.
  - destruct Hloop as [Hloop Hj]. cbn [fmap option_fmap option_map].
    apply fget_Ok in HS.
    destruct (aget_aset_exists D 1 (i - 1) _ (Some (it j)) HS) as [D' HD'].
    exists D', F'. split; [|split; [exact HF' | exact HD']].
    rewrite (bind_eq _ _ _ Hloop). cbv beta iota.
    unfold lget. rewrite Hj.
    rewrite (bind_eq (Ok _) _ _ eq_refl). cbv beta.
    change (newton_iterate RHOA RHOS PHI0 CONST S j x0) with (it j).
    rewrite HD'. reflexivity.
  - cbn [fmap option_fmap option_map].
    rewrite (bind_eq _ _ _ Hloop). cbv beta iota.
    unfold lget. rewrite (lookup_ge_None_2 F' 30) by lia. reflexivity.
Qed.

(** A sentinel row. *)
Lemma compact_row_sentinel (i : nat) (D : array) (F : list (option R)) :
  aget D 0 (i - 1) = Ok None ->
  compact_row RHOA RHOS PHI0 CONST ALOB DLOB ELOB FLOB i (D, F) = Ok (D, F).
Proof. intros H. unfold compact_row. rewrite H. reflexivity. Qed.

(** The rows [Is], each taken once: every row that holds a time has its
    subsidence replaced, nothing else is written. *)
Lemma compact_rows_converged (Is : list nat) :
  NoDup Is -> Forall (fun i => 1 <= i)%nat Is ->
  forall (D : array) (F : list (option R)),
    length F = 30%nat ->
    (forall i, i ∈ Is ->
       aget D 0 (i - 1) = Ok None \/
       exists t S y, aget D 0 (i - 1) = Ok (Some t) /\
                     fget D 1 (i - 1) = Ok S /\
                     compacted RHOA RHOS PHI0 CONST S = Some y) ->
    exists D' F',
      compact_rows RHOA RHOS PHI0 CONST ALOB DLOB ELOB FLOB Is (D, F)
      = Ok (D', F') /\
      length F' = 30%nat /\
      (forall i t S, i ∈ Is -> aget D 0 (i - 1) = Ok (Some t) ->
                     fget D 1 (i - 1) = Ok S ->
                     aget D' 1 (i - 1) = Ok (compacted RHOA RHOS PHI0 CONST S)) /\
      (forall r j,
         r <> 1%nat \/
         (forall i, i ∈ Is -> j = (i - 1)%nat -> aget D 0 j = Ok None) ->
         aget D' r j = aget D r j).
Proof.
  induction Is as [|i Is IH]; intros Hnd Hpos D F HF Hrows.
  - exists D, F. split; [reflexivity|]. split; [exact HF|].
    split; [|reflexivity]. intros i t S Hi. apply elem_of_nil in Hi.
    contradiction.
  - apply NoDup_cons in Hnd as [Hnin Hnd].
    apply Forall_cons in Hpos as [Hi1 Hpos].
    assert (Hother : forall i', i' ∈ Is -> (i' - 1)%nat <> (i - 1)%nat).
    { intros i' Hi' E.
      pose proof (proj1 (Forall_forall _ _) Hpos i' Hi') as H1. simpl in H1.
      assert (i' = i) by lia. subst. contradiction. }
    destruct (Hrows i ltac:(left)) as [Hnone|(t & S & y & Ht & HS & Hy)].
    + (* a sentinel row *)
      destruct (IH Hnd Hpos D F HF) as (D' & F' & HD' & HF' & Hval & Hfr).
      { intros i' Hi'. apply Hrows. right. exact Hi'. }
      exists D', F'. split.
      { cbn [compact_rows]. rewrite (compact_row_sentinel i D F Hnone).
        exact HD'. }
      split; [exact HF'|]. split.
      * intros i' t S Hi' Ht HS. apply elem_of_cons in Hi' as [->|Hi'].
        -- rewrite Hnone in Ht. discriminate.
        -- apply (Hval i' t S); assumption.
      * intros r j [Hr|Hj]; apply Hfr; [left; exact Hr|].
        right. intros i' Hi' E. apply (Hj i'); [right; exact Hi' | exact E].
    + (* a row of the table *)
      pose proof (compact_row_outcome S t i D F HF Ht HS) as Hrow.
      rewrite Hy in Hrow. destruct Hrow as (D1 & F1 & Hrow & HF1 & HD1).
      assert (Hfr1 : forall r j, r <> 1%nat \/ j <> (i - 1)%nat ->
                                 aget D1 r j = aget D r j).
      { intros r j Hne. apply (aget_aset_ne _ _ _ _ _ _ _ HD1). exact Hne. }
      destruct (IH Hnd Hpos D1 F1 HF1) as (D' & F' & HD' & HF' & Hval & Hfr).
      { intros i' Hi'. pose proof (Hother i' Hi') as Hne.
        unfold fget. rewrite !Hfr1 by (right; exact Hne).
        apply Hrows. right. exact Hi'. }
      exists D', F'. split.
      { cbn [compact_rows]. rewrite Hrow. exact HD'. }
      split; [exact HF'|]. split.
      * intros i' t' S' Hi' Ht' HS'. apply elem_of_cons in Hi' as [->|Hi'].
        -- rewrite HS in HS'. injection HS' as <-.
           rewrite Hfr.
           ++ rewrite Hy. apply (aget_aset_eq _ _ _ _ _ HD1).
           ++ right. intros i' Hi' E. exfalso. apply (Hother i' Hi').
              symmetry. exact E.
        -- pose proof (Hother i' Hi') as Hne.
           apply (Hval i' t' S' Hi').
           ++ rewrite Hfr1 by (right; exact Hne). exact Ht'.
           ++ unfold fget. rewrite Hfr1 by (right; exact Hne). exact HS'.
      * intros r j Hrj.
        assert (Hj1 : r <> 1%nat \/ j <> (i - 1)%nat).
        { destruct Hrj as [Hr|Hj]; [left; exact Hr|].
          destruct (decide (j = (i - 1)%nat)) as [E|Hne]; [|right; exact Hne].
          specialize (Hj i ltac:(left) E). rewrite E, Ht in Hj. discriminate. }
        rewrite Hfr.
        -- apply Hfr1. exact Hj1.
        -- destruct Hrj as [Hr|Hj]; [left; exact Hr|]. right.
           intros i' Hi' E. rewrite Hfr1 by (left; lia).
           apply (Hj i'); [right; exact Hi' | exact E].
Qed.

Lemma compact_rows_app (Is1 Is2 : list nat) (DF : array * list (option R)) :
  compact_rows RHOA RHOS PHI0 CONST ALOB DLOB ELOB FLOB (Is1 ++ Is2) DF
  = compact_rows RHOA RHOS PHI0 CONST ALOB DLOB ELOB FLOB Is1 DF
      ≫= compact_rows RHOA RHOS PHI0 CONST ALOB DLOB ELOB FLOB Is2.
Proof.
  revert DF. induction Is1 as [|i Is1 IH]; intros DF; [reflexivity|].
  cbn [app compact_rows].
  destruct (compact_row RHOA RHOS PHI0 CONST ALOB DLOB ELOB FLOB i DF)
    as [DF1| |]; [|reflexivity|reflexivity].
  simpl. apply IH.
Qed.

End Compaction.

Lemma first_converged_far (it : nat -> R) (n J : nat) :
  (forall k, (J <= k < J + n)%nat -> Rabs (it k - it (k - 1)%nat) > 1e-5) ->
  first_converged it J n = None.
Proof.
  revert J. induction n as [|n IH]; intros J H; [reflexivity|].
  simpl. rewrite decide_True by (apply H; lia). apply IH.
  intros k Hk. apply H. lia.
Qed.

Lemma compacted_spec (RHOA RHOS PHI0 CONST S y : R) :
  compacted RHOA RHOS PHI0 CONST S = Some y ->
  let it := fun k => newton_iterate RHOA RHOS PHI0 CONST S k
                       (S * (RHOA / (RHOA - RHOS))) in
  exists j, (1 <= j <= 29)%nat /\ y = it j /\
            Rabs (it j - it (j - 1)%nat) <= 1e-5 /\
            forall k, (1 <= k < j)%nat -> Rabs (it k - it (k - 1)%nat) > 1e-5.
Proof.
  intros H. unfold compacted in H. cbv zeta in *.
  set (it := fun k => newton_iterate RHOA RHOS PHI0 CONST S k
                        (S * (RHOA / (RHOA - RHOS)))) in *.
  destruct (first_converged it 1 29) as [j|] eqn:E; [|discriminate].
  injection H as <-. apply first_converged_range in E as (Hj & Hc & Hf).
  exists j. split; [lia|]. split; [reflexivity|]. split; [exact Hc|].
  exact Hf.
Qed.

Lemma COMPAC_rows (RHOA RHOS PHI0 CONST : R) (NPTS : nat) (D : array) :
  RHOS < RHOA -> 0 <= PHI0 * (RHOS - RHOW) -> CONST <> 0 ->
  (forall i, (i < NPTS)%nat ->
     aget D 0 i = Ok None \/
     exists t S y, aget D 0 i = Ok (Some t) /\ fget D 1 i = Ok S /\
                   compacted RHOA RHOS PHI0 CONST S = Some y) ->
  exists D',
    COMPAC RHOA RHOS PHI0 CONST NPTS D = Ok D' /\
    (forall i t S, (i < NPTS)%nat -> aget D 0 i = Ok (Some t) ->
                   fget D 1 i = Ok S ->
                   aget D' 1 i = Ok (compacted RHOA RHOS PHI0 CONST S)) /\
    (forall r j,
       r <> 1%nat \/ (NPTS <= j)%nat \/ aget D 0 j = Ok None ->
       aget D' r j = aget D r j).
Proof.
  intros HRHO HPHI HCONST Hrows.
  destruct (compact_rows_converged RHOA RHOS PHI0 CONST HRHO HPHI HCONST
              (seq 1 NPTS) (NoDup_seq 1 NPTS)
              ltac:(apply Forall_forall; intros i Hi;
                    apply elem_of_seq in Hi; lia)
              D (replicate 30 None) ltac:(apply length_replicate))
    as (D' & F' & HD' & _ & Hval & Hfr).
  { intros i Hi. apply elem_of_seq in Hi. apply Hrows. lia. }
  exists D'. split; [|split].
  - unfold COMPAC. rewrite py_div_nonzero by lra.
    rewrite (bind_eq (Ok _) _ _ eq_refl). cbv beta zeta.
    rewrite HD'. reflexivity.
  - intros i t S Hi Ht HS.
    specialize (Hval (Datatypes.S i) t S).
    replace (Datatypes.S i - 1)%nat with i in Hval by lia.
    apply Hval; [apply elem_of_seq; lia | exact Ht | exact HS].
  - intros r j Hrj. apply Hfr.
    destruct Hrj as [Hr|[Hj|Hj]]; [left; exact Hr | |right; intros; exact Hj].
    right. intros i Hi E. apply elem_of_seq in Hi. lia.
Qed.

(** X4.  [COMPAC] with a positive density contrast [RHOA - RHOS], a
    non-negative [PHI0 * (RHOS - RHOW)] and a non-zero depth constant, on a
    table whose rows [1..NPTS] are sentinels or hold a time and a subsidence
    for which the Newton-Raphson iteration settles: it returns, every row
    that holds a time has its subsidence [S] replaced by the first of the
    iterates 1..29 (from [S * RHOA / (RHOA - RHOS)]) that is within 1e-5 of
    the iterate before it, and no other cell is written: not the times, the
    heat flux, the strain rate, the sentinel rows, the rows past [NPTS]. *)
Theorem COMPAC_stores_first_converged (RHOA RHOS PHI0 CONST : R) (NPTS : nat)
  (D : array) :
  RHOS < RHOA -> 0 <= PHI0 * (RHOS - RHOW) -> CONST <> 0 ->
  (forall i, (i < NPTS)%nat ->
     aget D 0 i = Ok None \/
     exists t S y, aget D 0 i = Ok (Some t) /\ fget D 1 i = Ok S /\
                   compacted RHOA RHOS PHI0 CONST S = Some y) ->
  exists D',
    COMPAC RHOA RHOS PHI0 CONST NPTS D = Ok D' /\
    (forall i t S, (i < NPTS)%nat -> aget D 0 i = Ok (Some t) ->
       fget D 1 i = Ok S ->
       let it := fun k => newton_iterate RHOA RHOS PHI0 CONST S k
                            (S * (RHOA / (RHOA - RHOS))) in
       exists j, (1 <= j <= 29)%nat /\
                 fget D' 1 i = Ok (it j) /\
                 Rabs (it j - it (j - 1)%nat) <= 1e-5 /\
                 forall k, (1 <= k < j)%nat ->
                           Rabs (it k - it (k - 1)%nat) > 1e-5) /\
    (forall r j,
       r <> 1%nat \/ (NPTS <= j)%nat \/ aget D 0 j = Ok None ->
       aget D' r j = aget D r j).
Proof.
  intros HRHO HPHI HCONST Hrows.
  destruct (COMPAC_rows RHOA RHOS PHI0 CONST NPTS D HRHO HPHI HCONST Hrows)
    as (D' & HD' & Hval & Hfr).
  exists D'. split; [exact HD'|]. split; [|exact Hfr].
  intros i t S Hi Ht HS it.
  pose proof (Hval i t S Hi Ht HS) as Hv.
  destruct (Hrows i Hi) as [Hn|(t' & S' & y & _ & HS' & Hy)].
  { rewrite Hn in Ht. discriminate. }
  rewrite HS in HS'. injection HS' as <-. rewrite Hy in Hv.
  destruct (compacted_spec _ _ _ _ _ _ Hy) as (j & Hj & -> & Hc & Hf).
  exists j. split; [exact Hj|]. split; [apply fget_Ok, Hv|].
  split; [exact Hc | exact Hf].
Qed.

Lemma newton_step_zero_porosity (RHOA RHOS CONST S : R) :
  RHOA - RHOS <> 0 ->
  newton_step RHOA RHOS 0 CONST S (S * (RHOA / (RHOA - RHOS)))
  = S * (RHOA / (RHOA - RHOS)).
Proof. intros H. unfold newton_step. field. lra. Qed.

Lemma compacted_zero_porosity (RHOA RHOS CONST S : R) :
  RHOA - RHOS <> 0 ->
  compacted RHOA RHOS 0 CONST S = Some (S * (RHOA / (RHOA - RHOS))).
Proof.
  intros H. unfold compacted. cbv zeta.
  cbn [first_converged newton_iterate Nat.sub].
  rewrite (newton_step_zero_porosity _ _ _ _ H).
  rewrite decide_False.
  - cbn [fmap option_fmap option_map newton_iterate].
    rewrite (newton_step_zero_porosity _ _ _ _ H). reflexivity.
  - rewrite Rminus_diag, Rabs_R0. lra.
Qed.

Lemma COMPAC_stores_first_converged_witness :
  exists D', COMPAC 3 2 0 1 2 short_table = Ok D' /\
             aget D' 0 0 = aget short_table 0 0.
Proof.
  destruct (COMPAC_stores_first_converged 3 2 0 1 2 short_table
              ltac:(lra) ltac:(lra) ltac:(lra)) as (D' & HD' & _ & Hfr).
  - intros i Hi. destruct i as [|[|i]]; [right|left; reflexivity|lia].
    exists 0, 1.5, (1.5 * (3 / (3 - 2))).
    split; [reflexivity|]. split; [reflexivity|].
    apply compacted_zero_porosity. lra.
  - exists D'. split; [exact HD'|]. apply Hfr. left. lia.
Defined.

(** X5.  Without porosity ([PHI0 = 0]), for a positive density contrast
    [RHOS < RHOA] and [CONST <> 0], over the reals: on a table whose rows
    hold a subsidence where they hold a time, with the argument of the
    exponential at most 709 (where [math.exp] does not overflow), [COMPAC]
    returns; the Newton-Raphson iteration stops at its first step, at the
    start value, so every row that holds a time has its subsidence
    multiplied by [RHOA / (RHOA - RHOS)], the factor between a load of
    water-free sediment and none, and nothing else is written.  (The floats
    of the program are read as real numbers: there the first step can move
    the start value by a rounding error.) *)
Theorem COMPAC_zero_porosity (RHOA RHOS CONST : R) (NPTS : nat) (D : array) :
  RHOS < RHOA -> CONST <> 0 ->
  (forall i, (i < NPTS)%nat ->
     aget D 0 i = Ok None \/
     exists t S, aget D 0 i = Ok (Some t) /\ fget D 1 i = Ok S /\
                 - (S * (RHOA / (RHOA - RHOS))) / CONST <= 709) ->
  exists D',
    COMPAC RHOA RHOS 0 CONST NPTS D = Ok D' /\
    (forall i t S, (i < NPTS)%nat -> aget D 0 i = Ok (Some t) ->
       fget D 1 i = Ok S ->
       fget D' 1 i = Ok (S * (RHOA / (RHOA - RHOS)))) /\
    (forall r j,
       r <> 1%nat \/ (NPTS <= j)%nat \/ aget D 0 j = Ok None ->
       aget D' r j = aget D r j).
Proof.
  intros HRHO HCONST Hrows.
  destruct (COMPAC_rows RHOA RHOS 0 CONST NPTS D HRHO ltac:(lra) HCONST)
    as (D' & HD' & Hval & Hfr).
  { intros i Hi. destruct (Hrows i Hi) as [Hn|(t & S & Ht & HS & _)];
      [left; exact Hn|right].
    exists t, S, (S * (RHOA / (RHOA - RHOS))).
    split; [exact Ht|]. split; [exact HS|].
    apply compacted_zero_porosity. lra. }
  exists D'. split; [exact HD'|]. split; [|exact Hfr].
  intros i t S Hi Ht HS. apply fget_Ok.
  rewrite (Hval i t S Hi Ht HS). f_equal.
  apply compacted_zero_porosity. lra.
Qed.

Lemma COMPAC_zero_porosity_witness :
  exists D', COMPAC 3 2 0 1 2 short_table = Ok D' /\
             fget D' 1 0 = Ok (1.5 * (3 / (3 - 2))).
Proof.
  destruct (COMPAC_zero_porosity 3 2 1 2 short_table ltac:(lra) ltac:(lra))
    as (D' & HD' & Hval & _).
  - intros i Hi. destruct i as [|[|i]]; [right|left; reflexivity|lia].
    exists 0, 1.5. split; [reflexivity|]. split; [reflexivity|]. lra.
  - exists D'. split; [exact HD'|].
    apply (Hval 0%nat 0 1.5); [lia | reflexivity | reflexivity].
Defined.

(** X6.  The iteration cap.  When the rows before the row [i0] are
    sentinels or rows whose iteration settles, and the row [i0] holds a time
    and a subsidence whose iterates 1..29 each move by more than 1e-5, the
    loop is left with [J = 30] and [F[30]] is read past the end of [F]:
    [COMPAC] raises [IndexError]; it never stores the last iterate. *)
Theorem COMPAC_unsettled_row_raises (RHOA RHOS PHI0 CONST : R) (NPTS : nat)
  (D : array) (i0 : nat) (t S : R) :
  RHOS < RHOA -> 0 <= PHI0 * (RHOS - RHOW) -> CONST <> 0 ->
  (i0 < NPTS)%nat ->
  (forall i, (i < i0)%nat ->
     aget D 0 i = Ok None \/
     exists t S y, aget D 0 i = Ok (Some t) /\ fget D 1 i = Ok S /\
                   compacted RHOA RHOS PHI0 CONST S = Some y) ->
  aget D 0 i0 = Ok (Some t) -> fget D 1 i0 = Ok S ->
  (forall k, (1 <= k <= 29)%nat ->
     Rabs (newton_iterate RHOA RHOS PHI0 CONST S k
             (S * (RHOA / (RHOA - RHOS)))
           - newton_iterate RHOA RHOS PHI0 CONST S (k - 1)
               (S * (RHOA / (RHOA - RHOS)))) > 1e-5) ->
  COMPAC RHOA RHOS PHI0 CONST NPTS D = Raise IndexError.
Proof.
  intros HRHO HPHI HCONST Hi0 Hrows Ht HS Hfar.
  assert (Hnone : compacted RHOA RHOS PHI0 CONST S = None).
  { unfold compacted. cbv zeta.
    rewrite first_converged_far; [reflexivity|].
    intros k Hk. apply Hfar. lia. }
  destruct (compact_rows_converged RHOA RHOS PHI0 CONST HRHO HPHI HCONST
              (seq 1 i0) (NoDup_seq 1 i0)
              ltac:(apply Forall_forall; intros i Hi;
                    apply elem_of_seq in Hi; lia)
              D (replicate 30 None) ltac:(apply length_replicate))
    as (D1 & F1 & HD1 & HF1 & _ & Hfr).
  { intros i Hi. apply elem_of_seq in Hi. apply Hrows. lia. }
  assert (Hsame : forall r, aget D1 r i0 = aget D r i0).
  { intros r. apply Hfr. right. intros i Hi E.
    apply elem_of_seq in Hi. lia. }
  pose proof (compact_row_outcome RHOA RHOS PHI0 CONST HRHO HPHI HCONST
                S t (Datatypes.S i0) D1 F1 HF1) as Hrow.
  replace (Datatypes.S i0 - 1)%nat with i0 in Hrow by lia.
  rewrite Hnone in Hrow.
  specialize (Hrow ltac:(rewrite Hsame; exact Ht)
                   ltac:(unfold fget; rewrite Hsame; exact HS)).
  unfold COMPAC. rewrite py_div_nonzero by lra.
  rewrite (bind_eq (Ok _) _ _ eq_refl). cbv beta zeta.
  replace NPTS with (i0 + Datatypes.S (NPTS - Datatypes.S i0))%nat by lia.
  rewrite seq_app, compact_rows_app, HD1.
  rewrite (bind_eq (Ok _) _ _ eq_refl).
  cbn [seq compact_rows]. replace (1 + i0)%nat with (Datatypes.S i0) by lia.
  rewrite Hrow. reflexivity.
Qed.

(** The iterates of the uplifted row of [uplift_table]. *)
Lemma uplift_iterates (k : nat) :
  (k <= 29)%nat ->
  let x0 := -100 * (RHOA_value / (RHOA_value - 2.6)) in
  let it := fun k => newton_iterate RHOA_value 2.6 0.6 2.0 (-100) k x0 in
  x0 + INR k <= it k <= x0 + 2 * INR k /\
  ((1 <= k)%nat -> it (k - 1)%nat + 1 <= it k).
Proof.
  intros Hk x0 it. induction k as [|k IH].
  - unfold it. cbn [newton_iterate]. change (INR 0) with 0.
    split; [lra|lia].
  - destruct (IH ltac:(lia)) as [Hb _].
    assert (HK : INR k <= 28).
    { replace 28 with (INR 28) by (simpl; lra). apply le_INR. lia. }
    pose proof (pos_INR k) as Hpos.
    destruct (newton_step_uplift (it k) ltac:(fold x0; lra)) as [_ Hstep].
    fold x0 in Hstep.
    change (it (Datatypes.S k))
      with (newton_step RHOA_value 2.6 0.6 2.0 (-100) (it k)).
    rewrite S_INR. replace (Datatypes.S k - 1)%nat with k by lia.
    split; [lra|]. intros _. lra.
Qed.

Lemma COMPAC_unsettled_row_raises_witness :
  COMPAC RHOA_value 2.6 0.6 2.0 1 uplift_table = Raise IndexError.
Proof.
  pose proof RHOA_value_bounds as Ha.
  apply (COMPAC_unsettled_row_raises RHOA_value 2.6 0.6 2.0 1 uplift_table
           0 0 (-100)).
  - lra.
  - unfold RHOW. lra.
  - lra.
  - lia.
  - intros i Hi. lia.
  - reflexivity.
  - reflexivity.
  - intros k Hk. destruct (uplift_iterates k ltac:(lia)) as [_ Hstep].
    cbv zeta in Hstep. specialize (Hstep ltac:(lia)).
    rewrite Rabs_right; lra.
Defined.

(** ** The beta sweep of a single rift period of regime 1, in general *)




(** The step of a solver run of regime 1 whose strain rate is at most
    [gmax]. *)
Lemma DTI_regime1 (G DTST dti gmax : R) :
  0 <= G <= gmax -> 0 < dti -> dti <= DTC -> dti <= DTST ->
  dti * (1 + gmax) <= DZ ->
  exists DTI, DTI_of 1 G DTST = Ok DTI /\ dti <= DTI <= Rmin DTC DTST.
Proof.
  intros HG Hd HC HS Hmax. unfold DTI_of, GMAX, py_div.
  rewrite decide_False by lra. simpl.
  eexists. split; [reflexivity|].
  assert (Hcfl : dti <= DZ / (1 + G)) by (apply Rdiv_le_lower; nra).
  unfold Rmin. repeat destruct (Rle_dec _ _); lra.
Qed.

Section Regime1_sweep.

Variables (p : params) (d : dless) (c : consts) (dti : R) (n : nat).
Hypothesis HITYPE : ITYPE1 p = 1%Z.
Hypothesis HIRIFT : IRIFT p = 1%Z.
Hypothesis HINC : 0 < BETINC p.
Hypothesis HEND : 0 < DTEND1 d.
Hypothesis HSTOP : DTEND1 d <= DTSTOP d.
Hypothesis Hdti : 0 < dti.
Hypothesis HdtiC : dti <= DTC.
Hypothesis HdtiS : dti <= DTST d.
Hypothesis HdtiG : dti * (1 + ln (BETMAX p) / DTEND1 d) <= DZ.
Hypothesis HdtiE : Rmin DTC (DTST d) <= DTEND1 d.
Hypothesis Hn : DTSTOP d <= INR n * dti.



End Regime1_sweep.




(** The sweep has no exit when the increment is not positive. *)
Lemma sweep_never_returns (p : params) (d : dless) (c : consts) (n : nat) :
  BETINC p <= 0 ->
  forall (fuel : nat) (BETA : R) (f : forcing) (st : store),
    BETA + BETINC p <= BETMAX p ->
    forall r, sweep n fuel p d c BETA f st <> Ok r.
Proof.
  intros HINC. induction n as [|n IH]; intros fuel BETA f st HB r H;
    [discriminate|].
  rewrite sweep_unfold in H. bind_split H as fs Hfs.
  rewrite decide_True in H by exact HB.
  bind_split H as st' Hsen.
  apply (IH fuel (BETA + BETINC p) (fst fs) st' ltac:(lra) r H).
Qed.

(** X8.  With an increment [BETINC <= 0] and [BETMIN + BETINC <= BETMAX] the
    test that ends the beta sweep never fails: no pass of the sweep is the
    last one, and neither the sweep nor [run] ever returns a table, whatever
    the configuration is else: a run ends by an exception or not at all. *)
Theorem sweep_without_exit (p : params) :
  BETINC p <= 0 -> BETMIN p + BETINC p <= BETMAX p ->
  (forall n fuel d c f st r, sweep n fuel p d c (BETMIN p) f st <> Ok r) /\
  (forall fuel g r, solve fuel p g <> Ok r) /\
  (forall fuel g r, run fuel p g <> Ok r).
Proof.
  intros HINC HB.
  assert (Hsolve : forall fuel g r, solve fuel p g <> Ok r).
  { intros fuel g r H. unfold solve in H. cbv zeta in H.
    bind_split H as TL HTL. bind_split H as d Hd. bind_split H as c Hc.
    bind_split H as fs Hfs.
    apply (sweep_never_returns p d c fuel HINC fuel _ _ _ HB fs Hfs). }
  split; [|split; [exact Hsolve|]].
  - intros n fuel d c f st r. apply sweep_never_returns; assumption.
  - intros fuel g r H. unfold run in H.
    bind_split H as u Hu. bind_split H as g' Hg'.
    apply (Hsolve fuel g g' Hg').
Qed.

Lemma sweep_without_exit_witness :
  run 300 (with_BETINC 0 INITVR) globals0 = OutOfFuel \/
  exists e, run 300 (with_BETINC 0 INITVR) globals0 = Raise e.
Proof.
  destruct (sweep_without_exit (with_BETINC 0 INITVR)
              ltac:(simpl; lra) ltac:(simpl; lra)) as (_ & _ & H).
  destruct (run 300 (with_BETINC 0 INITVR) globals0) as [r|e|] eqn:E.
  - exfalso. apply (H 300%nat globals0 r E).
  - right. exists e. reflexivity.
  - left. reflexivity.
Defined.

(** ** What a run of a single rift period reads of the globals *)

Lemma rmap_eq {A B : Type} (h : A -> B) (r1 r2 : result A) :
  rmap h r1 = rmap h r2 ->
  (exists a1 a2, r1 = Ok a1 /\ r2 = Ok a2 /\ h a1 = h a2) \/
  (r1 = r2 /\ forall a, r1 <> Ok a).
Proof.
  destruct r1 as [a1|e1|], r2 as [a2|e2|]; simpl; intros H;
    try discriminate.
  - injection H as H. left. eauto.
  - injection H as ->. right. split; [reflexivity | discriminate].
  - right. split; [reflexivity | discriminate].
Qed.

Lemma bind_not_Ok {A B : Type} (r : result A) (k1 k2 : A -> result B) :
  (forall a, r <> Ok a) -> r ≫= k1 = r ≫= k2.
Proof.
  intros H. destruct r as [a| |]; [|reflexivity|reflexivity].
  exfalso. apply (H a). reflexivity.
Qed.

(** A first rift period of a single one reads neither [DTBEGX] nor [DTBEGY],
    and the rift periods of a single one read neither the schedule of the
    later periods nor [GP2] and [GP3]. *)
Lemma sweep_body_single_rift (fuel : nat) (p : params) (d : dless) (c : consts)
  (BETA : R) (f : forcing) (st : store) :
  IRIFT p = 1%Z ->
  sweep_body fuel p d c BETA f st
  = sweep_body fuel p (forget_dless d) (forget_consts c) BETA f st.
Proof. intros HR. unfold sweep_body. rewrite HR. reflexivity. Qed.

Lemma sweep_single_rift (p : params) (d : dless) (c : consts) (fuel n : nat) :
  IRIFT p = 1%Z ->
  forall (BETA : R) (f : forcing) (st : store),
    sweep n fuel p d c BETA f st
    = sweep n fuel p (forget_dless d) (forget_consts c) BETA f st.
Proof.
  intros HR. induction n as [|n IH]; intros BETA f st; [reflexivity|].
  rewrite !sweep_unfold, <- sweep_body_single_rift by exact HR.
  destruct (sweep_body fuel p d c BETA f st) as [[f1 st1]| |];
    try reflexivity.
  cbn [mbind result_bind fst snd]. case_decide; [|reflexivity].
  destruct (sentinel st1) as [st2| |]; try reflexivity.
  cbn [mbind result_bind]. apply IH.
Qed.

(** In the regimes 1 to 4 [set_dless_constants] assigns [GP1] without reading
    it. *)
Lemma set_dless_constants_GP1 (fuel : nat) (p : params) (d : dless) (BETA : R)
  (f : forcing) (g : R) :
  (1 <= ITYPE1 p <= 4)%Z ->
  set_dless_constants fuel p d BETA f
  = set_dless_constants fuel p d BETA
      {| GP1 := g; AMPL := AMPL f; WAVEN := WAVEN f |}.
Proof.
  intros HI. unfold set_dless_constants.
  repeat (case_decide; [reflexivity|]). lia.
Qed.

Lemma sweep_GP1 (p : params) (d : dless) (c : consts) (fuel n : nat)
  (BETA : R) (f : forcing) (st : store) (g : R) :
  (1 <= ITYPE1 p <= 4)%Z ->
  sweep n fuel p d c BETA f st
  = sweep n fuel p d c BETA {| GP1 := g; AMPL := AMPL f; WAVEN := WAVEN f |} st.
Proof.
  intros HI. destruct n as [|n]; [reflexivity|].
  rewrite !sweep_unfold. unfold sweep_body.
  rewrite (set_dless_constants_GP1 fuel p d BETA f g HI). reflexivity.
Qed.

Lemma nondimensionalise_single_rift (p : params) (TL : R) (d1 d2 : dless) :
  IRIFT p = 1%Z ->
  rmap forget_dless (nondimensionalise_parameters p TL d1)
  = rmap forget_dless (nondimensionalise_parameters p TL d2).
Proof.
  intros HR. unfold nondimensionalise_parameters. rewrite HR.
  cbv zeta. case_decide; reflexivity.
Qed.

Lemma setup_constants_single_rift (p : params) (TL : R) (d1 d2 : dless)
  (c1 c2 : consts) :
  IRIFT p = 1%Z -> (ICOMP p <> 0 \/ 0 <= ILOAD p <= 2)%Z ->
  rmap forget_consts (setup_constants p TL d1 c1)
  = rmap forget_consts (setup_constants p TL d2 c2).
Proof.
  intros HR HL. unfold setup_constants. rewrite HR. cbv zeta.
  set (RHOA := RHOM * (1.0 - TEXPAN * TASTH)).
  assert (E : (if decide (ICOMP p = 0)%Z then
       if decide (ILOAD p = 2)%Z then
         b ← py_div ((RHOM - RHOC) * TC p) (RHOA - RHOS p);
         t ← py_div (TEXPAN * RHOM * TL * TASTH) (RHOA - RHOS p);
         Ok (b, t)
       else if decide (ILOAD p = 1)%Z then
         Ok (((RHOM - RHOC) * TC p) / (RHOA - RHOW),
             (TEXPAN * RHOM * TL * TASTH) / (RHOA - RHOW))
       else if decide (ILOAD p = 0)%Z then
         Ok (((RHOM - RHOC) * TC p) / RHOA,
             (TEXPAN * RHOM * TL * TASTH) / RHOA)
       else Ok (CONBET c1, CONTRM c1)
     else
       Ok (((RHOM - RHOC) * TC p) / RHOA,
           (TEXPAN * RHOM * TL * TASTH) / RHOA))
    = (if decide (ICOMP p = 0)%Z then
       if decide (ILOAD p = 2)%Z then
         b ← py_div ((RHOM - RHOC) * TC p) (RHOA - RHOS p);
         t ← py_div (TEXPAN * RHOM * TL * TASTH) (RHOA - RHOS p);
         Ok (b, t)
       else if decide (ILOAD p = 1)%Z then
         Ok (((RHOM - RHOC) * TC p) / (RHOA - RHOW),
             (TEXPAN * RHOM * TL * TASTH) / (RHOA - RHOW))
       else if decide (ILOAD p = 0)%Z then
         Ok (((RHOM - RHOC) * TC p) / RHOA,
             (TEXPAN * RHOM * TL * TASTH) / RHOA)
       else Ok (CONBET c2, CONTRM c2)
     else
       Ok (((RHOM - RHOC) * TC p) / RHOA,
           (TEXPAN * RHOM * TL * TASTH) / RHOA))).
  { destruct (decide (ICOMP p = 0)%Z); [|reflexivity].
    destruct (decide (ILOAD p = 2)%Z); [reflexivity|].
    destruct (decide (ILOAD p = 1)%Z); [reflexivity|].
    destruct (decide (ILOAD p = 0)%Z); [reflexivity|]. lia. }
  rewrite E.
  match goal with
  | |- rmap _ (?m ≫= _) = _ => destruct m as [[b t]| |]
  end; try reflexivity.
  cbn [mbind result_bind].
  destruct (py_div (RHOA - RHOW) (RHOA - RHOS p)) as [b1| |]; try reflexivity.
  cbn [mbind result_bind].
  destruct (py_div (RHOS p - RHOW) (RHOA - RHOS p)) as [b2| |];
    reflexivity.
Qed.

Lemma setup_constants_forget_dless (p : params) (TL : R) (d : dless)
  (c : consts) :
  IRIFT p = 1%Z ->
  setup_constants p TL d c = setup_constants p TL (forget_dless d) c.
Proof. intros HR. unfold setup_constants. rewrite HR. reflexivity. Qed.

Lemma finalise_forget (p : params) (g1 g2 : globals) :
  forget_later g1 = forget_later g2 ->
  rmap forget_later (finalise p g1) = rmap forget_later (finalise p g2).
Proof.
  unfold forget_later. destruct g1 as [TL1 d1 c1 f1 st1].
  destruct g2 as [TL2 d2 c2 f2 st2]. cbn [TL g_dless g_consts g_forcing g_store].
  intros H.
  pose proof (f_equal TL H) as HTL. pose proof (f_equal g_dless H) as Hd.
  pose proof (f_equal g_consts H) as Hc. pose proof (f_equal g_forcing H) as Hf.
  pose proof (f_equal g_store H) as Hst.
  cbn [TL g_dless g_consts g_forcing g_store] in HTL, Hd, Hc, Hf, Hst.
  subst TL2 f2 st2. clear H.
  assert (HT : TIMSC d1 = TIMSC d2)
    by (apply (f_equal TIMSC) in Hd; exact Hd).
  assert (HA : RHOA c1 = RHOA c2)
    by (apply (f_equal RHOA) in Hc; exact Hc).
  unfold finalise. cbn [TL g_dless g_consts g_forcing g_store]. cbv zeta.
  rewrite HT, HA.
  destruct (dimensionalise _ _ _ _) as [D| |]; try reflexivity.
  cbn [mbind result_bind].
  destruct (if decide (ICOMP p = 1)%Z then _ else _) as [D'| |];
    try reflexivity.
  simpl. unfold forget_later. simpl. rewrite Hd, Hc. reflexivity.
Qed.

Lemma solve_single_rift (p : params) (fuel : nat) (g1 g2 : globals) :
  IRIFT p = 1%Z -> (1 <= ITYPE1 p <= 4)%Z ->
  (ICOMP p <> 0 \/ 0 <= ILOAD p <= 2)%Z ->
  rmap forget_later (solve fuel p g1) = rmap forget_later (solve fuel p g2).
Proof.
  intros HR HI HL. unfold solve. cbv zeta.
  destruct (calculate_TL p) as [TL| |]; try reflexivity.
  cbn [mbind result_bind].
  destruct (rmap_eq _ _ _
              (nondimensionalise_single_rift p TL (g_dless g1) (g_dless g2) HR))
    as [(d1 & d2 & -> & -> & Hd)|[E Hn]].
  2:{ rewrite <- E. f_equal. apply bind_not_Ok, Hn. }
  cbn [mbind result_bind].
  rewrite (setup_constants_forget_dless p TL d1), (setup_constants_forget_dless p TL d2)
    by exact HR.
  rewrite Hd.
  destruct (rmap_eq _ _ _
              (setup_constants_single_rift p TL (forget_dless d2)
                 (forget_dless d2) (g_consts g1) (g_consts g2) HR HL))
    as [(c1 & c2 & -> & -> & Hc)|[E Hn]].
  2:{ rewrite <- E. f_equal. apply bind_not_Ok, Hn. }
  cbn [mbind result_bind].
  rewrite (sweep_GP1 p d1 c1 fuel fuel _ _ _ 0 HI).
  rewrite (sweep_GP1 p d2 c2 fuel fuel _ _ _ 0 HI).
  cbn [AMPL WAVEN].
  rewrite (sweep_single_rift p d1 c1 fuel fuel HR).
  rewrite (sweep_single_rift p d2 c2 fuel fuel HR).
  rewrite Hd, Hc.
  destruct (sweep fuel fuel p (forget_dless d2) (forget_consts c2) _ _ _)
    as [[f st]| |]; try reflexivity.
  simpl. unfold forget_later. simpl. rewrite Hd, Hc. reflexivity.
Qed.

(** X9.  A run of a single rift period in one of the regimes 1 to 4 (with a
    loading 0, 1 or 2, or with compaction) leaves the same lithospheric
    thickness, schedule of the first period, constants, forcing, table and
    buffers whatever the globals held before it: nothing of an earlier run
    leaks into the result, so the module can be run again and again.  Only the
    schedule of the later rift periods and [GP2], [GP3], which such a run
    neither reads nor writes, are carried over. *)
Theorem run_single_rift_forgets_earlier_runs (p : params) (fuel : nat)
  (g1 g2 : globals) :
  IRIFT p = 1%Z -> (1 <= ITYPE1 p <= 4)%Z ->
  (ICOMP p <> 0 \/ 0 <= ILOAD p <= 2)%Z ->
  rmap forget_later (solve fuel p g1) = rmap forget_later (solve fuel p g2) /\
  rmap forget_later (run fuel p g1) = rmap forget_later (run fuel p g2) /\
  rmap g_store (run fuel p g1) = rmap g_store (run fuel p g2).
Proof.
  intros HR HI HL.
  pose proof (solve_single_rift p fuel g1 g2 HR HI HL) as Hs.
  assert (Hrun : rmap forget_later (run fuel p g1)
                 = rmap forget_later (run fuel p g2)).
  { unfold run. destruct (check_cfg p) as [u| |]; try reflexivity.
    cbn [mbind result_bind].
    destruct (rmap_eq _ _ _ Hs) as [(ga & gb & -> & -> & Hg)|[E Hn]].
    2:{ rewrite <- E. reflexivity. }
    cbn [mbind result_bind]. apply finalise_forget, Hg. }
  split; [exact Hs|]. split; [exact Hrun|].
  destruct (rmap_eq _ _ _ Hrun) as [(ga & gb & -> & -> & Hg)|[E Hn]].
  - simpl. f_equal. apply (f_equal g_store) in Hg. exact Hg.
  - rewrite <- E. reflexivity.
Qed.

Lemma run_single_rift_forgets_earlier_runs_witness :
  rmap g_store (run 241 INITVR used_globals)
  = rmap g_store (run 241 INITVR globals0).
Proof.
  apply (run_single_rift_forgets_earlier_runs INITVR 241 used_globals globals0).
  - reflexivity.
  - simpl. lia.
  - right. simpl. lia.
Defined.

(** ** The schedule that check_cfg lets through *)

Lemma TIMSC_positive (TL : R) : TL <> 0 -> 0 < TL ^ 2 / (DIFFUS * 3.15e13).
Proof.
  intros H. assert (0 < TL ^ 2) by nra.
  apply Rdiv_lt_0_compat; [assumption | unfold DIFFUS; lra].
Qed.

(** X10.  What [check_cfg] buys.  For a configuration that passed
    [check_cfg] with at least one rift period, and a lithospheric thickness
    that is not zero, [nondimensionalise_parameters] returns a schedule with a
    positive time scale in which the first rift period begins at 0 and ends
    later, and every later active rift period ends after it begins; so the
    strain rate of regime 1, [ln(BETA1) / DTEND1], is computed for every
    [BETA1 > 0] without a division by zero, and has the sign of
    [ln(BETA1)]. *)
Theorem checked_schedule (p : params) (TL : R) (d0 : dless) :
  check_cfg p = Ok tt -> (IRIFT p >= 1)%Z -> TL <> 0 ->
  exists d,
    nondimensionalise_parameters p TL d0 = Ok d /\
    0 < TIMSC d /\ DTBEG1 d = 0 /\ 0 < DTEND1 d /\
    DTEND1 d * TIMSC d = TBEG1 p - TEND1 p /\
    ((IRIFT p >= 2)%Z -> DTBEG2 d < DTEND2 d) /\
    ((IRIFT p >= 3)%Z -> DTBEG3 d < DTEND3 d) /\
    (ITYPE1 p = 1%Z ->
     forall fuel BETA1 f, 0 < BETA1 ->
       set_dless_constants fuel p d BETA1 f
       = Ok {| GP1 := ln BETA1 / DTEND1 d; AMPL := AMPL f; WAVEN := WAVEN f |}
       /\ (1 < BETA1 -> 0 < ln BETA1 / DTEND1 d)).
Proof.
  intros Hchk HR HTL.
  assert (Hord : ordered p).
  { destruct (decide (violated p)) as [Hv|Hv].
    - rewrite (check_cfg_violated p Hv) in Hchk. discriminate.
    - unfold violated, ordered in *.
      repeat split; intros Hi; apply Rnot_le_gt; intros Hle; apply Hv; auto. }
  destruct Hord as (H1 & H2 & H3). specialize (H1 HR).
  destruct (nondimensionalise_Ok p TL d0 HTL)
    as (d & Hd & HTS & E1 & E2 & E3 & _).
  pose proof (TIMSC_positive TL HTL) as Hpos. rewrite <- HTS in Hpos.
  destruct (E1 HR) as [Eb1 Ee1].
  assert (Hend : 0 < DTEND1 d)
    by (rewrite Ee1; apply Rdiv_lt_0_compat; lra).
  exists d. split; [exact Hd|]. split; [exact Hpos|]. split; [exact Eb1|].
  split; [exact Hend|]. split; [rewrite Ee1; field; lra|].
  split; [|split].
  - intros Hi. destruct (E2 Hi) as [-> ->]. specialize (H2 Hi).
    unfold Rdiv. apply Rmult_lt_compat_r; [apply Rinv_0_lt_compat, Hpos | lra].
  - intros Hi. destruct (E3 Hi) as [-> ->]. specialize (H3 Hi).
    unfold Rdiv. apply Rmult_lt_compat_r; [apply Rinv_0_lt_compat, Hpos | lra].
  - intros HI fuel BETA1 f HB. split.
    + apply set_dless_constants_regime1; [exact HI | exact HB | lra].
    + intros HB1. apply Rdiv_lt_0_compat; [|exact Hend].
      rewrite <- ln_1. apply ln_increasing; lra.
Qed.

Lemma checked_schedule_witness :
  exists d, nondimensionalise_parameters INITVR 125000 dless0 = Ok d /\
            0 < DTEND1 d.
Proof.
  destruct (checked_schedule INITVR 125000 dless0
              (check_cfg_ordered INITVR INITVR_ordered)
              ltac:(simpl; lia) ltac:(lra))
    as (d & Hd & _ & _ & He & _).
  exists d. split; [exact Hd | exact He].
Defined.

(** ** A configuration without a rift period *)

Lemma check_cfg_no_rift (p : params) : (IRIFT p < 1)%Z -> check_cfg p = Ok tt.
Proof.
  intros H. unfold check_cfg. rewrite !decide_False by lia. reflexivity.
Qed.

Lemma calculate_TL_thick (p : params) :
  17400 <= TC p -> exists TL, calculate_TL p = Ok TL /\ TC p < TL.
Proof.
  intros H. eexists. split.
  - apply calculate_TL_above; [apply solve_TL_thick; lra|].
    pose proof (thick_root_above (TC p) H). lra.
  - apply thick_root_above, H.
Qed.

Lemma setup_constants_no_later_rift (p : params) (TL : R) (d : dless)
  (c : consts) :
  (IRIFT p < 2)%Z -> RHOS p <> RHOA_value ->
  exists c', setup_constants p TL d c = Ok c'.
Proof.
  intros HR HS. unfold setup_constants. cbv zeta.
  assert (Hne : RHOM * (1.0 - TEXPAN * TASTH) - RHOS p <> 0)
    by (unfold RHOA_value in HS; lra).
  rewrite !(py_div_nonzero _ _ Hne).
  rewrite (decide_False (P := (IRIFT p >= 2)%Z)) by lia.
  rewrite (decide_False (P := (IRIFT p >= 3)%Z)) by lia.
  repeat case_decide; simpl; eauto.
Qed.

(** X11.  [check_cfg] lets a configuration with [IRIFT <= 0] through, and on
    a freshly loaded module [run] then stops in the first pass of the sweep:
    the schedule of the first rift period is never set, [DTEND1] is still 0.0,
    and in each of the regimes 1 to 4 the strain rate [GP1] divides by zero.
    (Stated for a crust of 17.4 km or more, a sweep that starts at a positive
    beta and sediments that are not exactly as dense as the asthenosphere, so
    that the steps before the sweep succeed.) *)
Theorem run_without_rift_period (p : params) (fuel : nat) :
  (IRIFT p < 1)%Z -> (1 <= ITYPE1 p <= 4)%Z -> 0 < BETMIN p ->
  17400 <= TC p -> RHOS p <> RHOA_value -> (1 <= fuel)%nat ->
  check_cfg p = Ok tt /\ run fuel p globals0 = Raise ZeroDivisionError.
Proof.
  intros HR HI HB HTC HS Hfuel.
  pose proof (check_cfg_no_rift p HR) as Hchk. split; [exact Hchk|].
  destruct (calculate_TL_thick p HTC) as (TL & HTL & Hlt).
  assert (HTL0 : TL <> 0) by lra.
  pose proof (TIMSC_positive TL HTL0) as Hpos.
  set (TS := TL ^ 2 / (DIFFUS * 3.15e13)) in *.
  set (d := {| TIMSC := TS; DTBEG1 := 0; DTEND1 := 0; DTBEG2 := 0;
               DTEND2 := 0; DTBEG3 := 0; DTEND3 := 0;
               DTSTOP := dimensionless TS (TBEG1 p) (TSTOP p);
               DTST := 1 / TS; DTAUS := TAUS / TS |}).
  assert (Hd : nondimensionalise_parameters p TL dless0 = Ok d).
  { unfold nondimensionalise_parameters. fold TS. cbv zeta.
    rewrite decide_False by lra. rewrite !decide_False by lia. reflexivity. }
  destruct (setup_constants_no_later_rift p TL d consts0 ltac:(lia) HS)
    as [c Hc].
  assert (Haus : DTAUS d <> 0).
  { simpl. unfold TAUS. assert (0 < 43.28 / TS)
      by (apply Rdiv_lt_0_compat; lra). lra. }
  assert (Hset : forall f, set_dless_constants fuel p d (BETMIN p) f
                           = Raise ZeroDivisionError).
  { intros f. unfold set_dless_constants, py_log.
    rewrite (decide_False (P := BETMIN p <= 0)) by lra.
    cbn [mbind result_bind DTEND1 d].
    assert (Hq1 : - 0 / DTAUS d = 0) by (unfold Rdiv; lra).
    assert (Hq2 : 0 / DTAUS d = 0) by (unfold Rdiv; lra).
    destruct (decide (ITYPE1 p = 1)%Z).
    { unfold py_div. rewrite decide_True by reflexivity. reflexivity. }
    destruct (decide (ITYPE1 p = 2)%Z).
    { rewrite (py_div_nonzero _ _ Haus). cbn [mbind result_bind].
      rewrite Hq1, exp_0. unfold py_div. rewrite decide_True by lra.
      reflexivity. }
    destruct (decide (ITYPE1 p = 3)%Z).
    { rewrite (py_div_nonzero _ _ Haus). cbn [mbind result_bind].
      rewrite Hq2, exp_0. unfold py_div. rewrite decide_True by lra.
      reflexivity. }
    destruct (decide (ITYPE1 p = 4)%Z); [|lia].
    unfold py_div. rewrite decide_True by reflexivity. reflexivity. }
  unfold run. rewrite Hchk. cbn [mbind result_bind].
  unfold solve. cbv zeta. rewrite HTL. cbn [mbind result_bind].
  change (g_dless globals0) with dless0.
  change (g_consts globals0) with consts0.
  rewrite Hd. cbn [mbind result_bind]. rewrite Hc. cbn [mbind result_bind].
  destruct fuel as [|fuel']; [lia|].
  rewrite sweep_unfold. unfold sweep_body. cbv zeta. rewrite Hset.
  reflexivity.
Qed.

Lemma run_without_rift_period_witness :
  run 1 (with_IRIFT 0 INITVR) globals0 = Raise ZeroDivisionError.
Proof.
  pose proof RHOA_value_bounds as Ha.
  apply (run_without_rift_period (with_IRIFT 0 INITVR) 1).
  - simpl. lia.
  - simpl. lia.
  - simpl. lra.
  - simpl. lra.
  - simpl. lra.
  - lia.
Defined.

(** ** The rows a solver run adds to the table *)

Section Rows.

Variables (AMPL WAVEN : R).
Variables (G DTEND DTSTOP DTAUS CONBET CONTRM DTBEGX DTBEGY DTST : R).
Variables (ITYPE IHFLW : Z) (KRR : nat) (IRIFT : Z).
Variables (BETA1 CONB1 CONB2 : R).

Local Abbreviation record_row' :=
  (record_row AMPL WAVEN G DTEND DTAUS CONBET CONTRM DTBEGX ITYPE IHFLW KRR
     IRIFT BETA1 CONB1 CONB2).
Local Abbreviation loop_body' :=
  (loop_body AMPL WAVEN G DTEND DTSTOP DTAUS CONBET CONTRM DTBEGX DTBEGY DTST
     ITYPE IHFLW KRR IRIFT BETA1 CONB1 CONB2).
Local Abbreviation TIMSTR_loop' :=
  (TIMSTR_loop AMPL WAVEN G DTEND DTSTOP DTAUS CONBET CONTRM DTBEGX DTBEGY DTST
     ITYPE IHFLW KRR IRIFT BETA1 CONB1 CONB2).
Local Abbreviation TIMSTR' :=
  (TIMSTR AMPL WAVEN G DTEND DTSTOP DTAUS CONBET CONTRM DTBEGX DTBEGY DTST
     ITYPE IHFLW KRR IRIFT BETA1 CONB1 CONB2).

(** The new row holds the time of the step. *)
Lemma record_row_time (l : locals) (st st' : store) :
  record_row' l st = Ok st' -> fget (DATA st') 0 (K st) = Ok (T l).
Proof.
  unfold record_row. intros H.
  bind_inv H as D0 HD0. bind_inv H as st1 Hsub.
  apply SUBCAL_Ok in Hsub as (HK1 & HT1 & HF1 & _).
  simpl in HK1, HT1, HF1, HD0.
  replace (K st + 1 - 1)%nat with (K st) in * by lia.
  assert (H0 : aget (DATA st1) 0 (K st) = Ok (Some (T l))).
  { rewrite HF1 by (left; lia). apply (aget_aset_eq _ _ _ _ _ HD0). }
  apply fget_Ok.
  destruct (decide (IHFLW = 1)%Z); [|injection H as <-; exact H0].
  bind_inv H as x Hx. bind_inv H as D2 HD2. rewrite HK1 in *.
  assert (H2 : aget D2 0 (K st) = Ok (Some (T l))).
  { rewrite (aget_aset_ne _ _ _ _ _ _ _ HD2) by (left; lia). exact H0. }
  destruct (decide (IADV l = 0)%Z).
  { bind_inv H as D3 HD3. injection H as <-. simpl.
    rewrite (aget_aset_ne _ _ _ _ _ _ _ HD3) by (left; lia). exact H2. }
  destruct (decide (IADV l = 1)%Z); [|injection H as <-; exact H2].
  bind_inv H as sr Hsr. destruct sr as [sr|]; [|injection H as <-; exact H2].
  bind_inv H as D3 HD3. injection H as <-. simpl.
  rewrite (aget_aset_ne _ _ _ _ _ _ _ HD3) by (left; lia). exact H2.
Qed.

Lemma loop_body_rows (DTI : R) (l : locals) (st : store) (c : control) :
  loop_body' DTI l st = Ok c ->
  forall i, (K st <= i < K (store_of c))%nat ->
            exists t, fget (DATA (store_of c)) 0 i = Ok t.
Proof.
  unfold loop_body. intros H i Hi.
  bind_inv H as ls Hadv. destruct ls as [l1 st1].
  bind_inv H as t0 Ht0. bind_inv H as st2 Hrec.
  apply advance_frame in Hadv as (HK & HD & _).
  apply next_step_store in H. rewrite H in *.
  case_decide.
  - pose proof (record_row_time _ _ _ Hrec) as Ht.
    apply record_row_frame in Hrec as (HK2 & _).
    rewrite HK in *. replace i with (K st) by lia. eauto.
  - injection Hrec as <-. lia.
Qed.

Lemma TIMSTR_loop_rows (DTI : R) (fuel : nat) :
  forall (l : locals) (st st' : store),
    TIMSTR_loop' fuel DTI l st = Ok st' ->
    forall i, (K st <= i < K st')%nat ->
              exists t, fget (DATA st') 0 i = Ok t.
Proof.
  induction fuel as [|fuel IH]; intros l st st' H i Hi; simpl in H;
    [discriminate|].
  bind_inv H as c Hc.
  pose proof (loop_body_rows _ _ _ _ Hc) as Hrows.
  destruct c as [l1 st1|st1]; simpl in *.
  - destruct (decide (i < K st1)%nat) as [Hlt|Hge].
    + apply TIMSTR_loop_frame in H as (_ & HD & _).
      unfold fget. rewrite HD by exact Hlt. apply Hrows. lia.
    + apply (IH _ _ _ H). lia.
  - injection H as <-. apply Hrows, Hi.
Qed.

(** X12.  A solver run appends rows.  Whatever the regime and the rift
    period, a call of [TIMSTR] that returns has not lowered the row counter
    [K], has left every row before the row [K] it was entered with as it was
    (the row [K] itself too when the rift period is not the first one, which
    alone starts by writing that row), and has put a time in every row it
    added. *)
Theorem TIMSTR_appends_rows (fuel : nat) (st st' : store) :
  (1 <= K st)%nat ->
  TIMSTR' fuel st = Ok st' ->
  (K st <= K st')%nat /\
  (forall r i, (i + 1 < K st)%nat ->
               aget (DATA st') r i = aget (DATA st) r i) /\
  (KRR <> 0%nat ->
   forall r i, (i < K st)%nat -> aget (DATA st') r i = aget (DATA st) r i) /\
  (KRR = 0%nat -> fget (DATA st') 0 (K st - 1) = Ok 0) /\
  (forall i, (K st <= i < K st')%nat -> exists t, fget (DATA st') 0 i = Ok t).
Proof.
  intros HK H. unfold TIMSTR in H.
  bind_split H as DTI HDTI. cbv zeta in H.
  bind_split H as st1 H1. bind_split H as st2 H2.
  assert (E2 : K st2 = K st1 /\ DATA st2 = DATA st1).
  { destruct (decide (KRR = 0%nat)).
    - bind_split H2 as A HA. injection H2 as <-. auto.
    - injection H2 as <-. auto. }
  destruct E2 as [EK2 ED2].
  pose proof (first_row_frame _ _ _ _ _ _ _ _ _ _ _ H1) as (EK1 & _ & EF1).
  pose proof (TIMSTR_loop_rows _ _ _ _ _ H) as Hrows.
  pose proof (TIMSTR_loop_frame _ _ _ _ _ _ _ _ _ _ _ _ _ _ _ _ _ _ _ _ _ _ _ H)
    as (HKle & HFl & _).
  rewrite EK2, EK1 in *. rewrite ED2 in HFl.
  split; [exact HKle|]. split; [|split; [|split; [|exact Hrows]]].
  - intros r i Hi. rewrite HFl by lia. apply EF1. lia.
  - intros HKRR r i Hi. rewrite HFl by exact Hi.
    unfold first_row in H1. rewrite !decide_False in H1 by exact HKRR.
    simpl in H1.
    repeat case_decide; try contradiction; injection H1 as <-; reflexivity.
  - intros HKRR. unfold fget. rewrite HFl by lia.
    unfold first_row in H1. rewrite !decide_True in H1 by exact HKRR.
    bind_inv H1 as st0 H0. bind_inv H0 as D0 HD0. bind_inv H0 as D1 HD1.
    injection H0 as <-. simpl in H1.
    assert (Hz : aget D1 0 (K st - 1) = Ok (Some 0)).
    { rewrite (aget_aset_ne _ _ _ _ _ _ _ HD1) by (left; lia).
      apply (aget_aset_eq _ _ _ _ _ HD0). }
    destruct (decide (IHFLW = 1)%Z).
    2:{ injection H1 as <-. simpl. rewrite Hz. reflexivity. }
    destruct (decide (KRR = 0%nat)); [|contradiction].
    bind_inv H1 as D2 HD2. bind_inv H1 as sr Hsr.
    assert (Hz2 : aget D2 0 (K st - 1) = Ok (Some 0)).
    { rewrite (aget_aset_ne _ _ _ _ _ _ _ HD2) by (left; lia). exact Hz. }
    destruct sr as [sr|].
    + bind_inv H1 as D3 HD3. injection H1 as <-. simpl.
      rewrite (aget_aset_ne _ _ _ _ _ _ _ HD3) by (left; lia).
      rewrite Hz2. reflexivity.
    + injection H1 as <-. simpl. rewrite Hz2. reflexivity.
Qed.

End Rows.

Lemma TIMSTR_appends_rows_witness :
  exists st',
    TIMSTR 1 1 1 0.002 0.004 1 1 1 0 0 1 1 1 0 1 1.5 1 1 6 initial_store
    = Ok st' /\
    fget (DATA st') 0 0 = Ok 0.
Proof.
  destruct short_run as [st' H]. exists st'.
  pose proof (H 6%nat ltac:(lia)) as Hrun. split; [exact Hrun|].
  destruct (TIMSTR_appends_rows _ _ _ _ _ _ _ _ _ _ _ _ _ _ _ _ _ _
              6%nat initial_store st' ltac:(simpl; lia) Hrun)
    as (_ & _ & _ & H0 & _).
  apply (H0 eq_refl).
Defined.

(** ** The discrete maximum principle *)

(** The explicit update is a convex combination of the three temperatures it
    reads when the step is within the conductive limit and the strain rate is
    at most [2 / DZ]. *)
Lemma update_between (lo hi a b c DT g depth : R) :
  lo <= a <= hi -> lo <= b <= hi -> lo <= c <= hi ->
  0 <= DT <= DTC -> 0 <= g <= 2 / DZ -> 0 <= depth <= 1 ->
  lo <= b + DT * ((a - 2 * b + c) / DZ ^ 2 - (g * depth * (a - c)) / (2 * DZ))
     <= hi.
Proof.
  unfold DTC, DZ. replace 0.05 with (/ 20) by lra.
  intros Ha Hb Hc HDT Hg Hd.
  assert (Hg' : 0 <= g <= 40) by lra.
  assert (Hgd : 0 <= g * depth <= 40) by nra.
  set (m := g * depth) in *.
  assert (H1 : 0 <= 1 - 800 * DT) by lra.
  assert (H2 : 0 <= DT * (400 - 10 * m)) by nra.
  assert (H3 : 0 <= DT * (400 + 10 * m)) by nra.
  replace (b + DT * ((a - 2 * b + c) / (/ 20) ^ 2 - m * (a - c) / (2 * / 20)))
    with (b * (1 - 800 * DT) + a * (DT * (400 - 10 * m))
          + c * (DT * (400 + 10 * m))) by field.
  set (p1 := 1 - 800 * DT) in *. set (p2 := DT * (400 - 10 * m)) in *.
  set (p3 := DT * (400 + 10 * m)) in *.
  assert (Hsum : p1 + p2 + p3 = 1) by (unfold p1, p2, p3; ring).
  split; nra.
Qed.

Lemma node_depth (J : nat) :
  (2 <= J <= JN)%nat -> 0 <= 1 - INR (J - 1) * DZ <= 1.
Proof.
  intros HJ. unfold JN in HJ.
  assert (H1 : 1 <= INR (J - 1)).
  { change 1 with (INR 1). apply le_INR. lia. }
  assert (H2 : INR (J - 1) <= 19).
  { replace 19 with (INR 19) by (simpl; lra). apply le_INR. lia. }
  unfold DZ. lra.
Qed.

Section Maximum_principle.

Variables (AMPL WAVEN : R).
Variables (G DTEND DTSTOP DTAUS CONBET CONTRM DTBEGX DTBEGY DTST : R).
Variables (IHFLW : Z) (KRR : nat) (IRIFT : Z).
Variables (BETA1 CONB1 CONB2 : R).
Variables (lo hi : R).

Hypothesis HG : 0 <= G <= 2 / DZ.

Local Abbreviation node_update' :=
  (node_update AMPL WAVEN G DTEND DTAUS DTBEGX 1 KRR).
Local Abbreviation for_nodes' :=
  (for_nodes AMPL WAVEN G DTEND DTAUS DTBEGX 1 KRR).
Local Abbreviation advance' := (advance AMPL WAVEN G DTEND DTAUS DTBEGX 1 KRR).
Local Abbreviation loop_body' :=
  (loop_body AMPL WAVEN G DTEND DTSTOP DTAUS CONBET CONTRM DTBEGX DTBEGY DTST
     1 IHFLW KRR IRIFT BETA1 CONB1 CONB2).

Lemma bounded_aset (A A' : array) (r i : nat) (v : R) :
  aset A r i (Some v) = Ok A' -> lo <= v <= hi ->
  bounded_TEM lo hi A -> bounded_TEM lo hi A'.
Proof.
  intros HA Hv HB r' j Hr Hj. unfold fget.
  rewrite (aget_aset _ _ _ _ r' j _ HA). case_decide.
  - exists v. split; [reflexivity | exact Hv].
  - apply HB; assumption.
Qed.

Lemma node_update_bounded (l : locals) (A A' : array) (J : nat) :
  ping_pong l -> 0 <= DT l <= DTC -> (2 <= J <= JN)%nat ->
  bounded_TEM lo hi A ->
  node_update' l A J = Ok A' -> bounded_TEM lo hi A'.
Proof.
  intros Hpp HDT HJ HB H. unfold node_update in H.
  assert (Hr : (JGI l - 1 < 2)%nat) by (destruct Hpp as [[-> _]|[-> _]]; lia).
  unfold JN, JNP1 in *.
  destruct (HB _ J Hr ltac:(unfold JNP1, JN; lia)) as (a & Ha & Hab).
  destruct (HB _ (J - 1)%nat Hr ltac:(unfold JNP1, JN; lia)) as (b & Hb & Hbb).
  destruct (HB _ (J - 2)%nat Hr ltac:(unfold JNP1, JN; lia)) as (c & Hc & Hcb).
  rewrite Ha, Hb, Hc in H. cbn [mbind result_bind] in H.
  bind_split H as ADV HADV.
  apply (bounded_aset _ _ _ _ _ H); [|exact HB].
  unfold advection in HADV.
  destruct (decide (IADV l = 1 /\ 1 = 1)%Z) as [HI|HI].
  - rewrite Ha, Hc in HADV. cbn [mbind result_bind] in HADV.
    injection HADV as <-.
    apply update_between; try assumption.
    apply node_depth. unfold JN. exact HJ.
  - rewrite !decide_False in HADV by (intros [? ?]; lia).
    injection HADV as <-.
    replace (b + DT l * ((a - 2 * b + c) / DZ ^ 2 - 0))
      with (b + DT l * ((a - 2 * b + c) / DZ ^ 2
                        - (0 * 0 * (a - c)) / (2 * DZ)))
      by (unfold DZ; replace 0.05 with (/ 20) by lra; field).
    apply update_between; try assumption; unfold DZ; lra.
Qed.

Lemma for_nodes_bounded (l : locals) (Js : list nat) :
  ping_pong l -> 0 <= DT l <= DTC -> Forall (fun J => 2 <= J <= JN)%nat Js ->
  forall A A', bounded_TEM lo hi A ->
    for_nodes' l A Js = Ok A' -> bounded_TEM lo hi A'.
Proof.
  intros Hpp HDT. induction Js as [|J Js IH]; intros HJs A A' HB H;
    cbn [for_nodes] in H.
  - injection H as <-. exact HB.
  - apply Forall_cons in HJs as [HJ HJs]. bind_split H as A1 H1.
    apply (IH HJs A1 A'); [|exact H].
    apply (node_update_bounded l A A1 J Hpp HDT HJ HB H1).
Qed.

Lemma advance_bounded (DTI : R) (l l' : locals) (st st' : store) :
  ping_pong l -> 0 <= DT l <= DTC -> bounded_TEM lo hi (TEM st) ->
  advance' DTI l st = Ok (l', st') -> bounded_TEM lo hi (TEM st').
Proof.
  intros Hpp HDT HB H. unfold advance in H. bind_split H as A HA.
  assert (E : st' = set_TEM A st).
  { destruct (decide (JGI l = 1%nat)); [|destruct (decide (JGI l = 2%nat))];
      injection H as _ <-; reflexivity. }
  subst st'. simpl.
  apply (for_nodes_bounded l (seq 2 (JN - 1)) Hpp HDT) with (A := TEM st);
    [|exact HB | exact HA].
  apply Forall_forall. intros J HJ. apply elem_of_seq in HJ.
  unfold JN in *. lia.
Qed.

Lemma loop_body_bounded (DTI : R) (l : locals) (st : store) (c : control) :
  ping_pong l -> 0 <= DT l <= DTC -> bounded_TEM lo hi (TEM st) ->
  loop_body' DTI l st = Ok c ->
  bounded_TEM lo hi (TEM (store_of c)).
Proof.
  intros Hpp HDT HB H. unfold loop_body in H.
  bind_split H as ls Hadv. destruct ls as [l1 st1].
  bind_split H as t0 Ht0. bind_split H as st2 Hrec.
  apply next_step_store in H. rewrite H.
  pose proof (advance_bounded DTI l l1 st st1 Hpp HDT HB Hadv) as HB1.
  case_decide.
  - apply record_row_frame in Hrec as (_ & -> & _). exact HB1.
  - injection Hrec as <-. exact HB1.
Qed.

Lemma advance_control (DTI : R) (l l' : locals) (st st' : store) :
  ping_pong l -> advance' DTI l st = Ok (l', st') ->
  T l' = T l + DT l /\ DT l' = DTI /\ JFLAG l' = JFLAG l /\ IADV l' = IADV l /\
  ping_pong l'.
Proof.
  intros Hpp H. unfold advance in H. bind_split H as A HA.
  destruct Hpp as [[E1 E2]|[E1 E2]]; rewrite E1 in H; simpl in H;
    injection H as <- _; simpl; repeat (split; [reflexivity|]);
    [right | left]; split; reflexivity.
Qed.

Variable DTI : R.
Hypothesis HDTI : 0 < DTI.
Local Abbreviation DTHALT' := (DTHALT DTSTOP DTBEGX DTBEGY KRR IRIFT).
Hypothesis Hhalt : DTEND <= DTHALT'.

Lemma next_step_control (l1 l' : locals) (st st' : store) :
  DT l1 = DTI -> ping_pong l1 ->
  ((JFLAG l1 = 0%Z /\ IADV l1 = 1%Z /\ T l1 <= DTEND) \/
   (JFLAG l1 = 1%Z /\ (IADV l1 = 0%Z \/ IADV l1 = 1%Z) /\
    DTEND <= T l1 <= DTHALT') \/
   (JFLAG l1 = 2%Z /\ (IADV l1 = 0%Z \/ IADV l1 = 1%Z) /\ T l1 = DTHALT')) ->
  next_step DTEND DTSTOP DTBEGX DTBEGY KRR IRIFT l1 st = Ok (Continue l' st') ->
  ctl_inv DTEND DTHALT' l' /\ DT l' <= DTI.
Proof.
  intros HDT Hpp Hctl H. unfold next_step in H. rewrite HDT in H.
  destruct (decide (T l1 + DTI <= DTEND)) as [Ha|Ha].
  { injection H as <- _.
    destruct Hctl as [(HJ & HI & HT)|[(HJ & HI & HT)|(HJ & HI & HT)]];
      try (exfalso; lra).
    unfold ctl_inv. rewrite HDT.
    split; [|lra]. split; [lra|]. split; [exact Hpp|]. left. auto. }
  destruct Hctl as [(HJ & HI & HT)|[(HJ & HI & HT)|(HJ & HI & HT)]].
  - rewrite decide_True in H by (split; [lra | exact HJ]).
    injection H as <- _. unfold ctl_inv. simpl.
    split; [|lra]. split; [lra|]. split; [exact Hpp|].
    right. left. split; [reflexivity|]. split; [right; exact HI | lra].
  - rewrite decide_False in H by (intros [_ E]; rewrite HJ in E; discriminate).
    destruct (decide (T l1 + DTI < DTHALT')) as [Hc|Hc].
    + rewrite decide_True in H by (split; [exact Hc | exact HJ]).
      injection H as <- _. unfold ctl_inv. simpl. rewrite HDT.
      split; [|lra]. split; [lra|]. split; [exact Hpp|].
      right. left. split; [exact HJ|]. split; [left; reflexivity | lra].
    + rewrite decide_False in H by (intros [E _]; lra).
      rewrite decide_True in H by (split; [lra | rewrite HJ; discriminate]).
      cbv zeta in H. simpl DT in H.
      destruct (decide (DTHALT' - T l1 <> 0)); [|discriminate].
      injection H as <- _. unfold ctl_inv. simpl.
      split; [|lra]. split; [lra|]. split; [exact Hpp|].
      right. right. split; [reflexivity|]. split; [exact HI | lra].
  - rewrite decide_False in H by (intros [_ E]; rewrite HJ in E; discriminate).
    rewrite decide_False in H by (intros [_ E]; rewrite HJ in E; discriminate).
    rewrite decide_False in H by (intros [_ E]; apply E; exact HJ).
    rewrite decide_True in H by exact HJ.
    destruct (decide (IRIFT > 1)%Z); [bind_split H as x Hx|]; discriminate.
Qed.

Lemma loop_body_control (l l' : locals) (st st' : store) :
  ctl_inv DTEND DTHALT' l ->
  loop_body' DTI l st = Ok (Continue l' st') ->
  ctl_inv DTEND DTHALT' l' /\ DT l' <= DTI.
Proof.
  intros (HDT & Hpp & Hctl) H. unfold loop_body in H.
  bind_split H as ls Hadv. destruct ls as [l1 st1].
  bind_split H as t0 Ht0. bind_split H as st2 Hrec.
  destruct (advance_control DTI l l1 st st1 Hpp Hadv)
    as (HT1 & HDT1 & HJ1 & HI1 & Hpp1).
  apply (next_step_control l1 l' st2 st' HDT1 Hpp1); [|exact H].
  rewrite HJ1, HI1, HT1. exact Hctl.
Qed.

Hypothesis HDTC : DTI <= DTC.

Lemma TIMSTR_loop_bounded (fuel : nat) :
  forall (l : locals) (st st' : store),
    ctl_inv DTEND DTHALT' l -> DT l <= DTI -> bounded_TEM lo hi (TEM st) ->
    TIMSTR_loop AMPL WAVEN G DTEND DTSTOP DTAUS CONBET CONTRM DTBEGX DTBEGY
      DTST 1 IHFLW KRR IRIFT BETA1 CONB1 CONB2 fuel DTI l st = Ok st' ->
    bounded_TEM lo hi (TEM st').
Proof.
  induction fuel as [|fuel IH]; intros l st st' Hctl HDT HB H;
    [discriminate|].
  cbn [TIMSTR_loop] in H. bind_split H as c Hc.
  assert (HDT' : 0 <= DT l <= DTC) by (destruct Hctl as (? & _); lra).
  pose proof (loop_body_bounded DTI l st c (proj1 (proj2 Hctl)) HDT' HB Hc)
    as HBc.
  destruct c as [l1 st1|st1]; simpl in HBc.
  - destruct (loop_body_control l l1 st st1 Hctl Hc) as [Hctl1 HDT1].
    apply (IH l1 st1 st' Hctl1 HDT1 HBc H).
  - injection H as <-. exact HBc.
Qed.

End Maximum_principle.

Lemma DTI_of_conductive (AMPL G DTST DTI : R) :
  DTI_of AMPL G DTST = Ok DTI -> DTI <= DTC.
Proof.
  unfold DTI_of. intros H. bind_split H as q Hq. injection H as <-.
  eapply Rle_trans; [apply Rmin_l | apply Rmin_l].
Qed.

Lemma init_TEM_bounded (A A' : array) :
  init_TEM 1 2 A (seq 1 JNP1) = Ok A' -> bounded_TEM 0 1 A'.
Proof.
  intros HA r j Hr Hj.
  assert (Hnd : NoDup (seq 1 JNP1)) by apply NoDup_seq.
  assert (Hpos : Forall (fun J => 1 <= J)%nat (seq 1 JNP1)).
  { apply Forall_forall. intros J HJ. apply elem_of_seq in HJ. lia. }
  destruct (init_TEM_cells 1 2 _ _ _ HA Hnd Hpos (S j)
              ltac:(apply elem_of_seq; lia)) as [Ha Hb].
  simpl in Ha, Hb. rewrite Nat.sub_0_r in *.
  assert (Hx : 0 <= 1 - DZ * INR j <= 1).
  { assert (H0 : 0 <= INR j) by apply pos_INR.
    assert (H1 : INR j <= 20).
    { replace 20 with (INR 20) by (simpl; lra). apply le_INR.
      unfold JNP1, JN in Hj. lia. }
    unfold DZ. lra. }
  exists (1 - DZ * INR j). split; [|exact Hx].
  assert (Er : r = 0%nat \/ r = 1%nat) by lia.
  destruct Er as [-> | ->]; apply fget_Ok; assumption.
Qed.

(** X13.  The discrete maximum principle of the finite-difference scheme, for
    a first rift period of regime 1 (constant strain rate) with a strain rate
    [0 <= G <= 2 / DZ], i.e. at most 40.  The solver run comes back, and
    every node of the two temperature buffers then holds a dimensionless
    temperature between 0 and 1: neither the advective steps of the
    stretching nor the conductive steps after it take a node below the
    surface temperature or above the temperature of the base.  ([n] steps
    [DTI] cover the halt time, the table has room for them, and the first
    step does not cross the end of the stretching.) *)
Theorem TIMSTR_maximum_principle
  (AMPL WAVEN G DTEND DTSTOP DTAUS CONBET CONTRM DTBEGX DTBEGY DTST : R)
  (IRIFT : Z) (BETA1 CONB1 CONB2 DTI : R) (n : nat) (st : store) :
  0 <= G <= 2 / DZ ->
  DTI_of AMPL G DTST = Ok DTI -> 0 < DTI -> DTI <= DTEND ->
  DTEND <= DTHALT DTSTOP DTBEGX DTBEGY 0 IRIFT ->
  DTHALT DTSTOP DTBEGX DTBEGY 0 IRIFT + DTI <= INR n * DTI ->
  cells NDIM2 (DATA st) -> cells NDIM2 (TEM st) ->
  (1 <= K st)%nat -> (K st + n < NDIM2)%nat ->
  exists st',
    (forall fuel, (n < fuel)%nat ->
       TIMSTR AMPL WAVEN G DTEND DTSTOP DTAUS CONBET CONTRM DTBEGX DTBEGY DTST
         1 1 0 IRIFT BETA1 CONB1 CONB2 fuel st = Ok st') /\
    bounded_TEM 0 1 (TEM st').
Proof.
  intros HG HDTIof HDTI HDTIend Hhalt Hn Hc HcT HK1 HKn.
  destruct (TIMSTR_first_period AMPL WAVEN G DTEND DTSTOP DTAUS CONBET CONTRM
              DTBEGX DTBEGY DTST 1 1 0 IRIFT BETA1 CONB1 CONB2
              eq_refl eq_refl (or_introl eq_refl) DTI HDTI Hhalt eq_refl
              n st HDTIof HDTIend Hn Hc HcT HK1 HKn) as (st' & Hrun & _).
  exists st'. split; [exact Hrun|].
  pose proof (Hrun (S n) ltac:(lia)) as H. unfold TIMSTR in H.
  rewrite HDTIof in H. cbn [mbind result_bind] in H. cbv zeta in H.
  rewrite !decide_True in H by reflexivity.
  bind_split H as st1 Hfr. bind_split H as st2 Hinit.
  bind_split Hinit as A HA. injection Hinit as <-.
  apply (TIMSTR_loop_bounded AMPL WAVEN G DTEND DTSTOP DTAUS CONBET CONTRM
           DTBEGX DTBEGY DTST 1 0 IRIFT BETA1 CONB1 CONB2 0 1 HG DTI HDTI
           Hhalt (DTI_of_conductive _ _ _ _ HDTIof) (S n) _ _ _) in H.
  - exact H.
  - unfold ctl_inv. simpl. split; [lra|]. split; [left; auto|].
    left. repeat split; lra.
  - simpl. lra.
  - simpl. apply (init_TEM_bounded _ _ HA).
Qed.

Lemma TIMSTR_maximum_principle_witness :
  exists st',
    TIMSTR 1 1 1 0.002 0.004 1 1 1 0 0 1 1 1 0 1 1.5 1 1 6 initial_store
    = Ok st' /\
    bounded_TEM 0 1 (TEM st').
Proof.
  assert (HDTI : DTI_of 1 1 1 = Ok 0.00125).
  { unfold DTI_of, py_div, GMAX, DTC, DZ.
    rewrite decide_False by lra. simpl. f_equal.
    unfold Rmin. repeat destruct (Rle_dec _ _); lra. }
  destruct initial_store_cells as [Hd Ht].
  destruct (TIMSTR_maximum_principle 1 1 1 0.002 0.004 1 1 1 0 0 1 1 1.5 1 1
              0.00125 5 initial_store
              ltac:(unfold DZ; lra) HDTI ltac:(lra) ltac:(lra)
              ltac:(rewrite DTHALT_single; lra)
              ltac:(rewrite DTHALT_single; simpl; lra) Hd Ht
              ltac:(simpl; lia) ltac:(unfold NDIM2; simpl; lia))
    as (st' & Hrun & HB).
  exists st'. split; [apply Hrun; lia | exact HB].
Defined.

(** ** WRITE and read_rift_subsidence_output *)

Lemma fill_cell_Ok (D : array) (r i : nat) (c : option R) :
  aget D r i = Ok c ->
  exists D',
    fill_cell D r i = Ok D' /\
    aget D' r i = Ok (Some (default (-999999) c)) /\
    forall r' i', (r' <> r \/ i' <> i) -> aget D' r' i' = aget D r' i'.
Proof.
  intros H. unfold fill_cell. rewrite H. cbn [mbind result_bind].
  destruct c as [x|].
  - exists D. split; [reflexivity|]. split; [exact H|]. reflexivity.
  - destruct (aget_aset_exists D r i None (Some (-999999)) H) as [D' HD'].
    exists D'. split; [exact HD'|]. split.
    + apply (aget_aset_eq _ _ _ _ _ HD').
    + intros r' i' Hne. apply (aget_aset_ne _ _ _ _ _ _ _ HD' Hne).
Qed.

Section Output_file.

Variable round4 : R -> R.

Local Abbreviation written' := (written round4).
Local Abbreviation data_line' := (data_line round4).
Local Abbreviation item_line' := (item_line round4).
Local Abbreviation in_metres' := (in_metres round4).

(** The row of the file for the row [i] of the table [D], given its four
    cells. *)
Lemma write_row_Ok (i : nat) (D : array) (file : list (list R))
  (c0 c1 c2 c3 : option R) :
  aget D 0 (i - 1) = Ok c0 -> aget D 1 (i - 1) = Ok c1 ->
  aget D 2 (i - 1) = Ok c2 -> aget D 3 (i - 1) = Ok c3 ->
  exists D',
    write_row round4 i (D, file)
    = Ok (D', file ++ [[written' c0; written' c1; written' c2; written' c3]]) /\
    aget D' 0 (i - 1) = Ok (Some (default (-999999) c0)) /\
    aget D' 1 (i - 1) = Ok (Some (default (-999999) c1)) /\
    aget D' 2 (i - 1) = Ok (Some (default (-999999) c2)) /\
    aget D' 3 (i - 1) = Ok (Some (default (-999999) c3)) /\
    forall r' i', (4 <= r' \/ i' <> i - 1)%nat ->
                  aget D' r' i' = aget D r' i'.
Proof.
  intros H0 H1 H2 H3.
  destruct (fill_cell_Ok D 0 (i - 1) c0 H0) as (D0 & HD0 & E0 & F0).
  destruct (fill_cell_Ok D0 1 (i - 1) c1) as (D1 & HD1 & E1 & F1).
  { rewrite F0 by (left; lia). exact H1. }
  destruct (fill_cell_Ok D1 2 (i - 1) c2) as (D2 & HD2 & E2 & F2).
  { rewrite F1, F0 by (left; lia). exact H2. }
  destruct (fill_cell_Ok D2 3 (i - 1) c3) as (D3 & HD3 & E3 & F3).
  { rewrite F2, F1, F0 by (left; lia). exact H3. }
  assert (G0 : aget D3 0 (i - 1) = Ok (Some (default (-999999) c0))).
  { rewrite F3, F2, F1 by (left; lia). exact E0. }
  assert (G1 : aget D3 1 (i - 1) = Ok (Some (default (-999999) c1))).
  { rewrite F3, F2 by (left; lia). exact E1. }
  assert (G2 : aget D3 2 (i - 1) = Ok (Some (default (-999999) c2))).
  { rewrite F3 by (left; lia). exact E2. }
  exists D3. split; [|repeat (split; [assumption|])].
  - unfold write_row. rewrite HD0. cbn [mbind result_bind].
    rewrite HD1. cbn [mbind result_bind]. rewrite HD2. cbn [mbind result_bind].
    rewrite HD3. cbn [mbind result_bind].
    apply fget_Ok in G0, G1, G2. apply fget_Ok in E3.
    rewrite G0. cbn [mbind result_bind]. rewrite G1. cbn [mbind result_bind].
    rewrite G2. cbn [mbind result_bind]. rewrite E3. reflexivity.
  - intros r' i' Hne.
    rewrite F3, F2, F1, F0 by (destruct Hne; [left|right]; lia). reflexivity.
Qed.

(** The rows [a-1 <= j < a-1+m] of the table, written in turn. *)
Lemma write_rows_Ok (n m : nat) :
  forall (a : nat) (D : array) (file : list (list R)),
    cells n D -> (1 <= a)%nat -> (a - 1 + m <= n)%nat ->
    exists D' rows,
      write_rows round4 (seq a m) (D, file) = Ok (D', file ++ rows) /\
      length rows = m /\
      (forall j c0 c1 c2 c3, (j < m)%nat ->
         aget D 0 (a - 1 + j) = Ok c0 -> aget D 1 (a - 1 + j) = Ok c1 ->
         aget D 2 (a - 1 + j) = Ok c2 -> aget D 3 (a - 1 + j) = Ok c3 ->
         rows !! j = Some [written' c0; written' c1; written' c2; written' c3]) /\
      (forall r j c, (r < 4)%nat -> (a - 1 <= j < a - 1 + m)%nat ->
         aget D r j = Ok c -> aget D' r j = Ok (Some (default (-999999) c))) /\
      (forall r j, (4 <= r \/ j < a - 1 \/ a - 1 + m <= j)%nat ->
         aget D' r j = aget D r j).
Proof.
  induction m as [|m IH]; intros a D file Hc Ha Hm.
  - exists D, []. cbn [seq write_rows]. rewrite app_nil_r.
    split; [reflexivity|]. split; [reflexivity|].
    split; [intros; lia|]. split; [intros; lia | reflexivity].
  - destruct (Hc 0 (a - 1) ltac:(unfold NDIM1; lia) ltac:(lia))%nat as [c0 H0].
    destruct (Hc 1 (a - 1) ltac:(unfold NDIM1; lia) ltac:(lia))%nat as [c1 H1].
    destruct (Hc 2 (a - 1) ltac:(unfold NDIM1; lia) ltac:(lia))%nat as [c2 H2].
    destruct (Hc 3 (a - 1) ltac:(unfold NDIM1; lia) ltac:(lia))%nat as [c3 H3].
    destruct (write_row_Ok a D file c0 c1 c2 c3 H0 H1 H2 H3)
      as (D1 & HW & G0 & G1 & G2 & G3 & F).
    assert (Hc1 : cells n D1).
    { intros r j Hr Hj. destruct (decide (j = a - 1)%nat) as [->|Hne].
      - unfold NDIM1 in Hr.
        assert (Er : r = 0%nat \/ r = 1%nat \/ r = 2%nat \/ r = 3%nat) by lia.
        destruct Er as [->|[->|[->| ->]]]; eauto.
      - rewrite F by (right; exact Hne). apply Hc; assumption. }
    destruct (IH (S a) D1 (file ++ [[written' c0; written' c1; written' c2;
                                     written' c3]]) Hc1 ltac:(lia) ltac:(lia))
      as (D' & rows & HR & Hlen & Hrows & Hin & Hout).
    exists D', ([written' c0; written' c1; written' c2; written' c3] :: rows).
    split; [|split; [|split; [|split]]].
    + cbn [seq write_rows]. rewrite HW. cbn [mbind result_bind].
      rewrite HR. rewrite <- app_assoc. reflexivity.
    + cbn [length]. rewrite Hlen. reflexivity.
    + intros j d0 d1 d2 d3 Hj E0 E1 E2 E3. destruct j as [|j].
      * rewrite Nat.add_0_r in *. cbn [lookup list_lookup].
        rewrite H0 in E0. rewrite H1 in E1. rewrite H2 in E2. rewrite H3 in E3.
        injection E0 as <-. injection E1 as <-. injection E2 as <-.
        injection E3 as <-. reflexivity.
      * cbn [lookup list_lookup].
        apply Hrows; [lia| | | |];
          replace (S a - 1 + j)%nat with (a - 1 + S j)%nat by lia;
          rewrite F by (right; lia); assumption.
    + intros r j c Hr Hj Hcj. destruct (decide (j = a - 1)%nat) as [->|Hne].
      * rewrite Hout by (right; left; lia).
        assert (Er : r = 0%nat \/ r = 1%nat \/ r = 2%nat \/ r = 3%nat) by lia.
        destruct Er as [->|[->|[->| ->]]]; congruence.
      * apply Hin; [exact Hr | lia |]. rewrite F by (right; exact Hne).
        exact Hcj.
    + intros r j Hj. rewrite Hout by lia. apply F. lia.
Qed.

(** ** The reader *)

Lemma append_last_app (done : list beta_group) (cur : beta_group) (a s : R) :
  append_last (done ++ [cur]) a s = Ok (done ++ [(cur.1 ++ [a], cur.2 ++ [s])]).
Proof.
  induction done as [|d done IH]; [reflexivity|].
  cbn [app append_last]. destruct (done ++ [cur]) as [|g gs] eqn:E.
  - destruct done; discriminate.
  - rewrite IH. reflexivity.
Qed.

Lemma read_group (g : list (R * R)) (ls : list line) :
  Forall2 data_line' g ls -> Forall (fun p => 0 <= round4 p.1) g ->
  forall (rest : list line) (done : list beta_group) (cur : beta_group),
    read_lines (ls ++ rest) (done ++ [cur])
    = read_lines rest
        (done ++ [(cur.1 ++ ((fun p => round4 p.1) <$> g),
                   cur.2 ++ ((fun p => round4 p.2 * 1000) <$> g))]).
Proof.
  induction 1 as [|p l g ls (c & d & ->) _ IH]; intros Hpos rest done cur.
  - cbn [app fmap list_fmap]. rewrite !app_nil_r. destruct cur; reflexivity.
  - apply Forall_cons in Hpos as [Hp Hpos].
    cbn [app read_lines floats_of mbind result_bind].
    rewrite decide_False by lra.
    rewrite append_last_app. cbn [mbind result_bind].
    rewrite (IH Hpos). cbn [fst snd fmap list_fmap].
    rewrite <- !app_assoc. reflexivity.
Qed.

Lemma read_joined (gs : list (list (R * R))) :
  round4 (-999999) < 0 ->
  Forall (Forall (fun p => 0 <= round4 p.1)) gs -> gs <> [] ->
  forall (ls : list line) (done : list beta_group),
    Forall2 item_line' (joined gs) ls ->
    read_lines ls (done ++ [([], [])]) = Ok (done ++ (in_metres' <$> gs)).
Proof.
  intros Hs. induction gs as [|g gs IH]; intros Hpos Hne ls done HF;
    [contradiction|].
  apply Forall_cons in Hpos as [Hg Hpos].
  destruct gs as [|g' gs].
  - cbn [joined] in HF.
    apply (proj1 (Forall2_fmap_l Some (item_line round4) g ls)) in HF.
    pose proof (read_group g ls HF Hg [] done ([], [])) as E.
    rewrite app_nil_r in E. exact E.
  - cbn [joined] in HF.
    apply Forall2_app_inv_l in HF as (l1 & l2 & H1 & H2 & ->).
    apply Forall2_cons_inv_l in H2 as (l & l3 & (b & c & d & ->) & H3 & ->).
    apply (proj1 (Forall2_fmap_l Some (item_line round4) g l1)) in H1.
    eapply eq_trans; [exact (read_group g l1 H1 Hg _ done ([], []))|].
    cbn [read_lines floats_of mbind result_bind].
    rewrite decide_True by lra.
    eapply eq_trans; [exact (IH Hpos ltac:(discriminate) l3 _ H3)|].
    rewrite <- app_assoc. reflexivity.
Qed.

Lemma read_lines_blank (l1 l2 : list line) :
  forall gs, read_lines (l1 ++ [] :: l2) gs = read_lines l1 gs.
Proof.
  induction l1 as [|l l1 IH]; intros gs; [reflexivity|].
  destruct l as [|t l]; [reflexivity|].
  cbn [app read_lines].
  destruct (floats_of (t :: l)) as [fs| |]; [|reflexivity|reflexivity].
  cbn [mbind result_bind].
  destruct fs as [|age [|sub [|x [|y [|z fs]]]]]; try reflexivity.
  case_decide; [apply IH|].
  destruct (append_last gs age (sub * 1000)) as [gs'| |];
    [|reflexivity|reflexivity].
  cbn [mbind result_bind]. apply IH.
Qed.

End Output_file.

Lemma append_last_well_formed (gs gs' : list beta_group) (a s : R) :
  append_last gs a s = Ok gs' -> 0 <= a ->
  Forall well_formed gs -> Forall well_formed gs' /\ length gs' = length gs.
Proof.
  revert gs'. induction gs as [|g gs IH]; intros gs' H Ha HF; [discriminate|].
  apply Forall_cons in HF as [Hg HF]. cbn [append_last] in H.
  destruct gs as [|g1 gs].
  - injection H as <-. split; [|reflexivity].
    apply Forall_singleton. destruct Hg as [Hl Hp]. split.
    + cbn [fst snd]. rewrite !length_app, Hl. reflexivity.
    + cbn [fst]. apply Forall_app. split; [exact Hp|].
      apply Forall_singleton, Ha.
  - bind_split H as gs1 H1. injection H as <-.
    destruct (IH gs1 H1 Ha HF) as [HF1 Hlen]. split.
    + apply Forall_cons. split; assumption.
    + cbn [length]. rewrite Hlen. reflexivity.
Qed.

Lemma read_lines_well_formed (ls : list line) :
  forall gs gs', read_lines ls gs = Ok gs' ->
    Forall well_formed gs -> Forall well_formed gs' /\
    (length gs <= length gs')%nat.
Proof.
  induction ls as [|l ls IH]; intros gs gs' H HF.
  - injection H as <-. split; [exact HF | lia].
  - destruct l as [|t l].
    + injection H as <-. split; [exact HF | lia].
    + cbn [read_lines] in H. bind_split H as fs Hfs.
      destruct fs as [|age [|sub [|x [|y [|z fs]]]]]; try discriminate.
      case_decide.
      * apply IH in H as [H1 H2].
        -- split; [exact H1|]. rewrite length_app in H2. simpl in H2. lia.
        -- apply Forall_app. split; [exact HF|]. apply Forall_singleton.
           split; [reflexivity | apply Forall_nil_2].
      * bind_split H as gs1 H1.
        destruct (append_last_well_formed gs gs1 age (sub * 1000) H1
                    ltac:(lra) HF) as [HF1 Hlen].
        apply IH in H as [H2 H3]; [|exact HF1]. split; [exact H2 | lia].
Qed.

Lemma append_last_nonempty (gs : list beta_group) (a s : R) :
  gs <> [] -> exists gs', append_last gs a s = Ok gs' /\ gs' <> [].
Proof.
  induction gs as [|g gs IH]; intros Hne; [contradiction|].
  destruct gs as [|g1 gs].
  - eexists. split; [reflexivity | discriminate].
  - destruct (IH ltac:(discriminate)) as (gs' & H & _).
    exists (g :: gs'). split; [|discriminate].
    change (append_last (g :: g1 :: gs) a s)
      with (append_last (g1 :: gs) a s ≫= fun gs => Ok (g :: gs)).
    rewrite H. reflexivity.
Qed.

Lemma read_lines_raises (ls : list line) :
  forall gs, gs <> [] ->
    read_lines ls gs <> OutOfFuel /\
    forall e, read_lines ls gs = Raise e -> e = ValueError.
Proof.
  induction ls as [|l ls IH]; intros gs Hne.
  - split; [discriminate|]. intros e H. discriminate.
  - destruct l as [|t l].
    + split; [discriminate|]. intros e H. discriminate.
    + assert (Hfl : forall l', floats_of l' <> OutOfFuel /\
                forall e, floats_of l' = Raise e -> e = ValueError).
      { induction l' as [|[x|] l' IHl]; cbn [floats_of].
        - split; [discriminate|]. intros e H. discriminate.
        - destruct IHl as [I1 I2].
          destruct (floats_of l') as [xs|e'|];
            cbn [mbind result_bind].
          + split; [discriminate|]. intros e H. discriminate.
          + split; [discriminate|]. intros e [= <-]. apply I2. reflexivity.
          + contradiction.
        - split; [discriminate|]. intros e [= <-]. reflexivity. }
      cbn [read_lines]. destruct (Hfl (t :: l)) as [F1 F2].
      destruct (floats_of (t :: l)) as [fs|e'|]; cbn [mbind result_bind].
      * assert (HV : (Raise ValueError : result (list beta_group)) <> OutOfFuel
                     /\ forall e, (Raise ValueError : result (list beta_group))
                                  = Raise e -> e = ValueError).
        { split; [discriminate|]. intros e [= <-]. reflexivity. }
        destruct fs as [|age [|sub [|x [|y [|z fs]]]]]; try exact HV.
        case_decide.
        -- apply IH. destruct gs; discriminate.
        -- destruct (append_last_nonempty gs age (sub * 1000) Hne)
             as (gs' & H' & Hne').
           rewrite H'. cbn [mbind result_bind]. apply IH, Hne'.
      * split; [discriminate|]. intros e [= <-]. apply F2. reflexivity.
      * contradiction.
Qed.

Lemma column_lookup_any (c : nat) (st : store) (i : nat) (x : option R) :
  column c st !! i = Some x -> aget (DATA st) c i = Ok x.
Proof.
  unfold column, aget. destruct (DATA st !! c) as [col|].
  - intros H. apply lookup_take_Some in H as [H _]. rewrite H. reflexivity.
  - intros H. rewrite lookup_nil in H. discriminate.
Qed.

Lemma column_length (c n : nat) (st : store) :
  cells n (DATA st) -> (c < NDIM1)%nat -> (K st <= n)%nat ->
  length (column c st) = K st.
Proof.
  intros Hc Hr HK. unfold column.
  destruct (K st) as [|k] eqn:EK.
  { destruct (DATA st !! c); reflexivity. }
  destruct (Hc c k Hr ltac:(lia)) as [x Hx].
  apply aget_lookup in Hx as (col & Hcol & Hk). rewrite Hcol.
  apply lookup_lt_Some in Hk. rewrite length_take. lia.
Qed.

(** X14.  The file of [WRITE] read back by [read_rift_subsidence_output].
    When the first two columns of the rows 1..K of the table are the groups
    [gs] of (age, subsidence) rows, one sentinel row (an age that is [None])
    between two groups, [WRITE] writes -999999 for every [None], and the
    reader splits the file at exactly these lines: it returns one group per
    group of the table, in the same order, with the rounded ages and the
    rounded subsidences in metres.  Nothing of the sentinel rows reaches a
    group.  The table in memory holds a float in every cell of the rows
    1..K afterwards.  (No age of a row rounds to a negative number, and
    -999999 rounds to a negative number.) *)
Theorem WRITE_read_round_trip (round4 : R -> R) (st : store) (n : nat)
  (gs : list (list (R * R))) :
  cells n (DATA st) -> (K st <= n)%nat -> gs <> [] ->
  column 0 st = (fmap (M := option) fst <$> joined gs) ->
  column 1 st = (fmap (M := option) snd <$> joined gs) ->
  round4 (-999999) < 0 ->
  Forall (Forall (fun p => 0 <= round4 p.1)) gs ->
  exists D' file,
    WRITE round4 (K st) (DATA st) = Ok (D', file) /\
    read_rift_subsidence_output (written_line <$> file)
    = Ok (in_metres round4 <$> gs) /\
    forall r i, (r < 4)%nat -> (i < K st)%nat ->
                exists x, aget D' r i = Ok (Some x).
Proof.
  intros Hc HK Hne H0 H1 Hs Hpos.
  destruct (write_rows_Ok round4 n (K st) 1 (DATA st) [] Hc ltac:(lia)
              ltac:(lia)) as (D' & rows & HW & Hlen & Hrows & Hin & _).
  exists D', rows. split; [exact HW|]. split.
  - apply (read_joined round4 gs Hs Hpos Hne _ []).
    assert (HlenJ : length (joined gs) = K st).
    { rewrite <- (column_length 0 n st Hc ltac:(unfold NDIM1; lia) HK), H0.
      rewrite length_fmap. reflexivity. }
    apply Forall2_same_length_lookup_2.
    { rewrite length_fmap, Hlen. exact HlenJ. }
    intros i x y Hx Hy.
    assert (Hi : (i < K st)%nat).
    { rewrite <- HlenJ. apply lookup_lt_Some in Hx. exact Hx. }
    assert (E0 : aget (DATA st) 0 i = Ok (fst <$> x)).
    { apply column_lookup_any. rewrite H0, list_lookup_fmap, Hx. reflexivity. }
    assert (E1 : aget (DATA st) 1 i = Ok (snd <$> x)).
    { apply column_lookup_any. rewrite H1, list_lookup_fmap, Hx. reflexivity. }
    destruct (Hc 2 i ltac:(unfold NDIM1; lia) ltac:(lia))%nat as [c2 E2].
    destruct (Hc 3 i ltac:(unfold NDIM1; lia) ltac:(lia))%nat as [c3 E3].
    pose proof (Hrows i _ _ _ _ Hi E0 E1 E2 E3) as Hrow.
    rewrite list_lookup_fmap, Hrow in Hy. injection Hy as <-.
    destruct x as [p|]; cbn [item_line].
    + exists (written round4 c2), (written round4 c3). reflexivity.
    + exists (written round4 None), (written round4 c2), (written round4 c3).
      reflexivity.
  - intros r i Hr Hi.
    destruct (Hc r i ltac:(unfold NDIM1; lia) ltac:(lia)) as [c Hci].
    eexists. apply (Hin r i c Hr ltac:(lia) Hci).
Qed.

Lemma WRITE_read_round_trip_witness :
  exists D' file,
    WRITE (fun x => x) 3 sentinel_table = Ok (D', file) /\
    read_rift_subsidence_output (written_line <$> file)
    = Ok [([3], [0.5 * 1000]); ([2], [0.25 * 1000])].
Proof.
  assert (Hc : cells 3 (DATA sentinel_store)).
  { intros r i Hr Hi. unfold NDIM1 in Hr.
    do 4 (destruct r as [|r];
          [do 3 (destruct i as [|i]; [eexists; reflexivity|]); lia|]).
    lia. }
  destruct (WRITE_read_round_trip (fun x => x) sentinel_store 3
              [[(3, 0.5)]; [(2, 0.25)]] Hc ltac:(simpl; lia)
              ltac:(discriminate) eq_refl eq_refl ltac:(lra))
    as (D' & file & HW & HR & _).
  { repeat (apply Forall_cons; split); try apply Forall_nil_2; simpl; lra. }
  exists D', file. split; [exact HW | exact HR].
Defined.

(** X15.  What [read_rift_subsidence_output] returns, whatever the file
    holds.  It never returns an empty list of groups; every group has as
    many subsidences as ages and no negative age (a line with a negative age
    only starts a new group); the lines after the first blank line are never
    read; and the only exception it raises on the lines of a file is
    [ValueError] (a field that is no float, or a line that has not four
    fields). *)
Theorem reader_groups (ls : list line) :
  (forall gs, read_rift_subsidence_output ls = Ok gs ->
     gs <> [] /\ Forall well_formed gs) /\
  (forall l2, read_rift_subsidence_output (ls ++ [] :: l2)
              = read_rift_subsidence_output ls) /\
  read_rift_subsidence_output ls <> OutOfFuel /\
  (forall e, read_rift_subsidence_output ls = Raise e -> e = ValueError).
Proof.
  unfold read_rift_subsidence_output. split; [|split].
  - intros gs H.
    destruct (read_lines_well_formed ls [([], [])] gs H) as [HF Hlen].
    { apply Forall_singleton. split; [reflexivity | apply Forall_nil_2]. }
    split; [|exact HF]. intros ->. simpl in Hlen. lia.
  - intros l2. apply read_lines_blank.
  - apply read_lines_raises. discriminate.
Qed.

(** ** The dialogue on standard input *)


Lemma ask_bind_eq {A B} (m : ask A) (f : A -> ask B) (inp mid : list string)
  (a : A) :
  m inp = Reply a mid -> (m ≫= f) inp = f a mid.
Proof. unfold mbind, ask_bind. intros ->. reflexivity. Qed.

Section Dialogue_facts.

Variable py_float_of : string -> option R.
Variable py_int_of : string -> option Z.

Local Abbreviation get_float' := (get_float_from_stdin py_float_of).
Local Abbreviation get_int' := (get_int_from_stdin py_int_of).
Local Abbreviation collect' :=
  (collect_parameters_from_stdin py_float_of py_int_of).
Local Abbreviation main_dialogue' := (main_dialogue py_float_of py_int_of).

Lemma get_float_empty (rest : list string) :
  get_float' (""%string :: rest) = Reply None rest.
Proof. reflexivity. Qed.

Lemma get_int_empty (values : list Z) (rest : list string) :
  get_int' values (""%string :: rest) = Reply None rest.
Proof. reflexivity. Qed.

Lemma get_yes_or_no_empty (rest : list string) :
  get_yes_or_no_from_stdin false (""%string :: rest) = Reply None rest.
Proof. reflexivity. Qed.

Lemma collect_empty_answers (fuel : nat) (s : dialogue) (rest : list string) :
  (ILOAD (d_params s) = 2%Z -> ICOMP (d_params s) <> 0%Z ->
   0 <= PHI0 (d_params s) <= 0.9) ->
  collect' (S fuel) s (replicate (prompts (d_params s)) ""%string ++ rest)
  = Reply s rest.
Proof.
  destruct s as [label p]. cbn [d_params].
  intros HPHI. unfold collect_parameters_from_stdin, prompts.
  cbn [d_params PLABEL].
  destruct (decide (ITYPE1 p = 4)%Z) as [H1|H1];
  destruct (decide (IRIFT p >= 2)%Z) as [H2|H2];
  destruct (decide (IRIFT p >= 3)%Z) as [H3|H3]; try lia;
  destruct (decide (ILOAD p = 2)%Z) as [H4|H4];
  try destruct (decide (ICOMP p = 0)%Z) as [H5|H5];
  cbn [Nat.add replicate app].
  all: unfold mbind, ask_bind, input; cbn [if_str if_int if_float].
  all: repeat first
         [ rewrite get_int_empty | rewrite get_float_empty
         | rewrite get_yes_or_no_empty
         | rewrite decide_True by assumption
         | rewrite decide_False by assumption
         | progress cbn [if_int if_float if_str mret ask_ret porosity_loop]
         | progress unfold mbind, ask_bind ].
  all: try (rewrite decide_False by (specialize (HPHI H4 H5); lra)).
  all: try (unfold mret, ask_ret; rewrite get_float_empty).
  all: destruct p; reflexivity.
Qed.

Lemma get_yes_or_no_no (nd : bool) (a : string) (rest : list string) :
  lower a ∈ ["n"; "no"]%string ->
  get_yes_or_no_from_stdin nd (a :: rest) = Reply (Some "n"%string) rest.
Proof.
  intros Ha. cbn [get_yes_or_no_from_stdin].
  assert (Hlen : String.length a <> 0%nat).
  { destruct a; [|discriminate]. simpl in Ha.
    apply elem_of_cons in Ha as [Ha|Ha]; [discriminate|].
    apply elem_of_cons in Ha as [Ha|Ha]; [discriminate|].
    apply elem_of_nil in Ha. contradiction. }
  rewrite decide_False by (intros [? _]; contradiction).
  rewrite decide_False.
  2:{ intros Hy.
      apply elem_of_cons in Ha as [Ha|Ha];
        [|apply elem_of_cons in Ha as [Ha|Ha];
          [|apply elem_of_nil in Ha; contradiction]];
      rewrite Ha in Hy;
      (apply elem_of_cons in Hy as [Hy|Hy]; [discriminate|]);
      (apply elem_of_cons in Hy as [Hy|Hy]; [discriminate|]);
      apply elem_of_nil in Hy; contradiction. }
  rewrite decide_True by exact Ha. reflexivity.
Qed.

Lemma get_yes_or_no_yes (a : string) (rest : list string) :
  lower a ∈ ["y"; "yes"]%string ->
  get_yes_or_no_from_stdin true (a :: rest) = Reply (Some "y"%string) rest.
Proof.
  intros Ha. cbn [get_yes_or_no_from_stdin].
  rewrite decide_False by (intros [_ ?]; discriminate).
  rewrite decide_True by exact Ha. reflexivity.
Qed.

























Lemma main_dialogue_no (fuel : nat) (s : dialogue) (a : string)
  (rest : list string) :
  (ILOAD (d_params s) = 2%Z -> ICOMP (d_params s) <> 0%Z ->
   0 <= PHI0 (d_params s) <= 0.9) ->
  lower a ∈ ["n"; "no"]%string ->
  main_dialogue' (S fuel) s
    (replicate (prompts (d_params s)) ""%string ++ a :: rest)
  = Reply s rest.
Proof.
  intros HPHI Ha. cbn [main_dialogue].
  rewrite (ask_bind_eq _ _ _ _ _ (collect_empty_answers fuel s _ HPHI)).
  rewrite (ask_bind_eq _ _ _ _ _ (get_yes_or_no_no true a rest Ha)).
  rewrite decide_True by reflexivity. reflexivity.
Qed.

Lemma main_dialogue_yes (fuel : nat) (s : dialogue) (a : string)
  (rest : list string) :
  (ILOAD (d_params s) = 2%Z -> ICOMP (d_params s) <> 0%Z ->
   0 <= PHI0 (d_params s) <= 0.9) ->
  lower a ∈ ["y"; "yes"]%string ->
  main_dialogue' (S (S fuel)) s
    (replicate (prompts (d_params s)) ""%string ++ a :: rest)
  = main_dialogue' (S fuel) s rest.
Proof.
  intros HPHI Ha.
  change (main_dialogue' (S (S fuel)) s)
    with (collect' (S (S fuel)) s ≫= fun s =>
          get_yes_or_no_from_stdin true ≫= fun tmp =>
          match tmp with
          | Some a => if decide (a = "n"%string) then mret s
                      else main_dialogue' (S fuel) s
          | None => main_dialogue' (S fuel) s
          end).
  rewrite (ask_bind_eq _ _ _ _ _ (collect_empty_answers (S fuel) s _ HPHI)).
  rewrite (ask_bind_eq _ _ _ _ _ (get_yes_or_no_yes a rest Ha)).
  rewrite decide_False by discriminate. reflexivity.
Qed.

(** X16.  Accepting every default.  When every prompt of
    [collect_parameters_from_stdin] is answered by an empty line, the
    dialogue reads exactly [prompts] lines (11 to 23, by the number of rift
    periods, the regime and the loading) and leaves the label and every
    parameter as they were; in [main], an answer n or no (in any case) to
    "Alter parameters?" then ends the dialogue with that configuration, and
    an answer y or yes starts the dialogue again on the lines that follow.
    (When sediment loading with compaction is on, the porosity must be in
    [[0, 0.9]]: the porosity loop asks again until it is.) *)
Theorem dialogue_accepts_defaults (fuel : nat) (s : dialogue)
  (rest : list string) :
  (ILOAD (d_params s) = 2%Z -> ICOMP (d_params s) <> 0%Z ->
   0 <= PHI0 (d_params s) <= 0.9) ->
  collect' (S fuel) s (replicate (prompts (d_params s)) ""%string ++ rest)
  = Reply s rest /\
  (forall a, lower a ∈ ["n"; "no"]%string ->
     main_dialogue' (S fuel) s
       (replicate (prompts (d_params s)) ""%string ++ a :: rest)
     = Reply s rest) /\
  (forall a, lower a ∈ ["y"; "yes"]%string ->
     main_dialogue' (S (S fuel)) s
       (replicate (prompts (d_params s)) ""%string ++ a :: rest)
     = main_dialogue' (S fuel) s rest) /\
  (11 <= prompts (d_params s) <= 23)%nat.
Proof.
  intros HPHI. split; [|split; [|split]].
  - apply collect_empty_answers, HPHI.
  - intros a Ha. apply main_dialogue_no; assumption.
  - intros a Ha. apply main_dialogue_yes; assumption.
  - unfold prompts. repeat case_decide; lia.
Qed.


End Dialogue_facts.

Lemma lower_n : lower "N" ∈ ["n"; "no"]%string.
Proof. apply elem_of_cons. left. reflexivity. Qed.

Lemma dialogue_accepts_defaults_witness :
  main_dialogue (fun _ => None) (fun _ => None) 1 dialogue0
    (replicate 11 ""%string ++ ["N"%string])
  = Reply dialogue0 [].
Proof.
  apply (proj1 (proj2 (dialogue_accepts_defaults (fun _ => None)
                         (fun _ => None) 0 dialogue0 []
                         ltac:(simpl; intros; lia))) "N"%string lower_n).
Defined.


(** ** A loading outside 0, 1 and 2 *)

Section Zero_constants.

Variables (AMPL WAVEN : R).
Variables (G DTEND DTSTOP DTAUS DTBEGX DTBEGY DTST : R).
Variables (ITYPE IHFLW : Z) (KRR : nat) (IRIFT : Z).
Variables (BETA1 CONB1 CONB2 : R).

Local Abbreviation record_row' :=
  (record_row AMPL WAVEN G DTEND DTAUS 0 0 DTBEGX ITYPE IHFLW KRR
     IRIFT BETA1 CONB1 CONB2).
Local Abbreviation loop_body' :=
  (loop_body AMPL WAVEN G DTEND DTSTOP DTAUS 0 0 DTBEGX DTBEGY DTST
     ITYPE IHFLW KRR IRIFT BETA1 CONB1 CONB2).
Local Abbreviation TIMSTR_loop' :=
  (TIMSTR_loop AMPL WAVEN G DTEND DTSTOP DTAUS 0 0 DTBEGX DTBEGY DTST
     ITYPE IHFLW KRR IRIFT BETA1 CONB1 CONB2).
Local Abbreviation TIMSTR' :=
  (TIMSTR AMPL WAVEN G DTEND DTSTOP DTAUS 0 0 DTBEGX DTBEGY DTST
     ITYPE IHFLW KRR IRIFT BETA1 CONB1 CONB2).

(** With [CONBET = CONTRM = 0] and [SINIT = 0] the new row holds the
    subsidence 0, and [SINIT] stays 0. *)
Lemma record_row_zero (l : locals) (st st' : store) :
  record_row' l st = Ok st' -> SINIT st = 0 ->
  fget (DATA st') 1 (K st) = Ok 0 /\ SINIT st' = 0.
Proof.
  unfold record_row. intros H HS.
  bind_inv H as D0 HD0. bind_inv H as st1 Hsub.
  apply SUBCAL_Ok in Hsub as (HK1 & HT1 & HF1 & TRAP & HTRAP & Hadv & Hcond).
  simpl in HK1, HT1, HF1, HD0, Hadv, Hcond.
  replace (K st + 1 - 1)%nat with (K st) in * by lia.
  assert (Hz : aget (DATA st1) 1 (K st) = Ok (Some 0) /\ SINIT st1 = 0).
  { destruct (decide (IADV l = 1)%Z) as [HI|HI].
    - destruct (Hadv HI) as (BETAT & _ & Hget & Hend & Hnot).
      assert (E : stretching_subsidence 0 0 KRR BETAT BETA1 TRAP * 1e-3 = 0).
      { unfold stretching_subsidence.
        destruct (decide (KRR = 0%nat));
          rewrite !Rmult_0_l, Rplus_0_l, Rmult_0_l; reflexivity. }
      rewrite E in *. split; [apply fget_Ok, Hget|].
      destruct (decide (T l = DTEND)) as [HT|HT].
      + apply (Hend HT).
      + rewrite (proj2 (Hnot HT)). exact HS.
    - destruct (Hcond HI) as (Hget & _ & HS1).
      rewrite HS1, HS. split; [|reflexivity].
      apply fget_Ok. rewrite Hget. f_equal. rewrite HS. lra. }
  destruct Hz as [Hz HS1].
  destruct (decide (IHFLW = 1)%Z).
  2:{ injection H as <-. split; [apply fget_Ok, Hz | exact HS1]. }
  bind_inv H as x Hx. bind_inv H as D2 HD2. rewrite HK1 in *.
  replace (K st + 1 - 1)%nat with (K st) in * by lia.
  assert (H2 : aget D2 1 (K st) = Ok (Some 0)).
  { rewrite (aget_aset_ne _ _ _ _ _ _ _ HD2) by (left; lia). exact Hz. }
  destruct (decide (IADV l = 0)%Z).
  { bind_inv H as D3 HD3. injection H as <-. simpl.
    split; [|exact HS1]. apply fget_Ok.
    rewrite (aget_aset_ne _ _ _ _ _ _ _ HD3) by (left; lia). exact H2. }
  destruct (decide (IADV l = 1)%Z);
    [|injection H as <-; split; [apply fget_Ok, H2 | exact HS1]].
  bind_inv H as sr Hsr.
  destruct sr as [sr|];
    [|injection H as <-; split; [apply fget_Ok, H2 | exact HS1]].
  bind_inv H as D3 HD3. injection H as <-. simpl.
  split; [|exact HS1]. apply fget_Ok.
  rewrite (aget_aset_ne _ _ _ _ _ _ _ HD3) by (left; lia). exact H2.
Qed.

Lemma loop_body_zero (DTI : R) (l : locals) (st : store) (c : control) :
  loop_body' DTI l st = Ok c -> SINIT st = 0 ->
  SINIT (store_of c) = 0 /\
  forall i, (K st <= i < K (store_of c))%nat ->
            fget (DATA (store_of c)) 1 i = Ok 0.
Proof.
  unfold loop_body. intros H HS.
  bind_inv H as ls Hadv. destruct ls as [l1 st1].
  bind_inv H as t0 Ht0. bind_inv H as st2 Hrec.
  apply advance_frame in Hadv as (HK & HD & _ & HS1 & _).
  apply next_step_store in H. rewrite H in *.
  case_decide.
  - pose proof (record_row_zero _ _ _ Hrec ltac:(rewrite HS1; exact HS))
      as [Hz HS2].
    apply record_row_frame in Hrec as (HK2 & _).
    rewrite HK in *. split; [exact HS2|].
    intros i Hi. replace i with (K st) by lia. exact Hz.
  - injection Hrec as <-. split; [rewrite HS1; exact HS|]. intros i Hi. lia.
Qed.

Lemma TIMSTR_loop_zero (DTI : R) (fuel : nat) :
  forall (l : locals) (st st' : store),
    TIMSTR_loop' fuel DTI l st = Ok st' -> SINIT st = 0 ->
    SINIT st' = 0 /\
    forall i, (K st <= i < K st')%nat -> fget (DATA st') 1 i = Ok 0.
Proof.
  induction fuel as [|fuel IH]; intros l st st' H HS; simpl in H;
    [discriminate|].
  bind_inv H as c Hc.
  pose proof (loop_body_zero _ _ _ _ Hc HS) as [HS1 Hrows].
  destruct c as [l1 st1|st1]; simpl in *.
  - destruct (IH _ _ _ H HS1) as [HS2 Hrows2]. split; [exact HS2|].
    intros i Hi. destruct (decide (i < K st1)%nat) as [Hlt|Hge].
    + apply TIMSTR_loop_frame in H as (_ & HD & _).
      unfold fget. rewrite HD by exact Hlt. apply Hrows. lia.
    + apply Hrows2. lia.
  - injection H as <-. split; [exact HS1 | exact Hrows].
Qed.

(** A solver run with [CONBET = CONTRM = 0], entered with [SINIT = 0] and a
    subsidence column that is flat before the row it starts in, leaves a
    flat subsidence column. *)
Lemma TIMSTR_zero (fuel : nat) (st st' : store) :
  TIMSTR' fuel st = Ok st' -> (1 <= K st)%nat -> SINIT st = 0 ->
  (forall i, (i + 1 < K st)%nat -> flat_cell (DATA st) i) ->
  (KRR <> 0%nat -> flat_cell (DATA st) (K st - 1)) ->
  (K st <= K st')%nat /\ SINIT st' = 0 /\
  forall i, (i < K st')%nat -> flat_cell (DATA st') i.
Proof.
  intros H HK HS Hold Hlast. unfold TIMSTR in H.
  bind_split H as DTI HDTI. cbv zeta in H.
  bind_split H as st1 H1. bind_split H as st2 H2.
  assert (E2 : K st2 = K st1 /\ DATA st2 = DATA st1 /\ SINIT st2 = SINIT st1).
  { destruct (decide (KRR = 0%nat)).
    - bind_split H2 as A HA. injection H2 as <-. auto.
    - injection H2 as <-. auto. }
  destruct E2 as (EK2 & ED2 & ES2).
  pose proof (first_row_frame _ _ _ _ _ _ _ _ _ _ _ H1) as (EK1 & _ & EF1).
  assert (Hfirst : SINIT st1 = 0 /\ flat_cell (DATA st1) (K st - 1)).
  { unfold first_row in H1. destruct (decide (KRR = 0%nat)) as [HKRR|HKRR].
    - bind_inv H1 as st0 H0. bind_inv H0 as D0 HD0. bind_inv H0 as D1 HD1.
      injection H0 as <-. simpl in H1.
      assert (Hz : aget D1 1 (K st - 1) = Ok (Some 0)).
      { rewrite (aget_aset_eq _ _ _ _ _ HD1). do 2 f_equal. lra. }
      destruct (decide (IHFLW = 1)%Z).
      2:{ injection H1 as <-. simpl. split; [exact HS | right; exact Hz]. }
      bind_inv H1 as D2 HD2. bind_inv H1 as sr Hsr.
      assert (Hz2 : aget D2 1 (K st - 1) = Ok (Some 0)).
      { rewrite (aget_aset_ne _ _ _ _ _ _ _ HD2) by (left; lia). exact Hz. }
      destruct sr as [sr|].
      + bind_inv H1 as D3 HD3. injection H1 as <-. simpl.
        split; [exact HS|]. right.
        rewrite (aget_aset_ne _ _ _ _ _ _ _ HD3) by (left; lia). exact Hz2.
      + injection H1 as <-. simpl. split; [exact HS | right; exact Hz2].
    - simpl in H1.
      assert (E : st1 = st)
        by (repeat case_decide; try contradiction; injection H1 as <-;
            reflexivity).
      subst st1. split; [exact HS | apply Hlast, HKRR]. }
  destruct Hfirst as [HS1 Hf1].
  destruct (TIMSTR_loop_zero _ _ _ _ _ H ltac:(rewrite ES2; exact HS1))
    as [HS' Hrows].
  pose proof (TIMSTR_loop_frame _ _ _ _ _ _ _ _ _ _ _ _ _ _ _ _ _ _ _ _ _ _ _ H)
    as (HKle & HFl & _).
  rewrite EK2, EK1 in *. rewrite ED2 in HFl.
  split; [exact HKle|]. split; [exact HS'|].
  intros i Hi. unfold flat_cell.
  destruct (decide (i < K st)%nat) as [Hlt|Hge].
  - rewrite !HFl by exact Hlt.
    destruct (decide (i = K st - 1)%nat) as [->|Hne]; [exact Hf1|].
    rewrite !EF1 by exact Hne. apply Hold. lia.
  - right. apply fget_Ok, Hrows. lia.
Qed.

End Zero_constants.

Lemma sentinel_inv (st st' : store) :
  sentinel st = Ok st' ->
  K st' = (K st + 2)%nat /\ SINIT st' = SINIT st /\
  aget (DATA st') 1 (K st) = Ok None /\
  forall r i, i <> K st -> aget (DATA st') r i = aget (DATA st) r i.
Proof.
  unfold sentinel. cbv zeta. cbn [K DATA set_K set_DATA]. intros H.
  replace (K st + 1 - 1)%nat with (K st) in H by lia.
  bind_split H as D0 HD0. bind_split H as D1 HD1. injection H as <-.
  cbn [K DATA SINIT set_K set_DATA].
  split; [lia|]. split; [reflexivity|]. split.
  - apply (aget_aset_eq _ _ _ _ _ HD1).
  - intros r i Hi.
    rewrite (aget_aset_ne _ _ _ _ _ _ _ HD1) by (right; exact Hi).
    apply (aget_aset_ne _ _ _ _ _ _ _ HD0). right. exact Hi.
Qed.

Lemma sweep_body_zero (fuel : nat) (p : params) (d : dless) (c : consts)
  (BETA : R) (f f' : forcing) (st st' : store) :
  CONBET c = 0 -> CONTRM c = 0 ->
  sweep_body fuel p d c BETA f st = Ok (f', st') ->
  (1 <= K st)%nat -> SINIT st = 0 ->
  (forall i, (i + 1 < K st)%nat -> flat_cell (DATA st) i) ->
  (K st <= K st')%nat /\ SINIT st' = 0 /\
  forall i, (i < K st')%nat -> flat_cell (DATA st') i.
Proof.
  intros HB HT H HK HS Hold. unfold sweep_body in H. cbv zeta in H.
  rewrite HB, HT in H.
  bind_split H as f1 Hf1. bind_split H as st1 H1.
  bind_split H as st2 H2. bind_split H as st3 H3. injection H as _ <-.
  destruct (TIMSTR_zero _ _ _ _ _ _ _ _ _ _ _ _ _ _ _ _ _ _ _ H1 HK HS Hold
              ltac:(intros E; contradiction)) as (HK1 & HS1 & Hf1').
  assert (Hst2 : (K st1 <= K st2)%nat /\ SINIT st2 = 0 /\
                 forall i, (i < K st2)%nat -> flat_cell (DATA st2) i).
  { destruct (decide (IRIFT p >= 2)%Z).
    - apply (TIMSTR_zero _ _ _ _ _ _ _ _ _ _ _ _ _ _ _ _ _ _ _ H2
               ltac:(lia) HS1).
      + intros i Hi. apply Hf1'. lia.
      + intros _. apply Hf1'. lia.
    - injection H2 as <-. split; [lia|]. split; assumption. }
  destruct Hst2 as (HK2 & HS2 & Hf2).
  destruct (decide (IRIFT p >= 3)%Z).
  - destruct (decide (IRIFT p = 3)%Z); [|discriminate].
    destruct (TIMSTR_zero _ _ _ _ _ _ _ _ _ _ _ _ _ _ _ _ _ _ _ H3
                ltac:(lia) HS2) as (HK3 & HS3 & Hf3).
    + intros i Hi. apply Hf2. lia.
    + intros _. apply Hf2. lia.
    + split; [lia|]. split; assumption.
  - injection H3 as <-. split; [lia|]. split; assumption.
Qed.

Lemma sweep_zero (p : params) (d : dless) (c : consts) (fuel n : nat) :
  CONBET c = 0 -> CONTRM c = 0 ->
  forall (BETA : R) (f f' : forcing) (st st' : store),
    sweep n fuel p d c BETA f st = Ok (f', st') ->
    (1 <= K st)%nat -> SINIT st = 0 ->
    (forall i, (i + 1 < K st)%nat -> flat_cell (DATA st) i) ->
    forall i, (i < K st')%nat -> flat_cell (DATA st') i.
Proof.
  intros HB HT. induction n as [|n IH]; intros BETA f f' st st' H HK HS Hold;
    [discriminate|].
  rewrite sweep_unfold in H. bind_split H as fs Hb. destruct fs as [f1 st1].
  destruct (sweep_body_zero _ _ _ _ _ _ _ _ _ HB HT Hb HK HS Hold)
    as (HK1 & HS1 & Hf1).
  cbn [fst snd] in H. case_decide.
  - bind_split H as st2 Hsen.
    apply sentinel_inv in Hsen as (HK2 & HS2 & Hnone & Hfr).
    apply (IH _ _ _ _ _ H); [lia | rewrite HS2; exact HS1 |].
    intros i Hi. unfold flat_cell.
    destruct (decide (i = K st1)) as [->|Hne]; [left; exact Hnone|].
    rewrite !Hfr by exact Hne. apply Hf1. lia.
  - injection H as _ <-. exact Hf1.
Qed.

Lemma setup_constants_unknown_loading (p : params) (TL : R) (d : dless)
  (c c' : consts) :
  ICOMP p = 0%Z -> (ILOAD p < 0 \/ ILOAD p > 2)%Z ->
  setup_constants p TL d c = Ok c' ->
  CONBET c' = CONBET c /\ CONTRM c' = CONTRM c.
Proof.
  intros HC HL H. unfold setup_constants in H. cbv zeta in H.
  rewrite (decide_True (P := (ICOMP p = 0)%Z)) in H by exact HC.
  rewrite (decide_False (P := (ILOAD p = 2)%Z)) in H by lia.
  rewrite (decide_False (P := (ILOAD p = 1)%Z)) in H by lia.
  rewrite (decide_False (P := (ILOAD p = 0)%Z)) in H by lia.
  rewrite (bind_eq (Ok _) _ _ eq_refl) in H. cbv beta iota in H.
  bind_split H as b1 H1. bind_split H as b2 H2. bind_split H as gp Hgp.
  destruct gp as [g2 g3]. injection H as <-. split; reflexivity.
Qed.

Lemma dimensionalise_subsidence (TIMSC TBEG1 : R) (Is : list nat) :
  forall D D', dimensionalise TIMSC TBEG1 D Is = Ok D' ->
    forall i, aget D' 1 i = aget D 1 i.
Proof.
  induction Is as [|j Is IH]; intros D D' H i; cbn [dimensionalise] in H.
  - injection H as <-. reflexivity.
  - bind_split H as t Ht. destruct t as [t|]; [|apply (IH _ _ H)].
    bind_split H as D0 HD0. bind_split H as D1 HD1.
    rewrite (IH _ _ H).
    assert (E0 : aget D0 1 i = aget D 1 i)
      by (apply (aget_aset_ne _ _ _ _ _ _ _ HD0); left; lia).
    rewrite <- E0. unfold IHFLW in HD1.
    destruct (decide (1 = 1)%Z); [|injection HD1 as <-; reflexivity].
    bind_split HD1 as h Hh. bind_split HD1 as D2 HD2.
    bind_split HD1 as s Hs. bind_split HD1 as q Hq.
    rewrite (aget_aset_ne _ _ _ _ _ _ _ HD1) by (left; lia).
    apply (aget_aset_ne _ _ _ _ _ _ _ HD2). left. lia.
Qed.

(** X18.  A loading code outside 0, 1 and 2 (a configuration file can hold
    one) is not rejected.  Without compaction, [setup_constants] then leaves
    [CONBET] and [CONTRM] as they are, and when they are 0, as in a module
    that has not run before, a run that returns hands over a table whose
    subsidence cells of the rows 1..K all hold 0 or the [None] of a sentinel
    row, whatever the regimes, the number of rift periods and the stretching
    factors. *)
Theorem unknown_loading_flat_curve (p : params) (fuel : nat) (g g' : globals) :
  ICOMP p = 0%Z -> (ILOAD p < 0 \/ ILOAD p > 2)%Z ->
  CONBET (g_consts g) = 0 -> CONTRM (g_consts g) = 0 ->
  run fuel p g = Ok g' ->
  CONBET (g_consts g') = 0 /\ CONTRM (g_consts g') = 0 /\
  forall i, (i < K (g_store g'))%nat -> flat_cell (DATA (g_store g')) i.
Proof.
  intros HC HL HB HT H. unfold run in H.
  bind_split H as u Hu. bind_split H as g1 Hsolve.
  unfold solve in Hsolve. cbv zeta in Hsolve.
  bind_split Hsolve as TL HTL. bind_split Hsolve as d Hd.
  bind_split Hsolve as c Hc. bind_split Hsolve as fs Hsw.
  destruct fs as [f1 st1]. injection Hsolve as <-.
  destruct (setup_constants_unknown_loading _ _ _ _ _ HC HL Hc) as [EB ET].
  rewrite HB in EB. rewrite HT in ET.
  pose proof (sweep_zero _ _ _ _ _ EB ET _ _ _ _ _ Hsw
                ltac:(simpl; lia) eq_refl ltac:(simpl; intros; lia)) as Hflat.
  unfold finalise in H. cbv zeta in H. cbn [g_store g_dless g_consts] in H.
  bind_split H as D HD. rewrite decide_False in H by lia.
  rewrite (bind_eq (Ok _) _ _ eq_refl) in H. cbv beta in H.
  injection H as <-. cbn [g_consts g_store K DATA set_DATA].
  split; [exact EB|]. split; [exact ET|].
  intros i Hi. unfold flat_cell.
  rewrite !(dimensionalise_subsidence _ _ _ _ _ HD). apply Hflat, Hi.
Qed.

Lemma sweep_body_with_ILOAD (i : Z) (fuel : nat) (p : params) (d : dless)
  (c : consts) (BETA : R) (f : forcing) (st : store) :
  sweep_body fuel (with_ILOAD i p) d c BETA f st
  = sweep_body fuel p d c BETA f st.
Proof. reflexivity. Qed.

Lemma sweep_with_ILOAD (i : Z) (p : params) (d : dless) (c : consts)
  (fuel n : nat) :
  forall (BETA : R) (f : forcing) (st : store),
    sweep n fuel (with_ILOAD i p) d c BETA f st
    = sweep n fuel p d c BETA f st.
Proof.
  induction n as [|n IH]; intros BETA f st; [reflexivity|].
  rewrite !sweep_unfold, sweep_body_with_ILOAD.
  destruct (sweep_body fuel p d c BETA f st) as [[f1 st1]| |];
    try reflexivity.
  cbn [mbind result_bind fst snd].
  change (BETINC (with_ILOAD i p)) with (BETINC p).
  change (BETMAX (with_ILOAD i p)) with (BETMAX p).
  case_decide; [|reflexivity].
  destruct (sentinel st1) as [st2| |]; try reflexivity.
  cbn [mbind result_bind]. apply IH.
Qed.

Lemma unknown_loading_flat_curve_witness :
  exists g',
    run 241 (with_ILOAD 3 INITVR) globals0 = Ok g' /\
    forall i, (i < K (g_store g'))%nat -> flat_cell (DATA (g_store g')) i.
Proof.
  destruct INITVR_setup as (TL & d & c & HTL & Hd & _ & Ht & He & Hstop & Hst).
  assert (Hc : exists c3, setup_constants (with_ILOAD 3 INITVR) TL d consts0
                          = Ok c3).
  { unfold setup_constants, py_div. simpl.
    assert (Hrho : RHOM * (1.0 - TEXPAN * TASTH) - 2.6 <> 0)
      by (unfold RHOM, TEXPAN, TASTH; lra).
    repeat (rewrite decide_False by exact Hrho; simpl). eauto. }
  destruct Hc as [c3 Hc].
  destruct (INITVR_sweep d c3 Ht He Hstop Hst)
    as (st1 & st1' & st2 & Hrun & Hsen & HK1 & HK2 & HKN & Hcomp1 & Hsort1
        & Hcomp2 & Hsort2 & Hnone & Hfr & Hz1 & Hz2).
  cbv zeta in Hrun. destruct (Hrun 241%nat ltac:(lia)) as (_ & _ & Hsw).
  destruct (dimensionalise_Ok (TIMSC d) (TBEG1 INITVR) (seq 1 (K st2))
              ltac:(lra) (NoDup_seq 1 (K st2))
              ltac:(apply Forall_forall; intros i Hi;
                    apply elem_of_seq in Hi; lia)
              (DATA st2))
    as (D' & HD' & _).
  { intros i Hi. apply elem_of_seq in Hi.
    destruct (decide (i - 1 < K st1)%nat) as [H1|H1].
    - right. intros r Hr. unfold fget. rewrite Hfr by exact H1.
      apply (Hcomp1 (i - 1)%nat r); [lia | exact Hr].
    - destruct (decide (i - 1 = K st1)%nat) as [H2|H2].
      + left. rewrite H2. exact Hnone.
      + right. intros r Hr. apply (Hcomp2 (i - 1)%nat r); [lia | exact Hr]. }
  assert (Hgo : run 241 (with_ILOAD 3 INITVR) globals0
                = Ok {| TL := TL; g_dless := d; g_consts := c3;
                        g_forcing := {| GP1 := ln (1.5 + 0.5) / DTEND1 d;
                                        AMPL := 1; WAVEN := 1 |};
                        g_store := set_DATA D' st2 |}).
  { unfold run.
    rewrite (check_cfg_ordered (with_ILOAD 3 INITVR) INITVR_ordered).
    rewrite (bind_eq (Ok tt) _ _ eq_refl). cbv beta.
    unfold solve. cbv zeta.
    change (calculate_TL (with_ILOAD 3 INITVR)) with (calculate_TL INITVR).
    rewrite (bind_eq _ _ _ HTL). cbv beta.
    change (nondimensionalise_parameters (with_ILOAD 3 INITVR) TL
              (g_dless globals0))
      with (nondimensionalise_parameters INITVR TL dless0).
    rewrite (bind_eq _ _ _ Hd). cbv beta.
    change (g_consts globals0) with consts0.
    rewrite (bind_eq _ _ _ Hc). cbv beta.
    rewrite sweep_with_ILOAD.
    change (BETMIN (with_ILOAD 3 INITVR)) with 1.5.
    change (GP1 (g_forcing globals0)) with 0.
    rewrite (bind_eq _ _ _ Hsw). cbv beta iota.
    rewrite (bind_eq (Ok _) _ _ eq_refl). cbv beta.
    unfold finalise. cbv zeta. cbn [g_store g_dless g_consts].
    change (TBEG1 (with_ILOAD 3 INITVR)) with (TBEG1 INITVR).
    rewrite (bind_eq _ _ _ HD'). cbv beta.
    rewrite decide_False by (simpl; lia). reflexivity. }
  eexists. split; [exact Hgo|].
  apply (unknown_loading_flat_curve (with_ILOAD 3 INITVR) 241 globals0 _
           eq_refl ltac:(right; simpl; lia) eq_refl eq_refl Hgo).
Defined.

(** ** The first stretching factor of the sweep *)

(** The steps of [run] before the sweep, for a single rift period. *)
Lemma run_reaches_sweep (p : params) (fuel : nat) (e : exn) :
  IRIFT p = 1%Z -> TBEG1 p > TEND1 p -> 17400 <= TC p ->
  RHOS p <> RHOA_value ->
  (forall d f, 0 < DTEND1 d ->
     set_dless_constants (S fuel) p d (BETMIN p) f = Raise e) ->
  run (S fuel) p globals0 = Raise e.
Proof.
  intros HR HT HTC HS Hset.
  assert (Hchk : check_cfg p = Ok tt).
  { apply check_cfg_ordered. unfold ordered. rewrite HR.
    repeat split; intros; try lia. exact HT. }
  destruct (calculate_TL_thick p HTC) as (TL & HTL & Hlt).
  assert (HTL0 : TL <> 0) by lra.
  pose proof (TIMSC_positive TL HTL0) as Hpos.
  destruct (nondimensionalise_Ok p TL dless0 HTL0)
    as (d & Hd & HTS & H1 & _).
  destruct (H1 ltac:(lia)) as [_ He].
  assert (Hend : 0 < DTEND1 d).
  { rewrite He, HTS. apply Rdiv_lt_0_compat; lra. }
  destruct (setup_constants_no_later_rift p TL d consts0 ltac:(lia) HS)
    as [c Hc].
  unfold run. rewrite Hchk. cbn [mbind result_bind].
  unfold solve. cbv zeta. rewrite HTL. cbn [mbind result_bind].
  change (g_dless globals0) with dless0.
  change (g_consts globals0) with consts0.
  rewrite Hd. cbn [mbind result_bind]. rewrite Hc. cbn [mbind result_bind].
  rewrite sweep_unfold. unfold sweep_body. cbv zeta.
  rewrite (Hset d _ Hend). reflexivity.
Qed.

(** X19.  The first stretching factor of the sweep is not checked.  For a
    single rift period (with a rift that begins before it ends, a crust of
    17.4 km or more and sediments not exactly as dense as the asthenosphere,
    so that [run] reaches the sweep): a [BETMIN <= 0] makes [run] raise
    [ValueError] in each of the regimes 1 to 4 ([math.log]); and in the
    sinusoidal regime 4 a sweep that starts at [BETMIN = 1] (no stretching),
    or an amplitude fraction [FRAC = 0], makes [run] raise
    [ZeroDivisionError]: the amplitude [AMPL] is 0 and the first pass of the
    fixed-point loop divides by it. *)
Theorem sweep_start_unchecked (p : params) (fuel : nat) :
  IRIFT p = 1%Z -> TBEG1 p > TEND1 p -> 17400 <= TC p ->
  RHOS p <> RHOA_value ->
  ((1 <= ITYPE1 p <= 4)%Z -> BETMIN p <= 0 ->
   run (S fuel) p globals0 = Raise ValueError) /\
  (ITYPE1 p = 4%Z -> 0 < BETMIN p -> BETMIN p = 1 \/ FRAC p = 0 ->
   run (S fuel) p globals0 = Raise ZeroDivisionError).
Proof.
  intros HR HT HTC HS. split.
  - intros HI HB. apply run_reaches_sweep; try assumption.
    intros d f _. unfold set_dless_constants, py_log.
    rewrite (decide_True (P := BETMIN p <= 0)) by exact HB.
    repeat case_decide; try reflexivity. lia.
  - intros HI HB Hzero. apply run_reaches_sweep; try assumption.
    intros d f Hend. unfold set_dless_constants, py_log.
    rewrite (decide_False (P := (ITYPE1 p = 1)%Z)) by lia.
    rewrite (decide_False (P := (ITYPE1 p = 2)%Z)) by lia.
    rewrite (decide_False (P := (ITYPE1 p = 3)%Z)) by lia.
    rewrite (decide_True (P := (ITYPE1 p = 4)%Z)) by exact HI.
    rewrite (decide_False (P := BETMIN p <= 0)) by lra.
    cbn [mbind result_bind].
    assert (Hne : DTEND1 d <> 0) by lra.
    rewrite (py_div_nonzero _ _ Hne).
    cbn [mbind result_bind]. cbv zeta.
    assert (HA : FRAC p * ln (BETMIN p) / DTEND1 d = 0).
    { destruct Hzero as [E|E].
      - rewrite E, ln_1. unfold Rdiv. lra.
      - rewrite E. unfold Rdiv. lra. }
    rewrite HA. cbn [sinusoid_loop].
    assert (E : py_div (ln (BETMIN p) / DTEND1 d) (PI * 0)
                = Raise ZeroDivisionError).
    { unfold py_div. rewrite decide_True by lra. reflexivity. }
    rewrite E. reflexivity.
Qed.

Lemma sweep_start_unchecked_witness :
  run 1 sinusoid_from_one globals0 = Raise ZeroDivisionError.
Proof.
  pose proof RHOA_value_bounds as Ha.
  apply (proj2 (sweep_start_unchecked sinusoid_from_one 0 eq_refl
                  ltac:(simpl; lra) ltac:(simpl; lra) ltac:(simpl; lra))
           eq_refl ltac:(simpl; lra) (or_introl eq_refl)).
Defined.

(** ** The initial conductive profile *)

Lemma init_TEM_holds (A A' : array) (r : nat) :
  init_TEM 1 2 A (seq 1 JNP1) = Ok A' -> (r < 2)%nat ->
  holds A' r ((fun j => 1 - DZ * INR j) <$> seq 0 JNP1).
Proof.
  intros HA Hr j x Hj.
  rewrite list_lookup_fmap in Hj.
  destruct (seq 0 JNP1 !! j) as [j'|] eqn:E; [|discriminate].
  apply lookup_seq in E as [-> Hlt]. simpl in Hj. injection Hj as <-.
  assert (Hnd : NoDup (seq 1 JNP1)) by apply NoDup_seq.
  assert (Hpos : Forall (fun J => 1 <= J)%nat (seq 1 JNP1)).
  { apply Forall_forall. intros J HJ. apply elem_of_seq in HJ. lia. }
  destruct (init_TEM_cells 1 2 _ _ _ HA Hnd Hpos (S j)
              ltac:(apply elem_of_seq; lia)) as [Ha Hb].
  simpl in Ha, Hb. rewrite Nat.sub_0_r in *.
  assert (Er : r = 0%nat \/ r = 1%nat) by lia.
  destruct Er as [-> | ->]; apply fget_Ok; assumption.
Qed.

Lemma initial_profile_integral :
  trapezoidal_rule DZ ((fun j => 1 - DZ * INR j) <$> seq 0 JNP1) = 0.5.
Proof.
  unfold JNP1, JN, DZ. cbn [seq fmap list_fmap Nat.add trapezoidal_rule].
  rewrite !S_INR. change (INR 0) with 0. lra.
Qed.

Lemma initial_profile_TRAP (A A' : array) (JGI : nat) :
  init_TEM 1 2 A (seq 1 JNP1) = Ok A' -> (1 <= JGI <= 2)%nat ->
  TRAP_of A' JGI DZ JNP1 = Ok 0.5.
Proof.
  intros HA HJ.
  pose proof (TRAP_of_rule A' JGI DZ _
                (init_TEM_holds A A' (JGI - 1) HA ltac:(lia))) as H.
  rewrite length_fmap, length_seq in H. rewrite H.
  rewrite initial_profile_integral. reflexivity.
Qed.

Lemma BETAT_at_zero (AMPL WAVEN : R) (ITYPE : Z) (G DTEND DTAUS DTBEGX : R)
  (JSUBS : Z) (BETAT : R) :
  (1 <= ITYPE <= 3)%Z ->
  BETAT_of AMPL WAVEN ITYPE G DTEND DTAUS JSUBS (WWW_of 0 0 DTBEGX)
  = Ok (Some BETAT) ->
  BETAT = 1.
Proof.
  intros HI H. unfold BETAT_of, WWW_of in H.
  rewrite (decide_True (P := (0 = 0)%nat)) in H by reflexivity.
  destruct (decide (ITYPE = 1)%Z).
  { injection H as <-. rewrite Rmult_0_r. apply exp_0. }
  destruct (decide (ITYPE = 2)%Z).
  { bind_split H as q Hq. apply py_div_Ok in Hq as [Hne ->].
    injection H as <-.
    replace (- 0 / DTAUS) with 0 by (unfold Rdiv; lra).
    rewrite exp_0. replace (G * (1 - 1)) with 0 by lra. apply exp_0. }
  destruct (decide (ITYPE = 3)%Z); [|lia].
  bind_split H as q Hq. apply py_div_Ok in Hq as [Hne ->].
  injection H as <-.
  replace (0 / DTAUS) with 0 by (unfold Rdiv; lra).
  rewrite exp_0. replace (G * (1 - 1)) with 0 by lra. apply exp_0.
Qed.

(** X20.  The first row of a solver run is written by hand, with the
    subsidence 0.0 and the heat flux 1.0; over the reals these are the
    values the general formulas give on the initial conductive profile.  On
    the profile that [TIMSTR] initialises, read as real numbers (the sums of
    the program carry rounding errors), the trapezoidal integral [TRAP] is
    0.5 for either buffer, the surface gradient [TEM[JGI-1][JN-1]/DZ] is 1,
    and a call of [SUBCAL] at the time 0 of a first rift period in the
    regimes 1 to 3 that returns stores the subsidence 0. *)
Theorem initial_profile_consistent (A0 A : array) :
  init_TEM 1 2 A0 (seq 1 JNP1) = Ok A ->
  (forall JGI, (1 <= JGI <= 2)%nat ->
     TRAP_of A JGI DZ JNP1 = Ok 0.5 /\
     exists x, fget A (JGI - 1) (JN - 1) = Ok x /\ x / DZ = 1) /\
  forall (AMPL WAVEN CONBET CONTRM CONB1 CONB2 DTEND G DTAUS DTBEGX BETA1 : R)
         (k JGI : nat) (ITYPE IRIFT : Z) (st st' : store),
    TEM st = A -> (1 <= JGI <= 2)%nat -> (1 <= ITYPE <= 3)%Z ->
    SUBCAL AMPL WAVEN 0 1 CONBET CONTRM CONB1 CONB2 JNP1 DTEND G k JGI DZ
      DTAUS ITYPE 0 IRIFT DTBEGX BETA1 JSUBS st = Ok st' ->
    fget (DATA st') 1 (k - 1) = Ok 0.
Proof.
  intros HA. split.
  - intros JGI HJ. split; [apply (initial_profile_TRAP A0 A JGI HA HJ)|].
    exists (1 - DZ * INR (JN - 1)). split.
    + apply (init_TEM_holds A0 A (JGI - 1) HA ltac:(lia) (JN - 1)%nat).
      reflexivity.
    + unfold JN, DZ.
      assert (E : 1 - 0.05 * INR (20 - 1) = 0.05) by (simpl; lra).
      rewrite E. unfold Rdiv. apply Rinv_r. lra.
  - intros AMPL WAVEN CONBET CONTRM CONB1 CONB2 DTEND G DTAUS DTBEGX BETA1
      k JGI ITYPE IRIFT st st' HT HJ HI H.
    apply SUBCAL_Ok in H as (_ & _ & _ & TRAP & HTRAP & Hadv & _).
    rewrite HT, (initial_profile_TRAP A0 A JGI HA HJ) in HTRAP.
    injection HTRAP as <-.
    destruct (Hadv eq_refl) as (BETAT & HB & Hget & _).
    apply BETAT_at_zero in HB; [|exact HI]. subst BETAT.
    cbv zeta in Hget. rewrite Hget. f_equal.
    unfold stretching_subsidence.
    rewrite decide_True by reflexivity.
    replace (1 / 1) with 1 by (unfold Rdiv; rewrite Rinv_1; lra). lra.
Qed.

Lemma initial_profile_consistent_witness :
  exists A,
    init_TEM 1 2 fresh_array (seq 1 JNP1) = Ok A /\
    TRAP_of A 1 DZ JNP1 = Ok 0.5.
Proof.
  assert (HJs : Forall (fun J => 1 <= J <= NDIM2)%nat (seq 1 JNP1)).
  { apply Forall_forall. intros J HJ. apply elem_of_seq in HJ.
    unfold JNP1, JN, NDIM2 in *. lia. }
  destruct (init_TEM_Ok 0 1 (or_introl eq_refl) _ HJs fresh_array
              fresh_array_cells) as (A & HA & _).
  exists A. split; [exact HA|].
  apply (proj1 (initial_profile_consistent fresh_array A HA)
           1%nat ltac:(lia)).
Defined.

(** ** A strain-rate regime outside 1 to 4 *)

Section Unknown_regime.

Variables (AMPL WAVEN : R).
Variables (G DTEND DTSTOP DTAUS CONBET CONTRM DTBEGX DTBEGY DTST : R).
Variables (ITYPE IHFLW : Z) (KRR : nat) (IRIFT : Z).
Variables (BETA1 CONB1 CONB2 : R).

Hypothesis HITYPE : (ITYPE < 1 \/ ITYPE > 4)%Z.

Local Abbreviation record_row' :=
  (record_row AMPL WAVEN G DTEND DTAUS CONBET CONTRM DTBEGX ITYPE IHFLW KRR
     IRIFT BETA1 CONB1 CONB2).
Local Abbreviation loop_body' :=
  (loop_body AMPL WAVEN G DTEND DTSTOP DTAUS CONBET CONTRM DTBEGX DTBEGY DTST
     ITYPE IHFLW KRR IRIFT BETA1 CONB1 CONB2).
Local Abbreviation TIMSTR_loop' :=
  (TIMSTR_loop AMPL WAVEN G DTEND DTSTOP DTAUS CONBET CONTRM DTBEGX DTBEGY DTST
     ITYPE IHFLW KRR IRIFT BETA1 CONB1 CONB2).
Local Abbreviation TIMSTR' :=
  (TIMSTR AMPL WAVEN G DTEND DTSTOP DTAUS CONBET CONTRM DTBEGX DTBEGY DTST
     ITYPE IHFLW KRR IRIFT BETA1 CONB1 CONB2).

(** While advection is on, no row can be recorded: [BETAT] is never
    assigned. *)
Lemma record_row_unknown (l : locals) (st st' : store) :
  IADV l = 1%Z -> record_row' l st <> Ok st'.
Proof.
  intros HI H. unfold record_row in H.
  bind_split H as D0 HD0. bind_split H as st1 Hsub.
  unfold SUBCAL in Hsub.
  rewrite (decide_True (P := (IADV l = 1)%Z)) in Hsub by exact HI.
  bind_split Hsub as B HB. unfold BETAT_of in HB.
  rewrite (decide_False (P := (ITYPE = 1)%Z)) in HB by lia.
  rewrite (decide_False (P := (ITYPE = 2)%Z)) in HB by lia.
  rewrite (decide_False (P := (ITYPE = 3)%Z)) in HB by lia.
  rewrite (decide_False (P := (ITYPE = 4)%Z)) in HB by lia.
  injection HB as <-.
  bind_split Hsub as TRAP HTRAP. bind_split Hsub as SUBS HSUBS.
  discriminate HSUBS.
Qed.

Local Abbreviation stretching' := (stretching DTEND).

Lemma loop_body_unknown (DTI : R) (l : locals) (st : store) (c : control) :
  stretching' l -> loop_body' DTI l st = Ok c ->
  exists l' st', c = Continue l' st' /\ stretching' l'.
Proof.
  intros [HI HJ] H. unfold loop_body in H.
  bind_split H as ls Hadv. destruct ls as [l1 st1].
  bind_split H as t0 Ht0. bind_split H as st2 Hrec.
  apply advance_locals in Hadv as (HT1 & HDT1 & HJ1 & HI1).
  rewrite HI in HI1.
  destruct (decide (T l1 >= t0 + DTST \/
                    T l1 = DTHALT DTSTOP DTBEGX DTBEGY KRR IRIFT \/
                    T l1 = DTEND)) as [Hc|Hc].
  { exfalso. exact (record_row_unknown l1 st1 st2 HI1 Hrec). }
  injection Hrec as <-.
  destruct HJ as [HJ|[HJ HE]].
  2:{ exfalso. apply Hc. right. right. rewrite HT1. exact HE. }
  rewrite HJ in HJ1. unfold next_step in H.
  destruct (decide (T l1 + DT l1 <= DTEND)) as [Ha|Ha].
  { injection H as <-. exists l1, st1. split; [reflexivity|].
    split; [exact HI1 | left; exact HJ1]. }
  rewrite decide_True in H by (split; [lra | exact HJ1]).
  injection H as <-. eexists _, st1. split; [reflexivity|].
  split; [exact HI1|]. right. simpl. split; [reflexivity | lra].
Qed.

Lemma TIMSTR_loop_unknown (DTI : R) (fuel : nat) :
  forall (l : locals) (st st' : store),
    stretching' l -> TIMSTR_loop' fuel DTI l st <> Ok st'.
Proof.
  induction fuel as [|fuel IH]; intros l st st' Hs H; [discriminate|].
  cbn [TIMSTR_loop] in H. bind_split H as c Hc.
  destruct (loop_body_unknown DTI l st c Hs Hc) as (l' & st1 & -> & Hs').
  apply (IH l' st1 st' Hs' H).
Qed.

Lemma TIMSTR_unknown (fuel : nat) (st st' : store) :
  TIMSTR' fuel st <> Ok st'.
Proof.
  intros H. unfold TIMSTR in H.
  bind_split H as DTI HDTI. cbv zeta in H.
  bind_split H as st1 H1. bind_split H as st2 H2.
  eapply TIMSTR_loop_unknown; [|exact H].
  split; [reflexivity | left; reflexivity].
Qed.

End Unknown_regime.

(** X21.  A strain-rate regime of the first rift period outside 1 to 4 is
    not rejected (the dialogue accepts any integer for it), and a run with
    it never returns a table: [SUBCAL] leaves [BETAT] unassigned, so no row
    can be recorded while advection is on, and the loop of [TIMSTR] cannot
    get past the end of the stretching, where a row is always recorded.  The
    same holds for any solver run, whatever the rift period. *)
Theorem unknown_regime_never_returns (p : params) :
  (ITYPE1 p < 1 \/ ITYPE1 p > 4)%Z ->
  (forall fuel g r, run fuel p g <> Ok r) /\
  (forall AMPL WAVEN G DTEND DTSTOP DTAUS CONBET CONTRM DTBEGX DTBEGY DTST
          IHFLW KRR IRIFT BETA1 CONB1 CONB2 fuel st st',
     TIMSTR AMPL WAVEN G DTEND DTSTOP DTAUS CONBET CONTRM DTBEGX DTBEGY DTST
       (ITYPE1 p) IHFLW KRR IRIFT BETA1 CONB1 CONB2 fuel st <> Ok st').
Proof.
  intros HI. split.
  - intros fuel g r H. unfold run in H.
    bind_split H as u Hu. bind_split H as g1 Hsolve.
    unfold solve in Hsolve. cbv zeta in Hsolve.
    bind_split Hsolve as TL HTL. bind_split Hsolve as d Hd.
    bind_split Hsolve as c Hc. bind_split Hsolve as fs Hsw.
    destruct fuel as [|fuel]; [discriminate|].
    rewrite sweep_unfold in Hsw. bind_split Hsw as fs1 Hb.
    unfold sweep_body in Hb. cbv zeta in Hb.
    bind_split Hb as f1 Hf1. bind_split Hb as st1 H1.
    exact (TIMSTR_unknown _ _ _ _ _ _ _ _ _ _ _ _ _ _ _ _ _ _ HI _ _ _ H1).
  - intros. apply TIMSTR_unknown, HI.
Qed.

Lemma unknown_regime_never_returns_witness :
  run 300 (with_ITYPE1 5 INITVR) globals0 = OutOfFuel \/
  exists e, run 300 (with_ITYPE1 5 INITVR) globals0 = Raise e.
Proof.
  destruct (unknown_regime_never_returns (with_ITYPE1 5 INITVR)
              ltac:(right; simpl; lia)) as [H _].
  destruct (run 300 (with_ITYPE1 5 INITVR) globals0) as [r|e|] eqn:E.
  - exfalso. apply (H 300%nat globals0 r E).
  - right. exists e. reflexivity.
  - left. reflexivity.
Defined.

(** ** A later rift period in regime 2 *)

Lemma init_TEM_rows (Js : list nat) :
  forall (A A' : array),
    init_TEM 1 2 A Js = Ok A' ->
    forall r j, (2 <= r)%nat -> aget A' r j = aget A r j.
Proof.
  induction Js as [|J Js IH]; intros A A' H r j Hr; simpl in H.
  - injection H as <-. reflexivity.
  - bind_inv H as A1 H1. bind_inv H as A2 H2.
    rewrite (IH _ _ H r j Hr).
    rewrite (aget_aset_ne _ _ _ _ _ _ _ H2) by (left; lia).
    apply (aget_aset_ne _ _ _ _ _ _ _ H1). left. lia.
Qed.

Section Scratch_rows.

Variables (AMPL WAVEN : R).
Variables (G DTEND DTSTOP DTAUS CONBET CONTRM DTBEGX DTBEGY DTST : R).
Variables (ITYPE IHFLW : Z) (KRR : nat) (IRIFT : Z).
Variables (BETA1 CONB1 CONB2 : R).

Local Abbreviation node_update' :=
  (node_update AMPL WAVEN G DTEND DTAUS DTBEGX ITYPE KRR).
Local Abbreviation for_nodes' :=
  (for_nodes AMPL WAVEN G DTEND DTAUS DTBEGX ITYPE KRR).
Local Abbreviation advance' :=
  (advance AMPL WAVEN G DTEND DTAUS DTBEGX ITYPE KRR).
Local Abbreviation loop_body' :=
  (loop_body AMPL WAVEN G DTEND DTSTOP DTAUS CONBET CONTRM DTBEGX DTBEGY DTST
     ITYPE IHFLW KRR IRIFT BETA1 CONB1 CONB2).
Local Abbreviation TIMSTR_loop' :=
  (TIMSTR_loop AMPL WAVEN G DTEND DTSTOP DTAUS CONBET CONTRM DTBEGX DTBEGY DTST
     ITYPE IHFLW KRR IRIFT BETA1 CONB1 CONB2).
Local Abbreviation TIMSTR' :=
  (TIMSTR AMPL WAVEN G DTEND DTSTOP DTAUS CONBET CONTRM DTBEGX DTBEGY DTST
     ITYPE IHFLW KRR IRIFT BETA1 CONB1 CONB2).

(** The time step writes the two buffers only: the rows of [TEM] past them
    stay as they are. *)
Lemma for_nodes_rows (l : locals) (Js : list nat) :
  ping_pong l ->
  forall A A', for_nodes' l A Js = Ok A' ->
    forall r j, (2 <= r)%nat -> aget A' r j = aget A r j.
Proof.
  intros Hpp. induction Js as [|J Js IH]; intros A A' H r j Hr;
    cbn [for_nodes] in H.
  - injection H as <-. reflexivity.
  - bind_split H as A1 H1. rewrite (IH _ _ H r j Hr).
    unfold node_update in H1.
    bind_split H1 as a Ha. bind_split H1 as b Hb. bind_split H1 as c Hc.
    bind_split H1 as ADV HADV.
    apply (aget_aset_ne _ _ _ _ _ _ _ H1). left.
    destruct Hpp as [[_ E]|[_ E]]; rewrite E; lia.
Qed.

Lemma advance_rows (DTI : R) (l l' : locals) (st st' : store) :
  ping_pong l -> advance' DTI l st = Ok (l', st') ->
  ping_pong l' /\ JGI l' = JGF l /\
  JFLAG l' = JFLAG l /\ IADV l' = IADV l /\
  forall r j, (2 <= r)%nat -> aget (TEM st') r j = aget (TEM st) r j.
Proof.
  intros Hpp H. unfold advance in H. bind_split H as A HA.
  pose proof (for_nodes_rows l _ Hpp _ _ HA) as Hrows.
  destruct Hpp as [[E1 E2]|[E1 E2]]; rewrite E1 in H; simpl in H;
    injection H as <- <-; simpl; rewrite E2;
    (split; [|split; [reflexivity|split; [reflexivity|
                                          split; [reflexivity|exact Hrows]]]]);
    [right | left]; split; reflexivity.
Qed.

Lemma next_step_buffers (l l' : locals) (st st' : store) :
  next_step DTEND DTSTOP DTBEGX DTBEGY KRR IRIFT l st = Ok (Continue l' st') ->
  JGI l' = JGI l /\ JGF l' = JGF l /\
  (JFLAG l = 0%Z -> IADV l' = IADV l).
Proof.
  unfold next_step. intros H.
  repeat case_decide; simpl in H; try discriminate;
    try (injection H as <- _; simpl; repeat split; try reflexivity;
         intros; lia).
  all: try (bind_split H as x Hx; discriminate).
Qed.

Lemma loop_body_buffers (DTI : R) (l : locals) (st : store) (c : control) :
  ping_pong l -> loop_body' DTI l st = Ok c ->
  (forall r j, (2 <= r)%nat ->
               aget (TEM (store_of c)) r j = aget (TEM st) r j) /\
  forall l' st', c = Continue l' st' ->
    ping_pong l' /\ JGI l' = JGF l /\ (JFLAG l = 0%Z -> IADV l' = IADV l).
Proof.
  intros Hpp H. unfold loop_body in H.
  bind_split H as ls Hadv. destruct ls as [l1 st1].
  bind_split H as t0 Ht0. bind_split H as st2 Hrec.
  destruct (advance_rows DTI l l1 st st1 Hpp Hadv)
    as (Hpp1 & HJ1 & HF1 & HI1 & Hrows).
  assert (ET : TEM st2 = TEM st1).
  { case_decide.
    - apply record_row_frame in Hrec as (_ & E & _). exact E.
    - injection Hrec as <-. reflexivity. }
  pose proof (next_step_store _ _ _ _ _ _ _ _ _ H) as Hst.
  split.
  - intros r j Hr. rewrite Hst, ET. apply Hrows, Hr.
  - intros l' st' ->.
    apply next_step_buffers in H as (E1 & E2 & E3).
    split; [|split].
    + unfold ping_pong. rewrite E1, E2. exact Hpp1.
    + rewrite E1. exact HJ1.
    + intros HJ. rewrite E3 by (rewrite HF1; exact HJ). exact HI1.
Qed.

(** The first pass of a solver run is never the last one. *)
Lemma loop_body_first (DTI : R) (l : locals) (st : store) (c : control) :
  JFLAG l = 0%Z -> loop_body' DTI l st = Ok c ->
  exists l' st', c = Continue l' st'.
Proof.
  intros HJ H. unfold loop_body in H.
  bind_split H as ls Hadv. destruct ls as [l1 st1].
  bind_split H as t0 Ht0. bind_split H as st2 Hrec.
  apply advance_locals in Hadv as (_ & _ & HJ1 & _). rewrite HJ in HJ1.
  clear Hrec Ht0. unfold next_step in H.
  destruct (decide (T l1 + DT l1 <= DTEND)) as [Ha|Ha].
  - injection H as <-. eauto.
  - destruct (decide (T l1 + DT l1 > DTEND /\ JFLAG l1 = 0%Z)) as [Hb|Hb].
    + injection H as <-. eauto.
    + exfalso. apply Hb. split; [lra | exact HJ1].
Qed.

Lemma TIMSTR_loop_buffers (DTI : R) (fuel : nat) :
  forall (l : locals) (st st' : store),
    ping_pong l -> TIMSTR_loop' fuel DTI l st = Ok st' ->
    forall r j, (2 <= r)%nat -> aget (TEM st') r j = aget (TEM st) r j.
Proof.
  induction fuel as [|fuel IH]; intros l st st' Hpp H r j Hr;
    [discriminate|].
  cbn [TIMSTR_loop] in H. bind_split H as c Hc.
  destruct (loop_body_buffers DTI l st c Hpp Hc) as [Hrows Hnext].
  destruct c as [l1 st1|st1]; simpl in Hrows.
  - destruct (Hnext l1 st1 eq_refl) as (Hpp1 & _).
    rewrite (IH _ _ _ Hpp1 H r j Hr). apply Hrows, Hr.
  - injection H as <-. apply Hrows, Hr.
Qed.

Lemma TIMSTR_buffers (fuel : nat) (st st' : store) :
  TIMSTR' fuel st = Ok st' ->
  forall r j, (2 <= r)%nat -> aget (TEM st') r j = aget (TEM st) r j.
Proof.
  intros H r j Hr. unfold TIMSTR in H.
  bind_split H as DTI HDTI. cbv zeta in H.
  bind_split H as st1 H1. bind_split H as st2 H2.
  pose proof (first_row_frame _ _ _ _ _ _ _ _ _ _ _ H1) as (_ & ET1 & _).
  assert (Hl : forall r j, (2 <= r)%nat ->
                            aget (TEM st') r j = aget (TEM st2) r j).
  { eapply TIMSTR_loop_buffers; [|exact H]. left. split; reflexivity. }
  rewrite (Hl r j Hr), <- ET1.
  destruct (decide (KRR = 0%nat)).
  - bind_split H2 as A HA. injection H2 as <-. simpl.
    apply (init_TEM_rows _ _ _ HA r j Hr).
  - injection H2 as <-. reflexivity.
Qed.

End Scratch_rows.

Section Later_regime2.

Variables (AMPL WAVEN : R).
Variables (G DTEND DTSTOP DTAUS CONBET CONTRM DTBEGX DTBEGY DTST : R).
Variables (IHFLW : Z) (KRR : nat) (IRIFT : Z).
Variables (BETA1 CONB1 CONB2 : R).

Hypothesis HKRR : KRR <> 0%nat.

(** With [JGI = 2] the advective term of a later rift period in regime 2
    reads the row [TEM[2]], which no code writes. *)
Lemma advance_reads_scratch (DTI : R) (l : locals) (st : store)
  (r : locals * store) :
  IADV l = 1%Z -> JGI l = 2%nat -> aget (TEM st) 2 2 = Ok None ->
  advance AMPL WAVEN G DTEND DTAUS DTBEGX 2 KRR DTI l st <> Ok r.
Proof.
  intros HI HJ Hnone H. unfold advance in H. bind_split H as A HA.
  change (seq 2 (JN - 1)) with (2 :: seq 3 18)%nat in HA.
  cbn [for_nodes] in HA. bind_split HA as A1 H1.
  unfold node_update in H1.
  bind_split H1 as a Ha. bind_split H1 as b Hb. bind_split H1 as c Hc.
  bind_split H1 as ADV HADV. unfold advection in HADV.
  rewrite (decide_False (P := (IADV l = 1 /\ 2 = 1)%Z)) in HADV
    by (intros [_ E]; discriminate).
  rewrite (decide_True (P := (IADV l = 1 /\ 2 = 2)%Z)) in HADV
    by (split; [exact HI | reflexivity]).
  rewrite (decide_False (P := KRR = 0%nat)) in HADV by exact HKRR.
  bind_split HADV as q Hq. bind_split HADV as r' Hr'.
  bind_split HADV as a' Ha'.
  rewrite HJ in Ha'. unfold fget in Ha'. rewrite Hnone in Ha'.
  discriminate Ha'.
Qed.

Lemma TIMSTR_later_regime2 (fuel : nat) (st st' : store) :
  aget (TEM st) 2 2 = Ok None ->
  TIMSTR AMPL WAVEN G DTEND DTSTOP DTAUS CONBET CONTRM DTBEGX DTBEGY DTST 2
    IHFLW KRR IRIFT BETA1 CONB1 CONB2 fuel st <> Ok st'.
Proof.
  intros Hnone H. unfold TIMSTR in H.
  bind_split H as DTI HDTI. cbv zeta in H.
  bind_split H as st1 H1. bind_split H as st2 H2.
  pose proof (first_row_frame _ _ _ _ _ _ _ _ _ _ _ H1) as (_ & ET1 & _).
  rewrite (decide_False (P := KRR = 0%nat)) in H2 by exact HKRR.
  injection H2 as <-.
  destruct fuel as [|fuel]; [discriminate|].
  cbn [TIMSTR_loop] in H. bind_split H as c Hc.
  pose proof Hc as Hc'.
  eapply loop_body_first in Hc' as (l1 & s1 & ->); [|reflexivity].
  eapply loop_body_buffers in Hc as [Hrows Hnext];
    [|left; split; reflexivity].
  destruct (Hnext l1 s1 eq_refl) as (Hpp1 & HJ1 & HI1).
  simpl in Hrows, HJ1, HI1. specialize (HI1 eq_refl).
  destruct fuel as [|fuel]; [discriminate|].
  cbn [TIMSTR_loop] in H. bind_split H as c2 Hc2.
  unfold loop_body in Hc2. bind_split Hc2 as ls Hadv.
  apply (advance_reads_scratch _ _ _ _ HI1 HJ1) in Hadv; [exact Hadv|].
  rewrite Hrows by lia. rewrite ET1. exact Hnone.
Qed.

End Later_regime2.

Lemma fresh_array_scratch : aget fresh_array 2 2 = Ok None.
Proof. reflexivity. Qed.

(** X22.  A second or third rift period in regime 2 never completes.  The
    advective term of a later rift period in regime 2 reads [TEM[JGI]]
    where every other term reads [TEM[JGI-1]]; in the second pass of the
    loop [JGI] is 2, and [TEM[2]] is a row of [None] that no code writes.
    So no solver run of a later rift period in regime 2 returns when
    [TEM[2][2]] is [None], and [run] never returns a table for a
    configuration with [IRIFT >= 2] and [ITYPE2 = 2], or [IRIFT >= 3] and
    [ITYPE3 = 2]. *)
Theorem later_regime2_never_returns (p : params) :
  ((IRIFT p >= 2)%Z /\ ITYPE2 p = 2%Z) \/
  ((IRIFT p >= 3)%Z /\ ITYPE3 p = 2%Z) ->
  (forall fuel g r, run fuel p g <> Ok r) /\
  (forall AMPL WAVEN G DTEND DTSTOP DTAUS CONBET CONTRM DTBEGX DTBEGY DTST
          IHFLW KRR IRIFT BETA1 CONB1 CONB2 fuel st st',
     KRR <> 0%nat -> aget (TEM st) 2 2 = Ok None ->
     TIMSTR AMPL WAVEN G DTEND DTSTOP DTAUS CONBET CONTRM DTBEGX DTBEGY DTST 2
       IHFLW KRR IRIFT BETA1 CONB1 CONB2 fuel st <> Ok st').
Proof.
  intros Hp. split.
  - intros fuel g r H. unfold run in H.
    bind_split H as u Hu. bind_split H as g1 Hsolve.
    unfold solve in Hsolve. cbv zeta in Hsolve.
    bind_split Hsolve as TL HTL. bind_split Hsolve as d Hd.
    bind_split Hsolve as c Hc. bind_split Hsolve as fs Hsw.
    destruct fuel as [|fuel]; [discriminate|].
    rewrite sweep_unfold in Hsw. bind_split Hsw as fs1 Hb.
    unfold sweep_body in Hb. cbv zeta in Hb.
    bind_split Hb as f1 Hf1. bind_split Hb as st1 H1.
    bind_split Hb as st2 H2. bind_split Hb as st3 H3.
    pose proof (TIMSTR_buffers _ _ _ _ _ _ _ _ _ _ _ _ _ _ _ _ _ _ _ _ _ H1
                  2%nat 2%nat ltac:(lia)) as E1.
    change (TEM initial_store) with fresh_array in E1.
    rewrite fresh_array_scratch in E1.
    destruct Hp as [[HR HI]|[HR HI]].
    + rewrite (decide_True (P := (IRIFT p >= 2)%Z)) in H2 by exact HR.
      rewrite HI in H2.
      revert H2. apply TIMSTR_later_regime2; [discriminate | exact E1].
    + rewrite (decide_True (P := (IRIFT p >= 2)%Z)) in H2 by lia.
      pose proof (TIMSTR_buffers _ _ _ _ _ _ _ _ _ _ _ _ _ _ _ _ _ _ _ _ _ H2
                    2%nat 2%nat ltac:(lia)) as E2.
      rewrite E1 in E2.
      rewrite (decide_True (P := (IRIFT p >= 3)%Z)) in H3 by exact HR.
      destruct (decide (IRIFT p = 3)%Z); [|discriminate].
      rewrite HI in H3.
      revert H3. apply TIMSTR_later_regime2; [discriminate | exact E2].
  - intros. apply TIMSTR_later_regime2; assumption.
Qed.

Lemma later_regime2_never_returns_witness :
  run 300 second_rift_regime2 globals0 = OutOfFuel \/
  exists e, run 300 second_rift_regime2 globals0 = Raise e.
Proof.
  destruct (later_regime2_never_returns second_rift_regime2
              ltac:(left; simpl; split; [lia | reflexivity])) as [H _].
  destruct (run 300 second_rift_regime2 globals0) as [r|e|] eqn:E.
  - exfalso. apply (H 300%nat globals0 r E).
  - right. exists e. reflexivity.
  - left. reflexivity.
Defined.

(** ** The subsidence of the rows a solver run records *)

Lemma exp_over_exp (x y : R) : x <> y -> 1 / exp x - 1 / exp y <> 0.
Proof.
  intros Hne E. apply Hne, exp_inv.
  pose proof (exp_pos x). pose proof (exp_pos y).
  assert (E' : / exp x = / exp y) by lra.
  apply (f_equal Rinv) in E'. rewrite !Rinv_inv in E'. exact E'.
Qed.

Section Recorded_rows.

Variables (AMPL WAVEN : R).
Variables (G DTEND DTSTOP DTAUS CONBET CONTRM DTBEGX DTBEGY DTST : R).
Variables (ITYPE IHFLW : Z) (KRR : nat) (IRIFT : Z).
Variables (BETA1 CONB1 CONB2 : R).

Local Abbreviation record_row' :=
  (record_row AMPL WAVEN G DTEND DTAUS CONBET CONTRM DTBEGX ITYPE IHFLW KRR
     IRIFT BETA1 CONB1 CONB2).
Local Abbreviation advance' := (advance AMPL WAVEN G DTEND DTAUS DTBEGX ITYPE KRR).
Local Abbreviation DTHALT' := (DTHALT DTSTOP DTBEGX DTBEGY KRR IRIFT).
Local Abbreviation next_step' :=
  (next_step DTEND DTSTOP DTBEGX DTBEGY KRR IRIFT).
Local Abbreviation loop_body' :=
  (loop_body AMPL WAVEN G DTEND DTSTOP DTAUS CONBET CONTRM DTBEGX DTBEGY DTST
     ITYPE IHFLW KRR IRIFT BETA1 CONB1 CONB2).
Local Abbreviation TIMSTR_loop' :=
  (TIMSTR_loop AMPL WAVEN G DTEND DTSTOP DTAUS CONBET CONTRM DTBEGX DTBEGY DTST
     ITYPE IHFLW KRR IRIFT BETA1 CONB1 CONB2).
Local Abbreviation TIMSTR' :=
  (TIMSTR AMPL WAVEN G DTEND DTSTOP DTAUS CONBET CONTRM DTBEGX DTBEGY DTST
     ITYPE IHFLW KRR IRIFT BETA1 CONB1 CONB2).
Local Abbreviation BETAT' t :=
  (BETAT_of AMPL WAVEN ITYPE G DTEND DTAUS JSUBS (WWW_of KRR t DTBEGX)).
Local Abbreviation stretched B TRAP :=
  (stretching_subsidence CONBET CONTRM KRR B BETA1 TRAP * 1e-3).

(** The row a pass records: its time, and the subsidence [SUBCAL] computes
    with the flag [IADV] of the pass. *)
Lemma record_row_subsidence (l : locals) (st st' : store) :
  record_row' l st = Ok st' ->
  K st' = (K st + 1)%nat /\ TEM st' = TEM st /\
  fget (DATA st') 0 (K st) = Ok (T l) /\
  (forall r i, i <> K st -> aget (DATA st') r i = aget (DATA st) r i) /\
  exists TRAP,
    TRAP_of (TEM st) (JGI l) DZ JNP1 = Ok TRAP /\
    ((IADV l = 1)%Z ->
     exists B,
       BETAT' (T l) = Ok (Some B) /\
       fget (DATA st') 1 (K st) = Ok (stretched B TRAP) /\
       (T l = DTEND -> TRINIT st' = TRAP /\ SINIT st' = stretched B TRAP) /\
       (T l <> DTEND -> TRINIT st' = TRINIT st /\ SINIT st' = SINIT st)) /\
    ((IADV l <> 1)%Z ->
     fget (DATA st') 1 (K st)
       = Ok (CONTRM * (TRINIT st - TRAP) * 1e-3 + SINIT st) /\
     TRINIT st' = TRINIT st /\ SINIT st' = SINIT st).
Proof.
  intros H. pose proof (record_row_time _ _ _ _ _ _ _ _ _ _ _ _ _ _ _ _ _ _ H)
    as Htime.
  pose proof (record_row_frame _ _ _ _ _ _ _ _ _ _ _ _ _ _ _ _ _ _ H)
    as (HK & HT & HF).
  split; [exact HK|]. split; [exact HT|]. split; [exact Htime|].
  split; [exact HF|].
  unfold record_row in H.
  bind_inv H as D0 HD0. bind_inv H as st1 Hsub.
  apply SUBCAL_Ok in Hsub as (HK1 & HT1 & HF1 & TRAP & HTRAP & H1 & H0).
  simpl in HK1, HT1, HF1, HD0, HTRAP, H1, H0.
  replace (K st + 1 - 1)%nat with (K st) in * by lia.
  assert (Hkeep : TRINIT st' = TRINIT st1 /\ SINIT st' = SINIT st1 /\
                  aget (DATA st') 1 (K st) = aget (DATA st1) 1 (K st)).
  { destruct (decide (IHFLW = 1)%Z); [|injection H as <-; auto].
    bind_inv H as x Hx. bind_inv H as D2 HD2. rewrite HK1 in *.
    assert (H2 : aget D2 1 (K st) = aget (DATA st1) 1 (K st))
      by (apply (aget_aset_ne _ _ _ _ _ _ _ HD2); left; lia).
    destruct (decide (IADV l = 0)%Z).
    { bind_inv H as D3 HD3. injection H as <-. simpl.
      rewrite (aget_aset_ne _ _ _ _ _ _ _ HD3) by (left; lia). auto. }
    destruct (decide (IADV l = 1)%Z); [|injection H as <-; auto].
    bind_inv H as sr Hsr. destruct sr as [sr|]; [|injection H as <-; auto].
    bind_inv H as D3 HD3. injection H as <-. simpl.
    rewrite (aget_aset_ne _ _ _ _ _ _ _ HD3) by (left; lia). auto. }
  destruct Hkeep as (ETR & ESI & Ecell).
  exists TRAP. split; [exact HTRAP|]. split.
  - intros HI. destruct (H1 HI) as (B & HB & Hget & Hend & Hnot).
    exists B. split; [exact HB|]. unfold fget. rewrite Ecell.
    split; [exact Hget|]. rewrite ETR, ESI. split; assumption.
  - intros HI. destruct (H0 HI) as (Hget & E1 & E2).
    unfold fget. rewrite Ecell, ETR, ESI. auto.
Qed.

(** The row a pass of the loop adds, if it adds one. *)
Lemma loop_body_subsidence (DTI0 : R) (l : locals) (st : store) (c : control) :
  loop_body' DTI0 l st = Ok c -> K (store_of c) <> K st ->
  K (store_of c) = (K st + 1)%nat /\
  fget (DATA (store_of c)) 0 (K st) = Ok (T l + DT l) /\
  exists b TRAP,
    TRAP_of (TEM (store_of c)) b DZ JNP1 = Ok TRAP /\
    ((IADV l = 1)%Z ->
     exists B,
       BETAT' (T l + DT l) = Ok (Some B) /\
       fget (DATA (store_of c)) 1 (K st) = Ok (stretched B TRAP)) /\
    ((IADV l <> 1)%Z ->
     fget (DATA (store_of c)) 1 (K st)
       = Ok (relaxation_subsidence CONTRM (TRINIT st) TRAP (SINIT st))).
Proof.
  unfold loop_body. intros H HK.
  bind_split H as ls Hadv. destruct ls as [l1 st1].
  bind_split H as t0 Ht0. bind_split H as st2 Hrec.
  pose proof (advance_locals _ _ _ _ _ _ _ _ _ _ _ _ _ Hadv)
    as (HT1 & _ & _ & HI1).
  pose proof (advance_frame _ _ _ _ _ _ _ _ _ _ _ _ _ Hadv)
    as (HK1 & _ & HTR1 & HSI1 & _).
  apply next_step_store in H. rewrite H in *. clear H.
  destruct (decide (T l1 >= t0 + DTST \/ T l1 = DTHALT' \/ T l1 = DTEND));
    [|injection Hrec as <-; contradiction].
  apply record_row_subsidence in Hrec
    as (HK2 & HT2 & Htime & _ & TRAP & HTRAP & Hon & Hoff).
  rewrite HK1, HT1, HI1, HTR1, HSI1 in *.
  split; [exact HK2|]. split; [exact Htime|].
  exists (JGI l1), TRAP. split; [rewrite HT2; exact HTRAP|]. split.
  - intros HI. destruct (Hon HI) as (B & HB & Hget & _). eauto.
  - intros HI. destruct (Hoff HI) as (Hget & _). exact Hget.
Qed.

(** ** A halt time within one step of the end of the stretching *)

Variable DTI : R.
Hypothesis Hlate : DTEND < DTHALT' <= DTEND + DTI.

Local Abbreviation late_halt_rows' :=
  (late_halt_rows AMPL WAVEN G DTEND DTAUS CONBET CONTRM DTBEGX ITYPE KRR BETA1
     DTHALT').

(** With the halt time within one step of the end of the stretching, the
    flag [IADV] is never cleared: the pass that follows the row of the end of
    the stretching is the last one. *)
Lemma TIMSTR_loop_late_halt (fuel : nat) :
  forall (l : locals) (st st' : store),
    IADV l = 1%Z -> ping_pong l ->
    (JFLAG l = 0%Z \/
     (JFLAG l = 1%Z /\ T l + DT l = DTEND) \/
     (JFLAG l = 2%Z /\ T l = DTEND /\ DT l = DTHALT' - DTEND /\
      (1 <= K st)%nat /\
      fget (DATA st) 0 (K st - 1) = Ok DTEND /\
      fget (DATA st) 1 (K st - 1) = Ok (SINIT st) /\
      exists B_end, BETAT' DTEND = Ok (Some B_end) /\
                    SINIT st = stretched B_end (TRINIT st))) ->
    TIMSTR_loop' fuel DTI l st = Ok st' -> late_halt_rows' st'.
Proof.
  induction fuel as [|fuel IH]; intros l st st' HI Hpp Hph H;
    [discriminate|].
  cbn [TIMSTR_loop] in H. bind_split H as c Hc.
  unfold loop_body in Hc. bind_split Hc as ls Hadv. destruct ls as [l1 st1].
  bind_split Hc as t0 Ht0. bind_split Hc as st2 Hrec.
  pose proof (advance_locals _ _ _ _ _ _ _ _ _ _ _ _ _ Hadv)
    as (HT1 & HDT1 & HJ1 & HI1).
  pose proof (advance_frame _ _ _ _ _ _ _ _ _ _ _ _ _ Hadv)
    as (HK1 & HD1 & HTR1 & HSI1 & _).
  destruct (advance_rows _ _ _ _ _ _ _ _ _ _ _ _ _ Hpp Hadv)
    as (Hpp1 & _).
  rewrite HI in HI1.
  destruct Hph as [HJ|[[HJ HT]|(HJ & HT & HDT & HK & Htime & Hsub & B_end
                                 & HB_end & HS)]].
  - (* the stretching goes on *)
    rewrite HJ in HJ1. unfold next_step in Hc.
    destruct (decide (T l1 + DT l1 <= DTEND)) as [Ha|Ha].
    { injection Hc as <-. apply (IH l1 st2 st' HI1 Hpp1); [|exact H].
      left. exact HJ1. }
    destruct (decide (T l1 + DT l1 > DTEND /\ JFLAG l1 = 0%Z)) as [Hb|Hb].
    2:{ exfalso. apply Hb. split; [lra | exact HJ1]. }
    injection Hc as <-.
    apply (IH (set_DT (DTEND - T l1) (set_JFLAG 1 l1)) st2 st' HI1 Hpp1);
      [|exact H].
    right. left. simpl. split; [reflexivity | lra].
  - (* the step that ends the stretching *)
    rewrite HJ in HJ1. rewrite HT in HT1.
    rewrite (decide_True (P := T l1 >= t0 + DTST \/ T l1 = DTHALT'
                               \/ T l1 = DTEND)) in Hrec by auto.
    apply record_row_subsidence in Hrec
      as (HK2 & HT2 & Htime2 & HF2 & TRAP & HTRAP & Hadv1 & _).
    destruct (Hadv1 HI1) as (B & HB & Hget & Hend & _).
    destruct (Hend HT1) as [ETR ESI].
    unfold next_step in Hc. rewrite HDT1, HT1 in Hc.
    rewrite (decide_False (P := DTEND + DTI <= DTEND)) in Hc by lra.
    rewrite (decide_False (P := DTEND + DTI > DTEND /\ JFLAG l1 = 0%Z)) in Hc
      by (intros [_ E]; rewrite HJ1 in E; discriminate).
    rewrite (decide_False (P := DTEND + DTI < DTHALT' /\ JFLAG l1 = 1%Z)) in Hc
      by (intros [E _]; lra).
    rewrite (decide_True (P := DTEND + DTI >= DTHALT' /\ JFLAG l1 <> 2%Z))
      in Hc by (split; [lra | rewrite HJ1; discriminate]).
    cbv zeta in Hc. cbn [DT set_DT] in Hc.
    rewrite (decide_True (P := DTHALT' - DTEND <> 0)) in Hc by lra.
    injection Hc as <-.
    apply (IH (set_DT (DTHALT' - DTEND) (set_JFLAG 2 l1)) st2 st' HI1 Hpp1);
      [|exact H].
    right. right. cbn [JFLAG T DT set_DT set_JFLAG].
    split; [reflexivity|]. split; [exact HT1|]. split; [reflexivity|].
    rewrite HK2. replace (K st1 + 1 - 1)%nat with (K st1) by lia.
    split; [lia|]. rewrite <- HT1 at 1. split; [exact Htime2|].
    split; [rewrite ESI; exact Hget|].
    exists B. rewrite HT1 in HB. split; [exact HB|].
    rewrite ESI, ETR. reflexivity.
  - (* the step to the halt time, with the advection still on *)
    rewrite HJ in HJ1.
    assert (HT1' : T l1 = DTHALT') by (rewrite HT1, HT, HDT; lra).
    rewrite (decide_True (P := T l1 >= t0 + DTST \/ T l1 = DTHALT'
                               \/ T l1 = DTEND)) in Hrec by auto.
    apply record_row_subsidence in Hrec
      as (HK2 & HT2 & Htime2 & HF2 & TRAP & HTRAP & Hadv1 & _).
    destruct (Hadv1 HI1) as (B & HB & Hget & _ & Hnot).
    destruct (Hnot ltac:(lra)) as [ETR ESI].
    unfold next_step in Hc. rewrite HDT1, HT1' in Hc.
    rewrite (decide_False (P := DTHALT' + DTI <= DTEND)) in Hc by lra.
    rewrite (decide_False (P := DTHALT' + DTI > DTEND /\ JFLAG l1 = 0%Z)) in Hc
      by (intros [_ E]; rewrite HJ1 in E; discriminate).
    rewrite (decide_False (P := DTHALT' + DTI < DTHALT' /\ JFLAG l1 = 1%Z))
      in Hc by (intros [E _]; lra).
    rewrite (decide_False (P := DTHALT' + DTI >= DTHALT' /\ JFLAG l1 <> 2%Z))
      in Hc by (intros [_ E]; apply E; exact HJ1).
    rewrite (decide_True (P := JFLAG l1 = 2%Z)) in Hc by exact HJ1.
    bind_split Hc as STOT HSTOT. injection Hc as <-. injection H as <-.
    unfold late_halt_rows. rewrite HK2, HK1.
    replace (K st + 1 - 2)%nat with (K st - 1)%nat by lia.
    replace (K st + 1 - 1)%nat with (K st) by lia.
    rewrite HK1 in *. rewrite HD1 in HF2.
    split; [lia|].
    split; [unfold fget; rewrite HF2 by lia; exact Htime|].
    split; [unfold fget; rewrite HF2 by lia; rewrite ESI, HSI1; exact Hsub|].
    split; [rewrite <- HT1'; exact Htime2|].
    exists B_end, B, TRAP, (JGI l1).
    split; [exact HB_end|]. split; [rewrite <- HT1'; exact HB|].
    split; [rewrite ESI, ETR, HSI1, HTR1; exact HS|].
    split; [destruct Hpp1 as [[E _]|[E _]]; auto|].
    split; [rewrite HT2; exact HTRAP | exact Hget].
Qed.

Lemma TIMSTR_late_halt (fuel : nat) (st st' : store) :
  DTI_of AMPL G DTST = Ok DTI ->
  TIMSTR' fuel st = Ok st' -> late_halt_rows' st'.
Proof.
  intros HDTI H. unfold TIMSTR in H. rewrite HDTI in H.
  rewrite (bind_eq (Ok _) _ _ eq_refl) in H. cbv beta zeta in H.
  bind_split H as st1 H1. bind_split H as st2 H2.
  eapply TIMSTR_loop_late_halt; [| | |exact H].
  - reflexivity.
  - left. split; reflexivity.
  - left. reflexivity.
Qed.

(** The difference between the subsidence of the last row and the thermal
    relaxation since the end of the stretching. *)
Lemma late_halt_difference (B_end B TRAP_end TRAP : R) :
  stretched B TRAP
  - relaxation_subsidence CONTRM TRAP_end TRAP (stretched B_end TRAP_end)
  = CONBET * (1 / B_end - 1 / B) * 1e-3.
Proof.
  unfold stretching_subsidence, relaxation_subsidence.
  destruct (decide (KRR = 0%nat)); lra.
Qed.

(** In regime 1 the last row is not the relaxation formula. *)
Lemma late_halt_differs (st : store) :
  late_halt_rows' st ->
  ITYPE = 1%Z -> CONBET <> 0 -> G <> 0 ->
  exists S TRAP b,
    (b = 1%nat \/ b = 2%nat) /\
    TRAP_of (TEM st) b DZ JNP1 = Ok TRAP /\
    fget (DATA st) 1 (K st - 1) = Ok S /\
    S - relaxation_subsidence CONTRM (TRINIT st) TRAP (SINIT st)
    = CONBET
      * (1 / exp (G * WWW_of KRR DTEND DTBEGX)
         - 1 / exp (G * WWW_of KRR DTHALT' DTBEGX))
      * 1e-3 /\
    S <> relaxation_subsidence CONTRM (TRINIT st) TRAP (SINIT st).
Proof.
  intros Hrows HI HC HG.
  destruct Hrows as (HK & _ & _ & _ & B_end & B & TRAP & b & HBe & HB & HS
                     & Hb & HTRAP & Hget).
  unfold BETAT_of in HBe, HB.
  rewrite (decide_True (P := (ITYPE = 1)%Z)) in HBe, HB by exact HI.
  injection HBe as <-. injection HB as <-.
  set (S := stretching_subsidence CONBET CONTRM KRR _ BETA1 TRAP * 1e-3)
    in Hget.
  assert (Hdiff : S - relaxation_subsidence CONTRM (TRINIT st) TRAP (SINIT st)
                  = CONBET
                    * (1 / exp (G * WWW_of KRR DTEND DTBEGX)
                       - 1 / exp (G * WWW_of KRR DTHALT' DTBEGX))
                    * 1e-3).
  { rewrite HS. apply late_halt_difference. }
  exists S, TRAP, b.
  split; [exact Hb|]. split; [exact HTRAP|]. split; [exact Hget|].
  split; [exact Hdiff|].
  intros E. rewrite E in Hdiff.
  assert (Hw : G * WWW_of KRR DTEND DTBEGX
               <> G * WWW_of KRR DTHALT' DTBEGX).
  { unfold WWW_of. destruct (decide (KRR = 0%nat)); nra. }
  pose proof (exp_over_exp _ _ Hw) as Hne. nra.
Qed.

End Recorded_rows.

(** The solver run inside a pass of the sweep of a single rift period. *)
Lemma sweep_body_single_run (fuel : nat) (p : params) (d : dless) (c : consts)
  (BETA1 : R) (f f' : forcing) (st st' : store) :
  IRIFT p = 1%Z ->
  sweep_body fuel p d c BETA1 f st = Ok (f', st') ->
  set_dless_constants fuel p d BETA1 f = Ok f' /\
  TIMSTR (AMPL f') (WAVEN f') (GP1 f') (DTEND1 d) (DTSTOP d) (DTAUS d)
    (CONBET c) (CONTRM c) (DTBEG2 d) (DTBEG3 d) (DTST d) (ITYPE1 p) IHFLW 0
    (IRIFT p) BETA1 (CONB1 c) (CONB2 c) fuel st = Ok st'.
Proof.
  intros HR H. unfold sweep_body in H. cbv zeta in H.
  bind_split H as f1 Hf1. bind_split H as st1 H1.
  rewrite (decide_False (P := (IRIFT p >= 2)%Z)) in H by (rewrite HR; lia).
  rewrite (bind_eq (Ok _) _ _ eq_refl) in H. cbv beta in H.
  rewrite (decide_False (P := (IRIFT p >= 3)%Z)) in H by (rewrite HR; lia).
  rewrite (bind_eq (Ok _) _ _ eq_refl) in H. cbv beta in H.
  injection H as <- <-. split; assumption.
Qed.


(** C1 (the code at the failing inputs).  Every pass of the loop of [TIMSTR]
    that adds a row writes in it the time of the step and the subsidence
    [SUBCAL] computes with the flag [IADV] of that pass: the formula of the
    stretching interval, times 1e-3, while [IADV] is 1, and the thermal
    relaxation [CONTRM*(TRINIT - TRAP)*1e-3 + SINIT] otherwise.  But [IADV]
    is cleared only when the step that follows the end of the stretching
    ends before the halt time.  When the halt time is within one step [DTI]
    of the end of the stretching, [DTEND < DTHALT <= DTEND + DTI], a run that
    returns has stepped from [DTEND] to [DTHALT] with the advection on, and
    its last two rows are the row of the time [DTEND], with the subsidence
    [SINIT], and the row of the time [DTHALT], after the stretching, whose
    subsidence is the formula of the stretching interval with the stretching
    factor [BETAT] of the time [DTHALT].  In regime 1 that value exceeds the
    relaxation formula of the specification by
    [CONBET*(1/exp(G*W_end) - 1/exp(G*W_halt))*1e-3], which is not zero
    when [CONBET] and [G] are not.  So it is for each pass of the beta sweep
    of a single rift period whose schedule has [DTSTOP] within one step of
    [DTEND1]. *)
Theorem stretching_formula_after_stretching :
  (forall AMPL WAVEN G DTEND DTSTOP DTAUS CONBET CONTRM DTBEGX DTBEGY DTST
          ITYPE IHFLW KRR IRIFT BETA1 CONB1 CONB2 DTI l st c,
     loop_body AMPL WAVEN G DTEND DTSTOP DTAUS CONBET CONTRM DTBEGX DTBEGY
       DTST ITYPE IHFLW KRR IRIFT BETA1 CONB1 CONB2 DTI l st = Ok c ->
     K (store_of c) <> K st ->
     K (store_of c) = (K st + 1)%nat /\
     fget (DATA (store_of c)) 0 (K st) = Ok (T l + DT l) /\
     exists b TRAP,
       TRAP_of (TEM (store_of c)) b DZ JNP1 = Ok TRAP /\
       ((IADV l = 1)%Z ->
        exists B,
          BETAT_of AMPL WAVEN ITYPE G DTEND DTAUS JSUBS
            (WWW_of KRR (T l + DT l) DTBEGX) = Ok (Some B) /\
          fget (DATA (store_of c)) 1 (K st)
          = Ok (stretching_subsidence CONBET CONTRM KRR B BETA1 TRAP * 1e-3)) /\
       ((IADV l <> 1)%Z ->
        fget (DATA (store_of c)) 1 (K st)
        = Ok (relaxation_subsidence CONTRM (TRINIT st) TRAP (SINIT st)))) /\
  (forall AMPL WAVEN G DTEND DTSTOP DTAUS CONBET CONTRM DTBEGX DTBEGY DTST
          ITYPE IHFLW KRR IRIFT BETA1 CONB1 CONB2 DTI fuel st st',
     DTI_of AMPL G DTST = Ok DTI ->
     DTEND < DTHALT DTSTOP DTBEGX DTBEGY KRR IRIFT <= DTEND + DTI ->
     TIMSTR AMPL WAVEN G DTEND DTSTOP DTAUS CONBET CONTRM DTBEGX DTBEGY DTST
       ITYPE IHFLW KRR IRIFT BETA1 CONB1 CONB2 fuel st = Ok st' ->
     late_halt_rows AMPL WAVEN G DTEND DTAUS CONBET CONTRM DTBEGX ITYPE KRR
       BETA1 (DTHALT DTSTOP DTBEGX DTBEGY KRR IRIFT) st' /\
     (ITYPE = 1%Z -> CONBET <> 0 -> G <> 0 ->
      exists S TRAP b,
        (b = 1%nat \/ b = 2%nat) /\
        TRAP_of (TEM st') b DZ JNP1 = Ok TRAP /\
        fget (DATA st') 1 (K st' - 1) = Ok S /\
        S - relaxation_subsidence CONTRM (TRINIT st') TRAP (SINIT st')
        = CONBET
          * (1 / exp (G * WWW_of KRR DTEND DTBEGX)
             - 1 / exp (G * WWW_of KRR
                          (DTHALT DTSTOP DTBEGX DTBEGY KRR IRIFT) DTBEGX))
          * 1e-3 /\
        S <> relaxation_subsidence CONTRM (TRINIT st') TRAP (SINIT st'))) /\
  (forall fuel p d c BETA1 f f' st st' DTI,
     IRIFT p = 1%Z -> ITYPE1 p = 1%Z ->
     sweep_body fuel p d c BETA1 f st = Ok (f', st') ->
     DTI_of (AMPL f') (GP1 f') (DTST d) = Ok DTI ->
     DTEND1 d < DTSTOP d <= DTEND1 d + DTI ->
     CONBET c <> 0 -> GP1 f' <> 0 ->
     fget (DATA st') 0 (K st' - 2) = Ok (DTEND1 d) /\
     fget (DATA st') 1 (K st' - 2) = Ok (SINIT st') /\
     fget (DATA st') 0 (K st' - 1) = Ok (DTSTOP d) /\
     exists S TRAP b,
       (b = 1%nat \/ b = 2%nat) /\
       TRAP_of (TEM st') b DZ JNP1 = Ok TRAP /\
       fget (DATA st') 1 (K st' - 1) = Ok S /\
       S - relaxation_subsidence (CONTRM c) (TRINIT st') TRAP (SINIT st')
       = CONBET c
         * (1 / exp (GP1 f' * DTEND1 d) - 1 / exp (GP1 f' * DTSTOP d))
         * 1e-3 /\
       S <> relaxation_subsidence (CONTRM c) (TRINIT st') TRAP (SINIT st')).
Proof.
  split; [|split].
  - intros AMPL WAVEN G DTEND DTSTOP DTAUS CONBET CONTRM DTBEGX DTBEGY DTST
      ITYPE IHFLW KRR IRIFT BETA1 CONB1 CONB2 DTI l st c H HK.
    apply (loop_body_subsidence _ _ _ _ _ _ _ _ _ _ _ _ _ _ _ _ _ _ _ _ _ _
             H HK).
  - intros AMPL WAVEN G DTEND DTSTOP DTAUS CONBET CONTRM DTBEGX DTBEGY DTST
      ITYPE IHFLW KRR IRIFT BETA1 CONB1 CONB2 DTI fuel st st' HDTI Hlate H.
    pose proof (TIMSTR_late_halt _ _ _ _ _ _ _ _ _ _ _ _ _ _ _ _ _ _ _ Hlate
                  _ _ _ HDTI H) as Hrows.
    split; [exact Hrows|].
    intros HI HC HG.
    apply (late_halt_differs _ _ _ _ _ _ _ _ _ _ _ _ _ _ _ Hlate _ Hrows
             HI HC HG).
  - intros fuel p d c BETA1 f f' st st' DTI HR HI H HDTI Hlate HC HG.
    destruct (sweep_body_single_run _ _ _ _ _ _ _ _ _ HR H) as [_ Hrun].
    rewrite HR, HI in Hrun.
    assert (Hl : DTEND1 d < DTHALT (DTSTOP d) (DTBEG2 d) (DTBEG3 d) 0 1
                 <= DTEND1 d + DTI)
      by (rewrite DTHALT_single; exact Hlate).
    pose proof (TIMSTR_late_halt _ _ _ _ _ _ _ _ _ _ _ _ _ _ _ _ _ _ _ Hl
                  _ _ _ HDTI Hrun) as Hrows.
    destruct (late_halt_differs _ _ _ _ _ _ _ _ _ _ _ _ _ _ _ Hl _ Hrows
                eq_refl HC HG) as (S & TRAP & b & Hb & HTRAP & Hget & Hd & Hne).
    destruct Hrows as (_ & Ht1 & Hs1 & Ht2 & _).
    rewrite DTHALT_single in Ht2, Hd.
    split; [exact Ht1|]. split; [exact Hs1|]. split; [exact Ht2|].
    exists S, TRAP, b. repeat (split; [assumption|]). exact Hne.
Qed.

(** The first pass of the sweep of the configuration [short_relaxation]:
    the final time is 0.5 Ma, less than one time step, after the end of the
    stretching. *)
Lemma short_relaxation_pass :
  exists TL d c f' st' DTI,
    calculate_TL short_relaxation = Ok TL /\
    nondimensionalise_parameters short_relaxation TL (g_dless globals0)
      = Ok d /\
    setup_constants short_relaxation TL d (g_consts globals0) = Ok c /\
    sweep_body 241 short_relaxation d c (BETMIN short_relaxation)
      {| GP1 := GP1 (g_forcing globals0); AMPL := 1; WAVEN := 1 |}
      initial_store = Ok (f', st') /\
    DTI_of (AMPL f') (GP1 f') (DTST d) = Ok DTI /\
    DTEND1 d < DTSTOP d <= DTEND1 d + DTI /\
    CONBET c <> 0 /\ GP1 f' <> 0.
Proof.
  destruct (calculate_TL_30000 short_relaxation eq_refl) as (TL & HTL & Hb).
  pose proof (TIMSC_30000 TL Hb) as Ht.
  destruct (nondimensionalise_Ok short_relaxation TL (g_dless globals0)
              ltac:(lra))
    as (d & Hd & HTS & H1 & _ & _ & Hstop & Hst & _).
  destruct (H1 ltac:(simpl; lia)) as [_ He1].
  rewrite <- HTS in Ht. simpl in He1, Hstop.
  assert (Hrho : RHOM * (1.0 - TEXPAN * TASTH) - RHOW <> 0)
    by (unfold RHOM, TEXPAN, TASTH, RHOW; lra).
  assert (Hc : exists c,
            setup_constants short_relaxation TL d (g_consts globals0) = Ok c /\
            CONBET c = (RHOM - RHOC) * 30000
                       / (RHOM * (1.0 - TEXPAN * TASTH) - RHOW)).
  { unfold setup_constants, py_div. simpl.
    assert (Hrs : RHOM * (1.0 - TEXPAN * TASTH) - 2.6 <> 0)
      by (unfold RHOM, TEXPAN, TASTH; lra).
    repeat (rewrite decide_False by exact Hrs; simpl). eauto. }
  destruct Hc as (c & Hc & HCB).
  assert (HE : 0.29 <= DTEND1 d <= 0.2954).
  { rewrite He1. replace (160 - 0.5) with 159.5 by lra.
    apply Rdiv_between; lra. }
  assert (HS : 0.29 <= DTSTOP d <= 0.297)
    by (rewrite Hstop; apply Rdiv_between; lra).
  assert (HT : 0.0018 <= DTST d <= 0.0019)
    by (rewrite Hst; apply Rdiv_between; lra).
  assert (Hgap : DTSTOP d - DTEND1 d = 0.5 / TIMSC d)
    by (rewrite Hstop, He1; field; lra).
  assert (Hgap' : 0.0009 <= 0.5 / TIMSC d <= 0.00093)
    by (apply Rdiv_between; lra).
  pose proof ln_one_half_pos as Hl1.
  pose proof (ln_below_one 1.5 ltac:(lra)) as Hl1'.
  assert (HG : 0 <= ln 1.5 / DTEND1 d <= 4) by (apply Rdiv_between; nra).
  destruct (DTI_regime1 _ (DTST d) 0.00125 4 HG ltac:(lra)
              ltac:(unfold DTC, DZ; lra) ltac:(lra)
              ltac:(unfold DZ; lra))
    as (DTI & HDTI & Hlo & Hhi).
  assert (Hup : DTI <= 0.00125).
  { pose proof (Rmin_l DTC (DTST d)). unfold DTC, DZ in *. lra. }
  destruct initial_store_cells as [Hd0 Ht0].
  set (f0 := {| GP1 := GP1 (g_forcing globals0); AMPL := 1; WAVEN := 1 |}).
  destruct (sweep_body_single 240 short_relaxation d c 1.5 f0 initial_store DTI
              eq_refl eq_refl ltac:(lra) ltac:(lra) HDTI
              ltac:(lra) ltac:(lra) ltac:(lra)
              ltac:(rewrite INR_IZR_INZ; change (Z.of_nat 240) with 240%Z; lra)
              Hd0 Ht0 ltac:(simpl; lia) ltac:(unfold NDIM2; simpl; lia))
    as (st' & Hbody & _).
  eexists TL, d, c, _, st', DTI.
  split; [exact HTL|]. split; [exact Hd|]. split; [exact Hc|].
  split; [apply (Hbody 241%nat); lia|].
  cbn [AMPL GP1 f0]. split; [exact HDTI|]. split; [lra|]. split.
  - rewrite HCB. unfold RHOM, RHOC, TEXPAN, TASTH, RHOW in *.
    intros E. apply Rmult_integral in E as [E|E]; [lra|].
    assert (Hinv : / (3.35 * (1.0 - 3.28e-5 * 1333.0) - 1.03) <> 0)
      by (apply Rinv_neq_0_compat; exact Hrho).
    contradiction.
  - intros E. apply Rmult_integral in E as [E|E]; [lra|].
    assert (Hinv : / DTEND1 d <> 0) by (apply Rinv_neq_0_compat; lra).
    contradiction.
Qed.

Lemma stretching_formula_after_stretching_witness :
  exists d c f' st' S TRAP b,
    sweep_body 241 short_relaxation d c (BETMIN short_relaxation)
      {| GP1 := GP1 (g_forcing globals0); AMPL := 1; WAVEN := 1 |}
      initial_store = Ok (f', st') /\
    fget (DATA st') 0 (K st' - 2) = Ok (DTEND1 d) /\
    fget (DATA st') 1 (K st' - 2) = Ok (SINIT st') /\
    fget (DATA st') 0 (K st' - 1) = Ok (DTSTOP d) /\
    DTEND1 d < DTSTOP d /\
    TRAP_of (TEM st') b DZ JNP1 = Ok TRAP /\
    fget (DATA st') 1 (K st' - 1) = Ok S /\
    S <> relaxation_subsidence (CONTRM c) (TRINIT st') TRAP (SINIT st').
Proof.
  destruct short_relaxation_pass
    as (TL & d & c & f' & st' & DTI & _ & _ & _ & Hbody & HDTI & Hlate & HC
        & HG).
  destruct (proj2 (proj2 stretching_formula_after_stretching)
              241%nat short_relaxation d c _ _ f' _ st' DTI eq_refl eq_refl
              Hbody HDTI Hlate HC HG)
    as (Ht1 & Hs1 & Ht2 & S & TRAP & b & _ & HTRAP & Hget & _ & Hne).
  exists d, c, f', st', S, TRAP, b.
  split; [exact Hbody|]. split; [exact Ht1|]. split; [exact Hs1|].
  split; [exact Ht2|]. split; [apply Hlate|]. split; [exact HTRAP|].
  split; [exact Hget | exact Hne].
Defined.

(** ** The last row of a solver run *)

Section Last_row.

Variables (AMPL WAVEN : R).
Variables (G DTEND DTSTOP DTAUS CONBET CONTRM DTBEGX DTBEGY DTST : R).
Variables (ITYPE IHFLW : Z) (KRR : nat) (IRIFT : Z).
Variables (BETA1 CONB1 CONB2 : R).

Local Abbreviation DTHALT' := (DTHALT DTSTOP DTBEGX DTBEGY KRR IRIFT).
Local Abbreviation loop_body' :=
  (loop_body AMPL WAVEN G DTEND DTSTOP DTAUS CONBET CONTRM DTBEGX DTBEGY DTST
     ITYPE IHFLW KRR IRIFT BETA1 CONB1 CONB2).
Local Abbreviation TIMSTR_loop' :=
  (TIMSTR_loop AMPL WAVEN G DTEND DTSTOP DTAUS CONBET CONTRM DTBEGX DTBEGY DTST
     ITYPE IHFLW KRR IRIFT BETA1 CONB1 CONB2).
Local Abbreviation TIMSTR' :=
  (TIMSTR AMPL WAVEN G DTEND DTSTOP DTAUS CONBET CONTRM DTBEGX DTBEGY DTST
     ITYPE IHFLW KRR IRIFT BETA1 CONB1 CONB2).

Variable DTI : R.
Hypothesis HDTI : 0 < DTI.
Hypothesis Hhalt : DTEND <= DTHALT'.



End Last_row.

(** ** The first pass of the beta sweep *)







